(** * rboxer: route boxes around a polyline

    A shallow embedding of [mkBox] (src/index.js) and of the bundled
    Leaflet primitives and RouteBoxer it drives (LatLng, LatLngBounds,
    L.RouteBoxer, the rhumb-line helpers), followed by the properties
    the specification states about them.

    - Numbers.  JavaScript numbers are IEEE 754 binary64 values.  They
      are modelled by [spec_float] with precision 53 and maximal
      exponent 1024, on which addition, subtraction, multiplication,
      division and comparison are the correctly rounded operations of
      the standard.  The functions of [Math] that ECMAScript leaves
      implementation-approximated (cos, sin, tan, log, atan2) are fields
      of an [Engine]; the properties hold for every engine, and the
      examples are evaluated with the reference engine [RefMath.engine].
      The conversion of a string to a number is [StrToNumber], written
      after the grammar and the algorithm of the standard.
    - Effects.  A computation is a function of the world, which is the
      store of the caller's arrays and the [L.RouteBoxer] singleton with
      its five mutable fields.  It returns, throws, or runs out of the
      allotted iterations of the grid-building loops, the only loops
      that need not end.
    - Objects.  A [LatLngBounds] owns its two corners ([extend] copies
      the point it is first given), so boxes are values; the arrays of
      the grid keep their JavaScript behaviour on indices out of range.
      [mkBox] returns its boxes as a value; [mkBox_in_store] is [mkBox]
      with the arrays it makes placed in the store of the caller's
      arrays, where a write can reach any array. *)

From Stdlib Require Import ZArith List Bool Lia String Ascii.
From Stdlib Require Import Floats.SpecFloat.
From stdpp Require Import gmap.

Local Open Scope Z_scope.

(** ** Numbers *)

Definition prec : Z := 53.
Definition emax : Z := 1024.

Abbreviation num := spec_float.

Definition NaN : num := S754_nan.
Definition pzero : num := S754_zero false.

Definition add : num -> num -> num := SFadd prec emax.
Definition sub : num -> num -> num := SFsub prec emax.
Definition mul : num -> num -> num := SFmul prec emax.
Definition div : num -> num -> num := SFdiv prec emax.

(** The relational operators [<], [>], [<=] and [===] on numbers. *)
Definition lt (a b : num) : bool := SFltb a b.
Definition gt (a b : num) : bool := SFltb b a.
Definition le (a b : num) : bool := SFleb a b.
Definition seq_num (a b : num) : bool := SFeqb a b.

Definition isNaN (a : num) : bool :=
  match a with S754_nan => true | _ => false end.

(** An integer, and a quotient of integers, rounded to the nearest number
    (ties to even): the value of a decimal literal of the source. *)
Definition Z2num (z : Z) : num := binary_normalize prec emax z 0 false.

Definition Q2num (p : Z) (q : positive) : num :=
  match p with
  | Z0 => pzero
  | _ =>
      let a := Z.abs p in
      let k := Z.max 0 (64 + Z.log2 (Zpos q) - Z.log2 a) in
      let a' := Z.shiftl a k in
      let m := a' / Zpos q in
      let r := a' mod Zpos q in
      let m' := 2 * m + (if r =? 0 then 0 else 1) in
      binary_normalize prec emax (if p <? 0 then - m' else m') (- k - 1) false
  end.

(** [dec n k] is the literal n * 10^-k. *)
Definition dec (n : Z) (k : nat) : num := Q2num n (Z.to_pos (10 ^ Z.of_nat k)).

(** [Math.PI]: 0x400921FB54442D18. *)
Definition Math_PI : num := S754_finite false 7074237752028440 (-51).

Definition Math_abs (a : num) : num := SFabs a.

Definition Math_min (a b : num) : num :=
  match a, b with
  | S754_nan, _ | _, S754_nan => S754_nan
  | S754_zero sa, S754_zero sb => S754_zero (sa || sb)
  | _, _ => if lt b a then b else a
  end.

Definition Math_max (a b : num) : num :=
  match a, b with
  | S754_nan, _ | _, S754_nan => S754_nan
  | S754_zero sa, S754_zero sb => S754_zero (sa && sb)
  | _, _ => if lt a b then b else a
  end.

(** The [%] operator: the remainder of the truncating division, exact,
    with the sign of the dividend. *)
Definition rem (n d : num) : num :=
  match n, d with
  | S754_nan, _ | _, S754_nan => S754_nan
  | S754_infinity _, _ => S754_nan
  | _, S754_zero _ => S754_nan
  | _, S754_infinity _ => n
  | S754_zero _, _ => n
  | S754_finite sn mn en, S754_finite _ md ed =>
      let e := Z.min en ed in
      let N := Z.shiftl (Zpos mn) (en - e) in
      let D := Z.shiftl (Zpos md) (ed - e) in
      let R := Z.rem N D in
      if R =? 0 then S754_zero sn
      else binary_normalize prec emax (if sn then - R else R) e false
  end.

(** [parseFloat] applied to a number: the number is printed and read
    again, which loses only the sign of a zero. *)
Definition parseFloat (a : num) : num :=
  match a with S754_zero _ => pzero | _ => a end.

(** [Number.prototype.toRad], [toDeg]. *)
Definition toRad (a : num) : num := div (mul a Math_PI) (Z2num 180).
Definition toDeg (a : num) : num := div (mul a (Z2num 180)) Math_PI.

(** [toBrng] is [(this.toDeg() + 360) % 360]. *)
Definition toBrng (a : num) : num := rem (add (toDeg a) (Z2num 360)) (Z2num 360).

(** ** Strings as numbers

    [StringToNumber] of ECMA-262 (7.1.4.1.1), the conversion behind the
    unary [+] and the global [isNaN] when the operand is a string.  A
    string is a sequence of code units; those of [string] are the code
    units below 256, so that of the white space of the standard TAB, LF,
    VT, FF, CR, SP and NBSP can occur.  The value of a decimal literal
    is rounded to the nearest number, ties to even, which the standard
    requires of literals of 20 significant digits or fewer and allows
    of longer ones. *)

Definition code (c : ascii) : Z := Z.of_nat (nat_of_ascii c).

(** StrWhiteSpaceChar *)
Definition is_space (c : ascii) : bool :=
  ((9 <=? code c) && (code c <=? 13)) || (code c =? 32) || (code c =? 160).

(** The value of a digit, hexadecimal digits included. *)
Definition digit_of (c : ascii) : option Z :=
  let n := code c in
  if (48 <=? n) && (n <=? 57) then Some (n - 48)
  else if (97 <=? n) && (n <=? 102) then Some (n - 87)
  else if (65 <=? n) && (n <=? 70) then Some (n - 55)
  else None.

Definition is_digit (base : Z) (c : ascii) : bool :=
  match digit_of c with Some d => d <? base | None => false end.

Definition digits_value (base : Z) (l : list ascii) : Z :=
  fold_left (fun acc c => base * acc + default 0 (digit_of c)) l 0.

Definition nonempty {A} (l : list A) : bool :=
  match l with [] => false | _ => true end.

(** The longest prefix of characters that satisfy [p], and the rest. *)
Fixpoint span (p : ascii -> bool) (l : list ascii) : list ascii * list ascii :=
  match l with
  | c :: l' => if p c then let '(a, b) := span p l' in (c :: a, b) else ([], l)
  | [] => ([], [])
  end.

(** Where [span] stops: at the end, or at a character that does not
    satisfy [p]. *)
Definition stops (p : ascii -> bool) (l : list ascii) : Prop :=
  match l with c :: _ => p c = false | [] => True end.

(** The string without the white space at its two ends. *)
Fixpoint drop_spaces (l : list ascii) : list ascii :=
  match l with
  | c :: l' => if is_space c then drop_spaces l' else l
  | [] => []
  end.

Fixpoint drop_spaces_end (l : list ascii) : list ascii :=
  match l with
  | c :: l' =>
      match drop_spaces_end l' with
      | [] => if is_space c then [] else [c]
      | t => c :: t
      end
  | [] => []
  end.

Definition trim (l : list ascii) : list ascii := drop_spaces_end (drop_spaces l).

(** ExponentPart, or nothing: the power of ten. *)
Definition exponent (l : list ascii) : option Z :=
  match l with
  | [] => Some 0
  | c :: r =>
      if Ascii.eqb c "e" || Ascii.eqb c "E" then
        let '(sgn, d) :=
          match r with
          | s :: d => if Ascii.eqb s "+" then (1, d)
                      else if Ascii.eqb s "-" then (-1, d) else (1, r)
          | [] => (1, r)
          end in
        if nonempty d && forallb (is_digit 10) d then Some (sgn * digits_value 10 d) else None
      else None
  end.

(** The digits and the power of ten of a StrUnsignedDecimalLiteral other
    than [Infinity]: [(m, e)] stands for m * 10^e. *)
Definition decimal_parts (u : list ascii) : option (Z * Z) :=
  let '(i, r) := span (is_digit 10) u in
  match r with
  | c :: r' =>
      if Ascii.eqb c "." then
        let '(f, r'') := span (is_digit 10) r' in
        if nonempty i || nonempty f then
          match exponent r'' with
          | Some e => Some (digits_value 10 (i ++ f), e - Z.of_nat (length f))
          | None => None
          end
        else None
      else if nonempty i then
        match exponent r with Some e => Some (digits_value 10 i, e) | None => None end
      else None
  | [] => if nonempty i then Some (digits_value 10 i, 0) else None
  end.

(** m * 10^e, rounded. *)
Definition scale10 (m e : Z) : num :=
  if 0 <=? e then Z2num (m * 10 ^ e) else Q2num m (Z.to_pos (10 ^ (- e))).

Definition Infinity_chars : list ascii := list_ascii_of_string "Infinity".

Definition unsigned_decimal (u : list ascii) : num :=
  if bool_decide (u = Infinity_chars) then S754_infinity false
  else match decimal_parts u with Some (m, e) => scale10 m e | None => NaN end.

(** StrDecimalLiteral *)
Definition decimal (l : list ascii) : num :=
  match l with
  | c :: u =>
      if Ascii.eqb c "+" then unsigned_decimal u
      else if Ascii.eqb c "-" then SFopp (unsigned_decimal u)
      else unsigned_decimal l
  | [] => NaN
  end.

(** NonDecimalIntegerLiteral: [0b], [0o] or [0x] and digits of the base. *)
Definition radix (c : ascii) : option Z :=
  if Ascii.eqb c "b" || Ascii.eqb c "B" then Some 2
  else if Ascii.eqb c "o" || Ascii.eqb c "O" then Some 8
  else if Ascii.eqb c "x" || Ascii.eqb c "X" then Some 16
  else None.

Definition nondecimal (l : list ascii) : option num :=
  match l with
  | z :: c :: ds =>
      if Ascii.eqb z "0" then
        match radix c with
        | Some b =>
            if nonempty ds && forallb (is_digit b) ds then Some (Z2num (digits_value b ds))
            else None
        | None => None
        end
      else None
  | _ => None
  end.

Definition StrToNumber (s : string) : num :=
  match trim (list_ascii_of_string s) with
  | [] => pzero
  | b => match nondecimal b with Some x => x | None => decimal b end
  end.

(** The grammar of the standard, for the strings that [StrToNumber] does
    not make NaN. *)
Definition DecimalDigits (l : list ascii) : Prop :=
  l <> [] /\ Forall (fun c => is_digit 10 c = true) l.

Inductive SignedInteger : list ascii -> Prop :=
| signed_none d : DecimalDigits d -> SignedInteger d
| signed_plus d : DecimalDigits d -> SignedInteger ("+"%char :: d)
| signed_minus d : DecimalDigits d -> SignedInteger ("-"%char :: d).

Inductive ExponentPart : list ascii -> Prop :=
| exponent_e d : SignedInteger d -> ExponentPart ("e"%char :: d)
| exponent_E d : SignedInteger d -> ExponentPart ("E"%char :: d).

Inductive StrUnsignedDecimalLiteral : list ascii -> Prop :=
| unsigned_Infinity : StrUnsignedDecimalLiteral Infinity_chars
| unsigned_point i f e :
    DecimalDigits i -> f = [] \/ DecimalDigits f -> e = [] \/ ExponentPart e ->
    StrUnsignedDecimalLiteral (i ++ "."%char :: f ++ e)
| unsigned_fraction f e :
    DecimalDigits f -> e = [] \/ ExponentPart e ->
    StrUnsignedDecimalLiteral ("."%char :: f ++ e)
| unsigned_integer i e :
    DecimalDigits i -> e = [] \/ ExponentPart e ->
    StrUnsignedDecimalLiteral (i ++ e).

Inductive StrDecimalLiteral : list ascii -> Prop :=
| decimal_unsigned u : StrUnsignedDecimalLiteral u -> StrDecimalLiteral u
| decimal_plus u : StrUnsignedDecimalLiteral u -> StrDecimalLiteral ("+"%char :: u)
| decimal_minus u : StrUnsignedDecimalLiteral u -> StrDecimalLiteral ("-"%char :: u).

Inductive NonDecimalIntegerLiteral : list ascii -> Prop :=
| nondecimal_binary c ds :
    c = "b"%char \/ c = "B"%char -> ds <> [] -> Forall (fun d => is_digit 2 d = true) ds ->
    NonDecimalIntegerLiteral ("0"%char :: c :: ds)
| nondecimal_octal c ds :
    c = "o"%char \/ c = "O"%char -> ds <> [] -> Forall (fun d => is_digit 8 d = true) ds ->
    NonDecimalIntegerLiteral ("0"%char :: c :: ds)
| nondecimal_hex c ds :
    c = "x"%char \/ c = "X"%char -> ds <> [] -> Forall (fun d => is_digit 16 d = true) ds ->
    NonDecimalIntegerLiteral ("0"%char :: c :: ds).

(** StringNumericLiteral: white space, or a literal within white space. *)
Definition StringNumericLiteral (l : list ascii) : Prop :=
  exists a b c,
    l = a ++ b ++ c
    /\ Forall (fun x => is_space x = true) a /\ Forall (fun x => is_space x = true) c
    /\ (b = [] \/ StrDecimalLiteral b \/ NonDecimalIntegerLiteral b).

(** The host's approximations of the transcendental functions, and its
    conversion of strings to numbers, which is [StrToNumber] in a host
    that follows the standard. *)
Record Engine := {
  Math_cos : num -> num;
  Math_sin : num -> num;
  Math_tan : num -> num;
  Math_log : num -> num;
  Math_atan2 : num -> num -> num;
  StringToNumber : string -> num
}.


(** ** A reference engine

    One admissible [Engine]: every function is evaluated in fixed-point
    arithmetic with [FB] fractional bits and the result rounded to the
    nearest number, with the special values ECMAScript prescribes. *)

Module RefMath.

Definition FB : Z := 200.
Definition one : Z := Z.shiftl 1 FB.

Definition fxmul (a b : Z) : Z := Z.shiftr (a * b) FB.
Definition fxdiv (a b : Z) : Z := Z.shiftl a FB / b.

Definition to_fix (x : num) : Z :=
  match x with
  | S754_finite s m e => cond_Zopp s (Z.shiftl (Zpos m) (e + FB))
  | _ => 0
  end.

Definition of_fix (z : Z) : num := binary_normalize prec emax z (- FB) false.

(** The sum of t / (k+1) - t q / (k+3) + t q^2 / (k+5) - ..., the series
    of the arc tangent ([alt = true]) and, without the alternation, of
    the inverse hyperbolic tangent. *)
Fixpoint odd_series (fuel : nat) (alt : bool) (q t : Z) (k : Z) (acc : Z) : Z :=
  match fuel with
  | O => acc
  | S fuel' =>
      if t =? 0 then acc
      else
        let t' := fxmul t q in
        odd_series fuel' alt q (if alt then - t' else t') (k + 2) (acc + t / k)
  end.

Definition atan_fix (t : Z) : Z := odd_series 400 true (fxmul t t) t 1 0.
Definition atanh_fix (t : Z) : Z := odd_series 400 false (fxmul t t) t 1 0.

(** Machin's formula. *)
Definition pi_fix : Z :=
  Eval vm_compute in (16 * atan_fix (one / 5) - 4 * atan_fix (one / 239)).

Definition ln2_fix : Z := Eval vm_compute in (2 * atanh_fix (one / 3)).

(** acc + t - t q/(k(k+1)) + t q^2/(k(k+1)(k+2)(k+3)) - ... *)
Fixpoint trig_series (fuel : nat) (q t : Z) (k : Z) (acc : Z) : Z :=
  match fuel with
  | O => acc
  | S fuel' =>
      if t =? 0 then acc
      else trig_series fuel' q (- (fxmul t q / (k * (k + 1)))) (k + 2) (acc + t)
  end.

(** Reduction of an angle into [-pi, pi). *)
Definition reduce (x : Z) : Z := (x + pi_fix) mod (2 * pi_fix) - pi_fix.

Definition sin_fix (x : Z) : Z := let r := reduce x in trig_series 200 (fxmul r r) r 2 0.
Definition cos_fix (x : Z) : Z := let r := reduce x in trig_series 200 (fxmul r r) one 1 0.

(** Below 2^-40 the sine and the tangent round to their argument. *)
Definition tiny (x : num) : bool :=
  match x with
  | S754_finite _ m e => Z.log2 (Zpos m) + e <? -40
  | _ => false
  end.

Definition cos (x : num) : num :=
  match x with
  | S754_nan | S754_infinity _ => NaN
  | S754_zero _ => Z2num 1
  | _ => of_fix (cos_fix (to_fix x))
  end.

Definition sin (x : num) : num :=
  match x with
  | S754_nan | S754_infinity _ => NaN
  | S754_zero _ => x
  | _ => if tiny x then x else of_fix (sin_fix (to_fix x))
  end.

Definition tan (x : num) : num :=
  match x with
  | S754_nan | S754_infinity _ => NaN
  | S754_zero _ => x
  | _ =>
      if tiny x then x
      else
        let c := cos_fix (to_fix x) in
        if c =? 0 then S754_infinity false
        else of_fix (fxdiv (sin_fix (to_fix x)) c)
  end.

Definition log (x : num) : num :=
  match x with
  | S754_nan => NaN
  | S754_zero _ => S754_infinity true
  | S754_infinity false => x
  | S754_infinity true | S754_finite true _ _ => NaN
  | S754_finite false m e =>
      let d := Z.log2 (Zpos m) in
      (* x = f * 2^k with f in [1, 2) *)
      let f := Z.shiftl (Zpos m) (FB - d) in
      let k := e + d in
      let '(f, k) := if 3 * one <? 2 * f then (f / 2, k + 1) else (f, k) in
      of_fix (k * ln2_fix + 2 * atanh_fix (fxdiv (f - one) (f + one)))
  end.

(** The arc tangent of a ratio in [0, 1], after three halvings of the
    angle. *)
Definition half_angle (t : Z) : Z :=
  fxdiv t (one + Z.sqrt (Z.shiftl (one + fxmul t t) FB)).

Definition atan01 (t : Z) : Z := 8 * atan_fix (half_angle (half_angle (half_angle t))).

Definition sign_of (x : num) : bool :=
  match x with
  | S754_zero s | S754_infinity s | S754_finite s _ _ => s
  | S754_nan => false
  end.

Definition with_sign (s : bool) (z : Z) : num := of_fix (if s then - z else z).

Definition atan2 (y x : num) : num :=
  match y, x with
  | S754_nan, _ | _, S754_nan => NaN
  | S754_zero sy, _ => if sign_of x then with_sign sy pi_fix else y
  | _, S754_zero _ => with_sign (sign_of y) (pi_fix / 2)
  | S754_infinity sy, S754_infinity sx =>
      with_sign sy (if sx then 3 * pi_fix / 4 else pi_fix / 4)
  | S754_infinity sy, _ => with_sign sy (pi_fix / 2)
  | S754_finite sy _ _, S754_infinity sx =>
      if sx then with_sign sy pi_fix else S754_zero sy
  | S754_finite sy my ey, S754_finite sx mx ex =>
      let e := Z.min ey ex in
      let Y := Z.shiftl (Zpos my) (ey - e) in
      let X := Z.shiftl (Zpos mx) (ex - e) in
      if andb (negb sx) (Z.shiftl Y 60 <? X) then div y x
      else
        let a := if Y <=? X then atan01 (Z.shiftl Y FB / X)
                 else pi_fix / 2 - atan01 (Z.shiftl X FB / Y) in
        with_sign sy (if sx then pi_fix - a else a)
  end.

Definition engine : Engine :=
  {| Math_cos := cos; Math_sin := sin; Math_tan := tan; Math_log := log;
     Math_atan2 := atan2; StringToNumber := StrToNumber |}.

End RefMath.


(** ** Values, errors and the world

    A coordinate handed to the [LatLng] constructor is any primitive
    value (an object would be converted by its own [valueOf] or
    [toString], code that is not of this program).  The caller's [pts]
    array and the coordinate arrays it holds
    are objects of a store; the [L.RouteBoxer] singleton is the other
    half of the world, shared by all calls. *)

Inductive jsprim :=
| PUndefined
| PNull
| PBool (b : bool)
| PNum (x : num)
| PStr (s : string)
| PBigInt (z : Z)
| PSymbol.

Inductive jserror :=
| InvalidLatLng (lat lng : jsprim)   (* Error('Invalid LatLng object: (lat, lng)') *)
| TypeError.                         (* a property read or written on undefined or
                                        null; a BigInt or a Symbol converted to a
                                        number; a Symbol converted to a string *)

(** What a computation comes to: a value, an exception, or no answer
    within the allotted number of loop iterations. *)
Inductive outcome (A : Type) :=
| Ok (a : A)
| Throw (e : jserror)
| Diverge.
Arguments Ok {A} a.
Arguments Throw {A} e.
Arguments Diverge {A}.

#[global] Instance outcome_ret : MRet outcome := fun A a => Ok a.
#[global] Instance outcome_bind : MBind outcome := fun A B f m =>
  match m with Ok a => f a | Throw e => Throw e | Diverge => Diverge end.

Record LatLng := { lat : num; lng : num }.

Record LatLngBounds := {
  _southWest : option LatLng;
  _northEast : option LatLng
}.

(** A JavaScript array of marks: its [length] and the keys that hold 1.
    A key below 0 is an ordinary property and leaves the length alone; a
    key at or beyond the length extends the array. *)
Record jsarray := { alength : Z; marks : gset Z }.

Definition loc := positive.

Record Store := {
  arrays : gmap loc (list loc);     (* arrays of references to coordinate arrays *)
  pairs : gmap loc (list jsprim)    (* coordinate arrays *)
}.

Record RouteBoxer := {
  grid_ : option (list jsarray);
  latGrid_ : list num;
  lngGrid_ : list num;
  boxesX_ : list LatLngBounds;
  boxesY_ : list LatLngBounds
}.

Record World := { store : Store; routeBoxer : RouteBoxer }.

Definition M (A : Type) : Type := World -> outcome A * World.

#[global] Instance M_ret : MRet M := fun A a w => (Ok a, w).
#[global] Instance M_bind : MBind M := fun A B f m w =>
  match m w with
  | (Ok a, w') => f a w'
  | (Throw e, w') => (Throw e, w')
  | (Diverge, w') => (Diverge, w')
  end.

Definition throw {A} (e : jserror) : M A := fun w => (Throw e, w).
Definition diverge {A} : M A := fun w => (Diverge, w).
Definition lift {A} (r : outcome A) : M A := fun w => (r, w).
Definition get {A} (f : RouteBoxer -> A) : M A := fun w => (Ok (f (routeBoxer w)), w).
Definition modify (f : RouteBoxer -> RouteBoxer) : M unit :=
  fun w => (Ok tt, {| store := store w; routeBoxer := f (routeBoxer w) |}).
Definition load {A} (f : Store -> A) : M A := fun w => (Ok (f (store w)), w).

Definition set_grid_ v (r : RouteBoxer) :=
  {| grid_ := v; latGrid_ := latGrid_ r; lngGrid_ := lngGrid_ r;
     boxesX_ := boxesX_ r; boxesY_ := boxesY_ r |}.
Definition set_latGrid_ v (r : RouteBoxer) :=
  {| grid_ := grid_ r; latGrid_ := v; lngGrid_ := lngGrid_ r;
     boxesX_ := boxesX_ r; boxesY_ := boxesY_ r |}.
Definition set_lngGrid_ v (r : RouteBoxer) :=
  {| grid_ := grid_ r; latGrid_ := latGrid_ r; lngGrid_ := v;
     boxesX_ := boxesX_ r; boxesY_ := boxesY_ r |}.
Definition set_boxesX_ v (r : RouteBoxer) :=
  {| grid_ := grid_ r; latGrid_ := latGrid_ r; lngGrid_ := lngGrid_ r;
     boxesX_ := v; boxesY_ := boxesY_ r |}.
Definition set_boxesY_ v (r : RouteBoxer) :=
  {| grid_ := grid_ r; latGrid_ := latGrid_ r; lngGrid_ := lngGrid_ r;
     boxesX_ := boxesX_ r; boxesY_ := v |}.

(** [a[i]] for an integer i: [None] is [undefined]. *)
Definition index {A} (a : list A) (i : Z) : option A :=
  if i <? 0 then None else a !! Z.to_nat i.

(** A comparison with [undefined] is false. *)
Definition lt_undef (a : option num) (b : num) : bool :=
  match a with Some x => lt x b | None => false end.
Definition gt_undef (a : option num) (b : num) : bool :=
  match a with Some x => gt x b | None => false end.

Definition of_index (a : option num) : jsprim :=
  match a with Some x => PNum x | None => PUndefined end.

(** Successive integers, upwards and downwards. *)
Fixpoint upto (n : nat) (i : Z) : list Z :=
  match n with O => [] | S n' => i :: upto n' (i + 1) end.
Fixpoint downto (n : nat) (i : Z) : list Z :=
  match n with O => [] | S n' => i :: downto n' (i - 1) end.

Fixpoint forM_ {A} (l : list A) (f : A -> M unit) : M unit :=
  match l with
  | [] => mret tt
  | a :: l' => f a ;; forM_ l' f
  end.

Fixpoint mapM {A B} (f : A -> M B) (l : list A) : M (list B) :=
  match l with
  | [] => mret []
  | a :: l' => b ← f a; bs ← mapM f l'; mret (b :: bs)
  end.

(** ** The program *)

Section Program.

Variable E : Engine.

(** The unary [+] and the global [isNaN] convert their operand first,
    which throws a TypeError for a BigInt and for a Symbol. *)
Definition ToNumber (v : jsprim) : outcome num :=
  match v with
  | PUndefined => Ok NaN
  | PNull => Ok pzero
  | PBool b => Ok (if b then Z2num 1 else pzero)
  | PNum x => Ok x
  | PStr s => Ok (StringToNumber E s)
  | PBigInt _ | PSymbol => Throw TypeError
  end.

(** The global [isNaN]. *)
Definition global_isNaN (v : jsprim) : outcome bool :=
  x ← ToNumber v; mret (isNaN x).

(** An operand of the [+] that builds the message of the error is
    converted to a string, which throws a TypeError for a Symbol. *)
Definition in_message (v : jsprim) : outcome unit :=
  match v with PSymbol => Throw TypeError | _ => Ok tt end.

(** [new LatLng(lat, lng)]: the [||] of the test does not evaluate
    [isNaN(lng)] when [isNaN(lat)] is true. *)
Definition new_LatLng (lat lng : jsprim) : outcome LatLng :=
  a ← global_isNaN lat;
  b ← (if a : bool then mret true else global_isNaN lng);
  if b : bool then
    in_message lat;; in_message lng;; Throw (InvalidLatLng lat lng)
  else
    x ← ToNumber lat; y ← ToNumber lng; mret {| lat := x; lng := y |}.

(** [LatLngBounds.prototype.extend] with a [LatLng] argument. *)
Definition extend (this : LatLngBounds) (obj : LatLng) : outcome LatLngBounds :=
  match _southWest this, _northEast this with
  | None, None =>
      sw ← new_LatLng (PNum (lat obj)) (PNum (lng obj));
      ne ← new_LatLng (PNum (lat obj)) (PNum (lng obj));
      mret {| _southWest := Some sw; _northEast := Some ne |}
  | Some sw, Some ne =>
      mret {| _southWest := Some {| lat := Math_min (lat obj) (lat sw);
                                    lng := Math_min (lng obj) (lng sw) |};
              _northEast := Some {| lat := Math_max (lat obj) (lat ne);
                                    lng := Math_max (lng obj) (lng ne) |} |}
  | _, _ => Throw TypeError
  end.

(** [new LatLngBounds([])] and [new LatLngBounds(corner1, corner2)]. *)
Definition empty_bounds : LatLngBounds :=
  {| _southWest := None; _northEast := None |}.

Definition new_LatLngBounds (corner1 corner2 : LatLng) : outcome LatLngBounds :=
  b ← extend empty_bounds corner1; extend b corner2.

Definition getSouthWest (this : LatLngBounds) : outcome LatLng :=
  match _southWest this with Some p => Ok p | None => Throw TypeError end.
Definition getNorthEast (this : LatLngBounds) : outcome LatLng :=
  match _northEast this with Some p => Ok p | None => Throw TypeError end.

Definition getCenter (this : LatLngBounds) : outcome LatLng :=
  sw ← getSouthWest this;
  ne ← getNorthEast this;
  new_LatLng (PNum (div (add (lat sw) (lat ne)) (Z2num 2)))
             (PNum (div (add (lng sw) (lng ne)) (Z2num 2))).

(** [rhumbDestinationPoint]: [None] is the [null] it returns when the
    result is not a number. *)
Definition rhumbDestinationPoint (this : LatLng) (brng dist : num)
  : outcome (option LatLng) :=
  let R := Z2num 6371 in
  let d := div (parseFloat dist) R in
  let lat1 := toRad (lat this) in
  let lon1 := toRad (lng this) in
  let brng := toRad brng in
  let lat2 := add lat1 (mul d (Math_cos E brng)) in
  let dLat := sub lat2 lat1 in
  let dPhi := Math_log E (div (Math_tan E (add (div lat2 (Z2num 2)) (div Math_PI (Z2num 4))))
                              (Math_tan E (add (div lat1 (Z2num 2)) (div Math_PI (Z2num 4))))) in
  let q := if gt (Math_abs dLat) (dec 1 10) then div dLat dPhi else Math_cos E lat1 in
  let dLon := div (mul d (Math_sin E brng)) q in
  let lat2 :=
    if gt (Math_abs lat2) (div Math_PI (Z2num 2))
    then if gt lat2 pzero then sub Math_PI lat2 else SFopp (sub Math_PI lat2)
    else lat2 in
  let lon2 := sub (rem (add (add lon1 dLon) Math_PI) (mul (Z2num 2) Math_PI)) Math_PI in
  if isNaN lat2 || isNaN lon2 then Ok None
  else p ← new_LatLng (PNum (toDeg lat2)) (PNum (toDeg lon2)); mret (Some p).

Definition rhumbBearingTo (this dest : LatLng) : num :=
  let dLon := toRad (sub (lng dest) (lng this)) in
  let dPhi := Math_log E (div (Math_tan E (add (div (toRad (lat dest)) (Z2num 2)) (div Math_PI (Z2num 4))))
                              (Math_tan E (add (div (toRad (lat this)) (Z2num 2)) (div Math_PI (Z2num 4))))) in
  let dLon :=
    if gt (Math_abs dLon) Math_PI
    then if gt dLon pzero then SFopp (sub (mul (Z2num 2) Math_PI) dLon)
         else add (mul (Z2num 2) Math_PI) dLon
    else dLon in
  toBrng (Math_atan2 E dLon dPhi).

(** A property read on what may be [null]. *)
Definition deref {A} (p : option A) : outcome A :=
  match p with Some a => Ok a | None => Throw TypeError end.

(** *** L.RouteBoxer *)

Inductive axis := Lat | Lng.

Definition coord (a : axis) (p : LatLng) : num :=
  match a with Lat => lat p | Lng => lng p end.
Definition grid_of (a : axis) : RouteBoxer -> list num :=
  match a with Lat => latGrid_ | Lng => lngGrid_ end.
Definition set_grid_of (a : axis) : list num -> RouteBoxer -> RouteBoxer :=
  match a with Lat => set_latGrid_ | Lng => set_lngGrid_ end.

Definition push (a : axis) (x : num) : M unit :=
  modify (fun r => set_grid_of a (grid_of a r ++ [x]) r).
Definition unshift (a : axis) (x : num) : M unit :=
  modify (fun r => set_grid_of a (x :: grid_of a r) r).

(** [center.rhumbDestinationPoint(brng, dist).lat] (or [.lng]). *)
Definition line (a : axis) (center : LatLng) (brng dist : num) : M num :=
  p ← lift (rhumbDestinationPoint center brng dist);
  p ← lift (deref p);
  mret (coord a p).

(** [for (i = 2; this.latGrid_[i - 2] < routeBounds.getNorthEast().lat; i++)
       this.latGrid_.push(routeBoundsCenter.rhumbDestinationPoint(0, range * i).lat)]
    and the same loop on the longitudes. *)
Fixpoint grow_up (fuel : nat) (a : axis) (center : LatLng) (bounds : LatLngBounds)
    (brng range : num) (i : Z) : M unit :=
  match fuel with
  | O => diverge
  | S fuel' =>
      g ← get (grid_of a);
      ne ← lift (getNorthEast bounds);
      if lt_undef (index g (i - 2)) (coord a ne) then
        x ← line a center brng (mul range (Z2num i));
        push a x;;
        grow_up fuel' a center bounds brng range (i + 1)
      else mret tt
  end.

(** [for (i = 1; this.latGrid_[1] > routeBounds.getSouthWest().lat; i++)
       this.latGrid_.unshift(routeBoundsCenter.rhumbDestinationPoint(180, range * i).lat)] *)
Fixpoint grow_down (fuel : nat) (a : axis) (center : LatLng) (bounds : LatLngBounds)
    (brng range : num) (i : Z) : M unit :=
  match fuel with
  | O => diverge
  | S fuel' =>
      g ← get (grid_of a);
      sw ← lift (getSouthWest bounds);
      if gt_undef (index g 1) (coord a sw) then
        x ← line a center brng (mul range (Z2num i));
        unshift a x;;
        grow_down fuel' a center bounds brng range (i + 1)
      else mret tt
  end.

Definition new_Array (n : nat) : jsarray := {| alength := Z.of_nat n; marks := ∅ |}.

Fixpoint extend_all (b : LatLngBounds) (vertices : list LatLng) : outcome LatLngBounds :=
  match vertices with
  | [] => Ok b
  | v :: vs => b' ← extend b v; extend_all b' vs
  end.

Definition buildGrid_ (fuel : nat) (vertices : list LatLng) (range : num) : M unit :=
  routeBounds ← lift (extend_all empty_bounds vertices);
  routeBoundsCenter ← lift (getCenter routeBounds);
  push Lat (lat routeBoundsCenter);;
  (x ← line Lat routeBoundsCenter (Z2num 0) range; push Lat x);;
  grow_up fuel Lat routeBoundsCenter routeBounds (Z2num 0) range 2;;
  grow_down fuel Lat routeBoundsCenter routeBounds (Z2num 180) range 1;;
  push Lng (lng routeBoundsCenter);;
  (x ← line Lng routeBoundsCenter (Z2num 90) range; push Lng x);;
  grow_up fuel Lng routeBoundsCenter routeBounds (Z2num 90) range 2;;
  grow_down fuel Lng routeBoundsCenter routeBounds (Z2num 270) range 1;;
  lngs ← get lngGrid_;
  lats ← get latGrid_;
  modify (set_grid_ (Some (replicate (length lngs) (new_Array (length lats))))).

(** [for (var x = 0; this.lngGrid_[x] < latlng.lng; x++) {}] *)
Fixpoint count_below (g : list num) (v : num) (x : Z) : Z :=
  match g with
  | a :: g' => if lt a v then count_below g' v (x + 1) else x
  | [] => x
  end.

Definition getCellCoords_ (latlng : LatLng) : M (Z * Z) :=
  lngs ← get lngGrid_;
  lats ← get latGrid_;
  mret (count_below lngs (lng latlng) 0 - 1, count_below lats (lat latlng) 0 - 1).

(** [for (x = hint[0]; this.lngGrid_[x + 1] < latlng.lng; x++) {}] *)
Fixpoint scan_up_from (rest : list num) (v : num) (x : Z) : Z :=
  match rest with
  | a :: rest' => if lt a v then scan_up_from rest' v (x + 1) else x
  | [] => x
  end.

Definition scan_up (g : list num) (v : num) (x : Z) : Z :=
  if x + 1 <? 0 then x else scan_up_from (drop (Z.to_nat (x + 1)) g) v x.

(** [for (x = hint[0]; this.lngGrid_[x] > latlng.lng; x--) {}] *)
Fixpoint scan_down_from (g : list num) (v : num) (n : nat) : Z :=
  match g !! n with
  | Some a =>
      if gt a v
      then match n with O => -1 | S n' => scan_down_from g v n' end
      else Z.of_nat n
  | None => Z.of_nat n
  end.

Definition scan_down (g : list num) (v : num) (x : Z) : Z :=
  if x <? 0 then x else scan_down_from g v (Z.to_nat x).

Definition getGridCoordsFromHint_ (latlng hintlatlng : LatLng) (hint : Z * Z) : M (Z * Z) :=
  lngs ← get lngGrid_;
  lats ← get latGrid_;
  let x := if gt (lng latlng) (lng hintlatlng)
           then scan_up lngs (lng latlng) (fst hint)
           else scan_down lngs (lng latlng) (fst hint) in
  let y := if gt (lat latlng) (lat hintlatlng)
           then scan_up lats (lat latlng) (snd hint)
           else scan_down lats (lat latlng) (snd hint) in
  mret (x, y).

(** [this.grid_[x][y] = 1] *)
Definition mark (y : Z) (col : jsarray) : jsarray :=
  {| alength := if 0 <=? y then Z.max (alength col) (y + 1) else alength col;
     marks := {[ y ]} ∪ marks col |}.

Definition set_cell (x y : Z) : M unit :=
  g ← get grid_;
  cols ← lift (deref g);
  col ← lift (deref (index cols x));
  modify (set_grid_ (Some (<[Z.to_nat x := mark y col]> cols))).

Definition markCell_ (cell : Z * Z) : M unit :=
  let x := fst cell in
  let y := snd cell in
  set_cell (x - 1) (y - 1);;
  set_cell x (y - 1);;
  set_cell (x + 1) (y - 1);;
  set_cell (x - 1) y;;
  set_cell x y;;
  set_cell (x + 1) y;;
  set_cell (x - 1) (y + 1);;
  set_cell x (y + 1);;
  set_cell (x + 1) (y + 1).

Definition fillInGridSquares_ (startx endx y : Z) : M unit :=
  if startx <? endx
  then forM_ (upto (Z.to_nat (endx - startx + 1)) startx) (fun x => markCell_ (x, y))
  else forM_ (downto (Z.to_nat (startx - endx + 1)) startx) (fun x => markCell_ (x, y)).

Definition getGridIntersect_ (start : LatLng) (brng : num) (gridLineLat : option num)
  : outcome (option LatLng) :=
  g ← deref gridLineLat;
  let d := mul (Z2num 6371)
               (div (sub (toRad g) (toRad (lat start))) (Math_cos E (toRad brng))) in
  rhumbDestinationPoint start brng d.

(** The body of the two loops of [getGridIntersects_] over the rows
    [rows]; [up] tells the south-to-north loop, which fills row [i - 1],
    from the other, which fills row [i].  The result is the last
    [hintXY]. *)
Fixpoint cross (rows : list Z) (up : bool) (start : LatLng) (brng : num)
    (hint : LatLng) (hintXY : Z * Z) : M (Z * Z) :=
  match rows with
  | [] => mret hintXY
  | i :: rows' =>
      lats ← get latGrid_;
      edgePoint ← lift (getGridIntersect_ start brng (index lats i));
      edgePoint ← lift (deref edgePoint);
      edgeXY ← getGridCoordsFromHint_ edgePoint hint hintXY;
      fillInGridSquares_ (fst hintXY) (fst edgeXY) (if up then i - 1 else i);;
      cross rows' up start brng edgePoint edgeXY
  end.

Definition getGridIntersects_ (start end_ : LatLng) (startXY endXY : Z * Z) : M unit :=
  let brng := rhumbBearingTo start end_ in
  if gt (lat end_) (lat start) then
    let n := Z.to_nat (snd endXY - snd startXY) in
    hintXY ← cross (upto n (snd startXY + 1)) true start brng start startXY;
    fillInGridSquares_ (fst hintXY) (fst endXY) (snd startXY + Z.of_nat n)
  else
    let n := Z.to_nat (snd startXY - snd endXY) in
    hintXY ← cross (downto n (snd startXY)) false start brng start startXY;
    fillInGridSquares_ (fst hintXY) (fst endXY) (snd startXY - Z.of_nat n).

Definition same_cell (a b : Z * Z) : bool := (fst a =? fst b) && (snd a =? snd b).

Definition shares_edge (hintXY gridXY : Z * Z) : bool :=
  ((Z.abs (fst hintXY - fst gridXY) =? 1) && (snd hintXY =? snd gridXY))
  || ((fst hintXY =? fst gridXY) && (Z.abs (snd hintXY - snd gridXY) =? 1)).

(** The loop of [findIntersectingCells_] from vertex 1 on; [prev] is
    [vertices[i - 1]]. *)
Fixpoint walk (vertices : list LatLng) (prev : LatLng) (hintXY : Z * Z) : M unit :=
  match vertices with
  | [] => mret tt
  | v :: vertices' =>
      gridXY ← getGridCoordsFromHint_ v prev hintXY;
      if same_cell gridXY hintXY then walk vertices' v hintXY
      else
        (if shares_edge hintXY gridXY then markCell_ gridXY
         else getGridIntersects_ prev v hintXY gridXY);;
        walk vertices' v gridXY
  end.

Definition findIntersectingCells_ (vertices : list LatLng) : M unit :=
  v0 ← lift (deref (head vertices));
  hintXY ← getCellCoords_ v0;
  markCell_ hintXY;;
  walk (tail vertices) v0 hintXY.

Definition getCellBounds_ (cell : Z * Z) : M LatLngBounds :=
  lats ← get latGrid_;
  lngs ← get lngGrid_;
  c1 ← lift (new_LatLng (of_index (index lats (snd cell))) (of_index (index lngs (fst cell))));
  c2 ← lift (new_LatLng (of_index (index lats (snd cell + 1))) (of_index (index lngs (fst cell + 1))));
  lift (new_LatLngBounds c1 c2).

(** The tests of [mergeBoxesX_] and [mergeBoxesY_] on one box of the list. *)
Definition matchesX (b box : LatLngBounds) : outcome bool :=
  bne ← getNorthEast b; sw ← getSouthWest box;
  if seq_num (lng bne) (lng sw) then
    bsw ← getSouthWest b;
    if seq_num (lat bsw) (lat sw) then
      ne ← getNorthEast box; mret (seq_num (lat bne) (lat ne))
    else mret false
  else mret false.

Definition matchesY (b box : LatLngBounds) : outcome bool :=
  bne ← getNorthEast b; sw ← getSouthWest box;
  if seq_num (lat bne) (lat sw) then
    bsw ← getSouthWest b;
    if seq_num (lng bsw) (lng sw) then
      ne ← getNorthEast box; mret (seq_num (lng bne) (lng ne))
    else mret false
  else mret false.

(** The search loop: the first box that matches is extended in place;
    [None] when the loop runs to its end. *)
Fixpoint merge_into (matches : LatLngBounds -> LatLngBounds -> outcome bool)
    (boxes : list LatLngBounds) (box : LatLngBounds) : outcome (option (list LatLngBounds)) :=
  match boxes with
  | [] => Ok None
  | b :: boxes' =>
      m ← matches b box;
      if m : bool then
        ne ← getNorthEast box; b' ← extend b ne; mret (Some (b' :: boxes'))
      else
        r ← merge_into matches boxes' box; mret (cons b <$> r)
  end.

Definition mergeBoxesX_ (box : option LatLngBounds) : M unit :=
  match box with
  | None => mret tt
  | Some box =>
      boxes ← get boxesX_;
      r ← lift (merge_into matchesX boxes box);
      modify (set_boxesX_ (default (boxes ++ [box]) r))
  end.

Definition mergeBoxesY_ (box : option LatLngBounds) : M unit :=
  match box with
  | None => mret tt
  | Some box =>
      boxes ← get boxesY_;
      r ← lift (merge_into matchesY boxes box);
      modify (set_boxesY_ (default (boxes ++ [box]) r))
  end.

(** [this.grid_[x][y]] read as a condition. *)
Definition cell_marked (cell : Z * Z) : M bool :=
  g ← get grid_;
  cols ← lift (deref g);
  col ← lift (deref (index cols (fst cell)));
  mret (bool_decide (snd cell ∈ marks col)).

(** One step of an inner loop of [mergeIntersectingCells_]. *)
Definition sweep_cell (merge : option LatLngBounds -> M unit) (cell : Z * Z)
    (currentBox : option LatLngBounds) : M (option LatLngBounds) :=
  m ← cell_marked cell;
  if m : bool then
    box ← getCellBounds_ cell;
    match currentBox with
    | Some cb =>
        ne ← lift (getNorthEast box); cb' ← lift (extend cb ne); mret (Some cb')
    | None => mret (Some box)
    end
  else merge currentBox;; mret None.

Fixpoint sweep_line (merge : option LatLngBounds -> M unit) (cells : list (Z * Z))
    (currentBox : option LatLngBounds) : M (option LatLngBounds) :=
  match cells with
  | [] => mret currentBox
  | c :: cells' => cb ← sweep_cell merge c currentBox; sweep_line merge cells' cb
  end.

(** An outer loop: each line starts with [currentBox = null] and ends by
    merging what is left. *)
Definition sweep (merge : option LatLngBounds -> M unit) (lines : list (list (Z * Z))) : M unit :=
  forM_ lines (fun cells => cb ← sweep_line merge cells None; merge cb).

(** [this.grid_[0].length] and [this.grid_.length]. *)
Definition grid_rows : M nat :=
  g ← get grid_;
  cols ← lift (deref g);
  c0 ← lift (deref (index cols 0));
  mret (Z.to_nat (alength c0)).

Definition grid_cols : M nat :=
  g ← get grid_;
  cols ← lift (deref g);
  mret (length cols).

Definition row_cells (nx : nat) (y : Z) : list (Z * Z) := (fun x => (x, y)) <$> upto nx 0.
Definition column_cells (ny : nat) (x : Z) : list (Z * Z) := (fun y => (x, y)) <$> upto ny 0.

(** The traversal "a row at a time", which feeds [mergeBoxesY_]. *)
Definition sweep_rows : M unit :=
  ny ← grid_rows;
  nx ← grid_cols;
  sweep mergeBoxesY_ (row_cells nx <$> upto ny 0).

(** The traversal "a column at a time", which feeds [mergeBoxesX_]. *)
Definition sweep_columns : M unit :=
  nx ← grid_cols;
  ny ← (if nx is O then mret O else grid_rows);
  sweep mergeBoxesX_ (column_cells ny <$> upto nx 0).

Definition mergeIntersectingCells_ : M unit :=
  sweep_rows;; sweep_columns.

Definition box (fuel : nat) (path : list LatLng) (range : num) : M (list LatLngBounds) :=
  modify (set_grid_ None);;
  modify (set_latGrid_ []);;
  modify (set_lngGrid_ []);;
  modify (set_boxesX_ []);;
  modify (set_boxesY_ []);;
  let vertices := path in
  buildGrid_ fuel vertices range;;
  findIntersectingCells_ vertices;;
  mergeIntersectingCells_;;
  bx ← get boxesX_;
  by_ ← get boxesY_;
  mret (if (length bx <=? length by_)%nat then bx else by_).

(** *** mkBox (src/index.js) *)

Definition corners := ((num * num) * (num * num))%type.

Definition to_corners (b : LatLngBounds) : outcome corners :=
  sw ← deref (_southWest b);
  ne ← deref (_northEast b);
  mret ((lat sw, lng sw), (lat ne, lng ne)).

(** [new LatLng(pt[0], pt[1])] for the element [pt] of [pts]. *)
Definition to_LatLng (pt : loc) : M LatLng :=
  cs ← load (fun s => pairs s !! pt);
  cs ← lift (deref cs);
  lift (new_LatLng (nth 0 cs PUndefined) (nth 1 cs PUndefined)).

(** [pts = None] is a call without the argument, or with [null];
    [dis = None] a call without the distance. *)
Definition mkBox (fuel : nat) (pts : option loc) (dis : option num) : M (list corners) :=
  let dis := default (Z2num 20) dis in
  match pts with
  | None => mret []
  | Some l =>
      a ← load (fun s => arrays s !! l);
      match a with
      | None => mret []
      | Some elems =>
          if (2 <=? length elems)%nat then
            lls ← mapM to_LatLng elems;
            bounds ← box fuel lls dis;
            mapM (fun b => lift (to_corners b)) bounds
          else mret []
      end
  end.

End Program.

(** *** mkBox, its arrays in the store

    [mkBox] above gives the boxes as a value.  In the source they are
    arrays, objects of the store in which the caller's [pts] and its
    coordinate arrays are: the array that [let boxes = []] makes, the
    array that [bounds.map] makes and fills, and for each box the
    literal [[[lat, lng], [lat, lng]]].  The points and the bounds of
    [pts.map] and of [box] are private to the call and stay values. *)

(** A location at which the store holds no object. *)
Definition unused (s : Store) : loc := fresh (dom (arrays s) ∪ dom (pairs s)).

Definition set_arrays (f : gmap loc (list loc) -> gmap loc (list loc)) (w : World) : World :=
  {| store := {| arrays := f (arrays (store w)); pairs := pairs (store w) |};
     routeBoxer := routeBoxer w |}.

Definition set_pairs (f : gmap loc (list jsprim) -> gmap loc (list jsprim)) (w : World) : World :=
  {| store := {| arrays := arrays (store w); pairs := f (pairs (store w)) |};
     routeBoxer := routeBoxer w |}.

(** An array literal: a new object with the elements [xs]. *)
Definition make_array (xs : list loc) : M loc :=
  fun w => let l := unused (store w) in (Ok l, set_arrays <[l := xs]> w).

Definition make_pair (cs : list jsprim) : M loc :=
  fun w => let l := unused (store w) in (Ok l, set_pairs <[l := cs]> w).

(** [a[k] = x] for the array at [a] and k its length: the array is
    changed in place. *)
Definition append (a x : loc) : M unit :=
  fun w =>
    match arrays (store w) !! a with
    | Some xs => (Ok tt, set_arrays <[a := xs ++ [x]]> w)
    | None => (Throw TypeError, w)
    end.

(** [Array.prototype.map] on the elements [xs], with a callback that
    returns an object: a new array, in which the result of each call is
    stored in its turn, at the indices 0, 1, ... *)
Definition Array_map {A} (f : A -> M loc) (xs : list A) : M loc :=
  a ← make_array [];
  forM_ xs (fun x => y ← f x; append a y);;
  mret a.

(** [[[_southWest.lat, _southWest.lng], [_northEast.lat, _northEast.lng]]] *)
Definition corners_array (b : LatLngBounds) : M loc :=
  sw ← lift (deref (_southWest b));
  p ← make_pair [PNum (lat sw); PNum (lng sw)];
  ne ← lift (deref (_northEast b));
  q ← make_pair [PNum (lat ne); PNum (lng ne)];
  make_array [p; q].

(** What [mkBox] returns is the location of the array of the boxes.  The
    empty array that the default of [pts] makes in a call without the
    argument is reachable from nowhere and is left out. *)
Definition mkBox_in_store (E : Engine) (fuel : nat) (pts : option loc) (dis : option num) : M loc :=
  let dis := default (Z2num 20) dis in
  boxes ← make_array [];
  match pts with
  | None => mret boxes
  | Some l =>
      a ← load (fun s => arrays s !! l);
      match a with
      | None => mret boxes
      | Some elems =>
          if (2 <=? length elems)%nat then
            lls ← mapM (to_LatLng E) elems;
            bounds ← box E fuel lls dis;
            Array_map corners_array bounds
          else mret boxes
      end
  end.

(** The boxes that the array at [l] holds. *)
Definition read_pair (s : Store) (l : loc) : option (num * num) :=
  match pairs s !! l with
  | Some [PNum a; PNum b] => Some (a, b)
  | _ => None
  end.

Definition read_box (s : Store) (l : loc) : option corners :=
  match arrays s !! l with
  | Some [p; q] => sw ← read_pair s p; ne ← read_pair s q; Some (sw, ne)
  | _ => None
  end.

Definition read_boxes (s : Store) (l : loc) : option (list corners) :=
  xs ← arrays s !! l;
  foldr (fun x rest => c ← read_box s x; cs ← rest; Some (c :: cs)) (Some []) xs.

(** ** Calls in sequence, and the inputs of the examples *)

(** A caller that issues the calls of a list one after the other, each
    with its own bound on the loops, and carries on whatever a call comes
    to. *)
Record call := { call_fuel : nat; call_pts : option loc; call_dis : option num }.

Fixpoint run_calls (E : Engine) (calls : list call) (w : World) : World :=
  match calls with
  | [] => w
  | c :: calls' =>
      run_calls E calls' (mkBox E (call_fuel c) (call_pts c) (call_dis c) w).2
  end.

(** The singleton as the object literal of the source leaves it. *)
Definition RouteBoxer_init : RouteBoxer :=
  {| grid_ := None; latGrid_ := []; lngGrid_ := []; boxesX_ := []; boxesY_ := [] |}.

(** The store in which location 1 holds the array [ps] of coordinate
    arrays, themselves at locations 2, 3, ... *)
Fixpoint alloc (ps : list (list jsprim)) (l : loc) : list loc * gmap loc (list jsprim) :=
  match ps with
  | [] => ([], ∅)
  | p :: ps' => let '(ls, m) := alloc ps' (Pos.succ l) in (l :: ls, <[l := p]> m)
  end.

Definition store_of (ps : list (list jsprim)) : Store :=
  let '(ls, m) := alloc ps 2%positive in
  {| arrays := {[ 1%positive := ls ]}; pairs := m |}.

Definition world_of (ps : list (list jsprim)) : World :=
  {| store := store_of ps; routeBoxer := RouteBoxer_init |}.

Definition pt (a b : num) : list jsprim := [PNum a; PNum b].

(** The route of test/t1.js and the boxes it expects for the distance 5. *)
Definition routeA : list (list jsprim) :=
  [pt (dec 505 1) (dec 305 1); pt (dec 504 1) (dec 306 1); pt (dec 503 1) (dec 307 1)].

Definition verticesA : list LatLng :=
  [{| lat := dec 505 1; lng := dec 305 1 |}; {| lat := dec 504 1; lng := dec 306 1 |};
   {| lat := dec 503 1; lng := dec 307 1 |}].

Definition expectA : list corners :=
  [((dec 504 1, dec 3038836968319783 14), (dec 5057986432118374 14, dec 30458913122131893 15));
   ((dec 50355033919704056 15, dec 30458913122131893 15), (dec 5057986432118374 14, dec 3052945656106595 14));
   ((dec 5026510175911219 14, dec 3052945656106595 14), (dec 5057986432118374 14, dec 306 1));
   ((dec 5022013567881625 14, dec 306 1), (dec 50534898240887806 15, dec 3067054343893406 14));
   ((dec 5022013567881625 14, dec 3067054343893406 14), (dec 5048993216059186 14, dec 30741086877868096 15));
   ((dec 5022013567881625 14, dec 30741086877868096 15), (dec 504 1, dec 3081163031680215 14))].

(** Two points some 13 metres apart. *)
Definition routeC : list (list jsprim) :=
  [pt (dec 505 1) (dec 305 1); pt (dec 505001 4) (dec 305001 4)].

Definition verticesC : list LatLng :=
  [{| lat := dec 505 1; lng := dec 305 1 |}; {| lat := dec 505001 4; lng := dec 305001 4 |}].

(** The point [new LatLng] makes of the coordinate array at [pl]. *)
Definition constructs (E : Engine) (s : Store) (pl : loc) (p : LatLng) : Prop :=
  exists cs, pairs s !! pl = Some cs
             /\ new_LatLng E (nth 0 cs PUndefined) (nth 1 cs PUndefined) = Ok p.

(** The core computation on the points [lls] with the grid spacing
    [range], its boxes returned as pairs of corners. *)
Definition core_boxes (E : Engine) (fuel : nat) (lls : list LatLng) (range : num)
  : M (list corners) :=
  bounds ← box E fuel lls range;
  mapM (fun b => lift (to_corners b)) bounds.

(** The part of [box] that comes before the merge, which leaves the grid
    with its marked cells, and the part from the merge on. *)
Definition rasterize (E : Engine) (fuel : nat) (path : list LatLng) (range : num) : M unit :=
  modify (set_grid_ None);;
  modify (set_latGrid_ []);;
  modify (set_lngGrid_ []);;
  modify (set_boxesX_ []);;
  modify (set_boxesY_ []);;
  buildGrid_ E fuel path range;;
  findIntersectingCells_ E path.

Definition cover (E : Engine) : M (list LatLngBounds) :=
  mergeIntersectingCells_ E;;
  bx ← get boxesX_;
  by_ ← get boxesY_;
  mret (if (length bx <=? length by_)%nat then bx else by_).

(** The list the traversal by rows makes of the marked cells of [w],
    and the list the traversal by columns makes of them. *)
Definition row_first (E : Engine) (w : World) : list LatLngBounds :=
  boxesY_ (routeBoxer (sweep_rows E w).2).
Definition column_first (E : Engine) (w : World) : list LatLngBounds :=
  boxesX_ (routeBoxer (sweep_columns E w).2).

(** The grid of [routeA] for the distance 5, as the rasterization
    leaves it. *)
Definition gridA : World :=
  (rasterize RefMath.engine 100 verticesA (Z2num 5) (world_of routeA)).2.

(** Whether the first box of a list starts south of the latitude [x]. *)
Definition starts_south_of (x : num) (o : outcome (list LatLngBounds)) : bool :=
  match o with
  | Ok (b :: _) => match _southWest b with Some sw => lt (lat sw) x | None => false end
  | _ => false
  end.

(** What the specification calls a numeric coordinate: a number, and
    not NaN. *)
Definition numeric (v : jsprim) : Prop :=
  match v with PNum x => isNaN x = false | _ => False end.

(** The values that the conversion to a number accepts and does not
    make NaN: [null], the booleans, the numbers but NaN, and the strings
    of the grammar. *)
Definition convertible (v : jsprim) : Prop :=
  match v with
  | PNull | PBool _ => True
  | PNum x => isNaN x = false
  | PStr s => StringNumericLiteral (list_ascii_of_string s)
  | PUndefined | PBigInt _ | PSymbol => False
  end.

Definition is_BigInt (v : jsprim) : Prop :=
  match v with PBigInt _ => True | _ => False end.

(** The pairs of coordinates on which the error of the constructor is a
    TypeError: [isNaN(lat)] throws it for a BigInt and a Symbol,
    [isNaN(lng)], which is evaluated when [lat] is accepted, for a
    BigInt and a Symbol, and the message for a Symbol. *)
Definition meets_TypeError (lat lng : jsprim) : Prop :=
  is_BigInt lat \/ lat = PSymbol \/ lng = PSymbol \/ (convertible lat /\ is_BigInt lng).

(** A host whose conversion of strings is that of the standard. *)
Definition standard_strings (E : Engine) : Prop :=
  forall s, StringToNumber E s = StrToNumber s.

(** ** Predicates on worlds and computations

    The vocabulary of the proofs below. *)

(** A computation preserves the observation [f] of the world, whatever
    it comes to. *)
Definition preserves {A O : Type} (f : World -> O) (m : M A) : Prop :=
  forall w, f (m w).2 = f w.

(** An observation that does not look at a field of the singleton. *)
Definition ignores {O V} (set : V -> RouteBoxer -> RouteBoxer) (f : World -> O) : Prop :=
  forall s r v, f {| store := s; routeBoxer := set v r |} = f {| store := s; routeBoxer := r |}.

(** A computation that only reads the store: its outcome is a function
    of the store and it leaves the world as it found it. *)
Definition reads_store {A} (m : M A) : Prop :=
  forall w w', store w = store w' -> m w = ((m w').1, w).

(** The world with another list of boxes in [boxesY_]. *)
Definition with_boxesY (v : list LatLngBounds) (w : World) : World :=
  {| store := store w; routeBoxer := set_boxesY_ v (routeBoxer w) |}.

(** The objects of the store [s] are in the store of the world, as
    they are in [s]. *)
Definition kept (s : Store) (w : World) : Prop :=
  arrays s ⊆ arrays (store w) /\ pairs s ⊆ pairs (store w).

(** A computation that leaves the objects of [s] as they are. *)
Definition keeps {A} (s : Store) (m : M A) : Prop :=
  forall w, kept s w -> kept s (m w).2.

(** The world with another store. *)
Definition with_store (s : Store) (w : World) : World :=
  {| store := s; routeBoxer := routeBoxer w |}.

(** The corners of all the boxes of a list, as [to_corners] gives them. *)
Definition all_corners (bs : list LatLngBounds) : outcome (list corners) :=
  foldr (fun b rest => c ← to_corners b; cs ← rest; mret (c :: cs)) (Ok []) bs.

(** A computation that runs the same way whatever [t] changes, and
    leaves the change in place. *)
Definition commutes {A} (t : World -> World) (m : M A) : Prop :=
  forall w, m (t w) = ((m w).1, t (m w).2).

(** All of the world but [boxesY_]. *)
Definition but_boxesY (w : World) :=
  (store w, grid_ (routeBoxer w), latGrid_ (routeBoxer w), lngGrid_ (routeBoxer w),
   boxesX_ (routeBoxer w)).

(** Two numbers that compare alike with every number: the same number,
    or the two zeros. *)
Definition alike (x y : num) : Prop :=
  forall z, SFcompare x z = SFcompare y z /\ SFcompare z x = SFcompare z y.

(** A point neither coordinate of which is NaN, a south-west corner
    that is not above or to the right of the north-east corner, and a box
    with two such corners. *)
Definition valid (p : LatLng) : Prop := isNaN (lat p) = false /\ isNaN (lng p) = false.

Definition ordered (sw ne : LatLng) : Prop :=
  le (lat sw) (lat ne) = true /\ le (lng sw) (lng ne) = true.

Definition good (b : LatLngBounds) : Prop :=
  exists sw ne, _southWest b = Some sw /\ _northEast b = Some ne
                /\ valid sw /\ valid ne /\ ordered sw ne.

(** Both lists of the singleton hold such boxes only. *)
Definition boxes_good (w : World) : Prop :=
  Forall good (boxesX_ (routeBoxer w)) /\ Forall good (boxesY_ (routeBoxer w)).

(** What the two merges have in common, as far as the boxes go. *)
Definition keeps_good (merge : option LatLngBounds -> M unit) : Prop :=
  forall cb w u w',
    boxes_good w -> (forall b, cb = Some b -> good b) ->
    merge cb w = (Ok u, w') -> boxes_good w'.

(** The two lists of boxes of the singleton. *)
Definition both_lists (w : World) := (boxesX_ (routeBoxer w), boxesY_ (routeBoxer w)).

(** A property of the world that a computation keeps when it returns. *)
Definition stable {A} (P : World -> Prop) (m : M A) : Prop :=
  forall w a w', P w -> m w = (Ok a, w') -> P w'.

(** The list of latitudes is not empty. *)
Definition has_latitude (w : World) : Prop := (1 <= length (latGrid_ (routeBoxer w)))%nat.

(** Every column has at least [n] rows. *)
Definition tall (n : Z) (w : World) : Prop :=
  exists cols, grid_ (routeBoxer w) = Some cols /\ Forall (fun c => n <= alength c) cols.

(** Some column [x] holds a mark at a row [y] that the loops of the merge
    visit: [0 <= y < this.grid_[0].length]. *)
Definition visible (w : World) : Prop :=
  exists cols c0 (x : nat) col y,
    grid_ (routeBoxer w) = Some cols /\ cols !! 0%nat = Some c0 /\ cols !! x = Some col
    /\ 0 <= y < alength c0 /\ y ∈ marks col.

(** An array, later: no shorter, and with the marks it had. *)
Definition grows (c c' : jsarray) : Prop :=
  alength c <= alength c' /\ marks c ⊆ marks c'.

(** The cell [c] of the grid [g] holds a mark. *)
Definition marked (g : option (list jsarray)) (c : Z * Z) : Prop :=
  exists cols col, g = Some cols /\ index cols (fst c) = Some col /\ snd c ∈ marks col.

(** A merge leaves the grid alone, and leaves [boxes_of] non-empty when
    it was, or when it is given a box. *)
Definition fills (boxes_of : World -> list LatLngBounds)
    (merge : option LatLngBounds -> M unit) : Prop :=
  forall cb w u w',
    merge cb w = (Ok u, w') ->
    grid_ (routeBoxer w') = grid_ (routeBoxer w)
    /\ (cb <> None \/ boxes_of w <> [] -> boxes_of w' <> []).

(** The number of boxes of an outcome, 0 when there is none. *)
Definition count_boxes {A} (o : outcome (list A)) : nat :=
  match o with Ok l => length l | _ => O end.

(** southwest.lat <= northeast.lat and southwest.lng <= northeast.lng. *)
Definition well_ordered (c : corners) : Prop :=
  le (fst (fst c)) (fst (snd c)) = true /\ le (snd (fst c)) (snd (snd c)) = true.

(** ** LatLngBounds and LatLng: methods the route boxer does not call

    [contains], [intersects], [overlaps], [isValid] and [LatLng.equals],
    on arguments that are [LatLng] and [LatLngBounds] objects already
    (the conversions [toLatLng] and [toLatLngBounds] return such an
    argument as it is). *)

(** The argument of [contains]: a [LatLng] or a [LatLngBounds]. *)
Inductive geo :=
| GPoint (p : LatLng)
| GBounds (b : LatLngBounds).

(** [a && b]: [b] is evaluated only when [a] is true. *)
Definition and_then (a b : outcome bool) : outcome bool :=
  x ← a; if x : bool then b else mret false.

(** [p.lat >= q.lat] and the like, for corners that may be [undefined]:
    the left operand is read first. *)
Definition cmp (f : num -> num -> bool) (c : LatLng -> num) (p q : option LatLng)
  : outcome bool :=
  a ← deref p; b ← deref q; mret (f (c a) (c b)).

Definition ge (a b : num) : bool := le b a.

(** [LatLngBounds.prototype.contains] *)
Definition contains (this : LatLngBounds) (obj : geo) : outcome bool :=
  let sw := _southWest this in
  let ne := _northEast this in
  let '(sw2, ne2) := match obj with
                     | GPoint p => (Some p, Some p)
                     | GBounds b => (_southWest b, _northEast b)
                     end in
  and_then (cmp ge lat sw2 sw)
    (and_then (cmp le lat ne2 ne)
       (and_then (cmp ge lng sw2 sw) (cmp le lng ne2 ne))).

(** [LatLngBounds.prototype.intersects] *)
Definition intersects (this bounds : LatLngBounds) : outcome bool :=
  let sw := _southWest this in
  let ne := _northEast this in
  let sw2 := _southWest bounds in
  let ne2 := _northEast bounds in
  latIntersects ← and_then (cmp ge lat ne2 sw) (cmp le lat sw2 ne);
  lngIntersects ← and_then (cmp ge lng ne2 sw) (cmp le lng sw2 ne);
  mret (latIntersects && lngIntersects).

(** [LatLngBounds.prototype.overlaps] *)
Definition overlaps (this bounds : LatLngBounds) : outcome bool :=
  let sw := _southWest this in
  let ne := _northEast this in
  let sw2 := _southWest bounds in
  let ne2 := _northEast bounds in
  latOverlaps ← and_then (cmp gt lat ne2 sw) (cmp lt lat sw2 ne);
  lngOverlaps ← and_then (cmp gt lng ne2 sw) (cmp lt lng sw2 ne);
  mret (latOverlaps && lngOverlaps).

(** [LatLngBounds.prototype.isValid] *)
Definition isValid (this : LatLngBounds) : bool :=
  match _southWest this, _northEast this with
  | Some _, Some _ => true
  | _, _ => false
  end.

(** [LatLng.prototype.equals] with a [LatLng]; [maxMargin = None] is a
    call without the margin. *)
Definition equals (this obj : LatLng) (maxMargin : option num) : bool :=
  let margin := Math_max (Math_abs (sub (lat this) (lat obj)))
                         (Math_abs (sub (lng this) (lng obj))) in
  le margin (default (dec 1 9) maxMargin).

(** ** More vocabulary

    What the further properties at the end are stated with. *)

(** The place of a number in the order: its class (the infinities, the
    negative and the positive numbers, zero), then exponent and mantissa. *)
Definition rank (a : num) : Z * Z * Z :=
  match a with
  | S754_infinity true => (-2, 0, 0)
  | S754_finite true m e => (-1, - e, - Zpos m)
  | S754_zero _ => (0, 0, 0)
  | S754_finite false m e => (1, e, Zpos m)
  | S754_infinity false => (2, 0, 0)
  | S754_nan => (3, 0, 0)
  end.

Definition lex_compare (x y : Z * Z * Z) : comparison :=
  match fst (fst x) ?= fst (fst y) with
  | Eq => match snd (fst x) ?= snd (fst y) with
          | Eq => snd x ?= snd y
          | c => c
          end
  | c => c
  end.

(** The point [p] lies in the box [b], edges included. *)
Definition inside (b : LatLngBounds) (p : LatLng) : Prop :=
  exists sw ne,
    _southWest b = Some sw /\ _northEast b = Some ne
    /\ le (lat sw) (lat p) = true /\ le (lat p) (lat ne) = true
    /\ le (lng sw) (lng p) = true /\ le (lng p) (lng ne) = true.

(** A number that is neither NaN nor infinite, and a point with two such
    coordinates. *)
Definition finite (a : num) : bool :=
  match a with S754_zero _ | S754_finite _ _ _ => true | _ => false end.

Definition finite_point (p : LatLng) : Prop :=
  finite (lat p) = true /\ finite (lng p) = true.

(** The grid has [n] columns. *)
Definition columns (n : nat) (w : World) : Prop :=
  exists cols, grid_ (routeBoxer w) = Some cols /\ length cols = n.

(** The cell [c'] is [c] or one of its eight neighbours. *)
Definition around (c c' : Z * Z) : Prop :=
  Z.abs (fst c' - fst c) <= 1 /\ Z.abs (snd c' - snd c) <= 1.

(** The lines of one axis reach beyond the edges [lo] and [hi] of the
    route: there are two of them at least, none is NaN, the second is at
    or below [lo] and the last but one at or above [hi]. *)
Definition reaches (g : list num) (lo hi : num) : Prop :=
  (2 <= length g)%nat
  /\ Forall (fun a => isNaN a = false) g
  /\ (exists a, index g 1 = Some a /\ le a lo = true)
  /\ (exists b, index g (Z.of_nat (length g) - 2) = Some b /\ le hi b = true).

(** The other axis. *)
Definition other (a : axis) : axis := match a with Lat => Lng | Lng => Lat end.

(** Grid lines in strictly ascending order. *)
Fixpoint ascending (g : list num) : bool :=
  match g with
  | a :: g' => match g' with b :: _ => lt a b | [] => true end && ascending g'
  | [] => true
  end.

(** The value [v] lies between the lines [i] and [i + 1] of [g], and a
    line follows them: the pair is not the last pair of lines. *)
Definition slot (g : list num) (i : Z) (v : num) : Prop :=
  0 <= i /\ i + 2 < Z.of_nat (length g)
  /\ exists a b, index g i = Some a /\ index g (i + 1) = Some b
                 /\ le a v = true /\ le v b = true.

(** The cell [c] of the grid with the lines [lats] and [lngs] holds the
    point [p], edges included. *)
Definition in_cell (lats lngs : list num) (c : Z * Z) (p : LatLng) : Prop :=
  slot lngs (fst c) (lng p) /\ slot lats (snd c) (lat p).

(** The lists of grid lines of the singleton are [lats] and [lngs]. *)
Definition on_grid (lats lngs : list num) (w : World) : Prop :=
  latGrid_ (routeBoxer w) = lats /\ lngGrid_ (routeBoxer w) = lngs.

(** The two lists of grid lines. *)
Definition grid_lines (w : World) : list num * list num :=
  (latGrid_ (routeBoxer w), lngGrid_ (routeBoxer w)).

(** The box [b] spans the cell [c] of the grid with the lines [lats] and
    [lngs]: it reaches from the lines [c] to the lines [c + 1], or
    beyond. *)
Definition spans (lats lngs : list num) (b : LatLngBounds) (c : Z * Z) : Prop :=
  exists sw ne s n w e,
    _southWest b = Some sw /\ _northEast b = Some ne
    /\ index lats (snd c) = Some s /\ index lats (snd c + 1) = Some n
    /\ index lngs (fst c) = Some w /\ index lngs (fst c + 1) = Some e
    /\ le (lat sw) s = true /\ le n (lat ne) = true
    /\ le (lng sw) w = true /\ le e (lng ne) = true.

(** Some box of the list spans the cell [c]. *)
Definition spanned (lats lngs : list num) (boxes : list LatLngBounds) (c : Z * Z) : Prop :=
  exists b, b ∈ boxes /\ spans lats lngs b c.

(** The cell after [c] in its row, or in its column. *)
Definition next (c c' : Z * Z) : Prop :=
  c' = (fst c + 1, snd c) \/ c' = (fst c, snd c + 1).

(** A line of cells, each next to the one before; [prev] is the cell
    before the first. *)
Fixpoint chain (prev : option (Z * Z)) (cells : list (Z * Z)) : Prop :=
  match cells with
  | [] => True
  | c :: cells' => (forall p, prev = Some p -> next p c) /\ chain (Some c) cells'
  end.

(** A merge keeps the cells spanned, and adds those of the box it is
    given. *)
Definition keeps_spans (lats lngs : list num) (boxes_of : World -> list LatLngBounds)
    (merge : option LatLngBounds -> M unit) : Prop :=
  forall cb w u w' c,
    boxes_good w -> (forall b, cb = Some b -> good b) ->
    merge cb w = (Ok u, w') ->
    spanned lats lngs (boxes_of w) c \/ (exists b, cb = Some b /\ spans lats lngs b c) ->
    spanned lats lngs (boxes_of w') c.

(** The grid and its lines. *)
Definition grid_state (w : World) :=
  (grid_ (routeBoxer w), latGrid_ (routeBoxer w), lngGrid_ (routeBoxer w)).

(** A pair of corners holds the point [p], edges included. *)
Definition within (c : corners) (p : LatLng) : Prop :=
  le (fst (fst c)) (lat p) = true /\ le (lat p) (fst (snd c)) = true
  /\ le (snd (fst c)) (lng p) = true /\ le (lng p) (snd (snd c)) = true.

(** A test of the merge that only accepts a box whose south-west corner
    is at or below, and at or left of, that of the box to merge. *)
Definition from_south_west (matches : LatLngBounds -> LatLngBounds -> outcome bool) : Prop :=
  forall b box bsw sw,
    matches b box = Ok true -> good b ->
    _southWest b = Some bsw -> _southWest box = Some sw ->
    le (lat bsw) (lat sw) = true /\ le (lng bsw) (lng sw) = true.

(** The cell [t] is spanned by a box of the list, or by the box that
    the traversal is widening. *)
Definition covered (lats lngs : list num) (boxes_of : World -> list LatLngBounds)
    (t : Z * Z) (w : World) (cb : option LatLngBounds) : Prop :=
  spanned lats lngs (boxes_of w) t \/ exists b, cb = Some b /\ spans lats lngs b t.

(** The four edges of a box are lines of the grid, the very numbers; the
    same of a pair of corners. *)
Definition on_lines (lats lngs : list num) (b : LatLngBounds) : Prop :=
  exists sw ne,
    _southWest b = Some sw /\ _northEast b = Some ne
    /\ lat sw ∈ lats /\ lat ne ∈ lats /\ lng sw ∈ lngs /\ lng ne ∈ lngs.

Definition edges_on_lines (lats lngs : list num) (c : corners) : Prop :=
  fst (fst c) ∈ lats /\ fst (snd c) ∈ lats /\ snd (fst c) ∈ lngs /\ snd (snd c) ∈ lngs.

(** [this.grid_.length] and [this.grid_[0].length], the bounds of the
    loops of the merge; 0 where the source would throw. *)
Definition width (w : World) : Z :=
  match grid_ (routeBoxer w) with Some cols => Z.of_nat (length cols) | None => 0 end.

Definition height (w : World) : Z :=
  match grid_ (routeBoxer w) with Some (c0 :: _) => alength c0 | _ => 0 end.

(** ** Small inputs for the examples *)

(** The lines 0, 1, ..., n - 1. *)
Definition lines (n : nat) : list num := map Z2num (seqZ 0 (Z.of_nat n)).

(** A grid of [n] columns and [m] rows on these lines, with no cell
    marked and no box made. *)
Definition blank (n m : nat) : World :=
  {| store := store_of [];
     routeBoxer := {| grid_ := Some (replicate n (new_Array m));
                      latGrid_ := lines m; lngGrid_ := lines n;
                      boxesX_ := []; boxesY_ := [] |} |}.

(** The box with the south-west corner (s, w) and the north-east corner
    (n, e), and the point (a, b). *)
Definition rect (s w n e : Z) : LatLngBounds :=
  {| _southWest := Some {| lat := Z2num s; lng := Z2num w |};
     _northEast := Some {| lat := Z2num n; lng := Z2num e |} |}.

Definition point (a b : num) : LatLng := {| lat := a; lng := b |}.

(** A route along the meridian 30. *)
Definition routeM : list (list jsprim) :=
  [pt (Z2num 50) (Z2num 30); pt (Z2num 51) (Z2num 30)].

(** ** Reasoning about computations *)

Section Reasoning.

Context {A B : Type}.

Lemma bind_run (m : M A) (k : A -> M B) (w : World) :
  (m ≫= k) w =
  match m w with
  | (Ok a, w') => k a w'
  | (Throw e, w') => (Throw e, w')
  | (Diverge, w') => (Diverge, w')
  end.
Proof. reflexivity. Qed.

Lemma bind_ok (m : M A) (k : A -> M B) (w w' : World) (a : A) :
  m w = (Ok a, w') -> (m ≫= k) w = k a w'.
Proof. intros H. rewrite bind_run, H. reflexivity. Qed.

Lemma bind_inv (m : M A) (k : A -> M B) (w w2 : World) (b : B) :
  (m ≫= k) w = (Ok b, w2) ->
  exists a w1, m w = (Ok a, w1) /\ k a w1 = (Ok b, w2).
Proof.
  rewrite bind_run. destruct (m w) as [[a | e |] w1]; intros H; try discriminate.
  exists a, w1. split; [reflexivity | exact H].
Qed.

End Reasoning.

Lemma bind_assoc_run {A B C} (m : M A) (k : A -> M B) (h : B -> M C) (w : World) :
  ((m ≫= k) ≫= h) w = (m ≫= fun a => k a ≫= h) w.
Proof. rewrite !bind_run. destruct (m w) as [[a | e |] w1]; reflexivity. Qed.

Lemma bind_ext {A B} (m : M A) (k k' : A -> M B) (w : World) :
  (forall a w', k a w' = k' a w') -> (m ≫= k) w = (m ≫= k') w.
Proof. intros H. rewrite !bind_run. destruct (m w) as [[a | e |] w1]; auto. Qed.


Section Preserves.

Context {O : Type} (f : World -> O).

Lemma preserves_ret {A} (a : A) : preserves f (mret a).
Proof. intros w. reflexivity. Qed.

Lemma preserves_bind {A B} (m : M A) (k : A -> M B) :
  preserves f m -> (forall a, preserves f (k a)) -> preserves f (m ≫= k).
Proof.
  intros Hm Hk w. rewrite bind_run. specialize (Hm w).
  destruct (m w) as [[a | e |] w1]; simpl in *; try exact Hm.
  rewrite Hk. exact Hm.
Qed.

Lemma preserves_lift {A} (r : outcome A) : preserves f (lift r).
Proof. intros w. reflexivity. Qed.

Lemma preserves_throw {A} (e : jserror) : preserves f (throw (A := A) e).
Proof. intros w. reflexivity. Qed.

Lemma preserves_diverge {A} : preserves f (diverge (A := A)).
Proof. intros w. reflexivity. Qed.

Lemma preserves_get {A} (g : RouteBoxer -> A) : preserves f (get g).
Proof. intros w. reflexivity. Qed.

Lemma preserves_load {A} (g : Store -> A) : preserves f (load g).
Proof. intros w. reflexivity. Qed.

Lemma preserves_forM_ {A} (l : list A) (k : A -> M unit) :
  (forall a, preserves f (k a)) -> preserves f (forM_ l k).
Proof.
  intros Hk. induction l as [| a l IH]; simpl.
  - apply preserves_ret.
  - apply preserves_bind; [apply Hk | intros _; exact IH].
Qed.

Lemma preserves_mapM {A B} (k : A -> M B) (l : list A) :
  (forall a, preserves f (k a)) -> preserves f (mapM k l).
Proof.
  intros Hk. induction l as [| a l IH]; simpl.
  - apply preserves_ret.
  - apply preserves_bind; [apply Hk | intros b].
    apply preserves_bind; [exact IH | intros bs; apply preserves_ret].
Qed.

End Preserves.

Lemma preserves_modify {O} (f : World -> O) (g : RouteBoxer -> RouteBoxer) :
  (forall s r, f {| store := s; routeBoxer := g r |} = f {| store := s; routeBoxer := r |}) ->
  preserves f (modify g).
Proof. intros H [s r]. apply H. Qed.

Create HintDb frame discriminated.

#[local] Hint Resolve preserves_ret preserves_lift preserves_throw preserves_diverge
  preserves_get preserves_load : frame.

(** Breaks a computation into its steps. *)
Ltac frame_step :=
  match goal with
  | |- preserves _ (_ ≫= _) => apply preserves_bind; [| intros ?]
  | |- preserves _ (forM_ _ _) => apply preserves_forM_; intros ?
  | |- preserves _ (mapM _ _) => apply preserves_mapM; intros ?
  | |- preserves _ (modify _) => apply preserves_modify; intros ? ?; solve [auto]
  | |- preserves _ (if ?b then _ else _) => destruct b
  | |- preserves _ (match ?x with _ => _ end) => destruct x
  | |- preserves _ (let _ := _ in _) => cbv zeta
  | |- preserves _ _ => solve [auto with frame]
  end.

Ltac frame := repeat frame_step.

(** *** What the rasterization leaves alone *)

Section FrameGrid.

Variable E : Engine.
Context {O : Type} (f : World -> O).
Hypothesis f_grid : ignores set_grid_ f.
Hypothesis f_lat : ignores set_latGrid_ f.
Hypothesis f_lng : ignores set_lngGrid_ f.

Lemma push_frame a x : preserves f (push a x).
Proof. apply preserves_modify. intros s r. destruct a; [apply f_lat | apply f_lng]. Qed.

Lemma unshift_frame a x : preserves f (unshift a x).
Proof. apply preserves_modify. intros s r. destruct a; [apply f_lat | apply f_lng]. Qed.

Lemma line_frame a c b d : preserves f (line E a c b d).
Proof. unfold line. frame. Qed.

#[local] Hint Resolve push_frame unshift_frame line_frame : frame.

Lemma grow_up_frame fuel a c bs b r i : preserves f (grow_up E fuel a c bs b r i).
Proof. revert i. induction fuel as [| fuel IH]; intros i; simpl; frame. Qed.

Lemma grow_down_frame fuel a c bs b r i : preserves f (grow_down E fuel a c bs b r i).
Proof. revert i. induction fuel as [| fuel IH]; intros i; simpl; frame. Qed.

#[local] Hint Resolve grow_up_frame grow_down_frame : frame.

Lemma buildGrid__frame fuel vs r : preserves f (buildGrid_ E fuel vs r).
Proof. unfold buildGrid_. frame. Qed.

Lemma getCellCoords__frame p : preserves f (getCellCoords_ p).
Proof. unfold getCellCoords_. frame. Qed.

Lemma getGridCoordsFromHint__frame p h hxy : preserves f (getGridCoordsFromHint_ p h hxy).
Proof. unfold getGridCoordsFromHint_. frame. Qed.

Lemma set_cell_frame x y : preserves f (set_cell x y).
Proof. unfold set_cell. frame. Qed.

#[local] Hint Resolve getCellCoords__frame getGridCoordsFromHint__frame set_cell_frame : frame.

Lemma markCell__frame c : preserves f (markCell_ c).
Proof. unfold markCell_. frame. Qed.

#[local] Hint Resolve markCell__frame : frame.

Lemma fillInGridSquares__frame a b y : preserves f (fillInGridSquares_ a b y).
Proof. unfold fillInGridSquares_. frame. Qed.

#[local] Hint Resolve fillInGridSquares__frame : frame.

Lemma cross_frame rows up s b h hxy : preserves f (cross E rows up s b h hxy).
Proof. revert h hxy. induction rows as [| i rows IH]; intros h hxy; simpl; frame. Qed.

#[local] Hint Resolve cross_frame : frame.

Lemma getGridIntersects__frame s e sxy exy : preserves f (getGridIntersects_ E s e sxy exy).
Proof. unfold getGridIntersects_. frame. Qed.

#[local] Hint Resolve getGridIntersects__frame : frame.

Lemma walk_frame vs p hxy : preserves f (walk E vs p hxy).
Proof. revert p hxy. induction vs as [| v vs IH]; intros p hxy; simpl; frame. Qed.

#[local] Hint Resolve walk_frame : frame.

Lemma findIntersectingCells__frame vs : preserves f (findIntersectingCells_ E vs).
Proof. unfold findIntersectingCells_. frame. Qed.

End FrameGrid.

(** *** What the merge leaves alone *)

Section FrameMerge.

Variable E : Engine.
Context {O : Type} (f : World -> O).

Lemma getCellBounds__frame c : preserves f (getCellBounds_ E c).
Proof. unfold getCellBounds_. frame. Qed.

Lemma cell_marked_frame c : preserves f (cell_marked c).
Proof. unfold cell_marked. frame. Qed.

Lemma grid_rows_frame : preserves f grid_rows.
Proof. unfold grid_rows. frame. Qed.

Lemma grid_cols_frame : preserves f grid_cols.
Proof. unfold grid_cols. frame. Qed.

#[local] Hint Resolve getCellBounds__frame cell_marked_frame grid_rows_frame
  grid_cols_frame : frame.

Lemma mergeBoxesX__frame b : ignores set_boxesX_ f -> preserves f (mergeBoxesX_ E b).
Proof. intros H. unfold mergeBoxesX_. frame. Qed.

Lemma mergeBoxesY__frame b : ignores set_boxesY_ f -> preserves f (mergeBoxesY_ E b).
Proof. intros H. unfold mergeBoxesY_. frame. Qed.

Lemma sweep_line_frame (merge : option LatLngBounds -> M unit) cells cb :
  (forall b, preserves f (merge b)) -> preserves f (sweep_line E merge cells cb).
Proof.
  intros Hm. revert cb. induction cells as [| c cells IH]; intros cb; simpl.
  - frame.
  - apply preserves_bind; [| intros ?; apply IH].
    unfold sweep_cell. frame.
Qed.

Lemma sweep_frame (merge : option LatLngBounds -> M unit) lines :
  (forall b, preserves f (merge b)) -> preserves f (sweep E merge lines).
Proof.
  intros Hm. unfold sweep. apply preserves_forM_. intros cells.
  apply preserves_bind; [apply sweep_line_frame, Hm | intros cb; apply Hm].
Qed.

Lemma sweep_rows_frame : ignores set_boxesY_ f -> preserves f (sweep_rows E).
Proof.
  intros H. unfold sweep_rows. frame.
  apply sweep_frame. intros b. apply mergeBoxesY__frame, H.
Qed.

Lemma sweep_columns_frame : ignores set_boxesX_ f -> preserves f (sweep_columns E).
Proof.
  intros H. unfold sweep_columns. frame;
    apply sweep_frame; intros b; apply mergeBoxesX__frame, H.
Qed.

Lemma mergeIntersectingCells__frame :
  ignores set_boxesX_ f -> ignores set_boxesY_ f -> preserves f (mergeIntersectingCells_ E).
Proof.
  intros HX HY. unfold mergeIntersectingCells_.
  apply preserves_bind; [apply sweep_rows_frame, HY | intros _; apply sweep_columns_frame, HX].
Qed.

End FrameMerge.

(** *** The store *)

Section Frame.

Variable E : Engine.

Lemma store_ignores {V} (set : V -> RouteBoxer -> RouteBoxer) : ignores set store.
Proof. intros s r v. reflexivity. Qed.

Lemma box_store fuel path range : preserves store (box E fuel path range).
Proof.
  pose proof (@store_ignores). unfold box. frame.
  - apply buildGrid__frame; apply store_ignores.
  - apply findIntersectingCells__frame; apply store_ignores.
  - apply mergeIntersectingCells__frame; apply store_ignores.
Qed.

Lemma to_LatLng_store p : preserves store (to_LatLng E p).
Proof. unfold to_LatLng. frame. Qed.

#[local] Hint Resolve box_store to_LatLng_store : frame.

Lemma mkBox_store fuel pts dis : preserves store (mkBox E fuel pts dis).
Proof. unfold mkBox. frame. Qed.

Lemma run_calls_store calls w : store (run_calls E calls w) = store w.
Proof.
  revert w. induction calls as [| c calls IH]; intros w; simpl; [reflexivity |].
  rewrite IH. apply mkBox_store.
Qed.

End Frame.

(** ** The singleton is reset by every call *)

Lemma reads_store_bind {A B} (m : M A) (k : A -> M B) :
  reads_store m -> (forall a, reads_store (k a)) -> reads_store (m ≫= k).
Proof.
  intros Hm Hk w w' Hs. rewrite !bind_run.
  rewrite (Hm w w' Hs), (Hm w' w' eq_refl).
  destruct (m w').1 as [a | e |]; simpl; try reflexivity.
  apply Hk, Hs.
Qed.

Lemma reads_store_ret {A} (a : A) : reads_store (mret a).
Proof. intros w w' _. reflexivity. Qed.

Lemma reads_store_lift {A} (r : outcome A) : reads_store (lift r).
Proof. intros w w' _. reflexivity. Qed.

Lemma reads_store_load {A} (g : Store -> A) : reads_store (load g).
Proof. intros w w' Hs. unfold load. simpl. rewrite Hs. reflexivity. Qed.

Lemma reads_store_mapM {A B} (k : A -> M B) (l : list A) :
  (forall a, reads_store (k a)) -> reads_store (mapM k l).
Proof.
  intros Hk. induction l as [| a l IH]; simpl.
  - apply reads_store_ret.
  - apply reads_store_bind; [apply Hk | intros b].
    apply reads_store_bind; [exact IH | intros bs; apply reads_store_ret].
Qed.

Section Reset.

Variable E : Engine.

Lemma to_LatLng_reads p : reads_store (to_LatLng E p).
Proof.
  unfold to_LatLng.
  apply reads_store_bind; [apply reads_store_load | intros cs].
  apply reads_store_bind; [apply reads_store_lift | intros cs'].
  apply reads_store_lift.
Qed.

(** [box] starts by assigning all five fields. *)
Lemma box_reset fuel path range s r r' :
  box E fuel path range {| store := s; routeBoxer := r |} =
  box E fuel path range {| store := s; routeBoxer := r' |}.
Proof. reflexivity. Qed.

Lemma mkBox_reset fuel pts dis s r r' :
  (mkBox E fuel pts dis {| store := s; routeBoxer := r |}).1 =
  (mkBox E fuel pts dis {| store := s; routeBoxer := r' |}).1.
Proof.
  unfold mkBox. destruct pts as [l |]; [| reflexivity].
  rewrite !bind_run. unfold load. cbv beta iota. cbn [store].
  destruct (arrays s !! l) as [elems |]; [| reflexivity].
  destruct (2 <=? length elems)%nat; [| reflexivity].
  pose proof (reads_store_mapM _ elems to_LatLng_reads) as H.
  pose proof (H {| store := s; routeBoxer := r |} {| store := s; routeBoxer := r' |} eq_refl) as H1.
  pose proof (H {| store := s; routeBoxer := r' |} {| store := s; routeBoxer := r' |} eq_refl) as H2.
  rewrite (bind_run _ _ {| store := s; routeBoxer := r |}), H1.
  rewrite (bind_run _ _ {| store := s; routeBoxer := r' |}).
  destruct (mapM (to_LatLng E) elems {| store := s; routeBoxer := r' |}) as [o w1].
  simpl in H2. injection H2 as ->. simpl.
  destruct o as [lls | e |]; [| reflexivity | reflexivity].
  rewrite !bind_run, (box_reset fuel lls _ s r r'). reflexivity.
Qed.

Lemma mkBox_same_store fuel pts dis w w' :
  store w = store w' -> (mkBox E fuel pts dis w).1 = (mkBox E fuel pts dis w').1.
Proof.
  destruct w as [s r], w' as [s' r']. simpl. intros ->. apply mkBox_reset.
Qed.

End Reset.

(** ** The two traversals do not meet *)

Section Commutes.

Variable t : World -> World.

Lemma commutes_ret {A} (a : A) : commutes t (mret a).
Proof. intros w. reflexivity. Qed.

Lemma commutes_lift {A} (r : outcome A) : commutes t (lift r).
Proof. intros w. reflexivity. Qed.

Lemma commutes_bind {A B} (m : M A) (k : A -> M B) :
  commutes t m -> (forall a, commutes t (k a)) -> commutes t (m ≫= k).
Proof.
  intros Hm Hk w. rewrite !bind_run, Hm.
  destruct (m w) as [[a | e |] w1]; simpl; try reflexivity.
  apply Hk.
Qed.

Lemma commutes_get {A} (g : RouteBoxer -> A) :
  (forall w, g (routeBoxer (t w)) = g (routeBoxer w)) -> commutes t (get g).
Proof. intros H w. unfold get. simpl. rewrite H. reflexivity. Qed.

Lemma commutes_modify (g : RouteBoxer -> RouteBoxer) :
  (forall w, (modify g (t w)).2 = t (modify g w).2) -> commutes t (modify g).
Proof. intros H w. specialize (H w). unfold modify in *. simpl in *. rewrite H. reflexivity. Qed.

Lemma commutes_forM_ {A} (l : list A) (k : A -> M unit) :
  (forall a, commutes t (k a)) -> commutes t (forM_ l k).
Proof.
  intros Hk. induction l as [| a l IH]; simpl.
  - apply commutes_ret.
  - apply commutes_bind; [apply Hk | intros _; exact IH].
Qed.

End Commutes.

Create HintDb commute discriminated.

#[local] Hint Resolve commutes_ret commutes_lift : commute.

Ltac commute_step :=
  match goal with
  | |- commutes _ (_ ≫= _) => apply commutes_bind; [| intros ?]
  | |- commutes _ (get _) => apply commutes_get; intros ?; reflexivity
  | |- commutes _ (modify _) => apply commutes_modify; intros ?; reflexivity
  | |- commutes _ (forM_ _ _) => apply commutes_forM_; intros ?
  | |- commutes _ (if ?b then _ else _) => destruct b
  | |- commutes _ (match ?x with _ => _ end) => destruct x
  | |- commutes _ _ => solve [auto with commute]
  end.

Ltac commute := repeat commute_step.

Section Traversals.

Variable E : Engine.
Variable v : list LatLngBounds.

Lemma cell_marked_commutes c : commutes (with_boxesY v) (cell_marked c).
Proof. unfold cell_marked. commute. Qed.

Lemma getCellBounds__commutes c : commutes (with_boxesY v) (getCellBounds_ E c).
Proof. unfold getCellBounds_. commute. Qed.

Lemma mergeBoxesX__commutes b : commutes (with_boxesY v) (mergeBoxesX_ E b).
Proof. unfold mergeBoxesX_. commute. Qed.

Lemma grid_rows_commutes : commutes (with_boxesY v) grid_rows.
Proof. unfold grid_rows. commute. Qed.

Lemma grid_cols_commutes : commutes (with_boxesY v) grid_cols.
Proof. unfold grid_cols. commute. Qed.

#[local] Hint Resolve cell_marked_commutes getCellBounds__commutes mergeBoxesX__commutes
  grid_rows_commutes grid_cols_commutes : commute.

Lemma sweep_line_commutes cells cb :
  commutes (with_boxesY v) (sweep_line E (mergeBoxesX_ E) cells cb).
Proof.
  revert cb. induction cells as [| c cells IH]; intros cb; simpl.
  - commute.
  - apply commutes_bind; [| intros ?; apply IH].
    unfold sweep_cell. commute.
Qed.

#[local] Hint Resolve sweep_line_commutes : commute.

Lemma sweep_columns_commutes : commutes (with_boxesY v) (sweep_columns E).
Proof. unfold sweep_columns, sweep. commute. Qed.

End Traversals.

Lemma but_boxesY_ignores : ignores set_boxesY_ but_boxesY.
Proof. intros s r v. reflexivity. Qed.

Lemma but_boxesY_eq (w w' : World) :
  but_boxesY w' = but_boxesY w -> w' = with_boxesY (boxesY_ (routeBoxer w')) w.
Proof.
  destruct w as [s [g la ln bx by_]], w' as [s' [g' la' ln' bx' by']].
  unfold but_boxesY, with_boxesY. simpl. intros H. injection H as -> -> -> -> ->. reflexivity.
Qed.

Lemma sweep_rows_only_boxesY (E : Engine) (w : World) :
  (sweep_rows E w).2 = with_boxesY (row_first E w) w.
Proof. apply but_boxesY_eq, (sweep_rows_frame E but_boxesY but_boxesY_ignores). Qed.

(** [box] in two parts. *)
Lemma box_rasterize_cover (E : Engine) (fuel : nat) (path : list LatLng) (range : num)
    (w : World) :
  box E fuel path range w = (rasterize E fuel path range ≫= fun _ => cover E) w.
Proof.
  unfold box, rasterize, cover.
  do 6 (rewrite bind_assoc_run; apply bind_ext; intros _ ?).
  reflexivity.
Qed.

(** ** The order of numbers *)

Lemma SFcompare_antisym (a b : num) : SFcompare b a = CompOpp <$> SFcompare a b.
Proof.
  destruct a as [sa | sa | | sa ma ea], b as [sb | sb | | sb mb eb]; simpl;
    try reflexivity; try (destruct sa; reflexivity); try (destruct sb; reflexivity);
    try (destruct sa, sb; reflexivity).
  destruct sa, sb; simpl; try reflexivity;
    rewrite (Z.compare_antisym ea eb); destruct (ea ?= eb); simpl; try reflexivity.
  all: pose proof (Pos.compare_cont_antisym ma mb Eq) as H; simpl in H; rewrite <- H.
  all: try rewrite CompOpp_involutive; reflexivity.
Qed.

Lemma SFcompare_total (a b : num) :
  isNaN a = false -> isNaN b = false -> exists c, SFcompare a b = Some c.
Proof.
  destruct a, b; simpl; intros Ha Hb; try discriminate; eauto.
Qed.

Lemma SFcompare_refl (a : num) : isNaN a = false -> SFcompare a a = Some Eq.
Proof.
  destruct a as [s | s | | s m e]; simpl; intros H; try discriminate; try reflexivity.
  - destruct s; reflexivity.
  - destruct s; rewrite Z.compare_refl, Pos.compare_cont_refl; reflexivity.
Qed.

Lemma le_refl (a : num) : isNaN a = false -> le a a = true.
Proof. intros H. unfold le, SFleb. rewrite (SFcompare_refl a H). reflexivity. Qed.

Lemma not_lt_le (a b : num) :
  isNaN a = false -> isNaN b = false -> lt b a = false -> le a b = true.
Proof.
  intros Ha Hb. unfold lt, le, SFltb, SFleb. rewrite (SFcompare_antisym a b).
  destruct (SFcompare_total a b Ha Hb) as [c ->]. destruct c; simpl; congruence.
Qed.

Lemma lt_le (a b : num) : lt a b = true -> le a b = true.
Proof. unfold lt, le, SFltb, SFleb. destruct (SFcompare a b) as [[] |]; congruence. Qed.

Lemma alike_refl x : alike x x.
Proof. intros z. split; reflexivity. Qed.

Lemma alike_zero s s' : alike (S754_zero s) (S754_zero s').
Proof. intros z. split; destruct z; reflexivity. Qed.

Lemma Math_min_spec (a b : num) :
  isNaN a = false -> isNaN b = false ->
  isNaN (Math_min a b) = false
  /\ ((alike (Math_min a b) a /\ le a b = true) \/ (alike (Math_min a b) b /\ le b a = true)).
Proof.
  intros Ha Hb.
  assert (Math_min a b = (if lt b a then b else a)
          \/ exists sa sb, a = S754_zero sa /\ b = S754_zero sb
                           /\ Math_min a b = S754_zero (sa || sb)) as [H | (sa & sb & -> & -> & H)].
  { destruct a, b; try discriminate; simpl; try (left; reflexivity).
    right. do 2 eexists. repeat split. }
  - rewrite H. destruct (lt b a) eqn:Hlt.
    + split; [exact Hb | right; split; [apply alike_refl | apply lt_le, Hlt]].
    + split; [exact Ha | left; split; [apply alike_refl | apply not_lt_le; assumption]].
  - rewrite H. split; [reflexivity | left; split; [apply alike_zero | reflexivity]].
Qed.

Lemma Math_max_spec (a b : num) :
  isNaN a = false -> isNaN b = false ->
  isNaN (Math_max a b) = false
  /\ ((alike (Math_max a b) a /\ le b a = true) \/ (alike (Math_max a b) b /\ le a b = true)).
Proof.
  intros Ha Hb.
  assert (Math_max a b = (if lt a b then b else a)
          \/ exists sa sb, a = S754_zero sa /\ b = S754_zero sb
                           /\ Math_max a b = S754_zero (sa && sb)) as [H | (sa & sb & -> & -> & H)].
  { destruct a, b; try discriminate; simpl; try (left; reflexivity).
    right. do 2 eexists. repeat split. }
  - rewrite H. destruct (lt a b) eqn:Hlt.
    + split; [exact Hb | right; split; [apply alike_refl | apply lt_le, Hlt]].
    + split; [exact Ha | left; split; [apply alike_refl | apply not_lt_le; assumption]].
  - rewrite H. split; [reflexivity | left; split; [apply alike_zero | reflexivity]].
Qed.

Lemma le_alike (x x' y y' : num) : alike x x' -> alike y y' -> le x y = le x' y'.
Proof.
  intros Hx Hy. unfold le, SFleb.
  rewrite (proj1 (Hx y)), (proj2 (Hy x')). reflexivity.
Qed.

(** The step of [extend] on one coordinate keeps the south (or west)
    edge below the north (or east) edge. *)
Lemma le_min_max (p s n : num) :
  isNaN p = false -> isNaN s = false -> isNaN n = false ->
  le s n = true -> le (Math_min p s) (Math_max p n) = true.
Proof.
  intros Hp Hs Hn Hsn.
  destruct (Math_min_spec p s Hp Hs) as [_ [[Hm Hps] | [Hm Hsp]]],
           (Math_max_spec p n Hp Hn) as [_ [[HM Hnp] | [HM Hpn]]];
    rewrite (le_alike _ _ _ _ Hm HM); auto using le_refl.
Qed.

(** ** Running a computation backwards *)

Lemma outcome_bind_inv {A B} (m : outcome A) (k : A -> outcome B) (b : B) :
  m ≫= k = Ok b -> exists a, m = Ok a /\ k a = Ok b.
Proof. destruct m as [a | e |]; simpl; intros H; try discriminate. eauto. Qed.

Lemma ret_inv {A} (a b : A) (w w' : World) :
  @mret M _ A a w = (Ok b, w') -> b = a /\ w' = w.
Proof. intros H. injection H as -> ->. auto. Qed.

Lemma get_inv {A} (g : RouteBoxer -> A) (a : A) (w w' : World) :
  get g w = (Ok a, w') -> a = g (routeBoxer w) /\ w' = w.
Proof. intros H. injection H as <- <-. auto. Qed.

Lemma lift_inv {A} (r : outcome A) (a : A) (w w' : World) :
  lift r w = (Ok a, w') -> r = Ok a /\ w' = w.
Proof. intros H. injection H as -> <-. auto. Qed.

Lemma load_inv {A} (g : Store -> A) (a : A) (w w' : World) :
  load g w = (Ok a, w') -> a = g (store w) /\ w' = w.
Proof. intros H. injection H as <- <-. auto. Qed.

Lemma modify_inv (g : RouteBoxer -> RouteBoxer) (a : unit) (w w' : World) :
  modify g w = (Ok a, w') -> w' = {| store := store w; routeBoxer := g (routeBoxer w) |}.
Proof. intros H. injection H as _ H. symmetry. exact H. Qed.

(** Splits the run [H] of a computation into the runs of its steps. *)
Ltac exec H :=
  cbv beta in H;
  lazymatch type of H with
  | (_ ≫= _) _ = (Ok _, _) =>
      let a := fresh "a" in
      let w := fresh "w" in
      let H1 := fresh "H" in
      apply bind_inv in H; destruct H as (a & w & H1 & H); exec H1; exec H
  | @mret M _ _ _ _ = (Ok _, _) => apply ret_inv in H; destruct H as [? ?]; subst
  | get _ _ = (Ok _, _) => apply get_inv in H; destruct H as [? ?]; subst
  | lift _ _ = (Ok _, _) => apply lift_inv in H; destruct H as [H ?]; subst
  | load _ _ = (Ok _, _) => apply load_inv in H; destruct H as [? ?]; subst
  | modify _ _ = (Ok _, _) => apply modify_inv in H; subst
  | throw _ _ = (Ok _, _) => discriminate H
  | diverge _ = (Ok _, _) => discriminate H
  | _ => idtac
  end.

Ltac oexec H :=
  cbv beta in H;
  lazymatch type of H with
  | _ ≫= _ = Ok _ =>
      let a := fresh "a" in
      let H1 := fresh "H" in
      apply outcome_bind_inv in H; destruct H as (a & H1 & H); oexec H1; oexec H
  | mret _ = Ok _ => injection H as ?; subst
  | Throw _ = Ok _ => discriminate H
  | _ => idtac
  end.

(** ** Boxes are well formed *)

Section Good.

Variable E : Engine.

Lemma new_LatLng_Ok a b p :
  new_LatLng E a b = Ok p <->
  exists x y, ToNumber E a = Ok x /\ ToNumber E b = Ok y
              /\ isNaN x = false /\ isNaN y = false /\ p = {| lat := x; lng := y |}.
Proof.
  unfold new_LatLng, global_isNaN. split.
  - destruct (ToNumber E a) as [x | e |]; simpl; try discriminate.
    destruct (isNaN x) eqn:Hx; simpl.
    { destruct (in_message a), (in_message b); discriminate. }
    destruct (ToNumber E b) as [y | e |]; simpl; try discriminate.
    destruct (isNaN y) eqn:Hy; simpl.
    { destruct (in_message a), (in_message b); discriminate. }
    intros H. injection H as <-. exists x, y. auto.
  - intros (x & y & -> & -> & Hx & Hy & ->). simpl. rewrite Hx. simpl. rewrite Hy. reflexivity.
Qed.

Lemma new_LatLng_valid a b p : new_LatLng E a b = Ok p -> valid p.
Proof.
  intros H. apply new_LatLng_Ok in H as (x & y & _ & _ & Hx & Hy & ->). split; assumption.
Qed.

Lemma new_LatLng_num x y p : new_LatLng E (PNum x) (PNum y) = Ok p -> p = {| lat := x; lng := y |}.
Proof.
  intros H. apply new_LatLng_Ok in H as (x' & y' & Hx & Hy & _ & _ & ->).
  simpl in Hx, Hy. congruence.
Qed.

Lemma extend_good b p b' :
  good b \/ b = empty_bounds -> valid p -> extend E b p = Ok b' -> good b'.
Proof.
  intros [(sw & ne & Hsw & Hne & [Hs1 Hs2] & [Hn1 Hn2] & [Ho1 Ho2]) | ->] [Hp1 Hp2];
    unfold extend.
  - rewrite Hsw, Hne. intros H. injection H as <-.
    exists {| lat := Math_min (lat p) (lat sw); lng := Math_min (lng p) (lng sw) |},
           {| lat := Math_max (lat p) (lat ne); lng := Math_max (lng p) (lng ne) |}.
    repeat split; simpl;
      try (apply Math_min_spec; assumption); try (apply Math_max_spec; assumption);
      apply le_min_max; assumption.
  - simpl. intros H. oexec H.
    apply new_LatLng_num in H0, H1. subst.
    exists {| lat := lat p; lng := lng p |}, {| lat := lat p; lng := lng p |}.
    repeat split; simpl; auto using le_refl.
Qed.

Lemma new_LatLngBounds_good c1 c2 b :
  valid c1 -> valid c2 -> new_LatLngBounds E c1 c2 = Ok b -> good b.
Proof.
  intros H1 H2 H. unfold new_LatLngBounds in H. oexec H.
  eapply extend_good; [left | exact H2 | exact H].
  eapply extend_good; [right; reflexivity | exact H1 | exact H0].
Qed.

Lemma good_northEast b p : good b -> getNorthEast b = Ok p -> valid p.
Proof.
  intros (sw & ne & Hsw & Hne & Hs & Hn & Ho). unfold getNorthEast. rewrite Hne.
  intros H. injection H as <-. exact Hn.
Qed.

Lemma getCellBounds__good c w b w' :
  getCellBounds_ E c w = (Ok b, w') -> good b /\ w' = w.
Proof.
  intros H. unfold getCellBounds_ in H. exec H.
  split; [| reflexivity].
  eapply new_LatLngBounds_good; [| | exact H]; eapply new_LatLng_valid; eassumption.
Qed.

Lemma merge_into_good matches boxes box boxes' :
  Forall good boxes -> good box ->
  merge_into E matches boxes box = Ok (Some boxes') -> Forall good boxes'.
Proof.
  intros Hbs Hb. revert boxes'.
  induction Hbs as [| b boxes Hgb Hbs IH]; intros boxes' H; simpl in H; [discriminate H |].
  oexec H. destruct a as [|].
  - oexec H. constructor; [| exact Hbs].
    eapply extend_good; [left; exact Hgb | | eassumption].
    eapply good_northEast; eassumption.
  - oexec H. destruct a as [bs |]; simpl in *; [| discriminate].
    injection H as <-. constructor; [exact Hgb | apply IH; assumption].
Qed.

Lemma merged_good matches boxes box r :
  Forall good boxes -> good box ->
  merge_into E matches boxes box = Ok r -> Forall good (default (boxes ++ [box]) r).
Proof.
  intros Hbs Hb H. destruct r as [boxes' |]; simpl.
  - eapply merge_into_good; eassumption.
  - apply Forall_app. split; [exact Hbs | constructor; [exact Hb | constructor]].
Qed.

Lemma mergeBoxesX__good : keeps_good (mergeBoxesX_ E).
Proof.
  intros [box |] w u w' [HX HY] Hcb H; unfold mergeBoxesX_ in H; exec H.
  - split; simpl; [| exact HY]. eapply merged_good; eauto.
  - split; assumption.
Qed.

Lemma mergeBoxesY__good : keeps_good (mergeBoxesY_ E).
Proof.
  intros [box |] w u w' [HX HY] Hcb H; unfold mergeBoxesY_ in H; exec H.
  - split; simpl; [exact HX |]. eapply merged_good; eauto.
  - split; assumption.
Qed.

Lemma cell_marked_inv c w m w' : cell_marked c w = (Ok m, w') -> w' = w.
Proof. intros H. unfold cell_marked in H. exec H. reflexivity. Qed.

Lemma sweep_cell_good merge c cb w cb' w' :
  keeps_good merge ->
  boxes_good w -> (forall b, cb = Some b -> good b) ->
  sweep_cell E merge c cb w = (Ok cb', w') ->
  boxes_good w' /\ (forall b, cb' = Some b -> good b).
Proof.
  intros Hm Hw Hcb H. unfold sweep_cell in H.
  apply bind_inv in H. destruct H as (m & w1 & H1 & H).
  apply cell_marked_inv in H1. subst w1. destruct m.
  - apply bind_inv in H. destruct H as (box & w1 & H1 & H).
    apply getCellBounds__good in H1. destruct H1 as [Hbox ->].
    destruct cb as [cb |]; exec H.
    + split; [exact Hw |]. intros b Hb. injection Hb as <-.
      eapply extend_good; [left; apply Hcb; reflexivity | | eassumption].
      eapply good_northEast; eassumption.
    + split; [exact Hw |]. intros b Hb. injection Hb as <-. exact Hbox.
  - exec H. split; [| discriminate]. eapply Hm; eassumption.
Qed.

Lemma sweep_line_good merge cells cb w cb' w' :
  keeps_good merge ->
  boxes_good w -> (forall b, cb = Some b -> good b) ->
  sweep_line E merge cells cb w = (Ok cb', w') ->
  boxes_good w' /\ (forall b, cb' = Some b -> good b).
Proof.
  intros Hm. revert cb w. induction cells as [| c cells IH]; intros cb w Hw Hcb H; simpl in H.
  - exec H. auto.
  - apply bind_inv in H. destruct H as (cb1 & w1 & H1 & H).
    destruct (sweep_cell_good merge c cb w cb1 w1 Hm Hw Hcb H1) as [Hw1 Hcb1].
    eapply IH; eassumption.
Qed.

Lemma sweep_good merge lines w u w' :
  keeps_good merge -> boxes_good w -> sweep E merge lines w = (Ok u, w') -> boxes_good w'.
Proof.
  intros Hm. unfold sweep. revert w.
  induction lines as [| cells lines IH]; intros w Hw H; simpl in H.
  - exec H. exact Hw.
  - apply bind_inv in H. destruct H as (u1 & w1 & H1 & H).
    apply bind_inv in H1. destruct H1 as (cb & w2 & H1 & H2).
    destruct (sweep_line_good merge cells None w cb w2 Hm Hw ltac:(discriminate) H1) as [Hw2 Hcb].
    eapply IH; [| exact H]. eapply Hm; eassumption.
Qed.

Lemma mergeIntersectingCells__good w u w' :
  boxes_good w -> mergeIntersectingCells_ E w = (Ok u, w') -> boxes_good w'.
Proof.
  intros Hw H. unfold mergeIntersectingCells_, sweep_rows, sweep_columns in H.
  apply bind_inv in H. destruct H as (u1 & w1 & H1 & H).
  apply bind_inv in H1. destruct H1 as (ny & w2 & Hny & H1).
  apply bind_inv in H1. destruct H1 as (nx & w3 & Hnx & H1).
  pose proof (grid_rows_frame (fun w => w) w) as F1. rewrite Hny in F1. simpl in F1. subst w2.
  pose proof (grid_cols_frame (fun w => w) w) as F2. rewrite Hnx in F2. simpl in F2. subst w3.
  apply (sweep_good _ _ _ _ _ mergeBoxesY__good Hw) in H1.
  apply bind_inv in H. destruct H as (nx' & w2 & Hnx' & H).
  pose proof (grid_cols_frame (fun w => w) w1) as F3. rewrite Hnx' in F3. simpl in F3. subst w2.
  apply bind_inv in H. destruct H as (ny' & w2 & Hny' & H).
  assert (w2 = w1) as ->.
  { destruct nx'; [exec Hny'; reflexivity |].
    pose proof (grid_rows_frame (fun w => w) w1) as F4. rewrite Hny' in F4. exact F4. }
  apply (sweep_good _ _ _ _ _ mergeBoxesX__good H1) in H. exact H.
Qed.

Lemma box_good fuel path range w bounds w' :
  box E fuel path range w = (Ok bounds, w') -> Forall good bounds.
Proof.
  intros H. rewrite box_rasterize_cover in H.
  apply bind_inv in H. destruct H as (u & w1 & H1 & H).
  assert (boxes_good w1) as Hw1.
  { unfold rasterize in H1.
    do 5 (apply bind_inv in H1; destruct H1 as (? & ? & H0 & H1); apply modify_inv in H0; subst).
    apply bind_inv in H1. destruct H1 as (u1 & w2 & H2 & H1).
    pose proof (buildGrid__frame E both_lists ltac:(intros ? ? ?; reflexivity)
                  ltac:(intros ? ? ?; reflexivity) ltac:(intros ? ? ?; reflexivity)
                  fuel path range) as F1.
    pose proof (findIntersectingCells__frame E both_lists ltac:(intros ? ? ?; reflexivity) path)
      as F2.
    specialize (F2 w2). rewrite H1 in F2.
    match type of H2 with buildGrid_ _ _ _ _ ?w0 = _ => specialize (F1 w0) end.
    rewrite H2 in F1. simpl in F1, F2. rewrite F1 in F2. unfold both_lists in F2. simpl in F2.
    injection F2 as FX FY. split; [rewrite FX | rewrite FY]; constructor. }
  unfold cover in H. apply bind_inv in H. destruct H as (u2 & w2 & H2 & H).
  apply (mergeIntersectingCells__good _ _ _ Hw1) in H2. exec H.
  destruct H2 as [HX HY]. destruct (_ <=? _)%nat; assumption.
Qed.

End Good.

(** ** Properties that computations keep *)

Section Stable.

Variable P : World -> Prop.

Lemma stable_ret {A} (a : A) : stable P (mret a).
Proof. intros w b w' HP H. exec H. exact HP. Qed.

Lemma stable_bind {A B} (m : M A) (k : A -> M B) :
  stable P m -> (forall a, stable P (k a)) -> stable P (m ≫= k).
Proof.
  intros Hm Hk w b w' HP H. apply bind_inv in H. destruct H as (a & w1 & H1 & H).
  eapply Hk; [eapply Hm |]; eassumption.
Qed.

Lemma stable_lift {A} (r : outcome A) : stable P (lift r).
Proof. intros w b w' HP H. exec H. exact HP. Qed.

Lemma stable_get {A} (g : RouteBoxer -> A) : stable P (get g).
Proof. intros w b w' HP H. exec H. exact HP. Qed.

Lemma stable_throw {A} (e : jserror) : stable P (throw (A := A) e).
Proof. intros w b w' HP H. discriminate H. Qed.

Lemma stable_diverge {A} : stable P (diverge (A := A)).
Proof. intros w b w' HP H. discriminate H. Qed.

Lemma stable_forM_ {A} (l : list A) (k : A -> M unit) :
  (forall a, stable P (k a)) -> stable P (forM_ l k).
Proof.
  intros Hk. induction l as [| a l IH]; simpl.
  - apply stable_ret.
  - apply stable_bind; [apply Hk | intros _; exact IH].
Qed.

End Stable.

Create HintDb stable discriminated.

#[local] Hint Resolve stable_ret stable_lift stable_get stable_throw stable_diverge : stable.

Ltac stable_step :=
  match goal with
  | |- stable _ (_ ≫= _) => apply stable_bind; [| intros ?]
  | |- stable _ (forM_ _ _) => apply stable_forM_; intros ?
  | |- stable _ (if ?b then _ else _) => destruct b
  | |- stable _ (match ?x with _ => _ end) => destruct x
  | |- stable _ (let _ := _ in _) => cbv zeta
  | |- stable _ _ => solve [auto with stable]
  end.

Ltac stabilize := repeat stable_step.

(** ** The grid has a row, and its columns are as long as the list of
    latitudes *)

Section BuildGrid.

Variable E : Engine.

Lemma push_has_latitude a x : stable has_latitude (push a x).
Proof.
  intros w u w' HP H. unfold push in H. exec H. unfold has_latitude in *.
  destruct a; simpl; [rewrite length_app; lia | exact HP].
Qed.

Lemma unshift_has_latitude a x : stable has_latitude (unshift a x).
Proof.
  intros w u w' HP H. unfold unshift in H. exec H. unfold has_latitude in *.
  destruct a; simpl; [lia | exact HP].
Qed.

Lemma line_has_latitude a c b d : stable has_latitude (line E a c b d).
Proof. unfold line. stabilize. Qed.

#[local] Hint Resolve push_has_latitude unshift_has_latitude line_has_latitude : stable.

Lemma grow_up_has_latitude fuel a c bs b r i :
  stable has_latitude (grow_up E fuel a c bs b r i).
Proof. revert i. induction fuel as [| fuel IH]; intros i; simpl; stabilize. Qed.

Lemma grow_down_has_latitude fuel a c bs b r i :
  stable has_latitude (grow_down E fuel a c bs b r i).
Proof. revert i. induction fuel as [| fuel IH]; intros i; simpl; stabilize. Qed.

#[local] Hint Resolve grow_up_has_latitude grow_down_has_latitude : stable.

Lemma buildGrid__tall fuel vertices range w u w' :
  buildGrid_ E fuel vertices range w = (Ok u, w') ->
  has_latitude w' /\ tall (Z.of_nat (length (latGrid_ (routeBoxer w')))) w'.
Proof.
  intros H. unfold buildGrid_ in H.
  apply bind_inv in H. destruct H as (routeBounds & w1 & _ & H).
  apply bind_inv in H. destruct H as (center & w2 & _ & H).
  apply bind_inv in H. destruct H as (u1 & w3 & H3 & H).
  assert (has_latitude w3) as HP.
  { unfold push in H3. exec H3. unfold has_latitude. simpl. rewrite length_app. simpl. lia. }
  clear H3.
  do 7 (apply bind_inv in H; destruct H as (? & ? & H0 & H);
        match type of H0 with
        | ?m _ = (Ok _, _) =>
            let Hs := fresh in
            assert (stable has_latitude m) as Hs by stabilize;
            apply (Hs _ _ _ HP) in H0; clear Hs HP; rename H0 into HP
        end).
  exec H. split; [exact HP |].
  eexists. split; [reflexivity |]. apply Forall_forall. intros c Hc.
  apply elem_of_replicate in Hc. destruct Hc as [-> _]. simpl. lia.
Qed.

End BuildGrid.

(** ** A marked cell in the range of the merge loops *)

Lemma grows_refl c : grows c c.
Proof. split; [lia | set_solver]. Qed.

Lemma mark_grows y c : grows c (mark y c).
Proof. unfold mark. split; simpl; [destruct (0 <=? y); lia | set_solver]. Qed.

Lemma insert_grows (cols : list jsarray) (n i : nat) (c c' col : jsarray) :
  cols !! n = Some col -> grows col c' -> cols !! i = Some c ->
  exists c2, <[n := c']> cols !! i = Some c2 /\ grows c c2.
Proof.
  intros Hn Hg Hi. destruct (decide (n = i)) as [-> | Hne].
  - exists c'. split.
    + apply list_lookup_insert_eq. eapply lookup_lt_Some, Hi.
    + rewrite Hi in Hn. injection Hn as ->. exact Hg.
  - exists c. split; [rewrite list_lookup_insert_ne; assumption | apply grows_refl].
Qed.

Lemma deref_inv {A} (p : option A) (a : A) : deref p = Ok a -> p = Some a.
Proof. destruct p; simpl; intros H; [injection H as -> | discriminate H]; reflexivity. Qed.

Lemma index_inv {A} (l : list A) (i : Z) (a : A) :
  index l i = Some a -> 0 <= i /\ l !! Z.to_nat i = Some a.
Proof. unfold index. destruct (Z.ltb_spec i 0); [discriminate | auto]. Qed.

Lemma set_cell_inv x y w u w' :
  set_cell x y w = (Ok u, w') ->
  exists cols col,
    grid_ (routeBoxer w) = Some cols /\ 0 <= x /\ cols !! Z.to_nat x = Some col
    /\ grid_ (routeBoxer w') = Some (<[Z.to_nat x := mark y col]> cols).
Proof.
  intros H. unfold set_cell in H. exec H.
  repeat match goal with Hd : deref _ = Ok _ |- _ => apply deref_inv in Hd end.
  match goal with
  | Hg : grid_ _ = Some ?cols, Hi : index ?cols x = Some ?col |- _ =>
      exists cols, col; apply index_inv in Hi; destruct Hi; auto
  end.
Qed.

Lemma set_cell_tall n x y : stable (tall n) (set_cell x y).
Proof.
  intros w u w' (cols & Hg & Hall) H.
  apply set_cell_inv in H. destruct H as (cols' & col & Hg' & Hx & Hc & Hw').
  rewrite Hg in Hg'. injection Hg' as <-.
  exists (<[Z.to_nat x := mark y col]> cols). split; [exact Hw' |].
  apply Forall_insert; [exact Hall |].
  pose proof (proj1 (Forall_lookup _ _) Hall _ _ Hc) as Hcol. simpl in Hcol.
  pose proof (mark_grows y col) as [Hm _]. lia.
Qed.

Lemma set_cell_visible x y : stable visible (set_cell x y).
Proof.
  intros w u w' (cols & c0 & x0 & col0 & y0 & Hg & H0 & Hx0 & Hy0 & Hm) H.
  apply set_cell_inv in H. destruct H as (cols' & col & Hg' & Hx & Hc & Hw').
  rewrite Hg in Hg'. injection Hg' as <-.
  destruct (insert_grows cols (Z.to_nat x) 0 c0 (mark y col) col Hc (mark_grows y col) H0)
    as (c0' & H0' & [Hl0 _]).
  destruct (insert_grows cols (Z.to_nat x) x0 col0 (mark y col) col Hc (mark_grows y col) Hx0)
    as (col0' & Hx0' & [_ Hm0]).
  exists (<[Z.to_nat x := mark y col]> cols), c0', x0, col0', y0.
  repeat split; try assumption; try lia. apply Hm0, Hm.
Qed.

(** A mark set at a row below [n], in a grid whose columns have [n]
    rows, is visible. *)
Lemma set_cell_marks n x y w u w' :
  tall n w -> 0 <= y < n -> set_cell x y w = (Ok u, w') -> visible w'.
Proof.
  intros Ht Hy H. pose proof (set_cell_tall n x y w u w' Ht H) as (cols' & Hg' & Hall).
  apply set_cell_inv in H. destruct H as (cols & col & Hg & Hx & Hc & Hw').
  rewrite Hg' in Hw'. injection Hw' as ->.
  assert (<[Z.to_nat x := mark y col]> cols !! Z.to_nat x = Some (mark y col)) as Hcol.
  { apply list_lookup_insert_eq. eapply lookup_lt_Some, Hc. }
  destruct (<[Z.to_nat x := mark y col]> cols !! 0%nat) as [c0 |] eqn:H0.
  - exists (<[Z.to_nat x := mark y col]> cols), c0, (Z.to_nat x), (mark y col), y.
    repeat split; try assumption; try lia.
    + pose proof (proj1 (Forall_lookup _ _) Hall _ _ H0) as Hc0. simpl in Hc0. lia.
    + unfold mark. simpl. apply elem_of_union_l, elem_of_singleton. reflexivity.
  - apply lookup_ge_None in H0. apply lookup_lt_Some in Hcol. lia.
Qed.

#[local] Hint Resolve set_cell_visible set_cell_tall : stable.

Lemma markCell__visible c : stable visible (markCell_ c).
Proof. unfold markCell_. stabilize. Qed.

(** The first cell marked: its row is found by [getCellCoords_], between
    -1 and the number of latitudes less one. *)
Lemma markCell__marks n c w u w' :
  tall n w -> 1 <= n -> -1 <= snd c < n -> markCell_ c w = (Ok u, w') -> visible w'.
Proof.
  intros Ht Hn Hy H. unfold markCell_ in H. cbv zeta in H.
  apply bind_inv in H. destruct H as (? & w1 & H1 & H).
  apply bind_inv in H. destruct H as (? & w2 & H2 & H).
  apply bind_inv in H. destruct H as (? & w3 & H3 & H).
  apply bind_inv in H. destruct H as (? & w4 & H4 & H).
  apply bind_inv in H. destruct H as (? & w5 & H5 & H).
  apply bind_inv in H. destruct H as (? & w6 & H6 & H).
  apply bind_inv in H. destruct H as (? & w7 & H7 & H).
  apply bind_inv in H. destruct H as (? & w8 & H8 & H).
  pose proof (set_cell_tall n _ _ _ _ _ Ht H1) as Ht1.
  pose proof (set_cell_tall n _ _ _ _ _ Ht1 H2) as Ht2.
  pose proof (set_cell_tall n _ _ _ _ _ Ht2 H3) as Ht3.
  pose proof (set_cell_tall n _ _ _ _ _ Ht3 H4) as Ht4.
  pose proof (set_cell_tall n _ _ _ _ _ Ht4 H5) as Ht5.
  pose proof (set_cell_tall n _ _ _ _ _ Ht5 H6) as Ht6.
  destruct (Z.le_gt_cases 0 (snd c)) as [Hy0 | Hy0].
  - assert (visible w5) as Hv by (eapply (set_cell_marks n); [exact Ht4 | | exact H5]; lia).
    eapply set_cell_visible; [| exact H].
    eapply set_cell_visible; [| exact H8].
    eapply set_cell_visible; [| exact H7].
    eapply set_cell_visible; [| exact H6]. exact Hv.
  - assert (visible w7) as Hv by (eapply (set_cell_marks n); [exact Ht6 | | exact H7]; lia).
    eapply set_cell_visible; [| exact H].
    eapply set_cell_visible; [| exact H8]. exact Hv.
Qed.

#[local] Hint Resolve markCell__visible : stable.

Section Raster.

Variable E : Engine.

Lemma fillInGridSquares__visible a b y : stable visible (fillInGridSquares_ a b y).
Proof. unfold fillInGridSquares_. stabilize. Qed.

Lemma getGridCoordsFromHint__visible p h hxy : stable visible (getGridCoordsFromHint_ p h hxy).
Proof. unfold getGridCoordsFromHint_. stabilize. Qed.

#[local] Hint Resolve fillInGridSquares__visible getGridCoordsFromHint__visible : stable.

Lemma cross_visible rows up s b h hxy : stable visible (cross E rows up s b h hxy).
Proof. revert h hxy. induction rows as [| i rows IH]; intros h hxy; simpl; stabilize. Qed.

#[local] Hint Resolve cross_visible : stable.

Lemma getGridIntersects__visible s e sxy exy : stable visible (getGridIntersects_ E s e sxy exy).
Proof. unfold getGridIntersects_. stabilize. Qed.

#[local] Hint Resolve getGridIntersects__visible : stable.

Lemma walk_visible vs p hxy : stable visible (walk E vs p hxy).
Proof. revert p hxy. induction vs as [| v vs IH]; intros p hxy; simpl; stabilize. Qed.

Lemma count_below_range g v x : x <= count_below g v x <= x + Z.of_nat (length g).
Proof.
  revert x. induction g as [| a g IH]; intros x; simpl; [lia |].
  destruct (lt a v); [specialize (IH (x + 1)) |]; lia.
Qed.

Lemma findIntersectingCells__visible vertices w u w' :
  has_latitude w -> tall (Z.of_nat (length (latGrid_ (routeBoxer w)))) w ->
  findIntersectingCells_ E vertices w = (Ok u, w') -> visible w'.
Proof.
  intros Hn Ht H. unfold findIntersectingCells_ in H.
  apply bind_inv in H. destruct H as (v0 & w1 & Hv0 & H). exec Hv0.
  apply bind_inv in H. destruct H as (hintXY & w1 & Hc & H).
  unfold getCellCoords_ in Hc. exec Hc.
  apply bind_inv in H. destruct H as (u1 & w1 & Hm & H).
  eapply walk_visible; [| exact H].
  eapply markCell__marks; [exact Ht | | | exact Hm].
  - unfold has_latitude in Hn. lia.
  - simpl. pose proof (count_below_range (latGrid_ (routeBoxer w)) (lat v0) 0). lia.
Qed.

End Raster.

(** ** Each traversal makes a box of a visible mark *)

Lemma cell_marked_run c w :
  marked (grid_ (routeBoxer w)) c -> cell_marked c w = (Ok true, w).
Proof.
  intros (cols & col & Hg & Hc & Hm). unfold cell_marked.
  rewrite bind_run. unfold get. cbv beta iota. rewrite Hg.
  rewrite bind_run. unfold lift, deref. cbv beta iota.
  rewrite bind_run. cbv beta iota. rewrite Hc. cbv beta iota.
  rewrite (bool_decide_eq_true_2 _ Hm). reflexivity.
Qed.

Lemma merge_into_nonempty E matches boxes box boxes' :
  merge_into E matches boxes box = Ok (Some boxes') -> boxes' <> [].
Proof.
  destruct boxes as [| b boxes]; simpl; intros H; [discriminate H |].
  oexec H. destruct a.
  - oexec H. discriminate.
  - oexec H. destruct a as [bs |]; simpl in *; [| discriminate]. injection H as <-. discriminate.
Qed.

Lemma merged_nonempty E matches boxes box r :
  merge_into E matches boxes box = Ok r -> default (boxes ++ [box]) r <> [].
Proof.
  destruct r as [boxes' |]; simpl; intros H.
  - eapply merge_into_nonempty, H.
  - intros Habs. apply app_eq_nil in Habs. destruct Habs as [_ Habs]. discriminate Habs.
Qed.

Section Sweeps.

Variable E : Engine.

Lemma mergeBoxesX__fills : fills (fun w => boxesX_ (routeBoxer w)) (mergeBoxesX_ E).
Proof.
  intros [box |] w u w' H; unfold mergeBoxesX_ in H; exec H.
  - split; [reflexivity |]. intros _. simpl. eapply merged_nonempty. eassumption.
  - split; [reflexivity |]. intros [Habs | Hne]; [congruence | exact Hne].
Qed.

Lemma mergeBoxesY__fills : fills (fun w => boxesY_ (routeBoxer w)) (mergeBoxesY_ E).
Proof.
  intros [box |] w u w' H; unfold mergeBoxesY_ in H; exec H.
  - split; [reflexivity |]. intros _. simpl. eapply merged_nonempty. eassumption.
  - split; [reflexivity |]. intros [Habs | Hne]; [congruence | exact Hne].
Qed.

Variable boxes_of : World -> list LatLngBounds.
Variable merge : option LatLngBounds -> M unit.
Hypothesis merge_fills : fills boxes_of merge.

Lemma sweep_cell_found c cb w cb' w' :
  sweep_cell E merge c cb w = (Ok cb', w') ->
  grid_ (routeBoxer w') = grid_ (routeBoxer w)
  /\ (cb <> None \/ boxes_of w <> [] \/ marked (grid_ (routeBoxer w)) c ->
      cb' <> None \/ boxes_of w' <> []).
Proof.
  intros H. unfold sweep_cell in H.
  apply bind_inv in H. destruct H as (m & w1 & Hm & H).
  pose proof (cell_marked_inv _ _ _ _ Hm) as ->. destruct m.
  - apply bind_inv in H. destruct H as (box & w1 & Hb & H).
    apply getCellBounds__good in Hb. destruct Hb as [_ ->].
    destruct cb as [cb |]; exec H; (split; [reflexivity | intros _; left; discriminate]).
  - apply bind_inv in H. destruct H as (u & w1 & Hu & H). exec H.
    destruct (merge_fills _ _ _ _ Hu) as [Hg Hne]. split; [exact Hg |].
    intros [Hcb | [Hb | Hmk]]; [right; auto | right; auto |].
    apply cell_marked_run in Hmk. rewrite Hmk in Hm. discriminate Hm.
Qed.

Lemma sweep_line_found cells cb w cb' w' :
  sweep_line E merge cells cb w = (Ok cb', w') ->
  grid_ (routeBoxer w') = grid_ (routeBoxer w)
  /\ (cb <> None \/ boxes_of w <> [] \/ (exists c, c ∈ cells /\ marked (grid_ (routeBoxer w)) c) ->
      cb' <> None \/ boxes_of w' <> []).
Proof.
  revert cb w. induction cells as [| c cells IH]; intros cb w H; simpl in H.
  - exec H. split; [reflexivity |].
    intros [Hcb | [Hb | (c & Hc & _)]]; [auto | auto | inversion Hc].
  - apply bind_inv in H. destruct H as (cb1 & w1 & H1 & H).
    destruct (sweep_cell_found _ _ _ _ _ H1) as [Hg1 Hf1].
    destruct (IH _ _ H) as [Hg Hf]. split; [congruence |].
    intros Hpre. apply Hf. rewrite Hg1.
    destruct Hpre as [Hcb | [Hb | (c' & Hc' & Hmk)]].
    + destruct Hf1 as [? | ?]; auto.
    + destruct Hf1 as [? | ?]; auto.
    + apply elem_of_cons in Hc'. destruct Hc' as [-> | Hc'].
      * destruct Hf1 as [? | ?]; auto.
      * right. right. exists c'. auto.
Qed.

Lemma sweep_found lines w u w' :
  sweep E merge lines w = (Ok u, w') ->
  grid_ (routeBoxer w') = grid_ (routeBoxer w)
  /\ (boxes_of w <> []
      \/ (exists cells c, cells ∈ lines /\ c ∈ cells /\ marked (grid_ (routeBoxer w)) c) ->
      boxes_of w' <> []).
Proof.
  unfold sweep. revert w. induction lines as [| cells lines IH]; intros w H; simpl in H.
  - exec H. split; [reflexivity |].
    intros [Hb | (cells & c & Hc & _)]; [exact Hb | inversion Hc].
  - apply bind_inv in H. destruct H as (u1 & w1 & H1 & H).
    apply bind_inv in H1. destruct H1 as (cb & w2 & Hl & Hm).
    destruct (sweep_line_found _ _ _ _ _ Hl) as [Hg2 Hf2].
    destruct (merge_fills _ _ _ _ Hm) as [Hg1 Hf1].
    destruct (IH _ H) as [Hg Hf]. split; [congruence |].
    intros Hpre. apply Hf. rewrite Hg1, Hg2.
    destruct Hpre as [Hb | (cells' & c & Hcells & Hc & Hmk)].
    + left. apply Hf1. destruct Hf2 as [? | ?]; auto.
    + apply elem_of_cons in Hcells. destruct Hcells as [-> | Hcells].
      * left. apply Hf1. destruct Hf2 as [? | ?]; eauto.
      * right. eauto.
Qed.

End Sweeps.

Lemma elem_of_upto (n : nat) (a i : Z) : a <= i < a + Z.of_nat n -> i ∈ upto n a.
Proof.
  revert a. induction n as [| n IH]; intros a Hi; simpl; [lia |].
  destruct (decide (i = a)) as [-> | Hne]; [left |]. right. apply IH. lia.
Qed.

Section Cover.

Variable E : Engine.

Lemma grid_rows_run w cols c0 :
  grid_ (routeBoxer w) = Some cols -> cols !! 0%nat = Some c0 ->
  grid_rows w = (Ok (Z.to_nat (alength c0)), w).
Proof.
  intros Hg H0. unfold grid_rows.
  assert (index cols 0 = Some c0) as Hi by exact H0.
  rewrite bind_run. unfold get. cbv beta iota. rewrite Hg.
  rewrite bind_run. unfold lift, deref. cbv beta iota.
  rewrite bind_run. cbv beta iota. rewrite Hi. reflexivity.
Qed.

Lemma grid_cols_run w cols :
  grid_ (routeBoxer w) = Some cols -> grid_cols w = (Ok (length cols), w).
Proof.
  intros Hg. unfold grid_cols.
  rewrite bind_run. unfold get. cbv beta iota. rewrite Hg.
  rewrite bind_run. unfold lift, deref. cbv beta iota. reflexivity.
Qed.

Lemma visible_grid w w' :
  grid_ (routeBoxer w') = grid_ (routeBoxer w) -> visible w -> visible w'.
Proof.
  intros Hg (cols & c0 & x & col & y & H & Hrest). rewrite <- Hg in H.
  exists cols, c0, x, col, y. auto.
Qed.

Lemma sweep_rows_fills w u w' :
  visible w -> sweep_rows E w = (Ok u, w') ->
  visible w' /\ boxesY_ (routeBoxer w') <> [].
Proof.
  intros Hv H. pose proof Hv as (cols & c0 & x & col & y & Hg & H0 & Hx & Hy & Hm).
  unfold sweep_rows in H.
  rewrite bind_run, (grid_rows_run w cols c0 Hg H0) in H. cbv beta iota in H.
  rewrite bind_run, (grid_cols_run w cols Hg) in H. cbv beta iota in H.
  destruct (sweep_found E _ _ (mergeBoxesY__fills E) _ _ _ _ H) as [Hg' Hf].
  split; [eapply visible_grid; eassumption |]. apply Hf. right.
  exists (row_cells (length cols) y), (Z.of_nat x, y). repeat split.
  - apply list_elem_of_fmap_2, elem_of_upto. lia.
  - unfold row_cells. apply (list_elem_of_fmap_2 (fun x => (x, y))), elem_of_upto.
    apply lookup_lt_Some in Hx. lia.
  - exists cols, col. repeat split; [exact Hg | | exact Hm].
    unfold index. simpl. destruct (Z.ltb_spec (Z.of_nat x) 0); [lia |].
    rewrite Nat2Z.id. exact Hx.
Qed.

Lemma sweep_columns_fills w u w' :
  visible w -> sweep_columns E w = (Ok u, w') ->
  visible w' /\ boxesX_ (routeBoxer w') <> [].
Proof.
  intros Hv H. pose proof Hv as (cols & c0 & x & col & y & Hg & H0 & Hx & Hy & Hm).
  unfold sweep_columns in H.
  rewrite bind_run, (grid_cols_run w cols Hg) in H. cbv beta iota in H.
  assert (length cols <> 0%nat) as Hlen by (apply lookup_lt_Some in Hx; lia).
  destruct (length cols) as [| k] eqn:Hk; [congruence |].
  rewrite bind_run, (grid_rows_run w cols c0 Hg H0) in H. cbv beta iota in H.
  destruct (sweep_found E _ _ (mergeBoxesX__fills E) _ _ _ _ H) as [Hg' Hf].
  split; [eapply visible_grid; eassumption |]. apply Hf. right.
  exists (column_cells (Z.to_nat (alength c0)) (Z.of_nat x)), (Z.of_nat x, y). repeat split.
  - apply list_elem_of_fmap_2, elem_of_upto.
    apply lookup_lt_Some in Hx. lia.
  - unfold column_cells. apply (list_elem_of_fmap_2 (fun y => (Z.of_nat x, y))), elem_of_upto. lia.
  - exists cols, col. repeat split; [exact Hg | | exact Hm].
    unfold index. simpl. destruct (Z.ltb_spec (Z.of_nat x) 0); [lia |].
    rewrite Nat2Z.id. exact Hx.
Qed.

Lemma cover_nonempty w bounds w' :
  visible w -> cover E w = (Ok bounds, w') -> bounds <> [].
Proof.
  intros Hv H. unfold cover, mergeIntersectingCells_ in H.
  apply bind_inv in H. destruct H as (u & w2 & Hm & H).
  apply bind_inv in Hm. destruct Hm as (u1 & w1 & Hr & Hc).
  destruct (sweep_rows_fills _ _ _ Hv Hr) as [Hv1 HY].
  destruct (sweep_columns_fills _ _ _ Hv1 Hc) as [_ HX].
  pose proof (sweep_columns_frame E (fun w => boxesY_ (routeBoxer w))
                ltac:(intros ? ? ?; reflexivity) w1) as HF.
  rewrite Hc in HF. simpl in HF. exec H.
  destruct (_ <=? _)%nat; [exact HX | rewrite HF; exact HY].
Qed.

Lemma rasterize_visible fuel path range w u w' :
  rasterize E fuel path range w = (Ok u, w') -> visible w'.
Proof.
  intros H. unfold rasterize in H.
  do 5 (apply bind_inv in H; destruct H as (? & ? & _ & H)).
  apply bind_inv in H. destruct H as (u1 & w1 & Hb & H).
  apply buildGrid__tall in Hb. destruct Hb as [Hn Ht].
  eapply findIntersectingCells__visible; eassumption.
Qed.

Lemma box_nonempty fuel path range w bounds w' :
  box E fuel path range w = (Ok bounds, w') -> bounds <> [].
Proof.
  intros H. rewrite box_rasterize_cover in H.
  apply bind_inv in H. destruct H as (u & w1 & Hr & H).
  eapply cover_nonempty; [eapply rasterize_visible, Hr | exact H].
Qed.

End Cover.

(** ** The properties of the specification *)

(** C4.  When [pts] is an array of fewer than two elements, the empty
    one included, [mkBox] returns the empty array: it throws nothing,
    whatever the bound on the loops, and leaves the world alone. *)
Theorem mkBox_fewer_than_two (E : Engine) (fuel : nat) (l : loc) (elems : list loc)
    (dis : option num) (w : World) :
  arrays (store w) !! l = Some elems ->
  (length elems < 2)%nat ->
  mkBox E fuel (Some l) dis w = (Ok [], w).
Proof.
  intros Hl Hlen. unfold mkBox. rewrite bind_run. unfold load. cbv beta iota. rewrite Hl.
  destruct (Nat.leb_spec 2 (length elems)) as [H | H]; [lia | reflexivity].
Qed.

Lemma mkBox_fewer_than_two_witness :
  mkBox RefMath.engine 0 (Some 1%positive) None (world_of []) = (Ok [], world_of [])
  /\ mkBox RefMath.engine 0 (Some 1%positive) None (world_of [pt (Z2num 1) (Z2num 2)])
     = (Ok [], world_of [pt (Z2num 1) (Z2num 2)]).
Proof.
  split.
  - apply (mkBox_fewer_than_two RefMath.engine 0 1%positive [] None (world_of []));
      [reflexivity | simpl; lia].
  - apply (mkBox_fewer_than_two RefMath.engine 0 1%positive [2%positive] None
             (world_of [pt (Z2num 1) (Z2num 2)])); [reflexivity | simpl; lia].
Defined.

(** C8.  The outcome of a call (the boxes it returns, or the exception
    it throws) is the same whatever calls went before it: the fields of
    the [L.RouteBoxer] singleton that earlier calls left behind are all
    assigned anew, and no call writes to the store. *)
Theorem mkBox_deterministic (E : Engine) (fuel : nat) (pts : option loc) (dis : option num)
    (calls : list call) (w : World) :
  (mkBox E fuel pts dis (run_calls E calls w)).1 = (mkBox E fuel pts dis w).1.
Proof. apply mkBox_same_store, run_calls_store. Qed.

(** *** The input is not written to *)

Lemma unused_arrays (s : Store) : arrays s !! unused s = None.
Proof.
  apply not_elem_of_dom. intros H.
  apply (is_fresh (dom (arrays s) ∪ dom (pairs s))). apply elem_of_union_l, H.
Qed.

Lemma unused_pairs (s : Store) : pairs s !! unused s = None.
Proof.
  apply not_elem_of_dom. intros H.
  apply (is_fresh (dom (arrays s) ∪ dom (pairs s))). apply elem_of_union_r, H.
Qed.

Lemma kept_unused (s : Store) (w : World) :
  kept s w -> arrays s !! unused (store w) = None /\ pairs s !! unused (store w) = None.
Proof.
  intros [Ha Hp]. split.
  - eapply lookup_weaken_None; [apply unused_arrays | exact Ha].
  - eapply lookup_weaken_None; [apply unused_pairs | exact Hp].
Qed.

Section Keeps.

Variable s : Store.

Lemma keeps_ret {A} (a : A) : keeps s (mret a).
Proof. intros w H. exact H. Qed.

Lemma keeps_lift {A} (r : outcome A) : keeps s (lift r).
Proof. intros w H. exact H. Qed.

Lemma keeps_load {A} (g : Store -> A) : keeps s (load g).
Proof. intros w H. exact H. Qed.

Lemma keeps_bind {A B} (m : M A) (k : A -> M B) :
  keeps s m -> (forall a, keeps s (k a)) -> keeps s (m ≫= k).
Proof.
  intros Hm Hk w H. rewrite bind_run. specialize (Hm w H).
  destruct (m w) as [[a | e |] w1]; simpl in *; try exact Hm.
  apply Hk, Hm.
Qed.

Lemma keeps_forM_ {A} (l : list A) (k : A -> M unit) :
  (forall a, keeps s (k a)) -> keeps s (forM_ l k).
Proof.
  intros Hk. induction l as [| a l IH]; simpl.
  - apply keeps_ret.
  - apply keeps_bind; [apply Hk | intros _; exact IH].
Qed.

Lemma keeps_preserves {A} (m : M A) : preserves store m -> keeps s m.
Proof. intros Hm w H. unfold kept. rewrite (Hm w). exact H. Qed.

Lemma keeps_make_array (xs : list loc) : keeps s (make_array xs).
Proof.
  intros w H. destruct (kept_unused s w H) as [Ha _]. destruct H as [H1 H2].
  split; simpl; [apply insert_subseteq_r; assumption | exact H2].
Qed.

Lemma keeps_make_pair (cs : list jsprim) : keeps s (make_pair cs).
Proof.
  intros w H. destruct (kept_unused s w H) as [_ Hp]. destruct H as [H1 H2].
  split; simpl; [exact H1 | apply insert_subseteq_r; assumption].
Qed.

(** A write to an array that is not an object of [s]. *)
Lemma keeps_append (a x : loc) : arrays s !! a = None -> keeps s (append a x).
Proof.
  intros Ha w [H1 H2]. unfold append.
  destruct (arrays (store w) !! a) as [xs |]; [| split; assumption].
  split; simpl; [apply insert_subseteq_r; assumption | exact H2].
Qed.

Lemma keeps_corners_array (b : LatLngBounds) : keeps s (corners_array b).
Proof.
  unfold corners_array.
  repeat (apply keeps_bind; [| intros ?]);
    auto using keeps_lift, keeps_make_pair, keeps_make_array.
Qed.

Lemma keeps_Array_map {A} (f : A -> M loc) (xs : list A) :
  (forall x, keeps s (f x)) -> keeps s (Array_map f xs).
Proof.
  intros Hf w H. unfold Array_map. rewrite bind_run. unfold make_array at 1. cbv beta iota zeta.
  destruct (kept_unused s w H) as [Ha _].
  pose proof (keeps_make_array [] w H) as H1. unfold make_array in H1. simpl in H1.
  revert H1. generalize (set_arrays <[unused (store w) := []]> w). intros w1 H1.
  apply (keeps_bind (forM_ xs (fun x => f x ≫= append (unused (store w))))
           (fun _ => mret (unused (store w)))); [| intros _; apply keeps_ret | exact H1].
  apply keeps_forM_. intros x. apply keeps_bind; [apply Hf | intros y].
  apply keeps_append, Ha.
Qed.

End Keeps.

Lemma mkBox_in_store_keeps (E : Engine) (fuel : nat) (pts : option loc) (dis : option num)
    (s : Store) :
  keeps s (mkBox_in_store E fuel pts dis).
Proof.
  unfold mkBox_in_store. cbv zeta.
  apply keeps_bind; [apply keeps_make_array | intros boxes].
  destruct pts as [l |]; [| apply keeps_ret].
  apply keeps_bind; [apply keeps_load | intros [elems |]]; [| apply keeps_ret].
  destruct (2 <=? length elems)%nat; [| apply keeps_ret].
  apply keeps_bind; [| intros lls].
  { apply keeps_preserves, preserves_mapM. intros p. apply to_LatLng_store. }
  apply keeps_bind; [apply keeps_preserves, box_store | intros bounds].
  apply keeps_Array_map, keeps_corners_array.
Qed.

(** The core does not look at the store. *)

Section StoreFree.

Variable E : Engine.
Variable s : Store.

Lemma commutes_diverge {A} : commutes (with_store s) (diverge (A := A)).
Proof. intros w. reflexivity. Qed.

#[local] Hint Resolve commutes_diverge : commute.

Lemma line_store a center brng dist : commutes (with_store s) (line E a center brng dist).
Proof. unfold line. commute. Qed.

Lemma push_store a x : commutes (with_store s) (push a x).
Proof. unfold push. commute. Qed.

Lemma unshift_store a x : commutes (with_store s) (unshift a x).
Proof. unfold unshift. commute. Qed.

#[local] Hint Resolve line_store push_store unshift_store : commute.

Lemma grow_up_store fuel a center bounds brng range i :
  commutes (with_store s) (grow_up E fuel a center bounds brng range i).
Proof.
  revert i. induction fuel as [| fuel IH]; intros i; simpl; [apply commutes_diverge |].
  commute.
Qed.

Lemma grow_down_store fuel a center bounds brng range i :
  commutes (with_store s) (grow_down E fuel a center bounds brng range i).
Proof.
  revert i. induction fuel as [| fuel IH]; intros i; simpl; [apply commutes_diverge |].
  commute.
Qed.

#[local] Hint Resolve grow_up_store grow_down_store : commute.

Lemma buildGrid__store fuel vertices range :
  commutes (with_store s) (buildGrid_ E fuel vertices range).
Proof. unfold buildGrid_. commute. Qed.

Lemma getCellCoords__store p : commutes (with_store s) (getCellCoords_ p).
Proof. unfold getCellCoords_. commute. Qed.

Lemma getGridCoordsFromHint__store p hp h :
  commutes (with_store s) (getGridCoordsFromHint_ p hp h).
Proof. unfold getGridCoordsFromHint_. commute. Qed.

Lemma set_cell_store x y : commutes (with_store s) (set_cell x y).
Proof. unfold set_cell. commute. Qed.

#[local] Hint Resolve getCellCoords__store getGridCoordsFromHint__store set_cell_store : commute.

Lemma markCell__store c : commutes (with_store s) (markCell_ c).
Proof. unfold markCell_. cbv zeta. commute. Qed.

#[local] Hint Resolve markCell__store : commute.

Lemma fillInGridSquares__store a b y : commutes (with_store s) (fillInGridSquares_ a b y).
Proof. unfold fillInGridSquares_. commute. Qed.

#[local] Hint Resolve fillInGridSquares__store : commute.

Lemma cross_store rows up start brng hint hintXY :
  commutes (with_store s) (cross E rows up start brng hint hintXY).
Proof.
  revert hint hintXY. induction rows as [| i rows IH]; intros hint hintXY; simpl.
  - apply commutes_ret.
  - commute; try apply IH.
Qed.

#[local] Hint Resolve cross_store : commute.

Lemma getGridIntersects__store a b c d :
  commutes (with_store s) (getGridIntersects_ E a b c d).
Proof. unfold getGridIntersects_. cbv zeta. commute. Qed.

#[local] Hint Resolve getGridIntersects__store : commute.

Lemma walk_store vertices prev hintXY : commutes (with_store s) (walk E vertices prev hintXY).
Proof.
  revert prev hintXY. induction vertices as [| v vs IH]; intros prev hintXY; simpl.
  - apply commutes_ret.
  - commute; try apply IH.
Qed.

#[local] Hint Resolve walk_store : commute.

Lemma findIntersectingCells__store vertices :
  commutes (with_store s) (findIntersectingCells_ E vertices).
Proof. unfold findIntersectingCells_. commute. Qed.

Lemma cell_marked_store c : commutes (with_store s) (cell_marked c).
Proof. unfold cell_marked. commute. Qed.

Lemma getCellBounds__store c : commutes (with_store s) (getCellBounds_ E c).
Proof. unfold getCellBounds_. commute. Qed.

Lemma mergeBoxesX__store b : commutes (with_store s) (mergeBoxesX_ E b).
Proof. unfold mergeBoxesX_. commute. Qed.

Lemma mergeBoxesY__store b : commutes (with_store s) (mergeBoxesY_ E b).
Proof. unfold mergeBoxesY_. commute. Qed.

Lemma grid_rows_store : commutes (with_store s) grid_rows.
Proof. unfold grid_rows. commute. Qed.

Lemma grid_cols_store : commutes (with_store s) grid_cols.
Proof. unfold grid_cols. commute. Qed.

#[local] Hint Resolve cell_marked_store getCellBounds__store mergeBoxesX__store
  mergeBoxesY__store grid_rows_store grid_cols_store : commute.

Lemma sweep_line_store merge cells cb :
  (forall b, commutes (with_store s) (merge b)) ->
  commutes (with_store s) (sweep_line E merge cells cb).
Proof.
  intros Hm. revert cb. induction cells as [| c cells IH]; intros cb; simpl.
  - apply commutes_ret.
  - apply commutes_bind; [| intros ?; apply IH].
    unfold sweep_cell. commute; apply Hm.
Qed.

Lemma sweep_store merge lines :
  (forall b, commutes (with_store s) (merge b)) ->
  commutes (with_store s) (sweep E merge lines).
Proof.
  intros Hm. unfold sweep. apply commutes_forM_. intros cells.
  apply commutes_bind; [apply sweep_line_store, Hm | intros ?; apply Hm].
Qed.

Lemma mergeIntersectingCells__store : commutes (with_store s) (mergeIntersectingCells_ E).
Proof.
  unfold mergeIntersectingCells_, sweep_rows, sweep_columns.
  commute; apply sweep_store; auto with commute.
Qed.

#[local] Hint Resolve buildGrid__store findIntersectingCells__store
  mergeIntersectingCells__store : commute.

Lemma box_store_free fuel path range : commutes (with_store s) (box E fuel path range).
Proof. unfold box. cbv zeta. commute. Qed.

End StoreFree.

(** The array of boxes in the store. *)

Lemma to_LatLng_run (E : Engine) (p : loc) (w : World) :
  to_LatLng E p w
  = (cs ← deref (pairs (store w) !! p);
     new_LatLng E (nth 0 cs PUndefined) (nth 1 cs PUndefined), w).
Proof.
  unfold to_LatLng. rewrite bind_run. unfold load. cbv beta iota.
  rewrite bind_run. unfold lift. destruct (pairs (store w) !! p); reflexivity.
Qed.

Lemma mapM_to_LatLng_pairs (E : Engine) (elems : list loc) (w w' : World) :
  pairs (store w) = pairs (store w') ->
  mapM (to_LatLng E) elems w' = ((mapM (to_LatLng E) elems w).1, w').
Proof.
  intros Hp. induction elems as [| p elems IH]; [reflexivity |].
  cbn [mapM]. rewrite !bind_run, !to_LatLng_run, Hp.
  destruct (_ ≫= _) as [a | e |]; try reflexivity.
  rewrite !bind_run, IH. destruct (mapM (to_LatLng E) elems w) as [[lls | e |] w1]; reflexivity.
Qed.

Lemma mapM_to_corners_run (bs : list LatLngBounds) (w : World) :
  mapM (fun b => lift (to_corners b)) bs w = (all_corners bs, w).
Proof.
  induction bs as [| b bs IH]; [reflexivity |].
  cbn [mapM all_corners foldr]. rewrite bind_run. unfold lift at 1.
  destruct (to_corners b) as [c | e |]; try reflexivity.
  rewrite bind_run, IH. fold (all_corners bs).
  destruct (all_corners bs) as [cs | e |]; reflexivity.
Qed.

Lemma read_pair_kept (s : Store) (w : World) (p : loc) (v : num * num) :
  kept s w -> read_pair s p = Some v -> read_pair (store w) p = Some v.
Proof.
  intros [_ Hp]. unfold read_pair. destruct (pairs s !! p) as [cs |] eqn:Hcs; [| discriminate].
  rewrite (lookup_weaken _ _ _ _ Hcs Hp). trivial.
Qed.

Lemma read_box_kept (s : Store) (w : World) (x : loc) (c : corners) :
  kept s w -> read_box s x = Some c -> read_box (store w) x = Some c.
Proof.
  intros Hk. unfold read_box.
  destruct (arrays s !! x) as [xs |] eqn:Hx; [| discriminate].
  rewrite (lookup_weaken _ _ _ _ Hx (proj1 Hk)).
  destruct xs as [| p [| q [| ? ?]]]; try discriminate.
  destruct (read_pair s p) as [sw |] eqn:Hp; [| discriminate].
  destruct (read_pair s q) as [ne |] eqn:Hq; [| discriminate].
  rewrite (read_pair_kept s w p sw Hk Hp), (read_pair_kept s w q ne Hk Hq). trivial.
Qed.

Lemma read_box_set_arrays (w : World) (a x : loc) (xs : list loc) :
  x <> a -> read_box (store (set_arrays <[a := xs]> w)) x = read_box (store w) x.
Proof.
  intros Hx. unfold read_box, read_pair. simpl. rewrite lookup_insert_ne by congruence.
  reflexivity.
Qed.

Lemma read_all (s : Store) (a : loc) (rows : list loc) (cs : list corners) :
  Forall2 (fun x c => x <> a /\ read_box s x = Some c) rows cs ->
  foldr (fun x rest => c ← read_box s x; cs ← rest; Some (c :: cs)) (Some []) rows = Some cs.
Proof.
  induction 1 as [| x c rows cs [_ Hx] _ IH]; [reflexivity |].
  simpl. rewrite Hx, IH. reflexivity.
Qed.

Lemma corners_array_eq (b : LatLngBounds) (w : World) :
  corners_array b w
  = match _southWest b with
    | None => (Throw TypeError, w)
    | Some sw =>
        let wa := set_pairs <[unused (store w) := [PNum (lat sw); PNum (lng sw)]]> w in
        match _northEast b with
        | None => (Throw TypeError, wa)
        | Some ne =>
            let wb := set_pairs <[unused (store wa) := [PNum (lat ne); PNum (lng ne)]]> wa in
            (Ok (unused (store wb)),
             set_arrays <[unused (store wb) := [unused (store w); unused (store wa)]]> wb)
        end
    end.
Proof.
  unfold corners_array. destruct (_southWest b) as [sw |]; [| reflexivity].
  destruct (_northEast b) as [ne |]; reflexivity.
Qed.

(** One box: its array is a new object, which holds its corners. *)
Lemma corners_array_run (b : LatLngBounds) (a : loc) (rows : list loc) (w : World) :
  arrays (store w) !! a = Some rows ->
  match to_corners b with
  | Ok c =>
      exists x w1,
        corners_array b w = (Ok x, w1) /\ x <> a /\ read_box (store w1) x = Some c
        /\ kept (store w) w1 /\ arrays (store w1) !! a = Some rows
        /\ routeBoxer w1 = routeBoxer w
  | Throw e => exists w1, corners_array b w = (Throw e, w1) /\ routeBoxer w1 = routeBoxer w
  | Diverge => False
  end.
Proof.
  intros Ha.
  pose proof (keeps_corners_array (store w) b w (conj (reflexivity _) (reflexivity _))) as Hk.
  rewrite corners_array_eq in Hk |- *. unfold to_corners.
  destruct (_southWest b) as [sw |]; [| exists w; split; reflexivity].
  cbv zeta in *. set (p := unused (store w)) in *.
  set (wa := set_pairs <[p := [PNum (lat sw); PNum (lng sw)]]> w) in *.
  destruct (_northEast b) as [ne |]; [| exists wa; split; reflexivity].
  set (q := unused (store wa)) in *.
  set (wb := set_pairs <[q := [PNum (lat ne); PNum (lng ne)]]> wa) in *.
  set (x := unused (store wb)) in *.
  assert (x <> a) as Hxa.
  { intros Heq. pose proof (unused_arrays (store wb)) as Hu. fold x in Hu.
    rewrite Heq in Hu. simpl in Hu. congruence. }
  assert (q <> p) as Hqp.
  { intros Heq. pose proof (unused_pairs (store wa)) as Hu. fold q in Hu.
    rewrite Heq in Hu. simpl in Hu. rewrite lookup_insert_eq in Hu. discriminate Hu. }
  cbn [deref mbind outcome_bind mret outcome_ret].
  eexists x, _. split; [reflexivity |]. split; [exact Hxa |].
  split; [| split; [exact Hk | split; [| reflexivity]]].
  - unfold read_box, read_pair. simpl. rewrite lookup_insert_eq.
    rewrite (lookup_insert_ne _ q p) by exact Hqp. rewrite !lookup_insert_eq. reflexivity.
  - simpl. rewrite lookup_insert_ne by exact Hxa. exact Ha.
Qed.

(** The loop of [map]: the array at [a] receives the arrays of the boxes
    one after the other. *)
Lemma fill_run (a : loc) (bs : list LatLngBounds) :
  forall (w : World) (rows : list loc) (done : list corners),
    arrays (store w) !! a = Some rows ->
    Forall2 (fun x c => x <> a /\ read_box (store w) x = Some c) rows done ->
    match all_corners bs with
    | Ok cs =>
        exists w' rows',
          forM_ bs (fun b => y ← corners_array b; append a y) w = (Ok tt, w')
          /\ arrays (store w') !! a = Some rows'
          /\ Forall2 (fun x c => x <> a /\ read_box (store w') x = Some c) rows' (done ++ cs)
          /\ routeBoxer w' = routeBoxer w
    | Throw e =>
        exists w', forM_ bs (fun b => y ← corners_array b; append a y) w = (Throw e, w')
                   /\ routeBoxer w' = routeBoxer w
    | Diverge => False
    end.
Proof.
  induction bs as [| b bs IH]; intros w rows done Ha Hrows.
  - simpl. exists w, rows. rewrite app_nil_r. auto.
  - cbn [all_corners foldr forM_]. fold (all_corners bs).
    pose proof (corners_array_run b a rows w Ha) as Hb.
    destruct (to_corners b) as [c | e |]; [| | contradiction].
    + destruct Hb as (x & w1 & Hrun & Hxa & Hx & Hk & Ha1 & Hr1).
      set (w2 := set_arrays <[a := rows ++ [x]]> w1).
      assert ((corners_array b ≫= fun y => append a y) w = (Ok tt, w2)) as Hstep.
      { rewrite bind_run, Hrun. unfold append. rewrite Ha1. reflexivity. }
      assert (arrays (store w2) !! a = Some (rows ++ [x])) as Ha2
        by (simpl; apply lookup_insert_eq).
      assert (Forall2 (fun x c => x <> a /\ read_box (store w2) x = Some c)
                (rows ++ [x]) (done ++ [c])) as Hrows2.
      { apply Forall2_app.
        - eapply Forall2_impl; [exact Hrows |]. intros y d [Hy Hd]. split; [exact Hy |].
          unfold w2. rewrite read_box_set_arrays by exact Hy.
          eapply read_box_kept; eassumption.
        - constructor; [| constructor]. split; [exact Hxa |].
          unfold w2. rewrite read_box_set_arrays by exact Hxa. exact Hx. }
      specialize (IH w2 (rows ++ [x]) (done ++ [c]) Ha2 Hrows2).
      cbn [mbind outcome_bind]. destruct (all_corners bs) as [cs | e |]; [| | contradiction].
      * destruct IH as (w' & rows' & Hloop & Ha' & Hrows' & Hr').
        exists w', rows'. rewrite bind_run, Hstep. cbn [mret outcome_ret].
        rewrite <- app_assoc in Hrows'. repeat split; try assumption.
        rewrite Hr'. exact Hr1.
      * destruct IH as (w' & Hloop & Hr').
        exists w'. rewrite bind_run, Hstep. split; [exact Hloop |].
        rewrite Hr'. exact Hr1.
    + destruct Hb as (w1 & Hrun & Hr1). exists w1.
      rewrite bind_run, bind_run, Hrun. split; [reflexivity | exact Hr1].
Qed.

Lemma Array_map_corners_run (bounds : list LatLngBounds) (w : World) :
  match all_corners bounds with
  | Ok cs =>
      exists w', Array_map corners_array bounds w = (Ok (unused (store w)), w')
                 /\ read_boxes (store w') (unused (store w)) = Some cs
                 /\ routeBoxer w' = routeBoxer w
  | Throw e =>
      exists w', Array_map corners_array bounds w = (Throw e, w')
                 /\ routeBoxer w' = routeBoxer w
  | Diverge => False
  end.
Proof.
  unfold Array_map. set (a := unused (store w)).
  set (w1 := set_arrays <[a := []]> w).
  assert (arrays (store w1) !! a = Some []) as Ha by (simpl; apply lookup_insert_eq).
  pose proof (fill_run a bounds w1 [] [] Ha ltac:(constructor)) as H.
  destruct (all_corners bounds) as [cs | e |]; [| | contradiction].
  - destruct H as (w' & rows' & Hloop & Ha' & Hrows' & Hr').
    exists w'. rewrite bind_run. unfold make_array at 1. cbv beta iota zeta.
    fold a. fold w1. rewrite bind_run, Hloop. split; [reflexivity |].
    split; [| exact Hr'].
    unfold read_boxes. rewrite Ha'. simpl. eapply read_all, Hrows'.
  - destruct H as (w' & Hloop & Hr').
    exists w'. rewrite bind_run. unfold make_array at 1. cbv beta iota zeta.
    fold a. fold w1. rewrite bind_run, Hloop. split; [reflexivity | exact Hr'].
Qed.

Lemma mkBox_in_store_run (E : Engine) (fuel : nat) (pts : option loc) (dis : option num)
    (w : World) (r : outcome loc * World) (r' : outcome (list corners) * World) :
  mkBox_in_store E fuel pts dis w = r -> mkBox E fuel pts dis w = r' ->
  routeBoxer r.2 = routeBoxer r'.2
  /\ match r'.1 with
     | Ok boxes =>
         exists l, r.1 = Ok l /\ arrays (store w) !! l = None
                   /\ read_boxes (store r.2) l = Some boxes
     | Throw e => r.1 = Throw e
     | Diverge => r.1 = Diverge
     end.
Proof.
  unfold mkBox_in_store, mkBox. cbv zeta.
  rewrite (bind_run (make_array [])). unfold make_array at 1. cbv beta iota zeta.
  set (a := unused (store w)). set (w1 := set_arrays <[a := []]> w).
  assert (arrays (store w) !! a = None) as Hfresh by apply unused_arrays.
  assert (read_boxes (store w1) a = Some []) as Hempty.
  { unfold read_boxes. simpl. rewrite lookup_insert_eq. reflexivity. }
  destruct pts as [l |]; [| intros <- <-; split; [reflexivity | exists a; auto]].
  rewrite !bind_run. unfold load. cbv beta iota.
  assert (arrays (store w1) !! l = arrays (store w) !! l
          \/ (arrays (store w1) !! l = Some [] /\ arrays (store w) !! l = None)) as Hl.
  { simpl. destruct (decide (a = l)) as [<- | Hne].
    - right. rewrite lookup_insert_eq. auto.
    - left. apply lookup_insert_ne, Hne. }
  destruct Hl as [-> | [-> ->]]; [| intros <- <-; split; [reflexivity | exists a; auto]].
  destruct (arrays (store w) !! l) as [elems |];
    [| intros <- <-; split; [reflexivity | exists a; auto]].
  destruct (2 <=? length elems)%nat; [| intros <- <-; split; [reflexivity | exists a; auto]].
  rewrite !bind_run.
  rewrite (mapM_to_LatLng_pairs E elems w w1 eq_refl).
  pose proof (reads_store_mapM _ elems (to_LatLng_reads E) w w eq_refl) as Hm.
  destruct (mapM (to_LatLng E) elems w) as [o w0]. simpl in Hm. injection Hm as ->. cbn [fst].
  destruct o as [lls | e |]; [| intros <- <-; split; reflexivity ..].
  rewrite !bind_run.
  change w1 with (with_store (store w1) w).
  rewrite (box_store_free E (store w1) fuel lls (default (Z2num 20) dis) w).
  destruct (box E fuel lls (default (Z2num 20) dis) w) as [o w2]. cbn [fst snd].
  destruct o as [bounds | e |]; [| intros <- <-; split; reflexivity ..].
  rewrite mapM_to_corners_run.
  pose proof (Array_map_corners_run bounds (with_store (store w1) w2)) as H.
  destruct (all_corners bounds) as [cs | e |]; [| | contradiction].
  - destruct H as (w' & -> & Hread & Hr). intros <- <-. split; [exact Hr |].
    exists (unused (store w1)). split; [reflexivity |]. split; [| exact Hread].
    apply (kept_unused (store w) w1). apply (keeps_make_array (store w) [] w).
    split; reflexivity.
  - destruct H as (w' & -> & Hr). intros <- <-. split; [exact Hr | reflexivity].
Qed.

(** [mkBox_in_store] comes to what [mkBox] comes to: the same exception,
    or a new array that holds the boxes [mkBox] gives, and the same
    state of the singleton. *)
Lemma mkBox_in_store_boxes (E : Engine) (fuel : nat) (pts : option loc) (dis : option num)
    (w : World) :
  routeBoxer (mkBox_in_store E fuel pts dis w).2 = routeBoxer (mkBox E fuel pts dis w).2
  /\ match (mkBox E fuel pts dis w).1 with
     | Ok boxes =>
         exists l, (mkBox_in_store E fuel pts dis w).1 = Ok l
                   /\ arrays (store w) !! l = None
                   /\ read_boxes (store (mkBox_in_store E fuel pts dis w).2) l = Some boxes
     | Throw e => (mkBox_in_store E fuel pts dis w).1 = Throw e
     | Diverge => (mkBox_in_store E fuel pts dis w).1 = Diverge
     end.
Proof. apply (mkBox_in_store_run E fuel pts dis w); reflexivity. Qed.

(** C9.  With the arrays that [mkBox] makes placed in the store of the
    caller's arrays, every array and every coordinate array that the
    store holds before the call is in the store after it, at its
    location and with its elements, whether the call returns, throws or
    runs out of iterations: so are [pts] and every coordinate array of
    [pts].  The writes of [mkBox] ([map] fills the array it makes) go to
    arrays made during the call. *)
Theorem mkBox_input_unchanged (E : Engine) (fuel : nat) (pts : option loc) (dis : option num)
    (w : World) :
  arrays (store w) ⊆ arrays (store (mkBox_in_store E fuel pts dis w).2)
  /\ pairs (store w) ⊆ pairs (store (mkBox_in_store E fuel pts dis w).2).
Proof. apply (mkBox_in_store_keeps E fuel pts dis (store w) w). split; reflexivity. Qed.

(** *** The unit of the distance *)

Lemma mapM_to_LatLng_ok (E : Engine) (elems : list loc) (lls : list LatLng) (w : World) :
  Forall2 (constructs E (store w)) elems lls ->
  mapM (to_LatLng E) elems w = (Ok lls, w).
Proof.
  induction 1 as [| pl p elems lls (cs & Hcs & Hp) _ IH]; [reflexivity |].
  cbn [mapM]. rewrite bind_run.
  assert (to_LatLng E pl w = (Ok p, w)) as ->.
  { unfold to_LatLng. rewrite bind_run. unfold load. cbv beta iota. rewrite Hcs.
    rewrite bind_run. unfold lift, deref. cbv beta iota. rewrite Hp. reflexivity. }
  cbv beta iota. rewrite bind_run, IH. reflexivity.
Qed.

(** C1, as the code has it.  [mkBox] hands the distance it was given to
    the core as it is, with no division: on an array of two points or
    more it is the core computation on the points built from [pts], with
    the range [dis] (20 when the distance is left out), whose unit is
    therefore that of the Earth radius 6371 of [rhumbDestinationPoint],
    the kilometre. *)
Theorem mkBox_passes_distance_on (E : Engine) (fuel : nat) (l : loc) (elems : list loc)
    (lls : list LatLng) (dis : option num) (w : World) :
  arrays (store w) !! l = Some elems ->
  (2 <= length elems)%nat ->
  Forall2 (constructs E (store w)) elems lls ->
  mkBox E fuel (Some l) dis w = core_boxes E fuel lls (default (Z2num 20) dis) w.
Proof.
  intros Hl Hlen Hlls. unfold mkBox, core_boxes.
  rewrite bind_run. unfold load. cbv beta iota. rewrite Hl.
  destruct (Nat.leb_spec 2 (length elems)) as [_ | H]; [| lia].
  rewrite bind_run, (mapM_to_LatLng_ok E elems lls w Hlls). reflexivity.
Qed.

Lemma mkBox_passes_distance_on_witness :
  mkBox RefMath.engine 100 (Some 1%positive) (Some (Z2num 5)) (world_of routeC)
  = core_boxes RefMath.engine 100 verticesC (Z2num 5) (world_of routeC).
Proof.
  apply (mkBox_passes_distance_on RefMath.engine 100 1%positive [2%positive; 3%positive]
           verticesC (Some (Z2num 5)) (world_of routeC)).
  - reflexivity.
  - simpl; lia.
  - repeat constructor; eexists; (split; [reflexivity | reflexivity]).
Defined.

(** C1, as stated, fails: for the two points of [routeC] and the
    distance 5, [mkBox] returns two boxes, while the core run with the
    range 5 / 1000 returns three. *)
Lemma mkBox_divides_by_1000_counterexample :
  count_boxes (mkBox RefMath.engine 100 (Some 1%positive) (Some (Z2num 5)) (world_of routeC)).1
  = 2%nat
  /\ count_boxes
       (core_boxes RefMath.engine 100 verticesC (div (Z2num 5) (Z2num 1000)) (world_of routeC)).1
     = 3%nat
  /\ (mkBox RefMath.engine 100 (Some 1%positive) (Some (Z2num 5)) (world_of routeC)).1
     <> (core_boxes RefMath.engine 100 verticesC (div (Z2num 5) (Z2num 1000)) (world_of routeC)).1.
Proof.
  assert (count_boxes
            (mkBox RefMath.engine 100 (Some 1%positive) (Some (Z2num 5)) (world_of routeC)).1
          = 2%nat) as H2 by (vm_compute; reflexivity).
  assert (count_boxes
            (core_boxes RefMath.engine 100 verticesC (div (Z2num 5) (Z2num 1000))
               (world_of routeC)).1
          = 3%nat) as H3 by (vm_compute; reflexivity).
  split; [exact H2 | split; [exact H3 |]].
  intros H. rewrite H, H3 in H2. discriminate H2.
Qed.

(** *** The scenario of the test *)

(** C3.  With the reference engine, [mkBox] on the route of test/t1.js
    and the distance 5 returns the six boxes the test expects, whatever
    state the singleton was left in; the first and the last are the ones
    the specification quotes. *)
Theorem mkBox_scenario_A (r : RouteBoxer) :
  (mkBox RefMath.engine 100 (Some 1%positive) (Some (Z2num 5))
     {| store := store_of routeA; routeBoxer := r |}).1 = Ok expectA
  /\ length expectA = 6%nat
  /\ head expectA
     = Some ((dec 504 1, dec 3038836968319783 14),
             (dec 5057986432118374 14, dec 30458913122131893 15))
  /\ last expectA
     = Some ((dec 5022013567881625 14, dec 30741086877868096 15),
             (dec 504 1, dec 3081163031680215 14)).
Proof.
  split; [| repeat split].
  rewrite (mkBox_reset RefMath.engine 100 _ _ (store_of routeA) r RouteBoxer_init).
  vm_compute. reflexivity.
Qed.

(** *** The longitude of a destination *)

(** C5, on the code.  Starting at (0, -179) and going due west (bearing
    270) for 500 km, [rhumbDestinationPoint] returns a point, not [null],
    whose longitude is below -180, near -183.4966: the sum
    [lon1 + dLon + Math.PI] is negative and the remainder [%] keeps the
    sign of its dividend.  The same distance due east from (0, 179) is
    wrapped, to a longitude near -176.5034. *)
Theorem rhumbDestinationPoint_west_of_antimeridian :
  let west := {| lat := S754_finite true 8376772017499358 (-103);
                 lng := S754_finite true 6456212933951781 (-45) |} in
  let east := {| lat := S754_finite false 5584514678332905 (-104);
                 lng := S754_finite true 6210161018027739 (-45) |} in
  rhumbDestinationPoint RefMath.engine {| lat := Z2num 0; lng := Z2num (-179) |}
    (Z2num 270) (Z2num 500) = Ok (Some west)
  /\ lt (lng west) (Z2num (-180)) = true
  /\ lt (dec (-1835) 1) (lng west) = true /\ lt (lng west) (dec (-18349) 2) = true
  /\ rhumbDestinationPoint RefMath.engine {| lat := Z2num 0; lng := Z2num 179 |}
       (Z2num 90) (Z2num 500) = Ok (Some east)
  /\ lt (dec (-1766) 1) (lng east) = true /\ lt (lng east) (dec (-1765) 1) = true.
Proof. vm_compute. repeat split. Qed.

(** *** Point construction *)

(** Rounding gives a number. *)

Lemma shr_1_nonneg (mrs : shr_record) : 0 <= shr_m mrs -> 0 <= shr_m (shr_1 mrs).
Proof. destruct mrs as [[| [p | p |] | p] r s]; simpl; lia. Qed.

Lemma iter_shr_1_nonneg (p : positive) (mrs : shr_record) :
  0 <= shr_m mrs -> 0 <= shr_m (SpecFloat.iter_pos shr_1 p mrs).
Proof.
  revert mrs. induction p as [p IH | p IH |]; intros mrs H; simpl.
  - apply IH, IH, shr_1_nonneg, H.
  - apply IH, IH, H.
  - apply shr_1_nonneg, H.
Qed.

Lemma shr_fexp_nonneg (m e : Z) (l : location) :
  0 <= m -> 0 <= shr_m (fst (shr_fexp prec emax m e l)).
Proof.
  intros H. unfold shr_fexp, shr.
  assert (0 <= shr_m (shr_record_of_loc m l)) as H0 by (destruct l as [| []]; exact H).
  destruct (fexp prec emax (Zdigits2 m + e) - e); simpl; try exact H0.
  apply iter_shr_1_nonneg, H0.
Qed.

Lemma round_nearest_even_nonneg (m : Z) (l : location) :
  0 <= m -> 0 <= round_nearest_even m l.
Proof.
  intros H. unfold round_nearest_even. destruct l as [| []]; try lia.
  destruct (Z.even m); lia.
Qed.

Lemma binary_round_aux_number (s : bool) (m e : Z) (l : location) :
  0 <= m -> isNaN (binary_round_aux prec emax s m e l) = false.
Proof.
  intros H. unfold binary_round_aux.
  pose proof (shr_fexp_nonneg m e l H) as H1.
  destruct (shr_fexp prec emax m e l) as [mrs' e']. simpl in H1.
  pose proof (shr_fexp_nonneg _ e' loc_Exact
                (round_nearest_even_nonneg _ (loc_of_shr_record mrs') H1)) as H2.
  destruct (shr_fexp prec emax _ e' loc_Exact) as [mrs'' e'']. simpl in H2.
  destruct (shr_m mrs''); [reflexivity | | lia].
  destruct (_ <=? _); reflexivity.
Qed.

Lemma binary_normalize_number (m e : Z) (sz : bool) :
  isNaN (binary_normalize prec emax m e sz) = false.
Proof.
  destruct m as [| p | p]; simpl; [reflexivity | |];
    unfold binary_round; destruct (shl_align _ _ _); apply binary_round_aux_number; lia.
Qed.

(** ** The strings that are numbers *)

Lemma Z2num_number (z : Z) : isNaN (Z2num z) = false.
Proof. apply binary_normalize_number. Qed.

Lemma Q2num_number (p : Z) (q : positive) : isNaN (Q2num p q) = false.
Proof. unfold Q2num. destruct p; [reflexivity | |]; apply binary_normalize_number. Qed.

Lemma scale10_number (m e : Z) : isNaN (scale10 m e) = false.
Proof. unfold scale10. destruct (0 <=? e); [apply Z2num_number | apply Q2num_number]. Qed.

Lemma SFopp_number (x : num) : isNaN (SFopp x) = isNaN x.
Proof. destruct x; reflexivity. Qed.

Lemma digit_no_space (b : Z) (c : ascii) : is_digit b c = true -> is_space c = false.
Proof.
  unfold is_digit, digit_of, is_space. set (n := code c).
  destruct (48 <=? n) eqn:H1, (n <=? 57) eqn:H2, (97 <=? n) eqn:H3, (n <=? 102) eqn:H4,
    (65 <=? n) eqn:H5, (n <=? 70) eqn:H6; simpl; intros H; try discriminate H; lia.
Qed.

Lemma forallb_Forall (p : ascii -> bool) (l : list ascii) :
  forallb p l = true <-> Forall (fun c => p c = true) l.
Proof.
  induction l as [| c l IH]; simpl.
  - split; [constructor | reflexivity].
  - rewrite andb_true_iff, IH, Forall_cons. reflexivity.
Qed.

Lemma nonempty_true {A} (l : list A) : nonempty l = true <-> l <> [].
Proof. destruct l; simpl; split; intros H; congruence. Qed.

Lemma digits_bool (l : list ascii) :
  nonempty l && forallb (is_digit 10) l = true <-> DecimalDigits l.
Proof.
  unfold DecimalDigits. rewrite andb_true_iff, nonempty_true, forallb_Forall. reflexivity.
Qed.

Lemma span_app (p : ascii -> bool) (a b : list ascii) :
  Forall (fun c => p c = true) a -> stops p b -> span p (a ++ b) = (a, b).
Proof.
  intros Ha Hb. induction Ha as [| c a Hc Ha IH]; simpl.
  - destruct b as [| c b]; [reflexivity |]. simpl in *. rewrite Hb. reflexivity.
  - rewrite Hc, IH. reflexivity.
Qed.

Lemma span_inv (p : ascii -> bool) (l a b : list ascii) :
  span p l = (a, b) -> l = a ++ b /\ Forall (fun c => p c = true) a /\ stops p b.
Proof.
  revert a b. induction l as [| c l IH]; intros a b; simpl.
  - intros H. injection H as <- <-. repeat split. constructor.
  - destruct (p c) eqn:Hc.
    + destruct (span p l) as [a' b'] eqn:Hs. destruct (IH a' b' eq_refl) as (-> & Ha' & Hb').
      intros H. injection H as <- <-. repeat split; [constructor; assumption | assumption].
    + intros H. injection H as <- <-. repeat split; [constructor | exact Hc].
Qed.

Lemma drop_spaces_inv (l : list ascii) :
  exists a, l = a ++ drop_spaces l /\ Forall (fun x => is_space x = true) a.
Proof.
  induction l as [| c l (a & IH & Ha)]; simpl.
  - exists []. split; [reflexivity | constructor].
  - destruct (is_space c) eqn:Hc.
    + exists (c :: a). split; [simpl; f_equal; exact IH | constructor; assumption].
    + exists []. split; [reflexivity | constructor].
Qed.

Lemma drop_spaces_end_inv (l : list ascii) :
  exists c, l = drop_spaces_end l ++ c /\ Forall (fun x => is_space x = true) c.
Proof.
  induction l as [| x l (c & IH & Hc)]; simpl.
  - exists []. split; [reflexivity | constructor].
  - destruct (drop_spaces_end l) as [| y t] eqn:Ht.
    + simpl in IH. subst c. destruct (is_space x) eqn:Hx.
      * exists (x :: l). split; [reflexivity | constructor; assumption].
      * exists l. split; [reflexivity | assumption].
    + exists c. split; [simpl; f_equal; exact IH | assumption].
Qed.

Lemma trim_inv (l : list ascii) :
  exists a c, l = a ++ trim l ++ c
              /\ Forall (fun x => is_space x = true) a /\ Forall (fun x => is_space x = true) c.
Proof.
  destruct (drop_spaces_inv l) as (a & Hl & Ha).
  destruct (drop_spaces_end_inv (drop_spaces l)) as (c & Hd & Hc).
  exists a, c. unfold trim. rewrite <- Hd. auto.
Qed.

Lemma drop_spaces_all (a : list ascii) :
  Forall (fun x => is_space x = true) a -> drop_spaces a = [].
Proof. induction 1 as [| x a Hx Ha IH]; simpl; [| rewrite Hx]; auto. Qed.

Lemma drop_spaces_end_all (a : list ascii) :
  Forall (fun x => is_space x = true) a -> drop_spaces_end a = [].
Proof. induction 1 as [| x a Hx Ha IH]; simpl; [| rewrite IH, Hx]; auto. Qed.

Lemma drop_spaces_app (a b : list ascii) :
  Forall (fun x => is_space x = true) a -> drop_spaces (a ++ b) = drop_spaces b.
Proof. induction 1 as [| x a Hx Ha IH]; simpl; [| rewrite Hx]; auto. Qed.

Lemma drop_spaces_head (b : list ascii) :
  stops is_space b -> drop_spaces b = b.
Proof. destruct b as [| x b]; simpl; [| intros ->]; reflexivity. Qed.

Lemma drop_spaces_end_app (b c : list ascii) :
  Forall (fun x => is_space x = false) b -> Forall (fun x => is_space x = true) c ->
  drop_spaces_end (b ++ c) = b.
Proof.
  intros Hb Hc. induction Hb as [| x b Hx Hb IH]; simpl.
  - apply drop_spaces_end_all, Hc.
  - rewrite IH. destruct b; [rewrite Hx |]; reflexivity.
Qed.

Lemma trim_literal (a b c : list ascii) :
  Forall (fun x => is_space x = true) a -> Forall (fun x => is_space x = false) b ->
  Forall (fun x => is_space x = true) c ->
  trim (a ++ b ++ c) = b.
Proof.
  intros Ha Hb Hc. unfold trim. rewrite drop_spaces_app by exact Ha.
  destruct b as [| x b].
  - simpl. rewrite drop_spaces_all by exact Hc. reflexivity.
  - rewrite drop_spaces_head by (apply Forall_cons in Hb as [Hx _]; exact Hx).
    apply drop_spaces_end_app; assumption.
Qed.

Ltac chars :=
  repeat match goal with
    | H : Ascii.eqb _ _ = true |- _ => apply Ascii.eqb_eq in H; subst
    | H : Ascii.eqb _ _ = false |- _ => apply Ascii.eqb_neq in H
    | H : _ || _ = true |- _ => apply orb_true_iff in H as [H | H]
    | H : _ || _ = false |- _ => apply orb_false_iff in H as [? ?]
    | H : _ && _ = true |- _ => apply andb_true_iff in H as [? ?]
    end.

Lemma digits_head (d : list ascii) :
  DecimalDigits d -> exists c d', d = c :: d' /\ is_digit 10 c = true.
Proof.
  intros [Hn Hd]. destruct d as [| c d']; [congruence |].
  apply Forall_cons in Hd as [Hc _]. eauto.
Qed.

Lemma exponent_head (e : list ascii) :
  e = [] \/ ExponentPart e -> stops (is_digit 10) e /\ stops (fun c => Ascii.eqb c ".") e.
Proof. intros [-> | [d H | d H]]; split; reflexivity. Qed.

Lemma exponent_Some (e : list ascii) :
  exponent e <> None <-> e = [] \/ ExponentPart e.
Proof.
  split.
  - destruct e as [| c r]; [auto |]. simpl. intros H. right.
    destruct (Ascii.eqb c "e" || Ascii.eqb c "E") eqn:Hc; [| congruence].
    assert (SignedInteger r) as Hr.
    { destruct r as [| s d].
      - simpl in H. congruence.
      - destruct (Ascii.eqb s "+") eqn:Hp; [| destruct (Ascii.eqb s "-") eqn:Hm];
          match type of H with context [if ?b then _ else _] => destruct b eqn:Hd end;
          try congruence; apply digits_bool in Hd; chars; constructor; exact Hd. }
    chars; constructor; exact Hr.
  - intros [-> | H]; [discriminate |].
    assert (forall d, SignedInteger d ->
              (let '(sgn, d0) :=
                 match d with
                 | s :: d0 => if Ascii.eqb s "+" then (1, d0)
                              else if Ascii.eqb s "-" then (-1, d0) else (1, d)
                 | [] => (1, d)
                 end in
               if nonempty d0 && forallb (is_digit 10) d0
               then Some (sgn * digits_value 10 d0) else None) <> None) as Hs.
    { intros d [d0 Hd | d0 Hd | d0 Hd].
      - destruct (digits_head d0 Hd) as (c & d' & -> & Hc).
        apply digits_bool in Hd.
        destruct (Ascii.eqb_spec c "+") as [-> | _]; [discriminate Hc |].
        destruct (Ascii.eqb_spec c "-") as [-> | _]; [discriminate Hc |].
        rewrite Hd. discriminate.
      - apply digits_bool in Hd. cbn [Ascii.eqb Bool.eqb]. rewrite Hd. discriminate.
      - apply digits_bool in Hd. cbn [Ascii.eqb Bool.eqb]. rewrite Hd. discriminate. }
    destruct H as [d H | d H]; exact (Hs d H).
Qed.

Lemma decimal_parts_Some (u : list ascii) :
  decimal_parts u <> None <-> StrUnsignedDecimalLiteral u /\ u <> Infinity_chars.
Proof.
  split.
  - unfold decimal_parts. destruct (span (is_digit 10) u) as [i r] eqn:Hs.
    apply span_inv in Hs as (-> & Hi & Hr). intros H.
    assert (StrUnsignedDecimalLiteral (i ++ r)) as Hu.
    { destruct r as [| c r'].
      - destruct (nonempty i) eqn:Hn; [| congruence]. apply nonempty_true in Hn.
        apply unsigned_integer; [split; assumption | auto].
      - destruct (Ascii.eqb c ".") eqn:Hc.
        + destruct (span (is_digit 10) r') as [f r''] eqn:Hs'.
          apply span_inv in Hs' as (-> & Hf & Hr'). chars.
          destruct (nonempty i || nonempty f) eqn:Hn; [| congruence].
          destruct (exponent r'') as [e |] eqn:He; [| congruence].
          assert (r'' = [] \/ ExponentPart r'') as He' by (apply exponent_Some; congruence).
          destruct i as [| x i].
          * simpl in Hn. apply nonempty_true in Hn.
            apply unsigned_fraction; [split; assumption | assumption].
          * apply unsigned_point; [split; [discriminate | assumption] | | assumption].
            destruct f as [| y f]; [auto | right; split; [discriminate | assumption]].
        + destruct (nonempty i) eqn:Hn; [| congruence]. apply nonempty_true in Hn.
          destruct (exponent (c :: r')) as [e |] eqn:He; [| congruence].
          apply unsigned_integer; [split; assumption |]. apply exponent_Some. congruence. }
    split; [exact Hu |]. intros Heq.
    destruct i as [| x i]; simpl in Heq.
    + subst r. simpl in H. congruence.
    + injection Heq as -> _. apply Forall_cons in Hi as [Hx _]. discriminate Hx.
  - intros [H Hn]. unfold decimal_parts.
    destruct H as [| i f e Hi Hf He | f e Hf He | i e Hi He]; [congruence | | |].
    + destruct (exponent_head e He) as [He1 _].
      assert (Forall (fun c => is_digit 10 c = true) f) as Hf'
        by (destruct Hf as [-> | [_ Hf]]; [constructor | exact Hf]).
      rewrite (span_app _ i ("."%char :: f ++ e)) by (try apply Hi; reflexivity).
      cbn [Ascii.eqb Bool.eqb]. rewrite (span_app _ f e Hf' He1).
      destruct Hi as [Hi _]. apply nonempty_true in Hi. rewrite Hi. simpl.
      apply exponent_Some in He. destruct (exponent e); congruence.
    + destruct (exponent_head e He) as [He1 _].
      change ("."%char :: f ++ e) with ([] ++ "."%char :: f ++ e).
      rewrite (span_app _ [] ("."%char :: f ++ e)) by (try constructor; reflexivity).
      cbn [Ascii.eqb Bool.eqb]. rewrite (span_app _ f e) by (try apply Hf; exact He1).
      destruct Hf as [Hf _]. apply nonempty_true in Hf. rewrite Hf. simpl.
      apply exponent_Some in He. destruct (exponent e); congruence.
    + destruct (exponent_head e He) as [He1 He2].
      rewrite (span_app _ i e) by (try apply Hi; exact He1).
      destruct Hi as [Hi _]. apply nonempty_true in Hi. rewrite Hi.
      destruct e as [| c e']; [discriminate |]. simpl in He2. rewrite He2.
      apply exponent_Some in He. destruct (exponent (c :: e')); congruence.
Qed.

Lemma unsigned_decimal_number (u : list ascii) :
  isNaN (unsigned_decimal u) = false <-> StrUnsignedDecimalLiteral u.
Proof.
  unfold unsigned_decimal. destruct (bool_decide (u = Infinity_chars)) eqn:Hi.
  - apply bool_decide_eq_true in Hi. subst u. split; [constructor | reflexivity].
  - apply bool_decide_eq_false in Hi. pose proof (decimal_parts_Some u) as H.
    destruct (decimal_parts u) as [[m e] |].
    + rewrite scale10_number. split; [intros _; apply H; discriminate | reflexivity].
    + split; [discriminate |]. intros Hu. exfalso. apply H; [auto | reflexivity].
Qed.

Lemma unsigned_head (u : list ascii) :
  StrUnsignedDecimalLiteral u ->
  exists c u', u = c :: u' /\ c <> "+"%char /\ c <> "-"%char.
Proof.
  assert (forall c, is_digit 10 c = true -> c <> "+"%char /\ c <> "-"%char) as Hd
    by (intros c Hc; split; intros ->; discriminate Hc).
  intros [| i f e Hi Hf He | f e Hf He | i e Hi He].
  - eexists _, _. split; [reflexivity | split; discriminate].
  - destruct (digits_head i Hi) as (c & i' & -> & Hc). eexists _, _. split; [reflexivity | auto].
  - eexists _, _. split; [reflexivity | split; discriminate].
  - destruct (digits_head i Hi) as (c & i' & -> & Hc). eexists _, _. split; [reflexivity | auto].
Qed.

Lemma decimal_number (l : list ascii) :
  isNaN (decimal l) = false <-> StrDecimalLiteral l.
Proof.
  split.
  - destruct l as [| c u]; [discriminate |]. simpl.
    destruct (Ascii.eqb c "+") eqn:Hp; [| destruct (Ascii.eqb c "-") eqn:Hm]; chars.
    + intros H. apply decimal_plus, unsigned_decimal_number, H.
    + rewrite SFopp_number. intros H. apply decimal_minus, unsigned_decimal_number, H.
    + intros H. apply decimal_unsigned, unsigned_decimal_number, H.
  - intros [u Hu | u Hu | u Hu].
    + destruct (unsigned_head u Hu) as (c & u' & -> & Hp & Hm). simpl.
      apply Ascii.eqb_neq in Hp, Hm. rewrite Hp, Hm. apply unsigned_decimal_number, Hu.
    + simpl. apply unsigned_decimal_number, Hu.
    + simpl. rewrite SFopp_number. apply unsigned_decimal_number, Hu.
Qed.

Lemma nondecimal_Some (l : list ascii) (x : num) :
  nondecimal l = Some x -> NonDecimalIntegerLiteral l /\ isNaN x = false.
Proof.
  destruct l as [| z [| c ds]]; try discriminate. simpl.
  destruct (Ascii.eqb z "0") eqn:Hz; [| discriminate]. chars. unfold radix.
  destruct (Ascii.eqb c "b" || Ascii.eqb c "B") eqn:Hb;
    [| destruct (Ascii.eqb c "o" || Ascii.eqb c "O") eqn:Ho;
       [| destruct (Ascii.eqb c "x" || Ascii.eqb c "X") eqn:Hx; [| discriminate]]];
    match goal with |- context [if ?b then _ else _] => destruct b eqn:Hd end;
    try discriminate; intros H; injection H as <-;
    (split; [| apply Z2num_number]);
    apply andb_true_iff in Hd as [Hn Hd]; apply nonempty_true in Hn; apply forallb_Forall in Hd.
  - apply nondecimal_binary; [| assumption | assumption].
    apply orb_true_iff in Hb as [Hb | Hb]; apply Ascii.eqb_eq in Hb; auto.
  - apply nondecimal_octal; [| assumption | assumption].
    apply orb_true_iff in Ho as [Ho | Ho]; apply Ascii.eqb_eq in Ho; auto.
  - apply nondecimal_hex; [| assumption | assumption].
    apply orb_true_iff in Hx as [Hx | Hx]; apply Ascii.eqb_eq in Hx; auto.
Qed.

Lemma nondecimal_literal (l : list ascii) :
  NonDecimalIntegerLiteral l -> exists x, nondecimal l = Some x.
Proof.
  intros [c ds Hc Hn Hd | c ds Hc Hn Hd | c ds Hc Hn Hd];
    apply nonempty_true in Hn; apply forallb_Forall in Hd;
    destruct Hc as [-> | ->]; simpl; rewrite Hn, Hd; eauto.
Qed.

Lemma digits_no_space (b : Z) (d : list ascii) :
  Forall (fun c => is_digit b c = true) d -> Forall (fun x => is_space x = false) d.
Proof. induction 1; constructor; eauto using digit_no_space. Qed.

Lemma exponent_no_space (e : list ascii) :
  e = [] \/ ExponentPart e -> Forall (fun x => is_space x = false) e.
Proof.
  assert (forall d, SignedInteger d -> Forall (fun x => is_space x = false) d) as Hs.
  { intros d [d0 [_ H] | d0 [_ H] | d0 [_ H]]; repeat (constructor; [reflexivity |]);
      apply (digits_no_space 10), H. }
  intros [-> | [d H | d H]]; [constructor | |]; (constructor; [reflexivity | apply Hs, H]).
Qed.

Lemma decimal_no_space (l : list ascii) :
  StrDecimalLiteral l -> Forall (fun x => is_space x = false) l.
Proof.
  assert (forall u, StrUnsignedDecimalLiteral u -> Forall (fun x => is_space x = false) u) as Hu.
  { intros u [| i f e [_ Hi] Hf He | f e [_ Hf] He | i e [_ Hi] He].
    - repeat constructor.
    - apply Forall_app. split; [apply (digits_no_space 10), Hi |].
      constructor; [reflexivity |]. apply Forall_app. split; [| apply exponent_no_space, He].
      destruct Hf as [-> | [_ Hf]]; [constructor | apply (digits_no_space 10), Hf].
    - constructor; [reflexivity |]. apply Forall_app.
      split; [apply (digits_no_space 10), Hf | apply exponent_no_space, He].
    - apply Forall_app. split; [apply (digits_no_space 10), Hi | apply exponent_no_space, He]. }
  intros [u H | u H | u H]; [| constructor; [reflexivity |] ..]; apply Hu, H.
Qed.

Lemma nondecimal_no_space (l : list ascii) :
  NonDecimalIntegerLiteral l -> Forall (fun x => is_space x = false) l.
Proof.
  intros [c ds Hc _ Hd | c ds Hc _ Hd | c ds Hc _ Hd];
    (constructor; [reflexivity |]); (constructor; [destruct Hc as [-> | ->]; reflexivity |]);
    eapply digits_no_space, Hd.
Qed.

(** [StrToNumber] gives a number exactly for the strings of the grammar. *)
Lemma StrToNumber_number (s : string) :
  isNaN (StrToNumber s) = false <-> StringNumericLiteral (list_ascii_of_string s).
Proof.
  unfold StrToNumber. set (l := list_ascii_of_string s). split.
  - intros H. destruct (trim_inv l) as (a & c & Hl & Ha & Hc).
    exists a, (trim l), c. repeat split; try assumption.
    destruct (trim l) as [| x b] eqn:Hb; [auto | right].
    destruct (nondecimal (x :: b)) as [y |] eqn:Hy.
    + right. exact (proj1 (nondecimal_Some _ y Hy)).
    + left. apply decimal_number, H.
  - intros (a & b & c & Hl & Ha & Hc & Hb).
    assert (Forall (fun x => is_space x = false) b) as Hn.
    { destruct Hb as [-> | [Hb | Hb]];
        [constructor | apply decimal_no_space, Hb | apply nondecimal_no_space, Hb]. }
    rewrite Hl, (trim_literal a b c Ha Hn Hc).
    destruct b as [| x b]; [reflexivity |].
    destruct Hb as [Hb | [Hb | Hb]]; [discriminate Hb | |].
    + destruct (nondecimal (x :: b)) as [y |] eqn:Hy.
      * exact (proj2 (nondecimal_Some _ y Hy)).
      * apply decimal_number, Hb.
    + destruct (nondecimal_literal _ Hb) as [y Hy]. rewrite Hy.
      exact (proj2 (nondecimal_Some _ y Hy)).
Qed.

Lemma StrToNumber_examples :
  StrToNumber "12" = Z2num 12 /\ StrToNumber "1e3" = Z2num 1000
  /\ StrToNumber " 7" = Z2num 7 /\ StrToNumber "+5" = Z2num 5
  /\ StrToNumber "-2.50" = SFopp (dec 25 1) /\ StrToNumber ".5e1" = Z2num 5
  /\ StrToNumber "0x1F" = Z2num 31 /\ StrToNumber "0b101" = Z2num 5
  /\ StrToNumber "Infinity" = S754_infinity false /\ StrToNumber "" = pzero
  /\ StrToNumber "north" = NaN /\ StrToNumber "1e" = NaN /\ StrToNumber "." = NaN
  /\ StrToNumber "-0x10" = NaN /\ StrToNumber "1 2" = NaN /\ StrToNumber "12px" = NaN.
Proof. vm_compute. repeat split. Qed.

Lemma ToNumber_cases (E : Engine) (v : jsprim) :
  standard_strings E ->
  (convertible v /\ in_message v = Ok tt /\ exists x, ToNumber E v = Ok x /\ isNaN x = false)
  \/ (~ convertible v /\ in_message v = Ok tt /\ ~ is_BigInt v
      /\ exists x, ToNumber E v = Ok x /\ isNaN x = true)
  \/ (~ convertible v /\ in_message v = Ok tt /\ is_BigInt v /\ ToNumber E v = Throw TypeError)
  \/ (~ convertible v /\ v = PSymbol).
Proof.
  intros Hs. destruct v as [| | b | x | s | z |]; simpl.
  - right. left. split; [tauto |]. split; [reflexivity |]. split; [tauto |]. eauto.
  - left. split; [exact I |]. split; [reflexivity |]. eauto.
  - left. split; [exact I |]. split; [reflexivity |]. eexists. split; [reflexivity |].
    destruct b; [exact (Z2num_number 1) | reflexivity].
  - destruct (isNaN x) eqn:Hx.
    + right. left. split; [discriminate |]. split; [reflexivity |]. split; [tauto |]. eauto.
    + left. split; [reflexivity |]. split; [reflexivity |]. eauto.
  - rewrite Hs. pose proof (StrToNumber_number s) as H.
    destruct (isNaN (StrToNumber s)) eqn:Hx.
    + right. left. split; [| split; [reflexivity |]; split; [tauto |]; eauto].
      intros Hl. apply H in Hl. discriminate Hl.
    + left. split; [apply H; reflexivity |]. split; [reflexivity |]. eauto.
  - right. right. left. split; [tauto |]. split; [reflexivity |]. split; [exact I | reflexivity].
  - right. right. right. split; [tauto | reflexivity].
Qed.

Lemma mapM_to_LatLng_throw (E : Engine) (before after : list loc) (pl : loc) (cs : list jsprim)
    (e : jserror) (w : World) :
  Forall (fun q => exists p, constructs E (store w) q p) before ->
  pairs (store w) !! pl = Some cs ->
  new_LatLng E (nth 0 cs PUndefined) (nth 1 cs PUndefined) = Throw e ->
  mapM (to_LatLng E) (before ++ pl :: after) w = (Throw e, w).
Proof.
  intros Hb Hcs He. induction Hb as [| q before [p (cq & Hq & Hp)] _ IH].
  - cbn [app mapM]. rewrite bind_run. unfold to_LatLng.
    rewrite bind_run. unfold load. cbv beta iota. rewrite Hcs.
    rewrite bind_run. unfold lift, deref. cbv beta iota. rewrite He. reflexivity.
  - cbn [app mapM]. rewrite bind_run.
    assert (to_LatLng E q w = (Ok p, w)) as ->.
    { unfold to_LatLng. rewrite bind_run. unfold load. cbv beta iota. rewrite Hq.
      rewrite bind_run. unfold lift, deref. cbv beta iota. rewrite Hp. reflexivity. }
    cbv beta iota. rewrite bind_run. fold (before ++ pl :: after). rewrite IH. reflexivity.
Qed.

(** C6, as the code has it.  In a host whose conversion of strings is
    that of the standard, [new LatLng(lat, lng)] on two primitive values
    returns exactly when both are values that the conversion to a number
    accepts and does not make NaN ([null], a boolean, a number other
    than NaN, a string of the grammar StringNumericLiteral, such as the
    empty string), and throws in every other case: on [undefined], NaN,
    any other string, a BigInt or a Symbol.  What it throws is the Error
    of the constructor, unless a BigInt or a Symbol reaches [isNaN], or a
    Symbol the message, which throws a TypeError first.  [mkBox] does
    not catch the exception: the first coordinate array of [pts] on
    which the construction throws makes the call throw the same error,
    and nothing of the core has run. *)
Theorem LatLng_invalid_coordinate (E : Engine) (Hs : standard_strings E) :
  (forall lat lng,
      ((exists p, new_LatLng E lat lng = Ok p) <-> convertible lat /\ convertible lng)
      /\ ((exists e, new_LatLng E lat lng = Throw e) <-> ~ (convertible lat /\ convertible lng))
      /\ (forall e, new_LatLng E lat lng = Throw e ->
            (meets_TypeError lat lng /\ e = TypeError)
            \/ (~ meets_TypeError lat lng /\ e = InvalidLatLng lat lng)))
  /\ (forall fuel l before pl after cs e dis w,
         arrays (store w) !! l = Some (before ++ pl :: after) ->
         (2 <= length (before ++ pl :: after))%nat ->
         Forall (fun q => exists p, constructs E (store w) q p) before ->
         pairs (store w) !! pl = Some cs ->
         new_LatLng E (nth 0 cs PUndefined) (nth 1 cs PUndefined) = Throw e ->
         mkBox E fuel (Some l) dis w = (Throw e, w)).
Proof.
  split.
  - intros lat lng. unfold new_LatLng, global_isNaN, meets_TypeError.
    destruct (ToNumber_cases E lat Hs)
      as [(Ca & Ma & x & -> & Hx) | [(Ca & Ma & Ba & x & -> & Hx)
          | [(Ca & Ma & Ba & ->) | (Ca & ->)]]];
      destruct (ToNumber_cases E lng Hs)
        as [(Cb & Mb & y & Hb & Hy) | [(Cb & Mb & Bb & y & Hb & Hy)
            | [(Cb & Mb & Bb & Hb) | (Cb & ->)]]];
      cbn -[convertible]; rewrite ?Hx; cbn -[convertible]; rewrite ?Hb; cbn -[convertible];
      rewrite ?Hy, ?Ma; cbn -[convertible]; rewrite ?Mb; cbn -[convertible];
      try (assert (~ is_BigInt lat) by (destruct lat; simpl in *; tauto));
      (split; [| split]);
      try (split; [intros [? ?]; discriminate | tauto]);
      try (split; [intros _; tauto | eauto]);
      try (split; [eauto | tauto]);
      try (split; [intros [? ?]; discriminate | intros []; split; assumption]);
      try (intros e He; injection He as <-;
           first [ left; split; [tauto | reflexivity]
                 | right; split; [| reflexivity];
                   intros [? | [? | [? | [? ?]]]];
                   try (subst; simpl in *; discriminate); tauto ]);
      try (intros e He; discriminate He).
  - intros fuel l before pl after cs e dis w Hl Hlen Hb Hcs He.
    unfold mkBox. rewrite bind_run. unfold load. cbv beta iota. rewrite Hl.
    destruct (Nat.leb_spec 2 (length (before ++ pl :: after))) as [_ | H]; [| lia].
    rewrite bind_run, (mapM_to_LatLng_throw E before after pl cs e w Hb Hcs He). reflexivity.
Qed.

Lemma LatLng_invalid_coordinate_witness :
  standard_strings RefMath.engine
  /\ (exists e, new_LatLng RefMath.engine (PStr "north") (PNum (Z2num 3)) = Throw e)
  /\ mkBox RefMath.engine 100 (Some 1%positive) None
       (world_of [pt (Z2num 1) (Z2num 2); [PStr "north"; PNum (Z2num 3)]; pt (Z2num 4) (Z2num 5)])
     = (Throw (InvalidLatLng (PStr "north") (PNum (Z2num 3))),
        world_of [pt (Z2num 1) (Z2num 2); [PStr "north"; PNum (Z2num 3)];
                  pt (Z2num 4) (Z2num 5)]).
Proof.
  assert (standard_strings RefMath.engine) as Hs by (intros s; reflexivity).
  split; [exact Hs |].
  destruct (LatLng_invalid_coordinate RefMath.engine Hs) as [H1 H2].
  split.
  - apply (H1 (PStr "north") (PNum (Z2num 3))). intros [Hc _].
    apply StrToNumber_number in Hc. discriminate Hc.
  - apply (H2 100%nat 1%positive [2%positive] 3%positive [4%positive]
             [PStr "north"; PNum (Z2num 3)]).
    + reflexivity.
    + simpl; lia.
    + repeat constructor. eexists. eexists. split; reflexivity.
    + reflexivity.
    + reflexivity.
Defined.

(** C6, as stated, fails: [null] is not numeric, and [new LatLng(null, 5)]
    throws nothing; it is the point (0, 5). *)
Lemma LatLng_null_counterexample :
  ~ numeric PNull
  /\ new_LatLng RefMath.engine PNull (PNum (Z2num 5)) = Ok {| lat := pzero; lng := Z2num 5 |}.
Proof. split; [intros H; exact H | reflexivity]. Qed.

(** *** The selection between the two lists *)

(** C2, as the code has it.  [box] is the rasterization followed by the
    merge and the selection, and on every grid on which both traversals
    run to their end the selection returns the list made by columns
    whenever it is no longer than the list made by rows (so also on a
    tie), and the list made by rows only when that one is strictly
    shorter. *)
Theorem box_returns_column_first_on_tie (E : Engine) :
  (forall fuel path range w,
      box E fuel path range w = (rasterize E fuel path range ≫= fun _ => cover E) w)
  /\ (forall w,
         (sweep_rows E w).1 = Ok tt ->
         (sweep_columns E w).1 = Ok tt ->
         (cover E w).1
         = Ok (if (length (column_first E w) <=? length (row_first E w))%nat
               then column_first E w else row_first E w)).
Proof.
  split; [apply box_rasterize_cover |].
  intros w Hr Hc. unfold cover, mergeIntersectingCells_.
  rewrite bind_assoc_run, bind_run.
  pose proof (sweep_rows_only_boxesY E w) as Hw.
  destruct (sweep_rows E w) as [o wr]. simpl in Hr, Hw. subst o wr.
  rewrite bind_run, (sweep_columns_commutes E (row_first E w) w).
  unfold column_first. destruct (sweep_columns E w) as [o wc]. simpl in Hc. subst o.
  reflexivity.
Qed.

Lemma box_returns_column_first_on_tie_witness :
  (cover RefMath.engine gridA).1
  = Ok (if (length (column_first RefMath.engine gridA)
            <=? length (row_first RefMath.engine gridA))%nat
        then column_first RefMath.engine gridA else row_first RefMath.engine gridA).
Proof.
  apply (proj2 (box_returns_column_first_on_tie RefMath.engine) gridA);
    vm_compute; reflexivity.
Defined.

(** C2, as stated, fails on the route of test/t1.js: the two lists have
    six boxes each, the list by rows starts with the box whose south edge
    is 50.22..., and what [box] returns (the cover of [gridA]) starts
    with the box whose south edge is 50.4, the first box the test
    expects: it is the list by columns. *)
Lemma box_row_first_on_tie_counterexample :
  (box RefMath.engine 100 verticesA (Z2num 5) (world_of routeA)).1
  = (cover RefMath.engine gridA).1
  /\ length (row_first RefMath.engine gridA) = 6%nat
  /\ length (column_first RefMath.engine gridA) = 6%nat
  /\ (cover RefMath.engine gridA).1 <> Ok (row_first RefMath.engine gridA).
Proof.
  split; [| split; [| split]].
  - rewrite box_rasterize_cover, bind_run.
    assert ((rasterize RefMath.engine 100 verticesA (Z2num 5) (world_of routeA)).1 = Ok tt)
      as H by (vm_compute; reflexivity).
    unfold gridA.
    destruct (rasterize RefMath.engine 100 verticesA (Z2num 5) (world_of routeA)) as [o w1].
    simpl in H. subst o. reflexivity.
  - vm_compute. reflexivity.
  - vm_compute. reflexivity.
  - assert (starts_south_of (dec 503 1) (cover RefMath.engine gridA).1 = false)
      as Hc by (vm_compute; reflexivity).
    assert (starts_south_of (dec 503 1) (Ok (row_first RefMath.engine gridA)) = true)
      as Hr by (vm_compute; reflexivity).
    intros H. rewrite H, Hr in Hc. discriminate Hc.
Qed.

(** *** The corners of a box *)

Lemma mapM_lift_inv {A B} (f : A -> outcome B) (l : list A) (w : World) (l' : list B) (w' : World) :
  mapM (fun a => lift (f a)) l w = (Ok l', w') -> Forall2 (fun a b => f a = Ok b) l l' /\ w' = w.
Proof.
  revert l' w'. induction l as [| a l IH]; intros l' w' H; simpl in H.
  - exec H. split; [constructor | reflexivity].
  - apply bind_inv in H. destruct H as (b & w1 & H1 & H). exec H1.
    apply bind_inv in H. destruct H as (bs & w2 & H2 & H). exec H.
    destruct (IH _ _ H2) as [IH1 ->]. split; [constructor; assumption | reflexivity].
Qed.

Lemma to_corners_good b c : good b -> to_corners b = Ok c -> well_ordered c.
Proof.
  intros (sw & ne & Hsw & Hne & _ & _ & Ho) H. unfold to_corners in H.
  rewrite Hsw, Hne in H. simpl in H. injection H as <-. exact Ho.
Qed.

(** C7.  Every box of the sequence [mkBox] returns has its south-west
    corner below and to the left of its north-east corner, in the order
    [<=] of the numbers: southwest.lat <= northeast.lat and
    southwest.lng <= northeast.lng. *)
Theorem mkBox_boxes_ordered (E : Engine) (fuel : nat) (pts : option loc) (dis : option num)
    (w : World) (boxes : list corners) :
  (mkBox E fuel pts dis w).1 = Ok boxes -> Forall well_ordered boxes.
Proof.
  destruct (mkBox E fuel pts dis w) as [o w'] eqn:H. simpl. intros ->.
  unfold mkBox in H. destruct pts as [l |]; [| exec H; constructor].
  apply bind_inv in H. destruct H as (a & w1 & H1 & H). exec H1.
  destruct (arrays (store w) !! l) as [elems |]; [| exec H; constructor].
  destruct (2 <=? length elems)%nat; [| exec H; constructor].
  apply bind_inv in H. destruct H as (lls & w2 & H2 & H).
  apply bind_inv in H. destruct H as (bounds & w3 & H3 & H).
  apply box_good in H3. apply mapM_lift_inv in H. destruct H as [H _].
  induction H as [| b c bounds boxes Hbc _ IH]; [constructor |].
  inversion H3; subst. constructor; [eapply to_corners_good; eassumption | apply IH; assumption].
Qed.

Lemma mkBox_boxes_ordered_witness : Forall well_ordered expectA.
Proof.
  apply (mkBox_boxes_ordered RefMath.engine 100 (Some 1%positive) (Some (Z2num 5))
           (world_of routeA) expectA).
  vm_compute. reflexivity.
Defined.

(** *** The sequence is not empty *)

(** C10.  When [pts] is an array of two elements or more and [mkBox]
    returns, the sequence it returns is not empty: the cell of the first
    vertex is marked with its neighbours, one of these marks lies in the
    range of the merge loops, and each traversal makes a box of it.  (The
    points need no further assumption, nor does the distance: a call
    that returns has built all its points and its grid.) *)
Theorem mkBox_nonempty (E : Engine) (fuel : nat) (l : loc) (elems : list loc) (dis : option num)
    (w : World) (boxes : list corners) :
  arrays (store w) !! l = Some elems ->
  (2 <= length elems)%nat ->
  (mkBox E fuel (Some l) dis w).1 = Ok boxes ->
  boxes <> [].
Proof.
  intros Hl Hlen. destruct (mkBox E fuel (Some l) dis w) as [o w'] eqn:H. simpl. intros ->.
  unfold mkBox in H. rewrite bind_run in H. unfold load in H. cbv beta iota in H.
  rewrite Hl in H. destruct (Nat.leb_spec 2 (length elems)) as [_ | Hlt]; [| lia].
  apply bind_inv in H. destruct H as (lls & w1 & _ & H).
  apply bind_inv in H. destruct H as (bounds & w2 & Hb & H).
  apply box_nonempty in Hb. apply mapM_lift_inv in H. destruct H as [H _].
  destruct H; [congruence | discriminate].
Qed.

Lemma mkBox_nonempty_witness : expectA <> [].
Proof.
  apply (mkBox_nonempty RefMath.engine 100 1%positive [2; 3; 4]%positive (Some (Z2num 5))
           (world_of routeA) expectA).
  - reflexivity.
  - simpl; lia.
  - vm_compute. reflexivity.
Defined.

(** ** The order of numbers is transitive *)

Lemma SFcompare_rank (a b : num) :
  isNaN a = false -> isNaN b = false -> SFcompare a b = Some (lex_compare (rank a) (rank b)).
Proof.
  destruct a as [sa | sa | | sa ma ea], b as [sb | sb | | sb mb eb]; intros Ha Hb;
    try discriminate; try (destruct sa; reflexivity); try (destruct sb; reflexivity);
    try (destruct sa, sb; reflexivity).
  destruct sa, sb; try reflexivity.
  unfold lex_compare, rank, SFcompare. cbn [fst snd].
  change (-1 ?= -1) with Eq. cbv iota.
  rewrite (Z.compare_opp ea eb), (Z.compare_antisym ea eb).
  destruct (ea ?= eb); reflexivity.
Qed.

Lemma lex_compare_le_trans x y z :
  lex_compare x y <> Gt -> lex_compare y z <> Gt -> lex_compare x z <> Gt.
Proof.
  destruct x as [[x1 x2] x3], y as [[y1 y2] y3], z as [[z1 z2] z3]. unfold lex_compare. simpl.
  destruct (Z.compare_spec x1 y1), (Z.compare_spec y1 z1), (Z.compare_spec x1 z1);
    try lia; try congruence;
  destruct (Z.compare_spec x2 y2), (Z.compare_spec y2 z2), (Z.compare_spec x2 z2);
    try lia; try congruence;
  destruct (Z.compare_spec x3 y3), (Z.compare_spec y3 z3), (Z.compare_spec x3 z3);
    try lia; try congruence.
Qed.

Lemma lex_compare_lt_le x y z :
  lex_compare x y = Lt -> lex_compare y z <> Gt -> lex_compare x z = Lt.
Proof.
  destruct x as [[x1 x2] x3], y as [[y1 y2] y3], z as [[z1 z2] z3]. unfold lex_compare. simpl.
  destruct (Z.compare_spec x1 y1), (Z.compare_spec y1 z1), (Z.compare_spec x1 z1);
    try lia; try congruence;
  destruct (Z.compare_spec x2 y2), (Z.compare_spec y2 z2), (Z.compare_spec x2 z2);
    try lia; try congruence;
  destruct (Z.compare_spec x3 y3), (Z.compare_spec y3 z3), (Z.compare_spec x3 z3);
    try lia; try congruence.
Qed.

Lemma lex_compare_le_lt x y z :
  lex_compare x y <> Gt -> lex_compare y z = Lt -> lex_compare x z = Lt.
Proof.
  destruct x as [[x1 x2] x3], y as [[y1 y2] y3], z as [[z1 z2] z3]. unfold lex_compare. simpl.
  destruct (Z.compare_spec x1 y1), (Z.compare_spec y1 z1), (Z.compare_spec x1 z1);
    try lia; try congruence;
  destruct (Z.compare_spec x2 y2), (Z.compare_spec y2 z2), (Z.compare_spec x2 z2);
    try lia; try congruence;
  destruct (Z.compare_spec x3 y3), (Z.compare_spec y3 z3), (Z.compare_spec x3 z3);
    try lia; try congruence.
Qed.

Lemma le_inv (a b : num) :
  le a b = true -> isNaN a = false /\ isNaN b = false /\ lex_compare (rank a) (rank b) <> Gt.
Proof.
  unfold le, SFleb. intros H.
  assert (isNaN a = false /\ isNaN b = false) as [Ha Hb].
  { destruct a, b; try discriminate H; auto. }
  rewrite (SFcompare_rank a b Ha Hb) in H. repeat split; try assumption.
  destruct (lex_compare _ _); [discriminate | discriminate | discriminate H].
Qed.

Lemma lt_inv (a b : num) :
  lt a b = true -> isNaN a = false /\ isNaN b = false /\ lex_compare (rank a) (rank b) = Lt.
Proof.
  unfold lt, SFltb. intros H.
  assert (isNaN a = false /\ isNaN b = false) as [Ha Hb].
  { destruct a, b; try discriminate H; auto. }
  rewrite (SFcompare_rank a b Ha Hb) in H. repeat split; try assumption.
  destruct (lex_compare _ _); [discriminate H | reflexivity | discriminate H].
Qed.

Lemma le_intro (a b : num) :
  isNaN a = false -> isNaN b = false -> lex_compare (rank a) (rank b) <> Gt -> le a b = true.
Proof.
  intros Ha Hb H. unfold le, SFleb. rewrite (SFcompare_rank a b Ha Hb).
  destruct (lex_compare _ _); congruence.
Qed.

Lemma lt_intro (a b : num) :
  isNaN a = false -> isNaN b = false -> lex_compare (rank a) (rank b) = Lt -> lt a b = true.
Proof.
  intros Ha Hb H. unfold lt, SFltb. rewrite (SFcompare_rank a b Ha Hb), H. reflexivity.
Qed.

Lemma le_trans (a b c : num) : le a b = true -> le b c = true -> le a c = true.
Proof.
  intros H1 H2. apply le_inv in H1, H2. destruct H1 as (Ha & Hb & H1), H2 as (_ & Hc & H2).
  apply le_intro; try assumption. eapply lex_compare_le_trans; eassumption.
Qed.

Lemma lt_le_trans (a b c : num) : lt a b = true -> le b c = true -> lt a c = true.
Proof.
  intros H1 H2. apply lt_inv in H1. apply le_inv in H2.
  destruct H1 as (Ha & Hb & H1), H2 as (_ & Hc & H2).
  apply lt_intro; try assumption. eapply lex_compare_lt_le; eassumption.
Qed.

Lemma le_lt_trans (a b c : num) : le a b = true -> lt b c = true -> lt a c = true.
Proof.
  intros H1 H2. apply le_inv in H1. apply lt_inv in H2.
  destruct H1 as (Ha & Hb & H1), H2 as (_ & Hc & H2).
  apply lt_intro; try assumption. eapply lex_compare_le_lt; eassumption.
Qed.

Lemma lt_irrefl (a : num) : lt a a = false.
Proof.
  unfold lt, SFltb. destruct (isNaN a) eqn:Ha.
  - destruct a; try discriminate Ha. reflexivity.
  - rewrite (SFcompare_refl a Ha). reflexivity.
Qed.

Lemma le_not_lt (a b : num) : le a b = true -> lt b a = false.
Proof.
  intros H. destruct (lt b a) eqn:Hlt; [| reflexivity].
  pose proof (lt_le_trans _ _ _ Hlt H) as Habs. rewrite lt_irrefl in Habs. discriminate Habs.
Qed.

Lemma seq_num_le (a b : num) : seq_num a b = true -> le a b = true /\ le b a = true.
Proof.
  unfold seq_num, SFeqb, le, SFleb. rewrite (SFcompare_antisym a b).
  destruct (SFcompare a b) as [[] |]; simpl; intros H; try discriminate H. auto.
Qed.

(** ** Boxes that widen *)

Lemma Math_min_le (a b : num) :
  isNaN a = false -> isNaN b = false ->
  le (Math_min a b) a = true /\ le (Math_min a b) b = true.
Proof.
  intros Ha Hb. destruct (Math_min_spec a b Ha Hb) as [_ [[Hm H] | [Hm H]]].
  - rewrite (le_alike _ _ _ _ Hm (alike_refl a)), (le_alike _ _ _ _ Hm (alike_refl b)).
    split; [apply le_refl, Ha | exact H].
  - rewrite (le_alike _ _ _ _ Hm (alike_refl a)), (le_alike _ _ _ _ Hm (alike_refl b)).
    split; [exact H | apply le_refl, Hb].
Qed.

Lemma Math_max_ge (a b : num) :
  isNaN a = false -> isNaN b = false ->
  le a (Math_max a b) = true /\ le b (Math_max a b) = true.
Proof.
  intros Ha Hb. destruct (Math_max_spec a b Ha Hb) as [_ [[Hm H] | [Hm H]]].
  - rewrite (le_alike _ _ _ _ (alike_refl a) Hm), (le_alike _ _ _ _ (alike_refl b) Hm).
    split; [apply le_refl, Ha | exact H].
  - rewrite (le_alike _ _ _ _ (alike_refl a) Hm), (le_alike _ _ _ _ (alike_refl b) Hm).
    split; [exact H | apply le_refl, Hb].
Qed.

Lemma le_nan_l (a b : num) : le a b = true -> isNaN a = false.
Proof. intros H. apply le_inv in H. tauto. Qed.

Lemma le_nan_r (a b : num) : le a b = true -> isNaN b = false.
Proof. intros H. apply le_inv in H. tauto. Qed.

Lemma contains_inside (b : LatLngBounds) (p : LatLng) :
  contains b (GPoint p) = Ok true <-> inside b p.
Proof.
  unfold contains, inside, and_then, cmp, ge. simpl.
  destruct (_southWest b) as [sw |], (_northEast b) as [ne |]; simpl.
  - destruct (le (lat sw) (lat p)) eqn:H1; simpl.
    + destruct (le (lat p) (lat ne)) eqn:H2; simpl.
      * destruct (le (lng sw) (lng p)) eqn:H3; simpl.
        -- destruct (le (lng p) (lng ne)) eqn:H4; simpl.
           ++ split; [intros _; exists sw, ne; auto 10 | reflexivity].
           ++ split; [discriminate |].
              intros (? & ? & [= <-] & [= <-] & ? & ? & ? & ?). congruence.
        -- split; [discriminate |].
           intros (? & ? & [= <-] & [= <-] & ? & ? & ? & ?). congruence.
      * split; [discriminate |].
        intros (? & ? & [= <-] & [= <-] & ? & ? & ? & ?). congruence.
    + split; [discriminate |].
      intros (? & ? & [= <-] & [= <-] & ? & ? & ? & ?). congruence.
  - split.
    + destruct (le (lat sw) (lat p)); simpl; discriminate.
    + intros (? & ? & _ & [=] & _).
  - split; [discriminate | intros (? & ? & [=] & _)].
  - split; [discriminate | intros (? & ? & [=] & _)].
Qed.

Section Widen.

Variable E : Engine.

(** [extend] on a box with its two corners. *)
Lemma extend_corners b p sw ne :
  _southWest b = Some sw -> _northEast b = Some ne ->
  extend E b p
  = Ok {| _southWest := Some {| lat := Math_min (lat p) (lat sw);
                                lng := Math_min (lng p) (lng sw) |};
          _northEast := Some {| lat := Math_max (lat p) (lat ne);
                                lng := Math_max (lng p) (lng ne) |} |}.
Proof. intros Hsw Hne. unfold extend. rewrite Hsw, Hne. reflexivity. Qed.

Lemma extend_empty p :
  valid p ->
  extend E empty_bounds p
  = Ok {| _southWest := Some {| lat := lat p; lng := lng p |};
          _northEast := Some {| lat := lat p; lng := lng p |} |}.
Proof.
  intros [H1 H2]. unfold extend, new_LatLng, global_isNaN. simpl. rewrite H1. simpl.
  rewrite H2. reflexivity.
Qed.

Lemma extend_inside b p b' :
  good b \/ b = empty_bounds -> valid p -> extend E b p = Ok b' -> inside b' p.
Proof.
  intros [(sw & ne & Hsw & Hne & [Hs1 Hs2] & [Hn1 Hn2] & _) | ->] [Hp1 Hp2] H.
  - rewrite (extend_corners b p sw ne Hsw Hne) in H. injection H as <-.
    eexists _, _. split; [reflexivity |]. split; [reflexivity |]. simpl.
    repeat split;
      try (apply Math_min_le; assumption); try (apply Math_max_ge; assumption).
  - rewrite (extend_empty p (conj Hp1 Hp2)) in H. injection H as <-.
    eexists _, _. split; [reflexivity |]. split; [reflexivity |]. simpl.
    repeat split; apply le_refl; assumption.
Qed.

Lemma extend_keeps b p b' q :
  valid p -> extend E b p = Ok b' -> inside b q -> inside b' q.
Proof.
  intros [Hp1 Hp2] H (sw & ne & Hsw & Hne & H1 & H2 & H3 & H4).
  rewrite (extend_corners b p sw ne Hsw Hne) in H. injection H as <-.
  eexists _, _. split; [reflexivity |]. split; [reflexivity |]. simpl.
  repeat split.
  - eapply le_trans; [| exact H1]. apply Math_min_le; [assumption | eapply le_nan_l, H1].
  - eapply le_trans; [exact H2 |]. apply Math_max_ge; [assumption | eapply le_nan_r, H2].
  - eapply le_trans; [| exact H3]. apply Math_min_le; [assumption | eapply le_nan_l, H3].
  - eapply le_trans; [exact H4 |]. apply Math_max_ge; [assumption | eapply le_nan_r, H4].
Qed.

End Widen.

(** ** The comparisons of two boxes *)

Lemma contains_bounds_inv (b c : LatLngBounds) :
  contains b (GBounds c) = Ok true ->
  exists sw ne sw2 ne2,
    _southWest b = Some sw /\ _northEast b = Some ne
    /\ _southWest c = Some sw2 /\ _northEast c = Some ne2
    /\ le (lat sw) (lat sw2) = true /\ le (lat ne2) (lat ne) = true
    /\ le (lng sw) (lng sw2) = true /\ le (lng ne2) (lng ne) = true.
Proof.
  unfold contains, and_then, cmp, ge. simpl.
  destruct (_southWest c) as [sw2 |]; simpl; [| discriminate].
  destruct (_southWest b) as [sw |]; simpl; [| discriminate].
  destruct (le (lat sw) (lat sw2)) eqn:H1; simpl; [| discriminate].
  destruct (_northEast c) as [ne2 |]; simpl; [| discriminate].
  destruct (_northEast b) as [ne |]; simpl; [| discriminate].
  destruct (le (lat ne2) (lat ne)) eqn:H2; simpl; [| discriminate].
  destruct (le (lng sw) (lng sw2)) eqn:H3; simpl; [| discriminate].
  destruct (le (lng ne2) (lng ne)) eqn:H4; simpl; [| discriminate].
  intros _. exists sw, ne, sw2, ne2. auto 10.
Qed.

Lemma intersects_run (a b : LatLngBounds) sw ne sw2 ne2 :
  _southWest a = Some sw -> _northEast a = Some ne ->
  _southWest b = Some sw2 -> _northEast b = Some ne2 ->
  intersects a b
  = Ok ((le (lat sw) (lat ne2) && le (lat sw2) (lat ne))
        && (le (lng sw) (lng ne2) && le (lng sw2) (lng ne))).
Proof.
  intros H1 H2 H3 H4. unfold intersects, and_then, cmp, ge. rewrite H1, H2, H3, H4. simpl.
  destruct (le (lat sw) (lat ne2)), (le (lng sw) (lng ne2)); reflexivity.
Qed.

Lemma overlaps_run (a b : LatLngBounds) sw ne sw2 ne2 :
  _southWest a = Some sw -> _northEast a = Some ne ->
  _southWest b = Some sw2 -> _northEast b = Some ne2 ->
  overlaps a b
  = Ok ((lt (lat sw) (lat ne2) && lt (lat sw2) (lat ne))
        && (lt (lng sw) (lng ne2) && lt (lng sw2) (lng ne))).
Proof.
  intros H1 H2 H3 H4. unfold overlaps, and_then, cmp, gt, lt. rewrite H1, H2, H3, H4. simpl.
  destruct (SFltb (lat sw) (lat ne2)), (SFltb (lng sw) (lng ne2)); reflexivity.
Qed.

Lemma isValid_inv (b : LatLngBounds) :
  isValid b = true -> exists sw ne, _southWest b = Some sw /\ _northEast b = Some ne.
Proof.
  unfold isValid. destruct (_southWest b), (_northEast b); try discriminate. eauto.
Qed.

(** ** The margin between two points *)

Lemma binary_round_abs (s : bool) (m : positive) (e : Z) :
  SFabs (binary_round prec emax s m e) = SFabs (binary_round prec emax false m e).
Proof.
  unfold binary_round, binary_round_aux.
  destruct (shl_align _ _ _) as [mz ez].
  destruct (shr_fexp _ _ _ _ _) as [mrs' e'].
  destruct (shr_fexp _ _ _ _ _) as [mrs'' e''].
  destruct (shr_m mrs''); [reflexivity | | reflexivity].
  destruct (_ <=? _); reflexivity.
Qed.

Lemma binary_normalize_abs (m e : Z) :
  SFabs (binary_normalize prec emax (- m) e false) = SFabs (binary_normalize prec emax m e false).
Proof.
  destruct m as [| p | p]; simpl; [reflexivity | apply binary_round_abs |].
  symmetry. apply binary_round_abs.
Qed.

Lemma abs_sub_sym (a b : num) : Math_abs (sub a b) = Math_abs (sub b a).
Proof.
  unfold Math_abs, sub.
  destruct a as [sa | sa | | sa ma ea], b as [sb | sb | | sb mb eb];
    try reflexivity; try (destruct sa, sb; reflexivity); try (destruct sa; reflexivity);
    try (destruct sb; reflexivity).
  unfold SFsub. rewrite (Z.min_comm eb ea), <- binary_normalize_abs. f_equal. f_equal. lia.
Qed.

Lemma abs_sub_diag (a : num) :
  Math_abs (sub a a) = if finite a then pzero else NaN.
Proof.
  unfold Math_abs, sub. destruct a as [s | s | | s m e]; try (destruct s; reflexivity);
    [reflexivity |].
  unfold SFsub. rewrite Z.sub_diag. reflexivity.
Qed.

(** ** The scans of a list of grid lines *)

Lemma index_nat {A} (l : list A) (n : nat) : index l (Z.of_nat n) = l !! n.
Proof.
  unfold index. destruct (Z.ltb_spec (Z.of_nat n) 0); [lia |]. rewrite Nat2Z.id. reflexivity.
Qed.

Lemma index_neg {A} (l : list A) (i : Z) : i < 0 -> index l i = None.
Proof. intros H. unfold index. destruct (Z.ltb_spec i 0); [reflexivity | lia]. Qed.

Lemma index_cons {A} (a : A) (l : list A) (i : Z) : 0 <= i -> index (a :: l) (i + 1) = index l i.
Proof.
  intros H. unfold index.
  destruct (Z.ltb_spec (i + 1) 0); [lia |]. destruct (Z.ltb_spec i 0); [lia |].
  replace (Z.to_nat (i + 1)) with (S (Z.to_nat i)) by lia. reflexivity.
Qed.

Lemma index_lt {A} (l : list A) (i : Z) (a : A) :
  index l i = Some a -> 0 <= i < Z.of_nat (length l).
Proof.
  intros H. apply index_inv in H. destruct H as [H0 H]. apply lookup_lt_Some in H. lia.
Qed.

Lemma index_some {A} (l : list A) (i : Z) :
  0 <= i < Z.of_nat (length l) -> exists a, index l i = Some a.
Proof.
  intros H. unfold index. destruct (Z.ltb_spec i 0); [lia |].
  apply lookup_lt_is_Some_2. lia.
Qed.

(** The loop [for (x = x0; g[x] < v; x++) {}] on the lines from [x0] on:
    every line it passes is below [v], and the line it stops at is not. *)
Lemma count_below_spec (g : list num) (v : num) (x : Z) :
  x <= count_below g v x <= x + Z.of_nat (length g)
  /\ (forall j, x <= j < count_below g v x ->
                lt_undef (g !! Z.to_nat (j - x)) v = true)
  /\ lt_undef (g !! Z.to_nat (count_below g v x - x)) v = false.
Proof.
  revert x. induction g as [| a g IH]; intros x; simpl.
  - split; [lia |]. split; [intros j Hj; lia | reflexivity].
  - destruct (lt a v) eqn:Ha.
    + destruct (IH (x + 1)) as (Hr & Hb & Hs). split; [lia |]. split.
      * intros j Hj. destruct (Z.eq_dec j x) as [-> | Hne].
        -- rewrite Z.sub_diag. simpl. exact Ha.
        -- replace (Z.to_nat (j - x)) with (S (Z.to_nat (j - (x + 1)))) by lia.
           simpl. apply Hb. lia.
      * replace (Z.to_nat (count_below g v (x + 1) - x))
          with (S (Z.to_nat (count_below g v (x + 1) - (x + 1)))) by lia.
        simpl. exact Hs.
    + split; [lia |]. split; [intros j Hj; lia |].
      rewrite Z.sub_diag. simpl. exact Ha.
Qed.

(** [for (var x = 0; g[x] < v; x++) {}] *)
Lemma count_below_index (g : list num) (v : num) :
  0 <= count_below g v 0 <= Z.of_nat (length g)
  /\ (forall j, 0 <= j < count_below g v 0 -> lt_undef (index g j) v = true)
  /\ lt_undef (index g (count_below g v 0)) v = false.
Proof.
  destruct (count_below_spec g v 0) as (Hr & Hb & Hs). split; [lia |]. split.
  - intros j Hj. specialize (Hb j Hj). rewrite Z.sub_0_r in Hb.
    unfold index. destruct (Z.ltb_spec j 0); [lia | exact Hb].
  - rewrite Z.sub_0_r in Hs. unfold index.
    destruct (Z.ltb_spec (count_below g v 0) 0); [lia | exact Hs].
Qed.

Lemma scan_up_from_spec (rest : list num) (v : num) (x : Z) :
  x <= scan_up_from rest v x <= x + Z.of_nat (length rest)
  /\ (forall j, x <= j < scan_up_from rest v x ->
                lt_undef (rest !! Z.to_nat (j - x)) v = true)
  /\ lt_undef (rest !! Z.to_nat (scan_up_from rest v x - x)) v = false.
Proof.
  revert x. induction rest as [| a g IH]; intros x; simpl.
  - split; [lia |]. split; [intros j Hj; lia | reflexivity].
  - destruct (lt a v) eqn:Ha.
    + destruct (IH (x + 1)) as (Hr & Hb & Hs). split; [lia |]. split.
      * intros j Hj. destruct (Z.eq_dec j x) as [-> | Hne].
        -- rewrite Z.sub_diag. simpl. exact Ha.
        -- replace (Z.to_nat (j - x)) with (S (Z.to_nat (j - (x + 1)))) by lia.
           simpl. apply Hb. lia.
      * replace (Z.to_nat (scan_up_from g v (x + 1) - x))
          with (S (Z.to_nat (scan_up_from g v (x + 1) - (x + 1)))) by lia.
        simpl. exact Hs.
    + split; [lia |]. split; [intros j Hj; lia |].
      rewrite Z.sub_diag. simpl. exact Ha.
Qed.

(** [for (x = x0; g[x + 1] < v; x++) {}] *)
Lemma scan_up_spec (g : list num) (v : num) (x : Z) :
  x <= scan_up g v x
  /\ (forall j, x < j <= scan_up g v x -> lt_undef (index g j) v = true)
  /\ lt_undef (index g (scan_up g v x + 1)) v = false.
Proof.
  unfold scan_up. destruct (Z.ltb_spec (x + 1) 0) as [Hneg | Hpos].
  - split; [lia |]. split; [intros j Hj; lia |]. rewrite index_neg by lia. reflexivity.
  - destruct (scan_up_from_spec (drop (Z.to_nat (x + 1)) g) v x) as (Hr & Hb & Hs).
    set (y := scan_up_from (drop (Z.to_nat (x + 1)) g) v x) in *.
    split; [lia |]. split.
    + intros j Hj. specialize (Hb (j - 1) ltac:(lia)).
      rewrite lookup_drop in Hb. unfold index. destruct (Z.ltb_spec j 0); [lia |].
      replace (Z.to_nat j) with (Z.to_nat (x + 1) + Z.to_nat (j - 1 - x))%nat by lia.
      exact Hb.
    + rewrite lookup_drop in Hs. unfold index. destruct (Z.ltb_spec (y + 1) 0); [lia |].
      replace (Z.to_nat (y + 1)) with (Z.to_nat (x + 1) + Z.to_nat (y - x))%nat by lia.
      exact Hs.
Qed.

Lemma scan_down_from_spec (g : list num) (v : num) (n : nat) :
  -1 <= scan_down_from g v n <= Z.of_nat n
  /\ (forall j, scan_down_from g v n < j <= Z.of_nat n -> gt_undef (index g j) v = true)
  /\ gt_undef (index g (scan_down_from g v n)) v = false.
Proof.
  induction n as [| n IH]; cbn [scan_down_from].
  - destruct (g !! 0%nat) as [a |] eqn:Ha.
    + destruct (gt a v) eqn:Hgt.
      * split; [lia |]. split.
        -- intros j Hj. assert (j = 0) as -> by lia.
           change 0 with (Z.of_nat 0). rewrite index_nat, Ha. exact Hgt.
        -- rewrite index_neg by lia. reflexivity.
      * split; [lia |]. split; [intros j Hj; lia |].
        rewrite index_nat, Ha. exact Hgt.
    + split; [lia |]. split; [intros j Hj; lia |].
      rewrite index_nat, Ha. reflexivity.
  - destruct (g !! S n) as [a |] eqn:Ha.
    + destruct (gt a v) eqn:Hgt.
      * destruct IH as (Hr & Hb & Hs). split; [lia |]. split; [| exact Hs].
        intros j Hj. destruct (Z.eq_dec j (Z.of_nat (S n))) as [-> | Hne].
        -- rewrite index_nat, Ha. exact Hgt.
        -- apply Hb. lia.
      * split; [lia |]. split; [intros j Hj; lia |].
        rewrite index_nat, Ha. exact Hgt.
    + split; [lia |]. split; [intros j Hj; lia |].
      rewrite index_nat, Ha. reflexivity.
Qed.

(** [for (x = x0; g[x] > v; x--) {}] *)
Lemma scan_down_spec (g : list num) (v : num) (x : Z) :
  scan_down g v x <= x
  /\ (-1 <= x -> -1 <= scan_down g v x)
  /\ (forall j, scan_down g v x < j <= x -> gt_undef (index g j) v = true)
  /\ gt_undef (index g (scan_down g v x)) v = false.
Proof.
  unfold scan_down. destruct (Z.ltb_spec x 0) as [Hneg | Hpos].
  - split; [lia |]. split; [lia |]. split; [intros j Hj; lia |].
    rewrite index_neg by lia. reflexivity.
  - destruct (scan_down_from_spec g v (Z.to_nat x)) as (Hr & Hb & Hs).
    rewrite Z2Nat.id in * by lia. split; [lia |]. split; [lia |]. split; assumption.
Qed.

(** ** Marking cells *)

Lemma set_cell_run x y w cols col :
  grid_ (routeBoxer w) = Some cols -> index cols x = Some col ->
  set_cell x y w
  = (Ok tt, {| store := store w;
               routeBoxer := set_grid_ (Some (<[Z.to_nat x := mark y col]> cols))
                               (routeBoxer w) |}).
Proof.
  intros Hg Hc. unfold set_cell.
  rewrite bind_run. unfold get. cbv beta iota. rewrite Hg.
  rewrite bind_run. unfold lift, deref. cbv beta iota.
  rewrite bind_run. cbv beta iota. rewrite Hc. reflexivity.
Qed.

Lemma set_cell_throws x y w cols :
  grid_ (routeBoxer w) = Some cols -> index cols x = None ->
  set_cell x y w = (Throw TypeError, w).
Proof.
  intros Hg Hc. unfold set_cell.
  rewrite bind_run. unfold get. cbv beta iota. rewrite Hg.
  rewrite bind_run. unfold lift, deref. cbv beta iota.
  rewrite bind_run. cbv beta iota. rewrite Hc. reflexivity.
Qed.

Lemma set_cell_columns n x y : stable (columns n) (set_cell x y).
Proof.
  intros w u w' (cols & Hg & Hn) H.
  apply set_cell_inv in H. destruct H as (cols' & col & Hg' & Hx & Hc & Hw').
  rewrite Hg in Hg'. injection Hg' as <-.
  eexists. split; [exact Hw' |]. rewrite length_insert. exact Hn.
Qed.

Lemma set_cell_marked x y w u w' :
  set_cell x y w = (Ok u, w') -> marked (grid_ (routeBoxer w')) (x, y).
Proof.
  intros H. apply set_cell_inv in H. destruct H as (cols & col & Hg & Hx & Hc & Hw').
  exists (<[Z.to_nat x := mark y col]> cols), (mark y col). split; [exact Hw' |]. split.
  - unfold index. simpl. destruct (Z.ltb_spec x 0); [lia |].
    apply list_lookup_insert_eq. eapply lookup_lt_Some, Hc.
  - simpl. apply elem_of_union_l, elem_of_singleton. reflexivity.
Qed.

Lemma set_cell_keeps x y c : stable (fun w => marked (grid_ (routeBoxer w)) c) (set_cell x y).
Proof.
  intros w u w' (cols0 & col0 & Hg0 & Hc0 & Hm0) H.
  apply set_cell_inv in H. destruct H as (cols & col & Hg & Hx & Hc & Hw').
  rewrite Hg0 in Hg. injection Hg as <-.
  apply index_inv in Hc0. destruct Hc0 as [Hc0 Hl0].
  destruct (insert_grows cols0 (Z.to_nat x) _ col0 (mark y col) col Hc (mark_grows y col) Hl0)
    as (c2 & Hc2 & [_ Hm2]).
  exists (<[Z.to_nat x := mark y col]> cols0), c2. split; [exact Hw' |]. split.
  - unfold index. destruct (Z.ltb_spec (fst c) 0); [lia | exact Hc2].
  - apply Hm2, Hm0.
Qed.

Lemma set_cell_only x y w u w' c :
  set_cell x y w = (Ok u, w') ->
  marked (grid_ (routeBoxer w')) c -> marked (grid_ (routeBoxer w)) c \/ c = (x, y).
Proof.
  intros H (cols' & col' & Hg' & Hc' & Hm').
  apply set_cell_inv in H. destruct H as (cols & col & Hg & Hx & Hc & Hw').
  rewrite Hg' in Hw'. injection Hw' as ->.
  apply index_inv in Hc'. destruct Hc' as [Hc0 Hl'].
  destruct (decide (Z.to_nat x = Z.to_nat (fst c))) as [Heq | Hne].
  - rewrite <- Heq in Hl'. rewrite list_lookup_insert_eq in Hl' by (eapply lookup_lt_Some, Hc).
    injection Hl' as <-. simpl in Hm'. apply elem_of_union in Hm'. destruct Hm' as [Hm' | Hm'].
    + apply elem_of_singleton in Hm'. right. destruct c as [cx cy]. simpl in *. f_equal; lia.
    + left. exists cols, col. split; [exact Hg |]. split; [| exact Hm'].
      unfold index. destruct (Z.ltb_spec (fst c) 0); [lia |]. rewrite <- Heq. exact Hc.
  - rewrite list_lookup_insert_ne in Hl' by exact Hne.
    left. exists cols, col'. split; [exact Hg |]. split; [| exact Hm'].
    unfold index. destruct (Z.ltb_spec (fst c) 0); [lia | exact Hl'].
Qed.

Lemma set_cell_still x y c w u w' :
  marked (grid_ (routeBoxer w)) c -> set_cell x y w = (Ok u, w') ->
  marked (grid_ (routeBoxer w')) c.
Proof. apply (set_cell_keeps x y c). Qed.

#[local] Hint Resolve set_cell_columns set_cell_keeps : stable.

Lemma markCell__columns n c : stable (columns n) (markCell_ c).
Proof. unfold markCell_. stabilize. Qed.

Lemma markCell__keeps c c' : stable (fun w => marked (grid_ (routeBoxer w)) c') (markCell_ c).
Proof. unfold markCell_. stabilize. Qed.

#[local] Hint Resolve markCell__columns markCell__keeps : stable.

(** Splits the run of nine assignments. *)
Ltac split_marks H :=
  unfold markCell_ in H; cbv zeta in H; cbn [fst snd] in H;
  repeat match type of H with
         | (_ ≫= _) _ = (Ok _, _) =>
             let u := fresh "u" in
             let w := fresh "w" in
             let H1 := fresh "Hs" in
             apply bind_inv in H; destruct H as (u & w & H1 & H)
         end.

Lemma markCell__block c w u w' :
  markCell_ c w = (Ok u, w') -> forall c', around c c' -> marked (grid_ (routeBoxer w')) c'.
Proof.
  intros H [cx cy] [Hx Hy]. destruct c as [x y]. simpl in Hx, Hy.
  split_marks H.
  repeat match goal with
         | Hs : set_cell ?a ?b _ = (Ok _, ?w1) |- _ =>
             lazymatch goal with
             | _ : marked (grid_ (routeBoxer w1)) (a, b) |- _ => fail
             | _ => pose proof (set_cell_marked _ _ _ _ _ Hs)
             end
         end.
  assert ((cx = x - 1 \/ cx = x \/ cx = x + 1) /\ (cy = y - 1 \/ cy = y \/ cy = y + 1))
    as [Hcx Hcy] by lia.
  repeat match goal with
         | Hs : set_cell _ _ ?w0 = (Ok _, ?w1), Hm : marked (grid_ (routeBoxer ?w0)) ?c0 |- _ =>
             lazymatch goal with
             | _ : marked (grid_ (routeBoxer w1)) c0 |- _ => fail
             | _ => pose proof (set_cell_still _ _ c0 _ _ _ Hm Hs)
             end
         end.
  destruct Hcx as [-> | [-> | ->]], Hcy as [-> | [-> | ->]]; assumption.
Qed.

Lemma markCell__only c w u w' c' :
  markCell_ c w = (Ok u, w') ->
  marked (grid_ (routeBoxer w')) c' -> marked (grid_ (routeBoxer w)) c' \/ around c c'.
Proof.
  intros H Hm. destruct c as [x y]. split_marks H.
  repeat match goal with
         | Hs : set_cell _ _ _ = (Ok _, ?w1), Hm : marked (grid_ (routeBoxer ?w1)) c' |- _ =>
             destruct (set_cell_only _ _ _ _ _ _ Hs Hm) as [? | ->];
             [clear Hm | right; unfold around; simpl; lia]
         end.
  left. assumption.
Qed.

(** When it runs: the columns on both sides of the cell exist. *)
Lemma set_cell_returns n x y w :
  columns n w -> 0 <= x < Z.of_nat n -> exists w', set_cell x y w = (Ok tt, w') /\ columns n w'.
Proof.
  intros (cols & Hg & Hn) Hx. destruct (index_some cols x ltac:(lia)) as [col Hc].
  eexists. split; [apply (set_cell_run x y w cols col Hg Hc) |].
  eexists. split; [reflexivity |]. rewrite length_insert. exact Hn.
Qed.

Lemma markCell__returns n x y w :
  columns n w -> 1 <= x -> x + 1 < Z.of_nat n -> exists w', markCell_ (x, y) w = (Ok tt, w').
Proof.
  intros Hc H1 H2. unfold markCell_. cbn [fst snd].
  repeat match goal with
         | Hc : columns n ?w0 |- exists w', (set_cell ?a ?b ≫= _) ?w0 = _ =>
             let w1 := fresh "w" in
             let Hr := fresh "Hr" in
             let Hc1 := fresh "Hc" in
             destruct (set_cell_returns n a b w0 Hc ltac:(lia)) as (w1 & Hr & Hc1);
             rewrite (bind_ok _ _ _ _ _ Hr); clear Hr Hc
         end.
  match goal with
  | Hc : columns n ?w0 |- exists w', set_cell ?a ?b ?w0 = _ =>
      destruct (set_cell_returns n a b w0 Hc ltac:(lia)) as (w' & Hr & _)
  end.
  eauto.
Qed.

Lemma bind_throw {A B} (m : M A) (k : A -> M B) (w w' : World) (e : jserror) :
  m w = (Throw e, w') -> (m ≫= k) w = (Throw e, w').
Proof. intros H. rewrite bind_run, H. reflexivity. Qed.

Lemma markCell__throws n x y w :
  columns n w -> x < 1 \/ Z.of_nat n <= x + 1 -> (markCell_ (x, y) w).1 = Throw TypeError.
Proof.
  intros (cols & Hg & Hn) Hx. unfold markCell_. cbn [fst snd].
  destruct (Z.lt_ge_cases x 1) as [Hlo | Hlo].
  - rewrite (bind_throw _ _ _ _ _ (set_cell_throws (x - 1) (y - 1) w cols Hg
                                       (index_neg cols (x - 1) ltac:(lia)))).
    reflexivity.
  - assert (index cols (x + 1) = None) as Hnone.
    { unfold index. destruct (Z.ltb_spec (x + 1) 0); [reflexivity |].
      apply lookup_ge_None. lia. }
    destruct (Z.lt_ge_cases (x - 1) (Z.of_nat n)) as [Hm | Hm].
    + destruct (set_cell_returns n (x - 1) (y - 1) w ltac:(eexists; eauto) ltac:(lia))
        as (w1 & Hr1 & Hc1).
      rewrite (bind_ok _ _ _ _ _ Hr1).
      destruct (Z.lt_ge_cases x (Z.of_nat n)) as [Hx' | Hx'].
      * destruct (set_cell_returns n x (y - 1) w1 Hc1 ltac:(lia))
          as (w2 & Hr2 & (cols2 & Hg2 & Hn2)).
        rewrite (bind_ok _ _ _ _ _ Hr2).
        rewrite (bind_throw _ _ _ _ _ (set_cell_throws (x + 1) (y - 1) w2 cols2 Hg2
                   ltac:(unfold index; destruct (Z.ltb_spec (x + 1) 0); [reflexivity |];
                         apply lookup_ge_None; lia))).
        reflexivity.
      * destruct Hc1 as (cols1 & Hg1 & Hn1).
        rewrite (bind_throw _ _ _ _ _ (set_cell_throws x (y - 1) w1 cols1 Hg1
                   ltac:(unfold index; destruct (Z.ltb_spec x 0); [reflexivity |];
                         apply lookup_ge_None; lia))).
        reflexivity.
    + rewrite (bind_throw _ _ _ _ _ (set_cell_throws (x - 1) (y - 1) w cols Hg
                 ltac:(unfold index; destruct (Z.ltb_spec (x - 1) 0); [reflexivity |];
                       apply lookup_ge_None; lia))).
      reflexivity.
Qed.

Lemma elem_of_upto_inv (n : nat) (a i : Z) : i ∈ upto n a -> a <= i < a + Z.of_nat n.
Proof.
  revert a. induction n as [| n IH]; intros a Hi; simpl in Hi; [inversion Hi |].
  apply elem_of_cons in Hi. destruct Hi as [-> | Hi]; [lia |]. apply IH in Hi. lia.
Qed.

Lemma elem_of_downto (n : nat) (a i : Z) : a - Z.of_nat n < i <= a <-> i ∈ downto n a.
Proof.
  revert a. induction n as [| n IH]; intros a; simpl.
  - split; [lia | intros Hi; inversion Hi].
  - rewrite elem_of_cons, <- IH. lia.
Qed.

Lemma forM__markCell__marks (l : list Z) (y : Z) w u w' :
  forM_ l (fun x => markCell_ (x, y)) w = (Ok u, w') ->
  (forall x c, x ∈ l -> around (x, y) c -> marked (grid_ (routeBoxer w')) c)
  /\ (forall c, marked (grid_ (routeBoxer w)) c -> marked (grid_ (routeBoxer w')) c)
  /\ (forall c, marked (grid_ (routeBoxer w')) c ->
                marked (grid_ (routeBoxer w)) c \/ exists x, x ∈ l /\ around (x, y) c).
Proof.
  revert w. induction l as [| a l IH]; intros w H; simpl in H.
  - exec H. split; [intros x c Hx; inversion Hx |]. split; [auto |]. intros c Hc. left. exact Hc.
  - apply bind_inv in H. destruct H as (u1 & w1 & H1 & H).
    destruct (IH _ H) as (Hin & Hkeep & Honly). split; [| split].
    + intros x c Hx Hc. apply elem_of_cons in Hx. destruct Hx as [-> | Hx].
      * apply Hkeep. eapply markCell__block; eassumption.
      * eapply Hin; eassumption.
    + intros c Hc. apply Hkeep. eapply markCell__keeps; eassumption.
    + intros c Hc. destruct (Honly c Hc) as [Hc1 | (x & Hx & Hc1)].
      * destruct (markCell__only _ _ _ _ _ H1 Hc1) as [? | ?]; [left; assumption |].
        right. exists a. split; [left | assumption].
      * right. exists x. split; [right; exact Hx | exact Hc1].
Qed.

Lemma fillInGridSquares__marks (startx endx y : Z) w u w' :
  fillInGridSquares_ startx endx y w = (Ok u, w') ->
  (forall x c, Z.min startx endx <= x <= Z.max startx endx -> around (x, y) c ->
               marked (grid_ (routeBoxer w')) c)
  /\ (forall c, marked (grid_ (routeBoxer w)) c -> marked (grid_ (routeBoxer w')) c)
  /\ (forall c, marked (grid_ (routeBoxer w')) c ->
                marked (grid_ (routeBoxer w)) c
                \/ exists x, Z.min startx endx <= x <= Z.max startx endx /\ around (x, y) c).
Proof.
  unfold fillInGridSquares_. destruct (Z.ltb_spec startx endx) as [Hlt | Hge]; intros H;
    destruct (forM__markCell__marks _ _ _ _ _ H) as (Hin & Hkeep & Honly);
    (split; [| split; [exact Hkeep |]]).
  - intros x c Hx. apply Hin, elem_of_upto. lia.
  - intros c Hc. destruct (Honly c Hc) as [? | (x & Hx & Hc1)]; [left; assumption |].
    right. exists x. split; [| exact Hc1]. apply elem_of_upto_inv in Hx. lia.
  - intros x c Hx. apply Hin, elem_of_downto. lia.
  - intros c Hc. destruct (Honly c Hc) as [? | (x & Hx & Hc1)]; [left; assumption |].
    right. exists x. split; [| exact Hc1]. apply elem_of_downto in Hx. lia.
Qed.

(** ** The grid reaches beyond the route *)

Lemma isNaN_add (a b : num) : isNaN (add a b) = false -> isNaN a = false /\ isNaN b = false.
Proof. destruct a as [[] | [] | |], b as [[] | [] | |]; simpl; auto. Qed.

Lemma isNaN_div_l (a b : num) : isNaN (div a b) = false -> isNaN a = false.
Proof. destruct a, b; simpl; auto. Qed.

Lemma grid_of_set (a : axis) (v : list num) (r : RouteBoxer) :
  grid_of a (set_grid_of a v r) = v.
Proof. destruct a; reflexivity. Qed.

Lemma grid_of_set_other (a : axis) (v : list num) (r : RouteBoxer) :
  grid_of (other a) (set_grid_of a v r) = grid_of (other a) r.
Proof. destruct a; reflexivity. Qed.

Lemma grid__set_grid_of (a : axis) (v : list num) (r : RouteBoxer) :
  grid_ (set_grid_of a v r) = grid_ r.
Proof. destruct a; reflexivity. Qed.

Section Reach.

Variable E : Engine.

Lemma rhumbDestinationPoint_valid p brng dist q :
  rhumbDestinationPoint E p brng dist = Ok (Some q) -> valid q.
Proof.
  unfold rhumbDestinationPoint. cbv zeta.
  destruct (isNaN _ || isNaN _); [discriminate |]. intros H. oexec H.
  eapply new_LatLng_valid; eassumption.
Qed.

Lemma line_inv a c brng dist w x w' :
  line E a c brng dist w = (Ok x, w') -> w' = w /\ isNaN x = false.
Proof.
  intros H. unfold line in H. exec H. split; [reflexivity |].
  match goal with Hd : deref _ = Ok ?p |- _ => apply deref_inv in Hd; subst end.
  match goal with Hr : rhumbDestinationPoint _ _ _ _ = Ok (Some ?p) |- _ =>
    apply rhumbDestinationPoint_valid in Hr; destruct Hr; destruct a; assumption end.
Qed.

Lemma push_inv a x w u w' :
  push a x w = (Ok u, w') ->
  w' = {| store := store w;
          routeBoxer := set_grid_of a (grid_of a (routeBoxer w) ++ [x]) (routeBoxer w) |}.
Proof. intros H. unfold push in H. exec H. reflexivity. Qed.

Lemma unshift_inv a x w u w' :
  unshift a x w = (Ok u, w') ->
  w' = {| store := store w;
          routeBoxer := set_grid_of a (x :: grid_of a (routeBoxer w)) (routeBoxer w) |}.
Proof. intros H. unfold unshift in H. exec H. reflexivity. Qed.

Lemma grow_up_spec fuel a c bs brng range i w u w' ne :
  grow_up E fuel a c bs brng range i w = (Ok u, w') ->
  getNorthEast bs = Ok ne -> isNaN (coord a ne) = false ->
  i = Z.of_nat (length (grid_of a (routeBoxer w))) -> 2 <= i ->
  Forall (fun x => isNaN x = false) (grid_of a (routeBoxer w)) ->
  (exists more, grid_of a (routeBoxer w') = grid_of a (routeBoxer w) ++ more)
  /\ Forall (fun x => isNaN x = false) (grid_of a (routeBoxer w'))
  /\ (exists b, index (grid_of a (routeBoxer w'))
                  (Z.of_nat (length (grid_of a (routeBoxer w'))) - 2) = Some b
                /\ le (coord a ne) b = true)
  /\ grid_of (other a) (routeBoxer w') = grid_of (other a) (routeBoxer w)
  /\ grid_ (routeBoxer w') = grid_ (routeBoxer w).
Proof.
  intros H Hne Hnan. revert i w H.
  induction fuel as [| fuel IH]; intros i w H Hi H2 Hall; simpl in H; [discriminate H |].
  apply bind_inv in H. destruct H as (g & w1 & Hg & H).
  apply get_inv in Hg. destruct Hg as [-> ->].
  apply bind_inv in H. destruct H as (ne' & w1 & Hn & H).
  apply lift_inv in Hn. destruct Hn as [Hn ->].
  rewrite Hne in Hn. injection Hn as <-.
  destruct (lt_undef (index (grid_of a (routeBoxer w)) (i - 2)) (coord a ne)) eqn:Hlt.
  - apply bind_inv in H. destruct H as (x & w1 & Hl & H).
    apply line_inv in Hl. destruct Hl as [-> Hx].
    apply bind_inv in H. destruct H as (u1 & w1 & Hp & H).
    apply push_inv in Hp. subst w1.
    apply IH in H.
    + simpl in H. rewrite grid_of_set, grid_of_set_other, grid__set_grid_of in H.
      destruct H as ((more & Hm) & Hall' & Hb & Ho & Hgr).
      split; [exists (x :: more); rewrite Hm, <- app_assoc; reflexivity |].
      split; [exact Hall' |]. split; [exact Hb |]. split; assumption.
    + simpl. rewrite grid_of_set, length_app. simpl. lia.
    + lia.
    + simpl. rewrite grid_of_set. apply Forall_app. split; [exact Hall |].
      constructor; [exact Hx | constructor].
  - apply ret_inv in H. destruct H as [_ ->].
    split; [exists []; rewrite app_nil_r; reflexivity |].
    split; [exact Hall |]. split; [| split; reflexivity].
    rewrite <- Hi.
    destruct (index_some (grid_of a (routeBoxer w)) (i - 2) ltac:(lia)) as [b Hb].
    exists b. split; [exact Hb |]. rewrite Hb in Hlt. simpl in Hlt.
    apply not_lt_le; [exact Hnan | | exact Hlt].
    apply index_inv in Hb. destruct Hb as [_ Hb].
    apply (proj1 (Forall_lookup _ _) Hall _ _ Hb).
Qed.

Lemma grow_down_spec fuel a c bs brng range i w u w' sw :
  grow_down E fuel a c bs brng range i w = (Ok u, w') ->
  getSouthWest bs = Ok sw -> isNaN (coord a sw) = false ->
  (2 <= length (grid_of a (routeBoxer w)))%nat ->
  Forall (fun x => isNaN x = false) (grid_of a (routeBoxer w)) ->
  (exists more, grid_of a (routeBoxer w') = more ++ grid_of a (routeBoxer w))
  /\ Forall (fun x => isNaN x = false) (grid_of a (routeBoxer w'))
  /\ (exists b, index (grid_of a (routeBoxer w')) 1 = Some b /\ le b (coord a sw) = true)
  /\ grid_of (other a) (routeBoxer w') = grid_of (other a) (routeBoxer w)
  /\ grid_ (routeBoxer w') = grid_ (routeBoxer w).
Proof.
  intros H Hsw Hnan. revert i w H.
  induction fuel as [| fuel IH]; intros i w H H2 Hall; simpl in H; [discriminate H |].
  apply bind_inv in H. destruct H as (g & w1 & Hg & H).
  apply get_inv in Hg. destruct Hg as [-> ->].
  apply bind_inv in H. destruct H as (sw' & w1 & Hn & H).
  apply lift_inv in Hn. destruct Hn as [Hn ->].
  rewrite Hsw in Hn. injection Hn as <-.
  destruct (gt_undef (index (grid_of a (routeBoxer w)) 1) (coord a sw)) eqn:Hgt.
  - apply bind_inv in H. destruct H as (x & w1 & Hl & H).
    apply line_inv in Hl. destruct Hl as [-> Hx].
    apply bind_inv in H. destruct H as (u1 & w1 & Hp & H).
    apply unshift_inv in Hp. subst w1.
    apply IH in H.
    + simpl in H. rewrite grid_of_set, grid_of_set_other, grid__set_grid_of in H.
      destruct H as ((more & Hm) & Hall' & Hb & Ho & Hgr).
      split; [exists (more ++ [x]); rewrite Hm, <- app_assoc; reflexivity |].
      split; [exact Hall' |]. split; [exact Hb |]. split; assumption.
    + simpl. rewrite grid_of_set. simpl. lia.
    + simpl. rewrite grid_of_set. constructor; assumption.
  - apply ret_inv in H. destruct H as [_ ->].
    split; [exists []; reflexivity |].
    split; [exact Hall |]. split; [| split; reflexivity].
    destruct (index_some (grid_of a (routeBoxer w)) 1 ltac:(lia)) as [b Hb].
    exists b. split; [exact Hb |]. rewrite Hb in Hgt. simpl in Hgt.
    apply not_lt_le; [| exact Hnan | exact Hgt].
    apply index_inv in Hb. destruct Hb as [_ Hb].
    apply (proj1 (Forall_lookup _ _) Hall _ _ Hb).
Qed.

End Reach.

Lemma index_app_r {A} (l1 l2 : list A) (i : Z) :
  0 <= i -> index (l1 ++ l2) (i + Z.of_nat (length l1)) = index l2 i.
Proof.
  intros Hi. unfold index.
  destruct (Z.ltb_spec (i + Z.of_nat (length l1)) 0); [lia |].
  destruct (Z.ltb_spec i 0); [lia |].
  rewrite lookup_app_r by lia. f_equal. lia.
Qed.

Section Reach2.

Variable E : Engine.

Lemma getCenter_inv b c :
  getCenter E b = Ok c ->
  exists sw ne, _southWest b = Some sw /\ _northEast b = Some ne
                /\ valid sw /\ valid ne /\ valid c
                /\ lat c = div (add (lat sw) (lat ne)) (Z2num 2)
                /\ lng c = div (add (lng sw) (lng ne)) (Z2num 2).
Proof.
  unfold getCenter, getSouthWest, getNorthEast.
  destruct (_southWest b) as [sw |]; [| discriminate].
  destruct (_northEast b) as [ne |]; [| discriminate]. simpl. intros H.
  pose proof (new_LatLng_valid _ _ _ _ H) as Hv. apply new_LatLng_num in H. subst c.
  pose proof Hv as [H1 H2]. simpl in H1, H2.
  apply isNaN_div_l, isNaN_add in H1. apply isNaN_div_l, isNaN_add in H2.
  exists sw, ne. split; [reflexivity |]. split; [reflexivity |].
  split; [split; tauto |]. split; [split; tauto |]. split; [exact Hv |].
  split; reflexivity.
Qed.

Lemma axis_reaches fuel a c bs b0 b1 b2 range sw ne w0 w1 w2 w3 w4 u1 u2 u3 u4 :
  getSouthWest bs = Ok sw -> getNorthEast bs = Ok ne ->
  isNaN (coord a sw) = false -> isNaN (coord a ne) = false -> isNaN (coord a c) = false ->
  grid_of a (routeBoxer w0) = [] ->
  push a (coord a c) w0 = (Ok u1, w1) ->
  (x ← line E a c b0 range; push a x) w1 = (Ok u2, w2) ->
  grow_up E fuel a c bs b1 range 2 w2 = (Ok u3, w3) ->
  grow_down E fuel a c bs b2 range 1 w3 = (Ok u4, w4) ->
  reaches (grid_of a (routeBoxer w4)) (coord a sw) (coord a ne)
  /\ grid_of (other a) (routeBoxer w4) = grid_of (other a) (routeBoxer w0)
  /\ grid_ (routeBoxer w4) = grid_ (routeBoxer w0).
Proof.
  intros Hsw Hne Hs Hn Hc H0 H1 H2 H3 H4.
  apply push_inv in H1. subst w1.
  apply bind_inv in H2. destruct H2 as (x & w1 & Hl & H2).
  apply line_inv in Hl. destruct Hl as [-> Hx]. apply push_inv in H2. subst w2.
  simpl in H3. rewrite H0 in H3. simpl in H3.
  eapply grow_up_spec in H3; [| exact Hne | exact Hn | | lia |].
  - simpl in H3. rewrite !grid_of_set, !grid_of_set_other, !grid__set_grid_of in H3.
    destruct H3 as ((more & Hm) & Hall & (b & Hb & Hle) & Ho & Hg).
    eapply grow_down_spec in H4; [| exact Hsw | exact Hs | | exact Hall].
    + destruct H4 as ((more' & Hm') & Hall' & Hb' & Ho' & Hg').
      split; [| split; congruence].
      split; [rewrite Hm', Hm, !length_app; simpl; lia |].
      split; [exact Hall' |]. split; [exact Hb' |].
      exists b. split; [| exact Hle].
      rewrite Hm'. rewrite length_app.
      replace (Z.of_nat (length more' + length (grid_of a (routeBoxer w3))) - 2)
        with (Z.of_nat (length (grid_of a (routeBoxer w3))) - 2 + Z.of_nat (length more')) by lia.
      rewrite index_app_r; [exact Hb |]. rewrite Hm, length_app. simpl. lia.
    + rewrite Hm, length_app. simpl. lia.
  - simpl. rewrite !grid_of_set. reflexivity.
  - simpl. rewrite !grid_of_set. repeat constructor; assumption.
Qed.

Lemma buildGrid__reaches fuel vertices range w u w' :
  latGrid_ (routeBoxer w) = [] -> lngGrid_ (routeBoxer w) = [] ->
  buildGrid_ E fuel vertices range w = (Ok u, w') ->
  exists rb sw ne,
    extend_all E empty_bounds vertices = Ok rb
    /\ _southWest rb = Some sw /\ _northEast rb = Some ne /\ valid sw /\ valid ne
    /\ reaches (latGrid_ (routeBoxer w')) (lat sw) (lat ne)
    /\ reaches (lngGrid_ (routeBoxer w')) (lng sw) (lng ne)
    /\ grid_ (routeBoxer w')
       = Some (replicate (length (lngGrid_ (routeBoxer w')))
                 (new_Array (length (latGrid_ (routeBoxer w'))))).
Proof.
  intros Hlat Hlng H. unfold buildGrid_ in H.
  apply bind_inv in H. destruct H as (rb & w1 & Hrb & H).
  apply lift_inv in Hrb. destruct Hrb as [Hrb ->].
  apply bind_inv in H. destruct H as (c & w1 & Hc & H).
  apply lift_inv in Hc. destruct Hc as [Hc ->].
  destruct (getCenter_inv _ _ Hc) as (sw & ne & Hsw & Hne & [Hs1 Hs2] & [Hn1 Hn2] & [Hc1 Hc2] & _).
  assert (getSouthWest rb = Ok sw) as Hgsw by (unfold getSouthWest; rewrite Hsw; reflexivity).
  assert (getNorthEast rb = Ok ne) as Hgne by (unfold getNorthEast; rewrite Hne; reflexivity).
  apply bind_inv in H. destruct H as (u1 & w1 & A1 & H).
  apply bind_inv in H. destruct H as (u2 & w2 & A2 & H).
  apply bind_inv in H. destruct H as (u3 & w3 & A3 & H).
  apply bind_inv in H. destruct H as (u4 & w4 & A4 & H).
  destruct (axis_reaches fuel Lat c rb _ _ _ range sw ne _ _ _ _ _ _ _ _ _
              Hgsw Hgne Hs1 Hn1 Hc1 Hlat A1 A2 A3 A4) as (Rlat & Olat & Glat).
  apply bind_inv in H. destruct H as (u5 & w5 & B1 & H).
  apply bind_inv in H. destruct H as (u6 & w6 & B2 & H).
  apply bind_inv in H. destruct H as (u7 & w7 & B3 & H).
  apply bind_inv in H. destruct H as (u8 & w8 & B4 & H).
  simpl in Olat. rewrite Hlng in Olat.
  destruct (axis_reaches fuel Lng c rb _ _ _ range sw ne _ _ _ _ _ _ _ _ _
              Hgsw Hgne Hs2 Hn2 Hc2 Olat B1 B2 B3 B4) as (Rlng & Olng & Glng).
  simpl in Rlat, Rlng, Olng.
  exec H. simpl. exists rb, sw, ne.
  rewrite Olng. split; [exact Hrb |]. split; [exact Hsw |]. split; [exact Hne |].
  split; [split; assumption |]. split; [split; assumption |].
  split; [exact Rlat |]. split; [exact Rlng | reflexivity].
Qed.

End Reach2.

(** ** The bounding box of the route *)

Lemma Math_min_nan (a b : num) :
  isNaN (Math_min a b) = false -> isNaN a = false /\ isNaN b = false.
Proof. destruct a, b; simpl; auto. Qed.

Lemma Math_max_nan (a b : num) :
  isNaN (Math_max a b) = false -> isNaN a = false /\ isNaN b = false.
Proof. destruct a, b; simpl; auto. Qed.

Section RouteBounds.

Variable E : Engine.

Lemma extend_all_valid vs : forall b rb sw' ne',
  extend_all E b vs = Ok rb ->
  _southWest rb = Some sw' -> _northEast rb = Some ne' -> valid sw' -> valid ne' ->
  Forall valid vs
  /\ (b = empty_bounds
      \/ exists sw ne, _southWest b = Some sw /\ _northEast b = Some ne /\ valid sw /\ valid ne).
Proof.
  induction vs as [| v vs IH]; intros b rb sw' ne' H Hsw' Hne' Vs Vn; simpl in H.
  - injection H as <-. split; [constructor |]. right. eauto 10.
  - oexec H. destruct (IH _ _ _ _ H Hsw' Hne' Vs Vn) as [Hvs Hb1].
    unfold extend in H0.
    destruct (_southWest b) as [sw |] eqn:Hsw, (_northEast b) as [ne |] eqn:Hne;
      try discriminate H0.
    + injection H0 as <-.
      destruct Hb1 as [Hb1 | (sw1 & ne1 & [= <-] & [= <-] & [V1 V2] & [V3 V4])];
        [discriminate Hb1 |].
      simpl in V1, V2, V3, V4.
      apply Math_min_nan in V1, V2. apply Math_max_nan in V3, V4.
      split; [constructor; [split; tauto | exact Hvs] |].
      right. exists sw, ne. repeat split; tauto.
    + oexec H0. pose proof (new_LatLng_valid _ _ _ _ H1) as [V1 V2].
      apply new_LatLng_num in H1. subst. simpl in V1, V2.
      split; [constructor; [split; assumption | exact Hvs] |].
      left. destruct b. simpl in *. subst. reflexivity.
Qed.

Lemma extend_all_inside vs : forall b rb,
  Forall valid vs -> good b \/ b = empty_bounds ->
  extend_all E b vs = Ok rb ->
  (forall v, v ∈ vs -> inside rb v) /\ (forall q, inside b q -> inside rb q)
  /\ (good b \/ vs <> [] -> good rb).
Proof.
  induction vs as [| v vs IH]; intros b rb Hvs Hb H; simpl in H.
  - injection H as <-. split; [intros v Hv; inversion Hv |]. split; [auto |].
    intros [? | ?]; [assumption | congruence].
  - oexec H. inversion Hvs as [| ? ? Hv Hvs']; subst.
    pose proof (extend_good E _ _ _ Hb Hv H0) as Hg1.
    destruct (IH _ _ Hvs' (or_introl Hg1) H) as (Hin & Hkeep & Hrb).
    split; [| split].
    + intros v' Hv'. apply elem_of_cons in Hv'. destruct Hv' as [-> | Hv'].
      * apply Hkeep. eapply extend_inside; eassumption.
      * apply Hin, Hv'.
    + intros q Hq. apply Hkeep. eapply extend_keeps; eassumption.
    + intros _. apply Hrb. left. exact Hg1.
Qed.

End RouteBounds.

(** ** A vertex and its cell *)

Lemma ascending_index (g : list num) (i : Z) (a b : num) :
  ascending g = true -> index g i = Some a -> index g (i + 1) = Some b -> lt a b = true.
Proof.
  intros Hasc Ha Hb. apply index_inv in Ha. destruct Ha as [Hi Ha].
  apply index_inv in Hb. destruct Hb as [_ Hb].
  replace (Z.to_nat (i + 1)) with (S (Z.to_nat i)) in Hb by lia.
  revert g Hasc Ha Hb. generalize (Z.to_nat i) as n. clear Hi i.
  induction n as [| n IH]; intros g Hasc Ha Hb.
  - destruct g as [| x [| y g]]; simpl in *; try discriminate.
    injection Ha as ->. injection Hb as ->. apply andb_true_iff in Hasc. tauto.
  - destruct g as [| x g]; [discriminate |]. simpl in Hasc.
    apply andb_true_iff in Hasc. destruct Hasc as [_ Hasc]. eapply IH; eassumption.
Qed.

Section Slots.

Variables (g : list num) (lo hi v : num).
Hypothesis g_ascending : ascending g = true.
Hypothesis g_reaches : reaches g lo hi.
Hypothesis v_lo : le lo v = true.
Hypothesis v_hi : le v hi = true.

Lemma first_line_below : lt_undef (index g 0) v = true.
Proof.
  destruct g_reaches as (Hlen & Hall & (a1 & H1 & Hle1) & _).
  destruct (index_some g 0 ltac:(lia)) as [a0 H0]. rewrite H0. simpl.
  pose proof (ascending_index g 0 a0 a1 g_ascending H0 H1) as Hlt.
  eapply lt_le_trans; [exact Hlt |]. eapply le_trans; eassumption.
Qed.

Lemma line_not_below j :
  Z.of_nat (length g) - 2 <= j -> lt_undef (index g j) v = false.
Proof.
  intros Hj. destruct g_reaches as (Hlen & Hall & _ & (b & Hb & Hle)).
  destruct (index g j) as [c |] eqn:Hc; [| reflexivity]. simpl.
  apply le_not_lt. eapply le_trans; [exact v_hi |]. eapply le_trans; [exact Hle |].
  pose proof (index_lt _ _ _ Hc) as Hjl.
  destruct (Z.eq_dec j (Z.of_nat (length g) - 2)) as [-> | Hne].
  - rewrite Hb in Hc. injection Hc as <-. apply le_refl. eapply le_nan_r, Hle.
  - assert (j = Z.of_nat (length g) - 2 + 1) as -> by lia.
    apply lt_le. eapply ascending_index; eassumption.
Qed.

Lemma nonNaN_v : isNaN v = false.
Proof. eapply le_nan_r, v_lo. Qed.

Lemma index_nonNaN i a : index g i = Some a -> isNaN a = false.
Proof.
  intros Ha. destruct g_reaches as (_ & Hall & _). apply index_inv in Ha.
  apply (proj1 (Forall_lookup _ _) Hall _ _ (proj2 Ha)).
Qed.

(** The cell of the first vertex. *)
Lemma slot_first : slot g (count_below g v 0 - 1) v.
Proof.
  destruct (count_below_index g v) as (Hr & Hb & Hs).
  set (k := count_below g v 0) in *.
  pose proof first_line_below as H0.
  assert (1 <= k) as Hk1.
  { destruct (Z.le_gt_cases 1 k) as [? | Hk]; [assumption |].
    assert (k = 0) as Hk0 by lia. rewrite Hk0 in Hs. congruence. }
  assert (k + 1 < Z.of_nat (length g)) as Hk2.
  { destruct (Z.lt_ge_cases (k + 1) (Z.of_nat (length g))) as [? | Hk]; [assumption |].
    specialize (Hb (Z.of_nat (length g) - 2) ltac:(destruct g_reaches; lia)).
    rewrite (line_not_below (Z.of_nat (length g) - 2) ltac:(lia)) in Hb. discriminate Hb. }
  split; [lia |]. split; [lia |].
  specialize (Hb (k - 1) ltac:(lia)).
  destruct (index_some g (k - 1) ltac:(lia)) as [a Ha].
  destruct (index_some g k ltac:(lia)) as [b Hbk].
  exists a, b. replace (k - 1 + 1) with k by lia. split; [exact Ha |]. split; [exact Hbk |].
  rewrite Ha in Hb. rewrite Hbk in Hs. simpl in Hb, Hs. split; [apply lt_le, Hb |].
  apply not_lt_le; [apply nonNaN_v | eapply index_nonNaN, Hbk | exact Hs].
Qed.

(** The hinted search upwards, from the cell [h] of a value [pv] below [v]. *)
Lemma slot_up h pv : slot g h pv -> lt pv v = true -> slot g (scan_up g v h) v.
Proof.
  intros (Hh0 & Hh2 & a & b & Ha & Hb & Hle1 & Hle2) Hlt.
  destruct (scan_up_spec g v h) as (Hr & Hbelow & Hstop).
  set (y := scan_up g v h) in *.
  assert (y + 2 < Z.of_nat (length g)) as Hy2.
  { destruct (Z.lt_ge_cases (y + 2) (Z.of_nat (length g))) as [? | Hy]; [assumption |].
    specialize (Hbelow (Z.of_nat (length g) - 2) ltac:(lia)).
    rewrite (line_not_below (Z.of_nat (length g) - 2) ltac:(lia)) in Hbelow.
    discriminate Hbelow. }
  split; [lia |]. split; [exact Hy2 |].
  destruct (index_some g y ltac:(lia)) as [c Hc].
  destruct (index_some g (y + 1) ltac:(lia)) as [d Hd].
  exists c, d. split; [exact Hc |]. split; [exact Hd |]. split.
  - destruct (Z.eq_dec y h) as [Heq | Hne].
    + rewrite Heq, Ha in Hc. injection Hc as <-.
      apply lt_le. eapply le_lt_trans; eassumption.
    + specialize (Hbelow y ltac:(lia)). rewrite Hc in Hbelow. apply lt_le, Hbelow.
  - rewrite Hd in Hstop. simpl in Hstop.
    apply not_lt_le; [apply nonNaN_v | eapply index_nonNaN, Hd | exact Hstop].
Qed.

(** The hinted search downwards, from the cell [h] of a value [pv] that
    [v] does not exceed. *)
Lemma slot_down h pv : slot g h pv -> lt pv v = false -> slot g (scan_down g v h) v.
Proof.
  intros (Hh0 & Hh2 & a & b & Ha & Hb & Hle1 & Hle2) Hlt.
  destruct (scan_down_spec g v h) as (Hr & Hlow & Habove & Hstop).
  set (y := scan_down g v h) in *.
  assert (le v pv = true) as Hvp.
  { apply not_lt_le; [apply nonNaN_v | eapply le_nan_r, Hle1 | exact Hlt]. }
  assert (0 <= y) as Hy0.
  { destruct (Z.le_gt_cases 0 y) as [? | Hy]; [assumption |].
    specialize (Habove 0 ltac:(lia)). pose proof first_line_below as H0.
    destruct (index g 0) as [a0 |]; [| discriminate H0]. simpl in Habove, H0.
    unfold gt in Habove. pose proof (lt_le_trans _ _ _ Habove (lt_le _ _ H0)) as Habs.
    rewrite lt_irrefl in Habs. discriminate Habs. }
  split; [exact Hy0 |]. split; [lia |].
  destruct (index_some g y ltac:(lia)) as [c Hc].
  destruct (index_some g (y + 1) ltac:(lia)) as [d Hd].
  exists c, d. split; [exact Hc |]. split; [exact Hd |]. split.
  - rewrite Hc in Hstop. simpl in Hstop. unfold gt in Hstop.
    apply not_lt_le; [eapply index_nonNaN, Hc | apply nonNaN_v | exact Hstop].
  - destruct (Z.eq_dec y h) as [Heq | Hne].
    + rewrite Heq, Hb in Hd. injection Hd as <-. eapply le_trans; eassumption.
    + specialize (Habove (y + 1) ltac:(lia)). rewrite Hd in Habove. apply lt_le, Habove.
Qed.

End Slots.

(** ** The cells of the vertices are marked *)

Lemma grid_lines_ignores : ignores set_grid_ grid_lines.
Proof. intros s r v. reflexivity. Qed.

Lemma on_grid_kept {A} (m : M A) lats lngs w :
  preserves grid_lines m -> on_grid lats lngs w -> on_grid lats lngs (m w).2.
Proof.
  intros Hm [H1 H2]. specialize (Hm w). unfold grid_lines in Hm.
  injection Hm as Ha Hb. split; congruence.
Qed.

Lemma on_grid_run {A} (m : M A) lats lngs w a w' :
  preserves grid_lines m -> on_grid lats lngs w -> m w = (Ok a, w') -> on_grid lats lngs w'.
Proof.
  intros Hm Hw H. pose proof (on_grid_kept m lats lngs w Hm Hw) as Hk.
  rewrite H in Hk. exact Hk.
Qed.

Lemma fillInGridSquares__keeps a b y c :
  stable (fun w => marked (grid_ (routeBoxer w)) c) (fillInGridSquares_ a b y).
Proof. unfold fillInGridSquares_. stabilize. Qed.

Lemma getGridCoordsFromHint__keeps p h hxy c :
  stable (fun w => marked (grid_ (routeBoxer w)) c) (getGridCoordsFromHint_ p h hxy).
Proof. unfold getGridCoordsFromHint_. stabilize. Qed.

#[local] Hint Resolve fillInGridSquares__keeps getGridCoordsFromHint__keeps : stable.

Lemma cross_keeps E rows up s b h hxy c :
  stable (fun w => marked (grid_ (routeBoxer w)) c) (cross E rows up s b h hxy).
Proof. revert h hxy. induction rows as [| i rows IH]; intros h hxy; simpl; stabilize. Qed.

#[local] Hint Resolve cross_keeps : stable.

Lemma getGridIntersects__keeps E s e sxy exy c :
  stable (fun w => marked (grid_ (routeBoxer w)) c) (getGridIntersects_ E s e sxy exy).
Proof. unfold getGridIntersects_. stabilize. Qed.

(** The last row filled is the row of the end cell, and the last cell
    filled in it is the end cell. *)
Lemma getGridIntersects__marks E s e sxy exy w u w' :
  (if gt (lat e) (lat s) then snd sxy <= snd exy else snd exy <= snd sxy) ->
  getGridIntersects_ E s e sxy exy w = (Ok u, w') ->
  marked (grid_ (routeBoxer w')) exy.
Proof.
  intros Hdir H. unfold getGridIntersects_ in H. cbv zeta in H.
  destruct (gt (lat e) (lat s)).
  - apply bind_inv in H. destruct H as (hxy & w1 & _ & H).
    apply fillInGridSquares__marks in H. destruct H as (H & _).
    replace (snd sxy + Z.of_nat (Z.to_nat (snd exy - snd sxy))) with (snd exy) in H by lia.
    destruct exy as [ex ey]. apply (H ex); [simpl; lia | unfold around; simpl; lia].
  - apply bind_inv in H. destruct H as (hxy & w1 & _ & H).
    apply fillInGridSquares__marks in H. destruct H as (H & _).
    replace (snd sxy - Z.of_nat (Z.to_nat (snd sxy - snd exy))) with (snd exy) in H by lia.
    destruct exy as [ex ey]. apply (H ex); [simpl; lia | unfold around; simpl; lia].
Qed.

Lemma getCellCoords__run p w :
  getCellCoords_ p w
  = (Ok (count_below (lngGrid_ (routeBoxer w)) (lng p) 0 - 1,
         count_below (latGrid_ (routeBoxer w)) (lat p) 0 - 1), w).
Proof. reflexivity. Qed.

Lemma getGridCoordsFromHint__run p hp h w :
  getGridCoordsFromHint_ p hp h w
  = (Ok (if gt (lng p) (lng hp)
         then scan_up (lngGrid_ (routeBoxer w)) (lng p) (fst h)
         else scan_down (lngGrid_ (routeBoxer w)) (lng p) (fst h),
         if gt (lat p) (lat hp)
         then scan_up (latGrid_ (routeBoxer w)) (lat p) (snd h)
         else scan_down (latGrid_ (routeBoxer w)) (lat p) (snd h)), w).
Proof. reflexivity. Qed.

Section Locate.

Variable E : Engine.
Variables (lats lngs : list num) (rb : LatLngBounds) (sw ne : LatLng).
Hypothesis lats_ascending : ascending lats = true.
Hypothesis lngs_ascending : ascending lngs = true.
Hypothesis rb_sw : _southWest rb = Some sw.
Hypothesis rb_ne : _northEast rb = Some ne.
Hypothesis lats_reach : reaches lats (lat sw) (lat ne).
Hypothesis lngs_reach : reaches lngs (lng sw) (lng ne).

Lemma inside_rb p :
  inside rb p ->
  le (lat sw) (lat p) = true /\ le (lat p) (lat ne) = true
  /\ le (lng sw) (lng p) = true /\ le (lng p) (lng ne) = true.
Proof.
  intros (sw' & ne' & Hsw & Hne & H). rewrite rb_sw in Hsw. rewrite rb_ne in Hne.
  injection Hsw as <-. injection Hne as <-. exact H.
Qed.

Lemma getCellCoords__located p w c w' :
  on_grid lats lngs w -> inside rb p ->
  getCellCoords_ p w = (Ok c, w') -> w' = w /\ in_cell lats lngs c p.
Proof.
  intros [Hlat Hlng] Hp H. apply inside_rb in Hp. destruct Hp as (P1 & P2 & P3 & P4).
  rewrite getCellCoords__run, Hlat, Hlng in H. injection H as <- <-.
  split; [reflexivity |]. split; simpl; eapply slot_first; eassumption.
Qed.

Lemma getGridCoordsFromHint__located p hp h w c w' :
  on_grid lats lngs w -> inside rb p -> in_cell lats lngs h hp ->
  getGridCoordsFromHint_ p hp h w = (Ok c, w') ->
  w' = w /\ in_cell lats lngs c p
  /\ (if gt (lat p) (lat hp) then snd h <= snd c else snd c <= snd h).
Proof.
  intros [Hlat Hlng] Hp [Hx Hy] H. apply inside_rb in Hp. destruct Hp as (P1 & P2 & P3 & P4).
  rewrite getGridCoordsFromHint__run, Hlat, Hlng in H. injection H as <- <-.
  split; [reflexivity |]. cbn [fst snd]. unfold gt.
  fold (lt (lng hp) (lng p)). fold (lt (lat hp) (lat p)).
  split; [split |]; cbn [fst snd].
  - destruct (lt (lng hp) (lng p)) eqn:Hd.
    + eapply slot_up; eassumption.
    + eapply slot_down; eassumption.
  - destruct (lt (lat hp) (lat p)) eqn:Hd.
    + eapply slot_up; eassumption.
    + eapply slot_down; eassumption.
  - destruct (lt (lat hp) (lat p)).
    + apply scan_up_spec.
    + apply scan_down_spec.
Qed.

Lemma walk_located vs : forall prev hintXY w u w',
  on_grid lats lngs w -> Forall (inside rb) vs ->
  in_cell lats lngs hintXY prev -> marked (grid_ (routeBoxer w)) hintXY ->
  walk E vs prev hintXY w = (Ok u, w') ->
  (forall v, v ∈ vs -> exists c, in_cell lats lngs c v /\ marked (grid_ (routeBoxer w')) c)
  /\ (forall c, marked (grid_ (routeBoxer w)) c -> marked (grid_ (routeBoxer w')) c).
Proof.
  induction vs as [| v vs IH]; intros prev hintXY w u w' Hw Hvs Hh Hm H; simpl in H.
  - exec H. split; [intros v Hv; inversion Hv | auto].
  - inversion Hvs as [| ? ? Hv Hvs']; subst.
    apply bind_inv in H. destruct H as (gridXY & w1 & Hg & H).
    destruct (getGridCoordsFromHint__located _ _ _ _ _ _ Hw Hv Hh Hg) as (-> & Hc & Hdir).
    destruct (same_cell gridXY hintXY) eqn:Hsame.
    + assert (gridXY = hintXY) as ->.
      { unfold same_cell in Hsame. apply andb_true_iff in Hsame. destruct Hsame as [H1 H2].
        apply Z.eqb_eq in H1, H2. destruct gridXY, hintXY. simpl in *. congruence. }
      destruct (IH _ _ _ _ _ Hw Hvs' Hc Hm H) as [Hin Hkeep]. split; [| exact Hkeep].
      intros v' Hv'. apply elem_of_cons in Hv'. destruct Hv' as [-> | Hv'].
      * exists hintXY. split; [exact Hc | apply Hkeep, Hm].
      * apply Hin, Hv'.
    + apply bind_inv in H. destruct H as (u1 & w1 & Hstep & H).
      assert (marked (grid_ (routeBoxer w1)) gridXY
              /\ (forall c, marked (grid_ (routeBoxer w)) c -> marked (grid_ (routeBoxer w1)) c)
              /\ on_grid lats lngs w1) as (Hm1 & Hk1 & Hw1).
      { destruct (shares_edge hintXY gridXY).
        - split; [| split].
          + eapply markCell__block; [exact Hstep |]. unfold around. lia.
          + intros c Hmc. eapply markCell__keeps; eassumption.
          + eapply on_grid_run; [| exact Hw | exact Hstep].
            apply markCell__frame, grid_lines_ignores.
        - split; [| split].
          + eapply getGridIntersects__marks; [| exact Hstep]. exact Hdir.
          + intros c Hmc. eapply getGridIntersects__keeps; eassumption.
          + eapply on_grid_run; [| exact Hw | exact Hstep].
            apply getGridIntersects__frame, grid_lines_ignores. }
      destruct (IH _ _ _ _ _ Hw1 Hvs' Hc Hm1 H) as [Hin Hkeep]. split.
      * intros v' Hv'. apply elem_of_cons in Hv'. destruct Hv' as [-> | Hv'].
        -- exists gridXY. split; [exact Hc | apply Hkeep, Hm1].
        -- apply Hin, Hv'.
      * intros c Hmc. apply Hkeep, Hk1, Hmc.
Qed.

Lemma findIntersectingCells__located vs w u w' :
  on_grid lats lngs w -> Forall (inside rb) vs ->
  findIntersectingCells_ E vs w = (Ok u, w') ->
  forall v, v ∈ vs -> exists c, in_cell lats lngs c v /\ marked (grid_ (routeBoxer w')) c.
Proof.
  intros Hw Hvs H. unfold findIntersectingCells_ in H.
  apply bind_inv in H. destruct H as (v0 & w1 & Hv0 & H).
  apply lift_inv in Hv0. destruct Hv0 as [Hv0 ->]. apply deref_inv in Hv0.
  destruct vs as [| v vs']; [discriminate Hv0 |]. simpl in Hv0. injection Hv0 as ->.
  inversion Hvs as [| ? ? Hv Hvs']; subst.
  apply bind_inv in H. destruct H as (hintXY & w1 & Hc & H).
  destruct (getCellCoords__located _ _ _ _ Hw Hv Hc) as [-> Hcell].
  apply bind_inv in H. destruct H as (u1 & w1 & Hmk & H).
  assert (marked (grid_ (routeBoxer w1)) hintXY) as Hm1.
  { eapply markCell__block; [exact Hmk |]. unfold around. lia. }
  assert (on_grid lats lngs w1) as Hw1.
  { eapply on_grid_run; [| exact Hw | exact Hmk]. apply markCell__frame, grid_lines_ignores. }
  simpl in H. destruct (walk_located _ _ _ _ _ _ Hw1 Hvs' Hcell Hm1 H) as [Hin Hkeep].
  intros v' Hv'. apply elem_of_cons in Hv'. destruct Hv' as [-> | Hv'].
  - exists hintXY. split; [exact Hcell | apply Hkeep, Hm1].
  - apply Hin, Hv'.
Qed.

End Locate.

(** ** The boxes span the marked cells *)

Lemma spans_inside lats lngs b c p : spans lats lngs b c -> in_cell lats lngs c p -> inside b p.
Proof.
  intros (sw & ne & s & n & w & e & Hsw & Hne & Hs & Hn & Hw & He & L1 & L2 & L3 & L4)
         [(_ & _ & a & b' & Ha & Hb & La & Lb) (_ & _ & a2 & b2 & Ha2 & Hb2 & La2 & Lb2)].
  rewrite Hw in Ha. rewrite He in Hb. rewrite Hs in Ha2. rewrite Hn in Hb2.
  injection Ha as <-. injection Hb as <-. injection Ha2 as <-. injection Hb2 as <-.
  exists sw, ne. split; [exact Hsw |]. split; [exact Hne |].
  repeat split; eapply le_trans; eassumption.
Qed.

Lemma of_index_inv E (o1 o2 : option num) p :
  new_LatLng E (of_index o1) (of_index o2) = Ok p ->
  exists a b, o1 = Some a /\ o2 = Some b /\ p = {| lat := a; lng := b |} /\ valid p.
Proof.
  intros H. pose proof (new_LatLng_valid _ _ _ _ H) as Hv.
  apply new_LatLng_Ok in H as (x & y & Hx & Hy & _ & Hny & ->).
  destruct o1 as [a |], o2 as [b |]; simpl in Hx, Hy;
    injection Hx as <-; injection Hy as <-; try (destruct Hv; discriminate).
  eauto 10.
Qed.

Section Spans.

Variable E : Engine.
Variables lats lngs : list num.
Hypothesis lats_ascending : ascending lats = true.
Hypothesis lngs_ascending : ascending lngs = true.

Lemma getCellBounds__spans c w b w' :
  on_grid lats lngs w -> getCellBounds_ E c w = (Ok b, w') ->
  spans lats lngs b c /\ good b /\ w' = w.
Proof.
  intros [Hlat Hlng] H. pose proof (getCellBounds__good E _ _ _ _ H) as [Hg ->].
  split; [| split; [exact Hg | reflexivity]].
  unfold getCellBounds_ in H.
  apply bind_inv in H. destruct H as (lats' & w1 & H1 & H). apply get_inv in H1.
  destruct H1 as [-> ->].
  apply bind_inv in H. destruct H as (lngs' & w1 & H1 & H). apply get_inv in H1.
  destruct H1 as [-> ->]. rewrite Hlat, Hlng in H.
  apply bind_inv in H. destruct H as (c1 & w1 & H1 & H). apply lift_inv in H1.
  destruct H1 as [H1 ->].
  apply bind_inv in H. destruct H as (c2 & w1 & H2 & H). apply lift_inv in H2.
  destruct H2 as [H2 ->]. apply lift_inv in H. destruct H as [H _].
  apply of_index_inv in H1. destruct H1 as (s & w0 & Hs & Hw0 & -> & [V1 V2]).
  apply of_index_inv in H2. destruct H2 as (n & e & Hn & He & -> & [V3 V4]).
  simpl in V1, V2, V3, V4.
  unfold new_LatLngBounds in H.
  rewrite (extend_empty E {| lat := s; lng := w0 |} (conj V1 V2)) in H. simpl in H.
  injection H as <-.
  eexists _, _, s, n, w0, e. split; [reflexivity |]. split; [reflexivity |].
  split; [exact Hs |]. split; [exact Hn |]. split; [exact Hw0 |]. split; [exact He |].
  simpl. repeat split;
    try (apply Math_min_le; assumption); try (apply Math_max_ge; assumption).
Qed.

Lemma extend_spans b p b' c :
  valid p -> extend E b p = Ok b' -> spans lats lngs b c -> spans lats lngs b' c.
Proof.
  intros [Hp1 Hp2] H
    (sw & ne & s & n & w & e & Hsw & Hne & Hs & Hn & Hw & He & L1 & L2 & L3 & L4).
  rewrite (extend_corners E b p sw ne Hsw Hne) in H. injection H as <-.
  eexists _, _, s, n, w, e. split; [reflexivity |]. split; [reflexivity |].
  split; [exact Hs |]. split; [exact Hn |]. split; [exact Hw |]. split; [exact He |].
  simpl. repeat split.
  - eapply le_trans; [| exact L1]. apply Math_min_le; [assumption | eapply le_nan_l, L1].
  - eapply le_trans; [exact L2 |]. apply Math_max_ge; [assumption | eapply le_nan_r, L2].
  - eapply le_trans; [| exact L3]. apply Math_min_le; [assumption | eapply le_nan_l, L3].
  - eapply le_trans; [exact L4 |]. apply Math_max_ge; [assumption | eapply le_nan_r, L4].
Qed.

Lemma ascending_le (g : list num) (i : Z) (a b : num) :
  ascending g = true -> index g i = Some a -> index g (i + 1) = Some b -> le a b = true.
Proof. intros. eapply lt_le, ascending_index; eassumption. Qed.

(** The current box, extended by the north-east corner of the next
    cell, spans that cell. *)
Lemma extend_next cb c' c box ne cb' :
  spans lats lngs cb c' -> next c' c -> spans lats lngs box c ->
  getNorthEast box = Ok ne -> valid ne -> extend E cb ne = Ok cb' ->
  spans lats lngs cb' c.
Proof.
  intros (sw1 & ne1 & s1 & n1 & w1 & e1 & Hsw1 & Hne1 & Hs1 & Hn1 & Hw1 & He1
          & L1 & L2 & L3 & L4)
         Hnext
         (sw2 & ne2 & s2 & n2 & w2 & e2 & Hsw2 & Hne2 & Hs2 & Hn2 & Hw2 & He2
          & M1 & M2 & M3 & M4)
         Hne [Hv1 Hv2] H.
  unfold getNorthEast in Hne. rewrite Hne2 in Hne. injection Hne as <-.
  rewrite (extend_corners E cb ne2 sw1 ne1 Hsw1 Hne1) in H. injection H as <-.
  eexists _, _, s2, n2, w2, e2. split; [reflexivity |]. split; [reflexivity |].
  split; [exact Hs2 |]. split; [exact Hn2 |]. split; [exact Hw2 |]. split; [exact He2 |].
  simpl.
  assert (le s1 s2 = true /\ le w1 w2 = true) as [Hs12 Hw12].
  { destruct c' as [x' y'], c as [x y]. destruct Hnext as [Hc | Hc]; injection Hc as -> ->;
      simpl in *.
    - rewrite Hs1 in Hs2. injection Hs2 as <-. rewrite He1 in Hw2. injection Hw2 as <-.
      split; [apply le_refl; eapply le_nan_r, L1 |].
      eapply ascending_le; [exact lngs_ascending | exact Hw1 | exact He1].
    - rewrite Hn1 in Hs2. injection Hs2 as <-. rewrite Hw1 in Hw2. injection Hw2 as <-.
      split; [| apply le_refl; eapply le_nan_r, L3].
      eapply ascending_le; [exact lats_ascending | exact Hs1 | exact Hn1]. }
  repeat split.
  - eapply le_trans; [| exact Hs12]. eapply le_trans; [| exact L1].
    apply Math_min_le; [assumption | eapply le_nan_l, L1].
  - eapply le_trans; [exact M2 |]. apply Math_max_ge; [assumption | eapply le_nan_r, L2].
  - eapply le_trans; [| exact Hw12]. eapply le_trans; [| exact L3].
    apply Math_min_le; [assumption | eapply le_nan_l, L3].
  - eapply le_trans; [exact M4 |]. apply Math_max_ge; [assumption | eapply le_nan_r, L4].
Qed.

End Spans.

Lemma matchesX_south_west : from_south_west matchesX.
Proof.
  intros b box bsw sw H (bsw' & bne & Hbsw & Hbne & _ & _ & [O1 O2]) Hsw1 Hsw2.
  rewrite Hbsw in Hsw1. injection Hsw1 as ->.
  unfold matchesX, getNorthEast, getSouthWest in H. rewrite Hbne, Hsw2, Hbsw in H. simpl in H.
  destruct (seq_num (lng bne) (lng sw)) eqn:S1; [| discriminate H]. simpl in H.
  destruct (seq_num (lat bsw) (lat sw)) eqn:S2; [| discriminate H].
  apply seq_num_le in S1, S2. split; [tauto |].
  eapply le_trans; [exact O2 | tauto].
Qed.

Lemma matchesY_south_west : from_south_west matchesY.
Proof.
  intros b box bsw sw H (bsw' & bne & Hbsw & Hbne & _ & _ & [O1 O2]) Hsw1 Hsw2.
  rewrite Hbsw in Hsw1. injection Hsw1 as ->.
  unfold matchesY, getNorthEast, getSouthWest in H. rewrite Hbne, Hsw2, Hbsw in H. simpl in H.
  destruct (seq_num (lat bne) (lat sw)) eqn:S1; [| discriminate H]. simpl in H.
  destruct (seq_num (lng bsw) (lng sw)) eqn:S2; [| discriminate H].
  apply seq_num_le in S1, S2. split; [| tauto].
  eapply le_trans; [exact O1 | tauto].
Qed.

Section Merges.

Variable E : Engine.
Variables lats lngs : list num.

(** A box that matches, extended by the north-east corner of the box to
    merge, spans what that box spans. *)
Lemma matched_spans matches b box ne b' c :
  from_south_west matches -> matches b box = Ok true -> good b ->
  getNorthEast box = Ok ne -> extend E b ne = Ok b' ->
  spans lats lngs box c -> spans lats lngs b' c.
Proof.
  intros Hm Hmatch Hg Hne H
    (sw2 & ne2 & s & n & w & e & Hsw2 & Hne2 & Hs & Hn & Hw & He & L1 & L2 & L3 & L4).
  pose proof Hg as (bsw & bne & Hbsw & Hbne & [V1 V2] & [V3 V4] & _).
  destruct (Hm _ _ _ _ Hmatch Hg Hbsw Hsw2) as [S1 S2].
  unfold getNorthEast in Hne. rewrite Hne2 in Hne. injection Hne as <-.
  rewrite (extend_corners E b ne2 bsw bne Hbsw Hbne) in H. injection H as <-.
  eexists _, _, s, n, w, e. split; [reflexivity |]. split; [reflexivity |].
  split; [exact Hs |]. split; [exact Hn |]. split; [exact Hw |]. split; [exact He |].
  simpl. repeat split.
  - eapply le_trans; [| exact L1]. eapply le_trans; [| exact S1].
    apply Math_min_le; [eapply le_nan_r, L2 | assumption].
  - eapply le_trans; [exact L2 |]. apply Math_max_ge; [eapply le_nan_r, L2 | assumption].
  - eapply le_trans; [| exact L3]. eapply le_trans; [| exact S2].
    apply Math_min_le; [eapply le_nan_r, L4 | assumption].
  - eapply le_trans; [exact L4 |]. apply Math_max_ge; [eapply le_nan_r, L4 | assumption].
Qed.

Lemma merge_into_spans matches boxes box r c :
  from_south_west matches -> Forall good boxes -> good box ->
  merge_into E matches boxes box = Ok r ->
  spanned lats lngs boxes c \/ spans lats lngs box c ->
  spanned lats lngs (default (boxes ++ [box]) r) c.
Proof.
  intros Hm Hbs Hb. revert r.
  induction Hbs as [| b boxes Hgb Hbs IH]; intros r H Hc; simpl in H.
  - injection H as <-. simpl. destruct Hc as [(b & Hin & _) | Hc]; [inversion Hin |].
    exists box. split; [left | exact Hc].
  - oexec H. destruct a as [|].
    + oexec H. simpl.
      assert (valid a) as Hva by (eapply good_northEast; eassumption).
      destruct Hc as [(b0 & Hin & Hsp) | Hc].
      * apply elem_of_cons in Hin. destruct Hin as [-> | Hin].
        -- exists a0. split; [left |]. eapply extend_spans; eassumption.
        -- exists b0. split; [right; exact Hin | exact Hsp].
      * exists a0. split; [left |]. eapply matched_spans; eassumption.
    + oexec H.
      assert (spanned lats lngs (default (boxes ++ [box]) a) c \/ spans lats lngs b c) as Hcase.
      { destruct Hc as [(b0 & Hin & Hsp) | Hc].
        - apply elem_of_cons in Hin. destruct Hin as [-> | Hin]; [right; exact Hsp |].
          left. apply IH; [exact H1 |]. left. exists b0. auto.
        - left. apply IH; [exact H1 |]. right. exact Hc. }
      destruct a as [bs |]; simpl in *.
      * destruct Hcase as [(b0 & Hin & Hsp) | Hsp].
        -- exists b0. split; [right; exact Hin | exact Hsp].
        -- exists b. split; [left | exact Hsp].
      * destruct Hcase as [(b0 & Hin & Hsp) | Hsp].
        -- exists b0. split; [right; exact Hin | exact Hsp].
        -- exists b. split; [left | exact Hsp].
Qed.

Lemma mergeBoxesX__spans :
  keeps_spans lats lngs (fun w => boxesX_ (routeBoxer w)) (mergeBoxesX_ E).
Proof.
  intros [box |] w u w' c [HX HY] Hcb H Hc; unfold mergeBoxesX_ in H; exec H; simpl.
  - eapply merge_into_spans; [apply matchesX_south_west | exact HX | eauto | eassumption |].
    destruct Hc as [? | (b & [= <-] & ?)]; auto.
  - destruct Hc as [? | (b & [=] & _)]. assumption.
Qed.

Lemma mergeBoxesY__spans :
  keeps_spans lats lngs (fun w => boxesY_ (routeBoxer w)) (mergeBoxesY_ E).
Proof.
  intros [box |] w u w' c [HX HY] Hcb H Hc; unfold mergeBoxesY_ in H; exec H; simpl.
  - eapply merge_into_spans; [apply matchesY_south_west | exact HY | eauto | eassumption |].
    destruct Hc as [? | (b & [= <-] & ?)]; auto.
  - destruct Hc as [? | (b & [=] & _)]. assumption.
Qed.

End Merges.

Lemma on_grid_state lats lngs w w' :
  grid_state w' = grid_state w -> on_grid lats lngs w -> on_grid lats lngs w'.
Proof. unfold grid_state. intros [= _ H1 H2] [H3 H4]. split; congruence. Qed.

Lemma chain_upto_row (n : nat) (a y : Z) (prev : option (Z * Z)) :
  (forall p, prev = Some p -> p = (a - 1, y)) -> chain prev ((fun x => (x, y)) <$> upto n a).
Proof.
  revert a prev. induction n as [| n IH]; intros a prev Hp; simpl; [exact I |]. split.
  - intros p Hprev. rewrite (Hp p Hprev). left. simpl. f_equal. lia.
  - apply IH. intros p [= <-]. f_equal. lia.
Qed.

Lemma chain_upto_column (n : nat) (a x : Z) (prev : option (Z * Z)) :
  (forall p, prev = Some p -> p = (x, a - 1)) -> chain prev ((fun y => (x, y)) <$> upto n a).
Proof.
  revert a prev. induction n as [| n IH]; intros a prev Hp; simpl; [exact I |]. split.
  - intros p Hprev. rewrite (Hp p Hprev). right. simpl. f_equal. lia.
  - apply IH. intros p [= <-]. f_equal. lia.
Qed.

Section Traverse.

Variable E : Engine.
Variables lats lngs : list num.
Hypothesis lats_ascending : ascending lats = true.
Hypothesis lngs_ascending : ascending lngs = true.

Variable boxes_of : World -> list LatLngBounds.
Variable merge : option LatLngBounds -> M unit.
Hypothesis merge_good : keeps_good merge.
Hypothesis merge_spans : keeps_spans lats lngs boxes_of merge.
Hypothesis merge_frame : forall cb, preserves grid_state (merge cb).

Variable t : Z * Z.

Lemma merge_grid_state cb w u w' : merge cb w = (Ok u, w') -> grid_state w' = grid_state w.
Proof. intros H. pose proof (merge_frame cb w) as F. rewrite H in F. exact F. Qed.

Lemma sweep_cell_spans c cb prev w cb' w' :
  on_grid lats lngs w -> boxes_good w ->
  (forall b, cb = Some b -> good b /\ exists p, prev = Some p /\ spans lats lngs b p) ->
  (forall p, prev = Some p -> next p c) ->
  sweep_cell E merge c cb w = (Ok cb', w') ->
  grid_state w' = grid_state w /\ boxes_good w'
  /\ (forall b, cb' = Some b -> good b /\ spans lats lngs b c)
  /\ (covered lats lngs boxes_of t w cb -> covered lats lngs boxes_of t w' cb')
  /\ (t = c -> marked (grid_ (routeBoxer w)) t -> covered lats lngs boxes_of t w' cb').
Proof.
  intros Hw Hgood Hcb Hnext H. unfold sweep_cell in H.
  apply bind_inv in H. destruct H as (m & w1 & Hm & H).
  pose proof (cell_marked_inv _ _ _ _ Hm) as ->. destruct m.
  - apply bind_inv in H. destruct H as (box & w1 & Hb & H).
    destruct (getCellBounds__spans E lats lngs _ _ _ _ Hw Hb) as (Hsp & Hgb & ->).
    destruct cb as [cb |].
    + destruct (Hcb cb eq_refl) as (Hgcb & p & Hp & Hspp).
      apply bind_inv in H. destruct H as (ne & w1 & Hne & H).
      apply lift_inv in Hne. destruct Hne as [Hne ->].
      apply bind_inv in H. destruct H as (cb1 & w1 & He & H).
      apply lift_inv in He. destruct He as [He ->].
      apply ret_inv in H. destruct H as [-> ->].
      assert (valid ne) as Hvne by (eapply good_northEast; [exact Hgb | exact Hne]).
      assert (spans lats lngs cb1 c) as Hsp1.
      { eapply (extend_next E lats lngs lats_ascending lngs_ascending);
          [exact Hspp | apply Hnext, Hp | exact Hsp | exact Hne | exact Hvne | exact He]. }
      split; [reflexivity |]. split; [exact Hgood |]. split; [| split].
      * intros b [= <-]. split; [| exact Hsp1].
        eapply extend_good; [left; exact Hgcb | exact Hvne | exact He].
      * intros [Hl | (b & [= <-] & Hb0)]; [left; exact Hl |].
        right. exists cb1. split; [reflexivity |]. eapply extend_spans; eassumption.
      * intros -> _. right. exists cb1. auto.
    + apply ret_inv in H. destruct H as [-> ->].
      split; [reflexivity |]. split; [exact Hgood |]. split; [| split].
      * intros b [= <-]. auto.
      * intros [Hl | (b & [=] & _)]. left. exact Hl.
      * intros -> _. right. exists box. auto.
  - apply bind_inv in H. destruct H as (u & w1 & Hu & H).
    apply ret_inv in H. destruct H as [-> ->].
    assert (forall b, cb = Some b -> good b) as Hcbg by (intros b Hb; apply (Hcb b Hb)).
    split; [eapply merge_grid_state, Hu |].
    split; [eapply merge_good; eassumption |]. split; [discriminate |]. split.
    + intros Hc. left. eapply merge_spans; eassumption.
    + intros -> Hmk. apply cell_marked_run in Hmk. rewrite Hmk in Hm. discriminate Hm.
Qed.

Lemma marked_state w w' c :
  grid_state w' = grid_state w -> marked (grid_ (routeBoxer w)) c ->
  marked (grid_ (routeBoxer w')) c.
Proof. unfold grid_state. intros [= -> _ _] H. exact H. Qed.

Lemma sweep_line_spans cells : forall prev cb w cb' w',
  chain prev cells -> on_grid lats lngs w -> boxes_good w ->
  (forall b, cb = Some b -> good b /\ exists p, prev = Some p /\ spans lats lngs b p) ->
  sweep_line E merge cells cb w = (Ok cb', w') ->
  grid_state w' = grid_state w /\ boxes_good w' /\ (forall b, cb' = Some b -> good b)
  /\ (covered lats lngs boxes_of t w cb -> covered lats lngs boxes_of t w' cb')
  /\ (t ∈ cells -> marked (grid_ (routeBoxer w)) t -> covered lats lngs boxes_of t w' cb').
Proof.
  induction cells as [| c cells IH]; intros prev cb w cb' w' Hch Hw Hgood Hcb H; simpl in H.
  - apply ret_inv in H. destruct H as [-> ->].
    split; [reflexivity |]. split; [exact Hgood |].
    split; [intros b Hb; apply (Hcb b Hb) |]. split; [auto |]. intros Hin. inversion Hin.
  - destruct Hch as [Hnext Hch].
    apply bind_inv in H. destruct H as (cb1 & w1 & H1 & H).
    destruct (sweep_cell_spans _ _ _ _ _ _ Hw Hgood Hcb Hnext H1)
      as (Hs1 & Hg1 & Hcb1 & Hk1 & Ht1).
    assert (forall b, cb1 = Some b -> good b /\ exists p, Some c = Some p /\ spans lats lngs b p)
      as Hcb1'.
    { intros b Hb. destruct (Hcb1 b Hb). eauto. }
    destruct (IH _ _ _ _ _ Hch (on_grid_state _ _ _ _ Hs1 Hw) Hg1 Hcb1' H)
      as (Hs & Hg & Hcb' & Hk & Ht).
    split; [congruence |]. split; [exact Hg |]. split; [exact Hcb' |]. split.
    + intros Hc. apply Hk, Hk1, Hc.
    + intros Hin Hmk. apply elem_of_cons in Hin. destruct Hin as [-> | Hin].
      * apply Hk, Ht1; [reflexivity | exact Hmk].
      * apply Ht; [exact Hin |]. eapply marked_state; eassumption.
Qed.

Lemma sweep_spans lines : forall w u w',
  Forall (chain None) lines -> on_grid lats lngs w -> boxes_good w ->
  sweep E merge lines w = (Ok u, w') ->
  grid_state w' = grid_state w /\ boxes_good w'
  /\ (spanned lats lngs (boxes_of w) t -> spanned lats lngs (boxes_of w') t)
  /\ ((exists cells, cells ∈ lines /\ t ∈ cells) -> marked (grid_ (routeBoxer w)) t ->
      spanned lats lngs (boxes_of w') t).
Proof.
  unfold sweep. induction lines as [| cells lines IH]; intros w u w' Hch Hw Hgood H; simpl in H.
  - apply ret_inv in H. destruct H as [_ ->]. split; [reflexivity |]. split; [exact Hgood |].
    split; [auto |]. intros (cells & Hin & _). inversion Hin.
  - inversion Hch as [| ? ? Hch1 Hch']; subst.
    apply bind_inv in H. destruct H as (u1 & w1 & H1 & H).
    apply bind_inv in H1. destruct H1 as (cb & w2 & Hl & Hm).
    destruct (sweep_line_spans cells None None w cb w2 Hch1 Hw Hgood
                ltac:(intros b Hb; discriminate Hb) Hl)
      as (Hs2 & Hg2 & Hcb & Hk2 & Ht2).
    pose proof (merge_grid_state _ _ _ _ Hm) as Hs1.
    pose proof (merge_good _ _ _ _ Hg2 Hcb Hm) as Hg1.
    assert (on_grid lats lngs w1) as Hw1.
    { eapply on_grid_state; [exact Hs1 |]. eapply on_grid_state; eassumption. }
    destruct (IH _ _ _ Hch' Hw1 Hg1 H) as (Hs & Hg & Hk & Ht).
    split; [congruence |]. split; [exact Hg |]. split.
    + intros Hc. apply Hk. eapply merge_spans; [exact Hg2 | exact Hcb | exact Hm |].
      apply Hk2. left. exact Hc.
    + intros (cells' & Hin & Htc) Hmk. apply elem_of_cons in Hin. destruct Hin as [-> | Hin].
      * apply Hk. eapply merge_spans; [exact Hg2 | exact Hcb | exact Hm |].
        apply Ht2; assumption.
      * apply Ht; [eauto |]. eapply marked_state; [| exact Hmk]. congruence.
Qed.

End Traverse.

(** ** What the rasterization keeps of the grid *)

Section StableMarks.

Variable E : Engine.
Variable P : World -> Prop.
Hypothesis P_set_cell : forall x y, stable P (set_cell x y).

Lemma markCell__stable c : stable P (markCell_ c).
Proof. unfold markCell_. stabilize; apply P_set_cell. Qed.

Lemma fillInGridSquares__stable a b y : stable P (fillInGridSquares_ a b y).
Proof. unfold fillInGridSquares_. stabilize; apply markCell__stable. Qed.

Lemma getGridCoordsFromHint__stable p h hxy : stable P (getGridCoordsFromHint_ p h hxy).
Proof. unfold getGridCoordsFromHint_. stabilize. Qed.

Lemma cross_stable rows up s b h hxy : stable P (cross E rows up s b h hxy).
Proof.
  revert h hxy. induction rows as [| i rows IH]; intros h hxy; simpl; stabilize;
    first [apply getGridCoordsFromHint__stable | apply fillInGridSquares__stable | apply IH].
Qed.

Lemma getGridIntersects__stable s e sxy exy : stable P (getGridIntersects_ E s e sxy exy).
Proof.
  unfold getGridIntersects_. stabilize;
    first [apply cross_stable | apply fillInGridSquares__stable].
Qed.

Lemma walk_stable vs p hxy : stable P (walk E vs p hxy).
Proof.
  revert p hxy. induction vs as [| v vs IH]; intros p hxy; simpl; stabilize;
    first [apply getGridCoordsFromHint__stable | apply markCell__stable
          | apply getGridIntersects__stable | apply IH].
Qed.

Lemma findIntersectingCells__stable vs : stable P (findIntersectingCells_ E vs).
Proof.
  unfold findIntersectingCells_, getCellCoords_. stabilize;
    first [apply markCell__stable | apply walk_stable].
Qed.

End StableMarks.

(** ** The boxes of each traversal span the marked cells *)

Lemma grid_state_boxesX : ignores set_boxesX_ grid_state.
Proof. intros s r v. reflexivity. Qed.

Lemma grid_state_boxesY : ignores set_boxesY_ grid_state.
Proof. intros s r v. reflexivity. Qed.

Section Rows.

Variable E : Engine.
Variables lats lngs : list num.
Hypothesis lats_ascending : ascending lats = true.
Hypothesis lngs_ascending : ascending lngs = true.

Lemma sweep_rows_spans w u w' cols c0 :
  on_grid lats lngs w -> boxes_good w ->
  grid_ (routeBoxer w) = Some cols -> cols !! 0%nat = Some c0 ->
  sweep_rows E w = (Ok u, w') ->
  grid_state w' = grid_state w /\ boxes_good w'
  /\ forall t, 0 <= fst t < Z.of_nat (length cols) -> 0 <= snd t < alength c0 ->
               marked (grid_ (routeBoxer w)) t ->
               spanned lats lngs (boxesY_ (routeBoxer w')) t.
Proof.
  intros Hw Hgood Hg H0 H. unfold sweep_rows in H.
  rewrite bind_run, (grid_rows_run w cols c0 Hg H0) in H. cbv beta iota in H.
  rewrite bind_run, (grid_cols_run w cols Hg) in H. cbv beta iota in H.
  assert (Forall (chain None) (row_cells (length cols) <$> upto (Z.to_nat (alength c0)) 0))
    as Hch.
  { apply Forall_fmap, Forall_forall. intros y _. simpl.
    apply chain_upto_row. intros p Hp. discriminate Hp. }
  split; [| split].
  - eapply (sweep_spans E lats lngs lats_ascending lngs_ascending
              (fun w => boxesY_ (routeBoxer w)) (mergeBoxesY_ E) (mergeBoxesY__good E)
              (mergeBoxesY__spans E lats lngs)
              (fun cb => mergeBoxesY__frame E grid_state cb grid_state_boxesY) (0, 0));
      eassumption.
  - eapply (sweep_spans E lats lngs lats_ascending lngs_ascending
              (fun w => boxesY_ (routeBoxer w)) (mergeBoxesY_ E) (mergeBoxesY__good E)
              (mergeBoxesY__spans E lats lngs)
              (fun cb => mergeBoxesY__frame E grid_state cb grid_state_boxesY) (0, 0));
      eassumption.
  - intros t Hx Hy Hm.
    eapply (sweep_spans E lats lngs lats_ascending lngs_ascending
              (fun w => boxesY_ (routeBoxer w)) (mergeBoxesY_ E) (mergeBoxesY__good E)
              (mergeBoxesY__spans E lats lngs)
              (fun cb => mergeBoxesY__frame E grid_state cb grid_state_boxesY) t);
      try eassumption.
    exists (row_cells (length cols) (snd t)). split.
    + apply list_elem_of_fmap_2, elem_of_upto. lia.
    + unfold row_cells. destruct t as [x y]. simpl in *.
      apply (list_elem_of_fmap_2 (fun x => (x, y))), elem_of_upto. lia.
Qed.

Lemma sweep_columns_spans w u w' cols c0 :
  on_grid lats lngs w -> boxes_good w ->
  grid_ (routeBoxer w) = Some cols -> cols !! 0%nat = Some c0 ->
  sweep_columns E w = (Ok u, w') ->
  grid_state w' = grid_state w /\ boxes_good w'
  /\ forall t, 0 <= fst t < Z.of_nat (length cols) -> 0 <= snd t < alength c0 ->
               marked (grid_ (routeBoxer w)) t ->
               spanned lats lngs (boxesX_ (routeBoxer w')) t.
Proof.
  intros Hw Hgood Hg H0 H. unfold sweep_columns in H.
  rewrite bind_run, (grid_cols_run w cols Hg) in H. cbv beta iota in H.
  assert (length cols <> 0%nat) as Hlen by (apply lookup_lt_Some in H0; lia).
  destruct (length cols) as [| k] eqn:Hk; [congruence |].
  rewrite bind_run, (grid_rows_run w cols c0 Hg H0) in H. cbv beta iota in H.
  assert (Forall (chain None) (column_cells (Z.to_nat (alength c0)) <$> upto (S k) 0))
    as Hch.
  { apply Forall_fmap, Forall_forall. intros x _. simpl.
    apply chain_upto_column. intros p Hp. discriminate Hp. }
  split; [| split].
  - eapply (sweep_spans E lats lngs lats_ascending lngs_ascending
              (fun w => boxesX_ (routeBoxer w)) (mergeBoxesX_ E) (mergeBoxesX__good E)
              (mergeBoxesX__spans E lats lngs)
              (fun cb => mergeBoxesX__frame E grid_state cb grid_state_boxesX) (0, 0));
      eassumption.
  - eapply (sweep_spans E lats lngs lats_ascending lngs_ascending
              (fun w => boxesX_ (routeBoxer w)) (mergeBoxesX_ E) (mergeBoxesX__good E)
              (mergeBoxesX__spans E lats lngs)
              (fun cb => mergeBoxesX__frame E grid_state cb grid_state_boxesX) (0, 0));
      eassumption.
  - intros t Hx Hy Hm.
    eapply (sweep_spans E lats lngs lats_ascending lngs_ascending
              (fun w => boxesX_ (routeBoxer w)) (mergeBoxesX_ E) (mergeBoxesX__good E)
              (mergeBoxesX__spans E lats lngs)
              (fun cb => mergeBoxesX__frame E grid_state cb grid_state_boxesX) t);
      try eassumption.
    exists (column_cells (Z.to_nat (alength c0)) (fst t)). split.
    + apply list_elem_of_fmap_2, elem_of_upto. lia.
    + unfold column_cells. destruct t as [x y]. simpl in *.
      apply (list_elem_of_fmap_2 (fun y => (x, y))), elem_of_upto. lia.
Qed.

End Rows.

(** ** Every vertex lies in a box *)

Lemma replicate_columns (n m : nat) (w : World) :
  grid_ (routeBoxer w) = Some (replicate n (new_Array m)) ->
  columns n w /\ tall (Z.of_nat m) w.
Proof.
  intros Hg. split.
  - eexists. split; [exact Hg | apply length_replicate].
  - eexists. split; [exact Hg |]. apply Forall_forall. intros c Hc.
    apply elem_of_replicate in Hc. destruct Hc as [-> _]. simpl. lia.
Qed.

Lemma run_preserved {A O} (f : World -> O) (m : M A) w a w' :
  preserves f m -> m w = (Ok a, w') -> f w' = f w.
Proof. intros Hm H. specialize (Hm w). rewrite H in Hm. exact Hm. Qed.

Lemma both_lists_ignores_grid : ignores set_grid_ both_lists.
Proof. intros s r v. reflexivity. Qed.

Lemma both_lists_ignores_lat : ignores set_latGrid_ both_lists.
Proof. intros s r v. reflexivity. Qed.

Lemma both_lists_ignores_lng : ignores set_lngGrid_ both_lists.
Proof. intros s r v. reflexivity. Qed.

Section Covers.

Variable E : Engine.

(** The steps of the rasterization. *)
Lemma rasterize_steps fuel path range w u w' :
  rasterize E fuel path range w = (Ok u, w') ->
  exists w1,
    buildGrid_ E fuel path range {| store := store w; routeBoxer := RouteBoxer_init |}
    = (Ok tt, w1)
    /\ findIntersectingCells_ E path w1 = (Ok tt, w').
Proof.
  intros H. unfold rasterize in H.
  do 5 (apply bind_inv in H; destruct H as (? & ? & H0 & H); apply modify_inv in H0; subst).
  apply bind_inv in H. destruct H as ([] & w1 & H1 & H). destruct u.
  exists w1. split; assumption.
Qed.

(** What the rasterization leaves: no box yet, a matrix with a column
    for each longitude line and a row at least for each latitude line,
    and a marked cell around each vertex. *)
Lemma rasterize_located fuel path range w u w' :
  rasterize E fuel path range w = (Ok u, w') ->
  ascending (latGrid_ (routeBoxer w')) = true ->
  ascending (lngGrid_ (routeBoxer w')) = true ->
  boxes_good w'
  /\ (exists cols c0,
        grid_ (routeBoxer w') = Some cols /\ cols !! 0%nat = Some c0
        /\ length cols = length (lngGrid_ (routeBoxer w'))
        /\ Z.of_nat (length (latGrid_ (routeBoxer w'))) <= alength c0)
  /\ forall v, v ∈ path ->
       exists c, in_cell (latGrid_ (routeBoxer w')) (lngGrid_ (routeBoxer w')) c v
                 /\ marked (grid_ (routeBoxer w')) c.
Proof.
  intros H Alat Alng. destruct (rasterize_steps _ _ _ _ _ _ H) as (w1 & H1 & H2).
  destruct (buildGrid__reaches E fuel path range
              {| store := store w; routeBoxer := RouteBoxer_init |} tt w1 eq_refl eq_refl H1)
    as (rb & sw & ne & Hrb & Hsw & Hne & Vsw & Vne & Rlat & Rlng & Hg1).
  destruct (replicate_columns _ _ _ Hg1) as [Hcols1 Htall1].
  pose proof (run_preserved grid_lines _ _ _ _
                (findIntersectingCells__frame E grid_lines grid_lines_ignores path) H2) as L2.
  unfold grid_lines in L2. injection L2 as Llat Llng. rewrite Llat, Llng in *.
  set (lats := latGrid_ (routeBoxer w1)) in *.
  set (lngs := lngGrid_ (routeBoxer w1)) in *.
  assert (on_grid lats lngs w1) as G1 by (split; reflexivity).
  pose proof (run_preserved both_lists _ _ _ _
                (buildGrid__frame E both_lists both_lists_ignores_grid both_lists_ignores_lat
                   both_lists_ignores_lng fuel path range) H1) as B1.
  pose proof (run_preserved both_lists _ _ _ _
                (findIntersectingCells__frame E both_lists both_lists_ignores_grid path) H2)
    as B2.
  split; [| split].
  - rewrite B1 in B2. unfold both_lists in B2. simpl in B2. injection B2 as BX BY.
    split; [rewrite BX | rewrite BY]; constructor.
  - pose proof (findIntersectingCells__stable E _ (set_cell_columns (length lngs)) path
                  _ _ _ Hcols1 H2) as (cols & Hg2 & Hlen).
    pose proof (findIntersectingCells__stable E _ (set_cell_tall (Z.of_nat (length lats))) path
                  _ _ _ Htall1 H2) as (cols' & Hg2' & Htall).
    rewrite Hg2 in Hg2'. injection Hg2' as <-.
    destruct (lookup_lt_is_Some_2 cols 0%nat) as [c0 H0].
    { rewrite Hlen. destruct Rlng as (? & _). lia. }
    exists cols, c0. repeat split; try assumption.
    apply (proj1 (Forall_lookup _ _) Htall _ _ H0).
  - destruct (extend_all_valid E _ _ _ _ _ Hrb Hsw Hne Vsw Vne) as [Vpath _].
    destruct (extend_all_inside E _ _ _ Vpath (or_intror eq_refl) Hrb) as (Hin & _ & _).
    assert (Forall (inside rb) path) as Hpath by (apply Forall_forall; exact Hin).
    apply (findIntersectingCells__located E lats lngs rb sw ne Alat Alng Hsw Hne Rlat Rlng
             _ _ _ _ G1 Hpath H2).
Qed.

(** The list the merge returns spans every marked cell of the matrix. *)
Lemma cover_spans w bounds w' cols c0 :
  ascending (latGrid_ (routeBoxer w)) = true ->
  ascending (lngGrid_ (routeBoxer w)) = true ->
  boxes_good w ->
  grid_ (routeBoxer w) = Some cols -> cols !! 0%nat = Some c0 ->
  cover E w = (Ok bounds, w') ->
  grid_state w' = grid_state w
  /\ forall t, 0 <= fst t < Z.of_nat (length cols) -> 0 <= snd t < alength c0 ->
               marked (grid_ (routeBoxer w)) t ->
               spanned (latGrid_ (routeBoxer w)) (lngGrid_ (routeBoxer w)) bounds t.
Proof.
  intros Al An Good Hg H0 H.
  set (lats := latGrid_ (routeBoxer w)) in *.
  set (lngs := lngGrid_ (routeBoxer w)) in *.
  assert (on_grid lats lngs w) as G by (split; reflexivity).
  unfold cover, mergeIntersectingCells_ in H.
  apply bind_inv in H. destruct H as ([] & w4 & Hm & H).
  apply bind_inv in Hm. destruct Hm as ([] & w3 & H3 & H4).
  apply bind_inv in H. destruct H as (bx & w5 & Hx & H). apply get_inv in Hx.
  destruct Hx as [-> ->].
  apply bind_inv in H. destruct H as (by_ & w5 & Hy & H). apply get_inv in Hy.
  destruct Hy as [-> ->].
  apply ret_inv in H. destruct H as [-> ->].
  destruct (sweep_rows_spans E lats lngs Al An _ _ _ _ _ G Good Hg H0 H3)
    as (S3 & Good3 & HY).
  assert (grid_ (routeBoxer w3) = Some cols) as Hg3.
  { unfold grid_state in S3. injection S3 as -> _ _. exact Hg. }
  destruct (sweep_columns_spans E lats lngs Al An _ _ _ _ _
              (on_grid_state _ _ _ _ S3 G) Good3 Hg3 H0 H4) as (S4 & _ & HX).
  split; [congruence |]. intros t Hx Hy Hm.
  destruct (_ <=? _)%nat.
  - apply HX; try assumption. eapply marked_state; eassumption.
  - pose proof (run_preserved (fun w => boxesY_ (routeBoxer w)) _ _ _ _
                  (sweep_columns_frame E (fun w => boxesY_ (routeBoxer w))
                     ltac:(intros ? ? ?; reflexivity)) H4) as BY.
    simpl in BY. rewrite BY. apply HY; assumption.
Qed.

Lemma box_spans fuel path range w bounds w' :
  box E fuel path range w = (Ok bounds, w') ->
  ascending (latGrid_ (routeBoxer w')) = true ->
  ascending (lngGrid_ (routeBoxer w')) = true ->
  forall v, v ∈ path -> exists b, b ∈ bounds /\ inside b v.
Proof.
  intros H Alat Alng. rewrite box_rasterize_cover in H.
  apply bind_inv in H. destruct H as (u & w2 & Hr & Hc).
  assert (grid_state w' = grid_state w2) as S.
  { unfold cover in Hc. apply bind_inv in Hc. destruct Hc as ([] & w4 & Hm & Hc).
    pose proof (run_preserved grid_state _ _ _ _
                  (mergeIntersectingCells__frame E grid_state grid_state_boxesX
                     grid_state_boxesY) Hm) as S.
    apply bind_inv in Hc. destruct Hc as (bx & w5 & Hx & Hc). apply get_inv in Hx.
    destruct Hx as [-> ->].
    apply bind_inv in Hc. destruct Hc as (by_ & w5 & Hy & Hc). apply get_inv in Hy.
    destruct Hy as [-> ->]. apply ret_inv in Hc. destruct Hc as [_ ->]. exact S. }
  unfold grid_state in S. injection S as _ Slat Slng. rewrite Slat in Alat. rewrite Slng in Alng.
  destruct (rasterize_located _ _ _ _ _ _ Hr Alat Alng)
    as (Good & (cols & c0 & Hg & H0 & Hlen & Hc0) & Hloc).
  destruct (cover_spans _ _ _ _ _ Alat Alng Good Hg H0 Hc) as [_ Hsp].
  intros v Hv. destruct (Hloc v Hv) as (c & Hcell & Hm).
  pose proof Hcell as [(Hx0 & Hx2 & _) (Hy0 & Hy2 & _)].
  destruct (Hsp c ltac:(lia) ltac:(lia) Hm) as (b & Hb & Hs).
  exists b. split; [exact Hb | eapply spans_inside; eassumption].
Qed.

End Covers.

(** ** Both lists span the marked cells *)

Lemma mergeIntersectingCells__spans (E : Engine) w u w' cols c0 :
  ascending (latGrid_ (routeBoxer w)) = true ->
  ascending (lngGrid_ (routeBoxer w)) = true ->
  boxes_good w ->
  grid_ (routeBoxer w) = Some cols -> cols !! 0%nat = Some c0 ->
  mergeIntersectingCells_ E w = (Ok u, w') ->
  forall t, 0 <= fst t < Z.of_nat (length cols) -> 0 <= snd t < alength c0 ->
            marked (grid_ (routeBoxer w)) t ->
            spanned (latGrid_ (routeBoxer w)) (lngGrid_ (routeBoxer w))
              (boxesX_ (routeBoxer w')) t
            /\ spanned (latGrid_ (routeBoxer w)) (lngGrid_ (routeBoxer w))
                 (boxesY_ (routeBoxer w')) t.
Proof.
  intros Al An Good Hg H0 H.
  set (lats := latGrid_ (routeBoxer w)) in *.
  set (lngs := lngGrid_ (routeBoxer w)) in *.
  assert (on_grid lats lngs w) as G by (split; reflexivity).
  unfold mergeIntersectingCells_ in H.
  apply bind_inv in H. destruct H as ([] & w3 & H3 & H4).
  destruct (sweep_rows_spans E lats lngs Al An _ _ _ _ _ G Good Hg H0 H3)
    as (S3 & Good3 & HY).
  assert (grid_ (routeBoxer w3) = Some cols) as Hg3.
  { unfold grid_state in S3. injection S3 as -> _ _. exact Hg. }
  destruct (sweep_columns_spans E lats lngs Al An _ _ _ _ _
              (on_grid_state _ _ _ _ S3 G) Good3 Hg3 H0 H4) as (S4 & _ & HX).
  intros t Hx Hy Hm. split.
  - apply HX; try assumption. eapply marked_state; eassumption.
  - pose proof (run_preserved (fun w => boxesY_ (routeBoxer w)) _ _ _ _
                  (sweep_columns_frame E (fun w => boxesY_ (routeBoxer w))
                     ltac:(intros ? ? ?; reflexivity)) H4) as BY.
    simpl in BY. rewrite BY. apply HY; assumption.
Qed.

(** ** Rounding gives a number *)

Lemma mul_number (x : num) (s : bool) (m : positive) (e : Z) :
  isNaN x = false -> isNaN (mul x (S754_finite s m e)) = false.
Proof.
  destruct x as [sx | sx | | sx mx ex]; intros H; try discriminate H; try reflexivity.
  apply binary_round_aux_number. lia.
Qed.

Lemma div_number (x : num) (s : bool) (m : positive) (e : Z) :
  isNaN x = false -> isNaN (div x (S754_finite s m e)) = false.
Proof.
  destruct x as [sx | sx | | sx mx ex]; intros H; try discriminate H; try reflexivity.
  unfold div, SFdiv, SFdiv_core_binary.
  set (m' := match _ - _ - _ with 0 => Z.pos mx | Z.pos _ => _ | Z.neg _ => 0 end).
  assert (0 <= m') as Hm'.
  { unfold m'. destruct (_ - _ - _); try lia. apply Z.shiftl_nonneg. lia. }
  pose proof (Z_div_mod m' (Z.pos m) ltac:(lia)) as Hd.
  destruct (Z.div_eucl m' (Z.pos m)) as [q r].
  apply binary_round_aux_number. destruct Hd as [Hd Hr]. nia.
Qed.

Lemma toDeg_number (x : num) : isNaN x = false -> isNaN (toDeg x) = false.
Proof.
  intros H. unfold toDeg, Math_PI. apply div_number.
  assert (exists m e, Z2num 180 = S754_finite false m e) as (m & e & ->)
    by (vm_compute; eauto).
  apply mul_number, H.
Qed.

Lemma new_LatLng_number (E : Engine) (x y : num) :
  isNaN x = false -> isNaN y = false ->
  new_LatLng E (PNum x) (PNum y) = Ok {| lat := x; lng := y |}.
Proof. intros Hx Hy. apply new_LatLng_Ok. exists x, y. auto. Qed.

Section CoversMkBox.

Variable E : Engine.

Lemma to_LatLng_inv pl w p w' :
  to_LatLng E pl w = (Ok p, w') -> w' = w /\ constructs E (store w) pl p.
Proof.
  intros H. unfold to_LatLng in H.
  apply bind_inv in H. destruct H as (cs & w1 & H1 & H). apply load_inv in H1.
  destruct H1 as [-> ->].
  apply bind_inv in H. destruct H as (cs' & w1 & H1 & H). apply lift_inv in H1.
  destruct H1 as [H1 ->]. apply deref_inv in H1. apply lift_inv in H. destruct H as [H ->].
  split; [reflexivity |]. exists cs'. auto.
Qed.

Lemma mapM_to_LatLng_inv elems : forall w lls w',
  mapM (to_LatLng E) elems w = (Ok lls, w') ->
  w' = w /\ Forall2 (constructs E (store w)) elems lls.
Proof.
  induction elems as [| pl elems IH]; intros w lls w' H; simpl in H.
  - apply ret_inv in H. destruct H as [-> ->]. split; [reflexivity | constructor].
  - apply bind_inv in H. destruct H as (p & w1 & H1 & H).
    apply to_LatLng_inv in H1. destruct H1 as [-> Hp].
    apply bind_inv in H. destruct H as (ps & w1 & H2 & H).
    apply IH in H2. destruct H2 as [-> Hps].
    apply ret_inv in H. destruct H as [-> ->]. split; [reflexivity | constructor; assumption].
Qed.

Lemma constructs_functional s pl p q : constructs E s pl p -> constructs E s pl q -> p = q.
Proof. intros (cs & H1 & H2) (cs' & H3 & H4). congruence. Qed.

Lemma to_corners_within b c p : inside b p -> to_corners b = Ok c -> within c p.
Proof.
  intros (sw & ne & Hsw & Hne & H) Hc. unfold to_corners in Hc. rewrite Hsw, Hne in Hc.
  simpl in Hc. injection Hc as <-. exact H.
Qed.

(** The steps of [mkBox] on an array of two elements or more. *)
Lemma mkBox_steps fuel l elems dis w boxes w' :
  arrays (store w) !! l = Some elems -> (2 <= length elems)%nat ->
  mkBox E fuel (Some l) dis w = (Ok boxes, w') ->
  exists lls bounds,
    Forall2 (constructs E (store w)) elems lls
    /\ box E fuel lls (default (Z2num 20) dis) w = (Ok bounds, w')
    /\ Forall2 (fun b c => to_corners b = Ok c) bounds boxes.
Proof.
  intros Hl Hlen H. unfold mkBox in H. rewrite bind_run in H. unfold load in H.
  cbv beta iota in H. rewrite Hl in H.
  destruct (Nat.leb_spec 2 (length elems)) as [_ | Hlt]; [| lia].
  apply bind_inv in H. destruct H as (lls & w1 & H1 & H).
  apply mapM_to_LatLng_inv in H1. destruct H1 as [-> Hlls].
  apply bind_inv in H. destruct H as (bounds & w2 & Hb & H).
  apply mapM_lift_inv in H. destruct H as [H ->].
  exists lls, bounds. auto.
Qed.

End CoversMkBox.

(** ** A distance that is not a number *)

Lemma finite_number (a : num) : finite a = true -> isNaN a = false.
Proof. destruct a; simpl; congruence. Qed.

Lemma Math_min_finite (a b : num) :
  finite a = true -> finite b = true -> finite (Math_min a b) = true.
Proof.
  destruct a, b; simpl; try discriminate; auto; intros _ _;
    match goal with |- context [if ?c then _ else _] => destruct c end; reflexivity.
Qed.

Lemma Math_max_finite (a b : num) :
  finite a = true -> finite b = true -> finite (Math_max a b) = true.
Proof.
  destruct a, b; simpl; try discriminate; auto; intros _ _;
    match goal with |- context [if ?c then _ else _] => destruct c end; reflexivity.
Qed.

Lemma add_finite_number (a b : num) :
  finite a = true -> finite b = true -> isNaN (add a b) = false.
Proof.
  destruct a as [[] | | | sa ma ea], b as [[] | | | sb mb eb]; simpl; try discriminate;
    try reflexivity.
  intros _ _. apply binary_normalize_number.
Qed.

Lemma add_nan_r (a : num) : add a NaN = NaN.
Proof. destruct a as [[] | [] | |]; reflexivity. Qed.

Lemma lt_nan_r (a : num) : lt a NaN = false.
Proof. destruct a as [[] | [] | | []]; reflexivity. Qed.

Section NotANumber.

Variable E : Engine.

Lemma finite_valid p : finite_point p -> valid p.
Proof. intros [H1 H2]. split; apply finite_number; assumption. Qed.

Lemma extend_all_finite vs : forall b,
  Forall finite_point vs ->
  (b = empty_bounds /\ vs <> []
   \/ exists sw ne, _southWest b = Some sw /\ _northEast b = Some ne
                    /\ finite_point sw /\ finite_point ne) ->
  exists rb sw ne, extend_all E b vs = Ok rb
                   /\ _southWest rb = Some sw /\ _northEast rb = Some ne
                   /\ finite_point sw /\ finite_point ne.
Proof.
  induction vs as [| v vs IH]; intros b Hvs Hb; simpl.
  - destruct Hb as [[_ Hne] | (sw & ne & Hsw & Hne & Fs & Fn)]; [congruence |].
    exists b, sw, ne. auto.
  - inversion Hvs as [| ? ? Hv Hvs']; subst.
    destruct Hb as [[-> _] | (sw & ne & Hsw & Hne & [Fs1 Fs2] & [Fn1 Fn2])].
    + rewrite (extend_empty E v (finite_valid v Hv)). simpl. apply IH; [exact Hvs' |].
      right. destruct Hv. eexists _, _. split; [reflexivity |]. split; [reflexivity |].
      split; split; assumption.
    + rewrite (extend_corners E b v sw ne Hsw Hne). simpl. apply IH; [exact Hvs' |].
      right. destruct Hv as [Hv1 Hv2]. eexists _, _. split; [reflexivity |].
      split; [reflexivity |].
      split; split; simpl; first [apply Math_min_finite | apply Math_max_finite]; assumption.
Qed.

Lemma getCenter_finite rb sw ne :
  _southWest rb = Some sw -> _northEast rb = Some ne ->
  finite_point sw -> finite_point ne ->
  exists c, getCenter E rb = Ok c.
Proof.
  intros Hsw Hne [Fs1 Fs2] [Fn1 Fn2]. unfold getCenter, getSouthWest, getNorthEast.
  rewrite Hsw, Hne. cbn [mbind outcome_bind].
  assert (exists m e, Z2num 2 = S754_finite false m e) as (m & e & ->) by (vm_compute; eauto).
  rewrite new_LatLng_number; [eauto | |];
    apply div_number, add_finite_number; assumption.
Qed.

Lemma rhumbDestinationPoint_NaN p brng :
  rhumbDestinationPoint E p brng NaN = Ok None.
Proof.
  unfold rhumbDestinationPoint. cbv zeta.
  change (div (parseFloat NaN) (Z2num 6371)) with NaN.
  change (mul NaN (Math_cos E (toRad brng))) with NaN.
  rewrite add_nan_r. change (Math_abs NaN) with NaN. unfold gt at 2.
  rewrite lt_nan_r. reflexivity.
Qed.

Lemma buildGrid__NaN fuel vs w :
  vs <> [] -> Forall finite_point vs ->
  (buildGrid_ E fuel vs NaN w).1 = Throw TypeError.
Proof.
  intros Hne Hvs.
  destruct (extend_all_finite vs empty_bounds Hvs (or_introl (conj eq_refl Hne)))
    as (rb & sw & ne & Hrb & Hsw & Hne' & Fs & Fn).
  destruct (getCenter_finite rb sw ne Hsw Hne' Fs Fn) as [c Hc].
  unfold buildGrid_. rewrite Hrb. rewrite bind_run. unfold lift at 1. cbv beta iota.
  rewrite Hc. rewrite bind_run. unfold lift at 1. cbv beta iota.
  rewrite bind_run. unfold push at 1, modify at 1. cbv beta iota.
  rewrite bind_run. unfold line at 1. rewrite rhumbDestinationPoint_NaN.
  reflexivity.
Qed.

Lemma box_NaN fuel path w :
  path <> [] -> Forall finite_point path -> (box E fuel path NaN w).1 = Throw TypeError.
Proof.
  intros Hne Hvs. unfold box.
  do 5 (rewrite bind_run; unfold modify at 1; cbv beta iota).
  cbv zeta. rewrite bind_run.
  pose proof (buildGrid__NaN fuel path
                {| store := store w; routeBoxer := RouteBoxer_init |} Hne Hvs) as H.
  change (set_boxesY_ [] (set_boxesX_ [] (set_lngGrid_ [] (set_latGrid_ []
            (set_grid_ None (routeBoxer w)))))) with RouteBoxer_init.
  destruct (buildGrid_ E fuel path NaN _) as [o w1]. simpl in H. subst o. reflexivity.
Qed.

End NotANumber.

(** ** A route along a meridian *)

Lemma Math_min_same (l : num) : Math_min l l = l.
Proof.
  destruct l as [[] | [] | |]; simpl; try reflexivity;
    match goal with |- context [if ?c then _ else _] => destruct c end; reflexivity.
Qed.

Lemma Math_max_same (l : num) : Math_max l l = l.
Proof.
  destruct l as [[] | [] | |]; simpl; try reflexivity;
    match goal with |- context [if ?c then _ else _] => destruct c end; reflexivity.
Qed.

Section Meridian.

Variable E : Engine.

Lemma extend_all_same_lng (l : num) vs : forall b rb,
  Forall (fun p => lng p = l) vs ->
  (b = empty_bounds /\ vs <> []
   \/ exists sw ne, _southWest b = Some sw /\ _northEast b = Some ne
                    /\ lng sw = l /\ lng ne = l) ->
  extend_all E b vs = Ok rb ->
  exists sw ne, _southWest rb = Some sw /\ _northEast rb = Some ne /\ lng sw = l /\ lng ne = l.
Proof.
  induction vs as [| v vs IH]; intros b rb Hvs Hb H; simpl in H.
  - injection H as <-. destruct Hb as [[_ ?] | ?]; [congruence | assumption].
  - apply Forall_cons in Hvs. destruct Hvs as [Hv Hvs'].
    destruct (extend E b v) as [a | |] eqn:H0; try discriminate H. simpl in H.
    apply (IH a rb Hvs'); [right | exact H].
    destruct Hb as [[-> _] | (sw & ne & Hsw & Hne & Ls & Ln)].
    + unfold extend in H0. simpl in H0. oexec H0.
      apply new_LatLng_num in H1, H2. subst.
      eexists _, _. split; [reflexivity |]. split; [reflexivity |]. split; reflexivity.
    + rewrite (extend_corners E b v sw ne Hsw Hne) in H0. injection H0 as <-.
      eexists _, _. split; [reflexivity |]. split; [reflexivity |]. simpl.
      rewrite Ls, Ln, Hv. split; [apply Math_min_same | apply Math_max_same].
Qed.

Lemma grow_up_still fuel a c bs brng range w u w' ne g0 rest :
  grow_up E fuel a c bs brng range 2 w = (Ok u, w') ->
  getNorthEast bs = Ok ne ->
  grid_of a (routeBoxer w) = g0 :: rest -> lt g0 (coord a ne) = false ->
  w' = w.
Proof.
  intros H Hne Hg Hlt. destruct fuel as [| fuel]; simpl in H; [discriminate H |].
  apply bind_inv in H. destruct H as (g & w1 & H1 & H). apply get_inv in H1.
  destruct H1 as [-> ->].
  apply bind_inv in H. destruct H as (ne' & w1 & H1 & H). apply lift_inv in H1.
  destruct H1 as [H1 ->]. rewrite Hne in H1. injection H1 as <-.
  rewrite Hg in H. change (index (g0 :: rest) (2 - 2)) with (Some g0) in H.
  simpl in H. rewrite Hlt in H. apply ret_inv in H. tauto.
Qed.

Lemma grow_down_once fuel a c bs brng range i w u w' sw g0 rest :
  grow_down E fuel a c bs brng range i w = (Ok u, w') ->
  getSouthWest bs = Ok sw ->
  grid_of a (routeBoxer w) = g0 :: rest -> gt g0 (coord a sw) = false ->
  (grid_of a (routeBoxer w') = g0 :: rest
   \/ exists x, grid_of a (routeBoxer w') = x :: g0 :: rest)
  /\ grid_ (routeBoxer w') = grid_ (routeBoxer w).
Proof.
  intros H Hsw Hg Hgt. destruct fuel as [| fuel]; simpl in H; [discriminate H |].
  apply bind_inv in H. destruct H as (g & w1 & H1 & H). apply get_inv in H1.
  destruct H1 as [-> ->].
  apply bind_inv in H. destruct H as (sw' & w1 & H1 & H). apply lift_inv in H1.
  destruct H1 as [H1 ->]. rewrite Hsw in H1. injection H1 as <-.
  destruct (gt_undef _ _).
  - apply bind_inv in H. destruct H as (x & w1 & Hl & H).
    apply line_inv in Hl. destruct Hl as [-> _].
    apply bind_inv in H. destruct H as (u1 & w1 & Hp & H).
    apply unshift_inv in Hp. subst w1.
    destruct fuel as [| fuel]; simpl in H; [discriminate H |].
    apply bind_inv in H. destruct H as (g & w1 & H1 & H). apply get_inv in H1.
    destruct H1 as [-> ->].
    apply bind_inv in H. destruct H as (sw' & w1 & H1 & H). apply lift_inv in H1.
    destruct H1 as [H1 ->]. rewrite Hsw in H1. injection H1 as <-.
    simpl in H. rewrite grid_of_set, Hg in H.
    change (index (x :: g0 :: rest) 1) with (Some g0) in H. simpl in H.
    rewrite Hgt in H. apply ret_inv in H. destruct H as [_ ->]. simpl.
    rewrite grid_of_set, grid__set_grid_of. split; [right; eauto | reflexivity].
  - apply ret_inv in H. destruct H as [_ ->]. split; [left; exact Hg | reflexivity].
Qed.

(** On an axis along which the route does not move, the line of the
    centre is the first or the second line. *)
Lemma axis_degenerate fuel a c bs b0 b1 b2 range sw ne l w0 w1 w2 w3 w4 u1 u2 u3 u4 :
  getSouthWest bs = Ok sw -> getNorthEast bs = Ok ne ->
  coord a sw = l -> coord a ne = l -> coord a c = l ->
  grid_of a (routeBoxer w0) = [] ->
  push a (coord a c) w0 = (Ok u1, w1) ->
  (x ← line E a c b0 range; push a x) w1 = (Ok u2, w2) ->
  grow_up E fuel a c bs b1 range 2 w2 = (Ok u3, w3) ->
  grow_down E fuel a c bs b2 range 1 w3 = (Ok u4, w4) ->
  count_below (grid_of a (routeBoxer w4)) l 0 <= 1
  /\ grid_ (routeBoxer w4) = grid_ (routeBoxer w0).
Proof.
  intros Hsw Hne Hs Hn Hc H0 H1 H2 H3 H4.
  apply push_inv in H1. subst w1.
  apply bind_inv in H2. destruct H2 as (x & w1 & Hl & H2).
  apply line_inv in Hl. destruct Hl as [-> Hx]. apply push_inv in H2. subst w2.
  assert (grid_of a (routeBoxer
            {| store := store {| store := store w0;
                                 routeBoxer := set_grid_of a (grid_of a (routeBoxer w0)
                                                 ++ [coord a c]) (routeBoxer w0) |};
               routeBoxer := set_grid_of a
                 (grid_of a (routeBoxer {| store := store w0;
                                           routeBoxer := set_grid_of a
                                             (grid_of a (routeBoxer w0) ++ [coord a c])
                                             (routeBoxer w0) |}) ++ [x])
                 (routeBoxer {| store := store w0;
                                routeBoxer := set_grid_of a
                                  (grid_of a (routeBoxer w0) ++ [coord a c])
                                  (routeBoxer w0) |}) |}) = [l; x]) as Hg2.
  { simpl. rewrite !grid_of_set, H0, Hc. reflexivity. }
  pose proof (grow_up_still _ _ _ _ _ _ _ _ _ _ _ _ H3 Hne Hg2
                ltac:(rewrite Hn; apply lt_irrefl)) as ->.
  destruct (grow_down_once _ _ _ _ _ _ _ _ _ _ _ _ _ H4 Hsw Hg2
              ltac:(rewrite Hs; apply lt_irrefl)) as [Hg4 Hgrid].
  split.
  - destruct Hg4 as [-> | [y ->]]; simpl; rewrite lt_irrefl; [lia |].
    destruct (lt y l); lia.
  - rewrite Hgrid. simpl. rewrite !grid__set_grid_of. reflexivity.
Qed.

Lemma buildGrid__meridian fuel vs range l w u w' :
  latGrid_ (routeBoxer w) = [] -> lngGrid_ (routeBoxer w) = [] ->
  vs <> [] -> Forall (fun p => lng p = l) vs -> div (add l l) (Z2num 2) = l ->
  buildGrid_ E fuel vs range w = (Ok u, w') ->
  count_below (lngGrid_ (routeBoxer w')) l 0 <= 1
  /\ exists cols, grid_ (routeBoxer w') = Some cols.
Proof.
  intros Hlat Hlng Hne Hvs Hmid H. unfold buildGrid_ in H.
  apply bind_inv in H. destruct H as (rb & w1 & Hrb & H).
  apply lift_inv in Hrb. destruct Hrb as [Hrb ->].
  apply bind_inv in H. destruct H as (c & w1 & Hc & H).
  apply lift_inv in Hc. destruct Hc as [Hc ->].
  destruct (getCenter_inv E _ _ Hc)
    as (sw & ne & Hsw & Hne' & [Hs1 Hs2] & [Hn1 Hn2] & [Hc1 Hc2] & _ & Hclng).
  destruct (extend_all_same_lng l vs _ _ Hvs (or_introl (conj eq_refl Hne)) Hrb)
    as (sw' & ne' & Hsw' & Hne'' & Ls & Ln).
  rewrite Hsw in Hsw'. injection Hsw' as <-. rewrite Hne' in Hne''. injection Hne'' as <-.
  rewrite Ls, Ln, Hmid in Hclng.
  assert (getSouthWest rb = Ok sw) as Hgsw by (unfold getSouthWest; rewrite Hsw; reflexivity).
  assert (getNorthEast rb = Ok ne) as Hgne by (unfold getNorthEast; rewrite Hne'; reflexivity).
  apply bind_inv in H. destruct H as (u1 & w1 & A1 & H).
  apply bind_inv in H. destruct H as (u2 & w2 & A2 & H).
  apply bind_inv in H. destruct H as (u3 & w3 & A3 & H).
  apply bind_inv in H. destruct H as (u4 & w4 & A4 & H).
  destruct (axis_reaches E fuel Lat c rb _ _ _ range sw ne _ _ _ _ _ _ _ _ _
              Hgsw Hgne Hs1 Hn1 Hc1 Hlat A1 A2 A3 A4) as (_ & Olat & _).
  apply bind_inv in H. destruct H as (u5 & w5 & B1 & H).
  apply bind_inv in H. destruct H as (u6 & w6 & B2 & H).
  apply bind_inv in H. destruct H as (u7 & w7 & B3 & H).
  apply bind_inv in H. destruct H as (u8 & w8 & B4 & H).
  simpl in Olat. rewrite Hlng in Olat.
  destruct (axis_degenerate fuel Lng c rb _ _ _ range sw ne l _ _ _ _ _ _ _ _ _
              Hgsw Hgne Ls Ln Hclng Olat B1 B2 B3 B4) as [Hcount _].
  simpl in Hcount. exec H. simpl. split; [exact Hcount | eauto].
Qed.

Lemma findIntersectingCells__border vs l w u w' cols :
  grid_ (routeBoxer w) = Some cols ->
  vs <> [] -> Forall (fun p => lng p = l) vs ->
  count_below (lngGrid_ (routeBoxer w)) l 0 <= 1 ->
  findIntersectingCells_ E vs w <> (Ok u, w').
Proof.
  intros Hg Hne Hvs Hcount H. unfold findIntersectingCells_ in H.
  destruct vs as [| v vs]; [congruence |]. apply Forall_cons in Hvs. destruct Hvs as [Hv _].
  apply bind_inv in H. destruct H as (v0 & w1 & Hv0 & H).
  apply lift_inv in Hv0. destruct Hv0 as [Hv0 ->]. simpl in Hv0. injection Hv0 as <-.
  apply bind_inv in H. destruct H as (hintXY & w1 & Hc & H).
  rewrite getCellCoords__run in Hc. injection Hc as <- <-. rewrite <- Hv in Hcount.
  apply bind_inv in H. destruct H as (u1 & w1 & Hm & _).
  assert (count_below (lngGrid_ (routeBoxer w)) (lng v) 0 - 1 < 1
          \/ Z.of_nat (length cols)
             <= count_below (lngGrid_ (routeBoxer w)) (lng v) 0 - 1 + 1) as Hx
    by (left; lia).
  pose proof (markCell__throws (length cols) _
                (count_below (latGrid_ (routeBoxer w)) (lat v) 0 - 1) w
                ltac:(eexists; eauto) Hx) as Ht.
  rewrite Hm in Ht. discriminate Ht.
Qed.

Lemma box_meridian fuel path range l w bounds w' :
  path <> [] -> Forall (fun p => lng p = l) path -> div (add l l) (Z2num 2) = l ->
  box E fuel path range w <> (Ok bounds, w').
Proof.
  intros Hne Hvs Hmid H. rewrite box_rasterize_cover in H.
  apply bind_inv in H. destruct H as (u & w2 & Hr & _).
  destruct (rasterize_steps E _ _ _ _ _ _ Hr) as (w1 & H1 & H2).
  destruct (buildGrid__meridian _ _ _ _
              {| store := store w; routeBoxer := RouteBoxer_init |} _ _
              eq_refl eq_refl Hne Hvs Hmid H1)
    as [Hcount [cols Hg]].
  exact (findIntersectingCells__border _ _ _ _ _ _ Hg Hne Hvs Hcount H2).
Qed.

Lemma findIntersectingCells__border_throws vs l w cols :
  grid_ (routeBoxer w) = Some cols ->
  vs <> [] -> Forall (fun p => lng p = l) vs ->
  count_below (lngGrid_ (routeBoxer w)) l 0 <= 1 ->
  (findIntersectingCells_ E vs w).1 = Throw TypeError.
Proof.
  intros Hg Hne Hvs Hcount. unfold findIntersectingCells_.
  destruct vs as [| v vs]; [congruence |]. apply Forall_cons in Hvs. destruct Hvs as [Hv _].
  rewrite bind_run. unfold lift at 1. cbn [head deref]. cbv beta iota.
  rewrite bind_run, getCellCoords__run. cbv beta iota. rewrite <- Hv in Hcount.
  assert (count_below (lngGrid_ (routeBoxer w)) (lng v) 0 - 1 < 1
          \/ Z.of_nat (length cols)
             <= count_below (lngGrid_ (routeBoxer w)) (lng v) 0 - 1 + 1) as Hx
    by (left; lia).
  pose proof (markCell__throws (length cols) _
                (count_below (latGrid_ (routeBoxer w)) (lat v) 0 - 1) w
                ltac:(eexists; eauto) Hx) as Ht.
  rewrite bind_run. destruct (markCell_ _ w) as [o w1]. simpl in Ht. subst o. reflexivity.
Qed.

Lemma box_meridian_throws fuel path range l w w1 :
  path <> [] -> Forall (fun p => lng p = l) path -> div (add l l) (Z2num 2) = l ->
  buildGrid_ E fuel path range {| store := store w; routeBoxer := RouteBoxer_init |}
  = (Ok tt, w1) ->
  (box E fuel path range w).1 = Throw TypeError.
Proof.
  intros Hne Hvs Hmid H1. rewrite box_rasterize_cover, bind_run.
  assert (rasterize E fuel path range w
          = (buildGrid_ E fuel path range ≫= fun _ => findIntersectingCells_ E path)
              {| store := store w; routeBoxer := RouteBoxer_init |}) as -> by reflexivity.
  rewrite bind_run, H1.
  destruct (buildGrid__meridian _ _ _ _
              {| store := store w; routeBoxer := RouteBoxer_init |} _ _
              eq_refl eq_refl Hne Hvs Hmid H1)
    as [Hcount [cols Hg]].
  pose proof (findIntersectingCells__border_throws _ _ _ _ Hg Hne Hvs Hcount) as Ht.
  destruct (findIntersectingCells_ E path w1) as [o w2]. simpl in Ht. subst o. reflexivity.
Qed.

End Meridian.

(** ** The edges of the boxes are grid lines *)

Lemma Math_min_either (a b : num) : Math_min a b = a \/ Math_min a b = b.
Proof.
  destruct a as [[] | [] | |], b as [[] | [] | |]; simpl; auto;
    match goal with |- context [if ?c then _ else _] => destruct c end; auto.
Qed.

Lemma Math_max_either (a b : num) : Math_max a b = a \/ Math_max a b = b.
Proof.
  destruct a as [[] | [] | |], b as [[] | [] | |]; simpl; auto;
    match goal with |- context [if ?c then _ else _] => destruct c end; auto.
Qed.

Lemma index_elem_of {A} (l : list A) (i : Z) (a : A) : index l i = Some a -> a ∈ l.
Proof. intros H. apply index_inv in H. destruct H as [_ H]. eapply list_elem_of_lookup_2, H. Qed.

Section Lines.

Variable E : Engine.
Variables lats lngs : list num.

Lemma extend_on_lines b c p b' :
  on_lines lats lngs b -> on_lines lats lngs c -> getNorthEast c = Ok p ->
  extend E b p = Ok b' -> on_lines lats lngs b'.
Proof.
  intros (sw & ne & Hsw & Hne & L1 & L2 & L3 & L4)
         (sw2 & ne2 & _ & Hne2 & _ & M2 & _ & M4) Hp H.
  unfold getNorthEast in Hp. rewrite Hne2 in Hp. injection Hp as <-.
  rewrite (extend_corners E b ne2 sw ne Hsw Hne) in H. injection H as <-.
  eexists _, _. split; [reflexivity |]. split; [reflexivity |]. simpl.
  destruct (Math_min_either (lat ne2) (lat sw)) as [-> | ->],
           (Math_max_either (lat ne2) (lat ne)) as [-> | ->],
           (Math_min_either (lng ne2) (lng sw)) as [-> | ->],
           (Math_max_either (lng ne2) (lng ne)) as [-> | ->]; auto.
Qed.

Lemma getCellBounds__on_lines c w b w' :
  on_grid lats lngs w -> getCellBounds_ E c w = (Ok b, w') -> on_lines lats lngs b.
Proof.
  intros [Hlat Hlng] H. unfold getCellBounds_ in H.
  apply bind_inv in H. destruct H as (lats' & w1 & H1 & H). apply get_inv in H1.
  destruct H1 as [-> ->].
  apply bind_inv in H. destruct H as (lngs' & w1 & H1 & H). apply get_inv in H1.
  destruct H1 as [-> ->]. rewrite Hlat, Hlng in H.
  apply bind_inv in H. destruct H as (c1 & w1 & H1 & H). apply lift_inv in H1.
  destruct H1 as [H1 ->].
  apply bind_inv in H. destruct H as (c2 & w1 & H2 & H). apply lift_inv in H2.
  destruct H2 as [H2 ->]. apply lift_inv in H. destruct H as [H _].
  apply of_index_inv in H1. destruct H1 as (s & w0 & Hs & Hw0 & -> & [V1 V2]).
  apply of_index_inv in H2. destruct H2 as (n & e & Hn & He & -> & _).
  apply index_elem_of in Hs, Hw0, Hn, He.
  unfold new_LatLngBounds in H.
  rewrite (extend_empty E {| lat := s; lng := w0 |} (conj V1 V2)) in H. simpl in H.
  injection H as <-.
  eexists _, _. split; [reflexivity |]. split; [reflexivity |]. simpl.
  destruct (Math_min_either n s) as [-> | ->], (Math_max_either n s) as [-> | ->],
           (Math_min_either e w0) as [-> | ->], (Math_max_either e w0) as [-> | ->]; auto.
Qed.

Lemma merge_into_on_lines matches boxes box boxes' :
  Forall (on_lines lats lngs) boxes -> on_lines lats lngs box ->
  merge_into E matches boxes box = Ok (Some boxes') -> Forall (on_lines lats lngs) boxes'.
Proof.
  intros Hbs Hb. revert boxes'.
  induction Hbs as [| b boxes Hgb Hbs IH]; intros boxes' H; simpl in H; [discriminate H |].
  oexec H. destruct a as [|].
  - oexec H. constructor; [| exact Hbs]. eapply (extend_on_lines b box); eassumption.
  - oexec H. destruct a as [bs |]; simpl in *; [| discriminate].
    injection H as <-. constructor; [exact Hgb | apply IH; assumption].
Qed.

Lemma merged_on_lines matches boxes box r :
  Forall (on_lines lats lngs) boxes -> on_lines lats lngs box ->
  merge_into E matches boxes box = Ok r ->
  Forall (on_lines lats lngs) (default (boxes ++ [box]) r).
Proof.
  intros Hbs Hb H. destruct r as [boxes' |]; simpl.
  - eapply merge_into_on_lines; eassumption.
  - apply Forall_app. split; [exact Hbs | constructor; [exact Hb | constructor]].
Qed.

Lemma mergeBoxesX__on_lines cb w u w' :
  Forall (on_lines lats lngs) (boxesX_ (routeBoxer w)) ->
  (forall b, cb = Some b -> on_lines lats lngs b) ->
  mergeBoxesX_ E cb w = (Ok u, w') -> Forall (on_lines lats lngs) (boxesX_ (routeBoxer w')).
Proof.
  intros HX Hcb H. destruct cb as [box |]; unfold mergeBoxesX_ in H; exec H.
  - simpl. eapply merged_on_lines; eauto.
  - exact HX.
Qed.

Lemma mergeBoxesY__on_lines cb w u w' :
  Forall (on_lines lats lngs) (boxesY_ (routeBoxer w)) ->
  (forall b, cb = Some b -> on_lines lats lngs b) ->
  mergeBoxesY_ E cb w = (Ok u, w') -> Forall (on_lines lats lngs) (boxesY_ (routeBoxer w')).
Proof.
  intros HY Hcb H. destruct cb as [box |]; unfold mergeBoxesY_ in H; exec H.
  - simpl. eapply merged_on_lines; eauto.
  - exact HY.
Qed.

Variable boxes_of : World -> list LatLngBounds.
Variable merge : option LatLngBounds -> M unit.
Hypothesis merge_lines : forall cb w u w',
  Forall (on_lines lats lngs) (boxes_of w) ->
  (forall b, cb = Some b -> on_lines lats lngs b) ->
  merge cb w = (Ok u, w') -> Forall (on_lines lats lngs) (boxes_of w').
Hypothesis merge_frame : forall cb, preserves grid_state (merge cb).

Lemma sweep_cell_on_lines c cb w cb' w' :
  on_grid lats lngs w -> Forall (on_lines lats lngs) (boxes_of w) ->
  (forall b, cb = Some b -> on_lines lats lngs b) ->
  sweep_cell E merge c cb w = (Ok cb', w') ->
  on_grid lats lngs w' /\ Forall (on_lines lats lngs) (boxes_of w')
  /\ (forall b, cb' = Some b -> on_lines lats lngs b).
Proof.
  intros Hw Hbs Hcb H. unfold sweep_cell in H.
  apply bind_inv in H. destruct H as (m & w1 & Hm & H).
  pose proof (cell_marked_inv _ _ _ _ Hm) as ->. destruct m.
  - apply bind_inv in H. destruct H as (box & w1 & Hb & H).
    pose proof (getCellBounds__on_lines _ _ _ _ Hw Hb) as Hbox.
    destruct (getCellBounds__good E _ _ _ _ Hb) as [_ ->].
    destruct cb as [cb |].
    + apply bind_inv in H. destruct H as (ne & w1 & Hne & H).
      apply lift_inv in Hne. destruct Hne as [Hne ->].
      apply bind_inv in H. destruct H as (cb1 & w1 & He & H).
      apply lift_inv in He. destruct He as [He ->].
      apply ret_inv in H. destruct H as [-> ->].
      split; [exact Hw |]. split; [exact Hbs |]. intros b [= <-].
      eapply extend_on_lines; [apply Hcb; reflexivity | exact Hbox | exact Hne | exact He].
    + apply ret_inv in H. destruct H as [-> ->].
      split; [exact Hw |]. split; [exact Hbs |]. intros b [= <-]. exact Hbox.
  - apply bind_inv in H. destruct H as (u & w1 & Hu & H).
    apply ret_inv in H. destruct H as [-> ->].
    split; [| split; [eapply merge_lines; eassumption | discriminate]].
    eapply on_grid_state; [| exact Hw]. exact (run_preserved _ _ _ _ _ (merge_frame cb) Hu).
Qed.

Lemma sweep_line_on_lines cells : forall cb w cb' w',
  on_grid lats lngs w -> Forall (on_lines lats lngs) (boxes_of w) ->
  (forall b, cb = Some b -> on_lines lats lngs b) ->
  sweep_line E merge cells cb w = (Ok cb', w') ->
  on_grid lats lngs w' /\ Forall (on_lines lats lngs) (boxes_of w')
  /\ (forall b, cb' = Some b -> on_lines lats lngs b).
Proof.
  induction cells as [| c cells IH]; intros cb w cb' w' Hw Hbs Hcb H; simpl in H.
  - apply ret_inv in H. destruct H as [-> ->]. auto.
  - apply bind_inv in H. destruct H as (cb1 & w1 & H1 & H).
    destruct (sweep_cell_on_lines _ _ _ _ _ Hw Hbs Hcb H1) as (Hw1 & Hbs1 & Hcb1).
    exact (IH _ _ _ _ Hw1 Hbs1 Hcb1 H).
Qed.

Lemma sweep_on_lines lines : forall w u w',
  on_grid lats lngs w -> Forall (on_lines lats lngs) (boxes_of w) ->
  sweep E merge lines w = (Ok u, w') ->
  on_grid lats lngs w' /\ Forall (on_lines lats lngs) (boxes_of w').
Proof.
  unfold sweep. induction lines as [| cells lines IH]; intros w u w' Hw Hbs H; simpl in H.
  - apply ret_inv in H. destruct H as [_ ->]. auto.
  - apply bind_inv in H. destruct H as (u1 & w1 & H1 & H).
    apply bind_inv in H1. destruct H1 as (cb & w2 & Hl & Hm).
    destruct (sweep_line_on_lines cells None w cb w2 Hw Hbs
                ltac:(intros b Hb; discriminate Hb) Hl) as (Hw2 & Hbs2 & Hcb).
    apply (IH _ _ _
             (on_grid_state _ _ _ _ (run_preserved _ _ _ _ _ (merge_frame cb) Hm) Hw2)
             (merge_lines _ _ _ _ Hbs2 Hcb Hm) H).
Qed.

End Lines.

Section LinesOfBox.

Variable E : Engine.

Lemma sweep_rows_on_lines lats lngs w u w' :
  on_grid lats lngs w -> Forall (on_lines lats lngs) (boxesY_ (routeBoxer w)) ->
  sweep_rows E w = (Ok u, w') ->
  on_grid lats lngs w' /\ Forall (on_lines lats lngs) (boxesY_ (routeBoxer w')).
Proof.
  intros Hw Hbs H. unfold sweep_rows in H.
  apply bind_inv in H. destruct H as (ny & w1 & Hny & H).
  assert (w1 = w) as ->
    by exact (run_preserved (fun w => w) _ _ _ _ (grid_rows_frame (fun w => w)) Hny).
  apply bind_inv in H. destruct H as (nx & w1 & Hnx & H).
  assert (w1 = w) as ->
    by exact (run_preserved (fun w => w) _ _ _ _ (grid_cols_frame (fun w => w)) Hnx).
  exact (sweep_on_lines E lats lngs (fun w => boxesY_ (routeBoxer w)) (mergeBoxesY_ E)
           (mergeBoxesY__on_lines E lats lngs)
           (fun cb => mergeBoxesY__frame E grid_state cb grid_state_boxesY) _ _ _ _ Hw Hbs H).
Qed.

Lemma sweep_columns_on_lines lats lngs w u w' :
  on_grid lats lngs w -> Forall (on_lines lats lngs) (boxesX_ (routeBoxer w)) ->
  sweep_columns E w = (Ok u, w') ->
  on_grid lats lngs w' /\ Forall (on_lines lats lngs) (boxesX_ (routeBoxer w')).
Proof.
  intros Hw Hbs H. unfold sweep_columns in H.
  apply bind_inv in H. destruct H as (nx & w1 & Hnx & H).
  assert (w1 = w) as ->
    by exact (run_preserved (fun w => w) _ _ _ _ (grid_cols_frame (fun w => w)) Hnx).
  apply bind_inv in H. destruct H as (ny & w1 & Hny & H).
  assert (w1 = w) as ->.
  { destruct nx; [apply ret_inv in Hny; tauto |].
    exact (run_preserved (fun w => w) _ _ _ _ (grid_rows_frame (fun w => w)) Hny). }
  exact (sweep_on_lines E lats lngs (fun w => boxesX_ (routeBoxer w)) (mergeBoxesX_ E)
           (mergeBoxesX__on_lines E lats lngs)
           (fun cb => mergeBoxesX__frame E grid_state cb grid_state_boxesX) _ _ _ _ Hw Hbs H).
Qed.

Lemma box_on_lines fuel path range w bounds w' :
  box E fuel path range w = (Ok bounds, w') ->
  Forall (on_lines (latGrid_ (routeBoxer w')) (lngGrid_ (routeBoxer w'))) bounds.
Proof.
  intros H. rewrite box_rasterize_cover in H.
  apply bind_inv in H. destruct H as (u & w1 & H1 & H).
  assert (both_lists w1 = ([], [])) as Hl.
  { destruct (rasterize_steps E _ _ _ _ _ _ H1) as (w0 & Hb & Hf).
    rewrite (run_preserved both_lists _ _ _ _
               (findIntersectingCells__frame E both_lists both_lists_ignores_grid path) Hf).
    rewrite (run_preserved both_lists _ _ _ _
               (buildGrid__frame E both_lists both_lists_ignores_grid
                  both_lists_ignores_lat both_lists_ignores_lng fuel path range) Hb).
    reflexivity. }
  unfold both_lists in Hl. injection Hl as HX HY.
  set (lats := latGrid_ (routeBoxer w1)). set (lngs := lngGrid_ (routeBoxer w1)).
  assert (on_grid lats lngs w1) as Hw1 by (split; reflexivity).
  unfold cover, mergeIntersectingCells_ in H.
  apply bind_inv in H. destruct H as ([] & w4 & Hm & H).
  apply bind_inv in Hm. destruct Hm as ([] & w3 & H3 & H4).
  apply bind_inv in H. destruct H as (bx & w5 & Hx & H). apply get_inv in Hx.
  destruct Hx as [-> ->].
  apply bind_inv in H. destruct H as (by_ & w5 & Hy & H). apply get_inv in Hy.
  destruct Hy as [-> ->].
  apply ret_inv in H. destruct H as [-> ->].
  destruct (sweep_rows_on_lines lats lngs _ _ _ Hw1
              ltac:(rewrite HY; constructor) H3) as [Hw3 HY3].
  assert (Forall (on_lines lats lngs) (boxesX_ (routeBoxer w3))) as HX3.
  { rewrite (run_preserved (fun w => boxesX_ (routeBoxer w)) _ _ _ _
               (sweep_rows_frame E (fun w => boxesX_ (routeBoxer w))
                  ltac:(intros ? ? ?; reflexivity)) H3).
    rewrite HX. constructor. }
  destruct (sweep_columns_on_lines lats lngs _ _ _ Hw3 HX3 H4) as [[Hw4a Hw4b] HX4].
  rewrite Hw4a, Hw4b.
  destruct (_ <=? _)%nat; [exact HX4 |].
  rewrite (run_preserved (fun w => boxesY_ (routeBoxer w)) _ _ _ _
             (sweep_columns_frame E (fun w => boxesY_ (routeBoxer w))
                ltac:(intros ? ? ?; reflexivity)) H4).
  exact HY3.
Qed.

Lemma to_corners_on_lines lats lngs b c :
  on_lines lats lngs b -> to_corners b = Ok c -> edges_on_lines lats lngs c.
Proof.
  intros (sw & ne & Hsw & Hne & H) Hc. unfold to_corners in Hc. rewrite Hsw, Hne in Hc.
  simpl in Hc. injection Hc as <-. exact H.
Qed.

End LinesOfBox.

(** ** What the theorems below share *)

Lemma contains_bounds_intro (b c : LatLngBounds) sw ne sw2 ne2 :
  _southWest b = Some sw -> _northEast b = Some ne ->
  _southWest c = Some sw2 -> _northEast c = Some ne2 ->
  le (lat sw) (lat sw2) = true -> le (lat ne2) (lat ne) = true ->
  le (lng sw) (lng sw2) = true -> le (lng ne2) (lng ne) = true ->
  contains b (GBounds c) = Ok true.
Proof.
  intros H1 H2 H3 H4 L1 L2 L3 L4. unfold contains, and_then, cmp, ge.
  rewrite H1, H2, H3, H4. simpl. rewrite L1. simpl. rewrite L2. simpl. rewrite L3. simpl.
  rewrite L4. reflexivity.
Qed.

Lemma cell_marked_true c w : (cell_marked c w).1 = Ok true -> marked (grid_ (routeBoxer w)) c.
Proof.
  destruct (cell_marked c w) as [o w'] eqn:H. simpl. intros ->. unfold cell_marked in H.
  apply bind_inv in H. destruct H as (g & w1 & H1 & H). apply get_inv in H1.
  destruct H1 as [-> ->].
  apply bind_inv in H. destruct H as (cols & w1 & H1 & H). apply lift_inv in H1.
  destruct H1 as [H1 ->]. apply deref_inv in H1.
  apply bind_inv in H. destruct H as (col & w1 & H2 & H). apply lift_inv in H2.
  destruct H2 as [H2 ->]. apply deref_inv in H2.
  apply ret_inv in H. destruct H as [H _]. symmetry in H. apply bool_decide_eq_true in H.
  exists cols, col. auto.
Qed.

Lemma run_pair {A} (m : M A) (w : World) (a : A) :
  (m w).1 = Ok a -> m w = (Ok a, (m w).2).
Proof. destruct (m w) as [o w']. simpl. intros ->. reflexivity. Qed.

(** ** The steps of a call, and the example run once *)

Lemma constructs_all_functional (E : Engine) s elems : forall lls lls',
  Forall2 (constructs E s) elems lls -> Forall2 (constructs E s) elems lls' -> lls = lls'.
Proof.
  induction elems as [| pl elems IH]; intros lls lls' H H'; inversion H; inversion H'; subst;
    [reflexivity |].
  f_equal; [eapply constructs_functional; eassumption | apply IH; assumption].
Qed.

(** A call of [mkBox] that returns has built the grid, rasterized the
    route and merged the cells; the rasterization left the lines alone,
    the merge the lines and the marks. *)
Lemma mkBox_run_inv (E : Engine) fuel l elems lls dis w boxes w' :
  arrays (store w) !! l = Some elems -> (2 <= length elems)%nat ->
  Forall2 (constructs E (store w)) elems lls ->
  mkBox E fuel (Some l) dis w = (Ok boxes, w') ->
  exists w0 w1,
    buildGrid_ E fuel lls (default (Z2num 20) dis)
      {| store := store w; routeBoxer := RouteBoxer_init |} = (Ok tt, w0)
    /\ rasterize E fuel lls (default (Z2num 20) dis) w = (Ok tt, w1)
    /\ mergeIntersectingCells_ E w1 = (Ok tt, w')
    /\ grid_lines w0 = grid_lines w1
    /\ grid_state w1 = grid_state w'
    /\ both_lists w1 = ([], []).
Proof.
  intros Hl Hlen Hlls H.
  destruct (mkBox_steps E _ _ _ _ _ _ _ Hl Hlen H) as (lls' & bounds & Hlls' & Hb & _).
  rewrite <- (constructs_all_functional E _ _ _ _ Hlls Hlls') in Hb. clear Hlls'.
  rewrite box_rasterize_cover in Hb.
  apply bind_inv in Hb. destruct Hb as ([] & w1 & Hr & Hc).
  destruct (rasterize_steps E _ _ _ _ _ _ Hr) as (w0 & H0 & H1).
  unfold cover in Hc.
  apply bind_inv in Hc. destruct Hc as ([] & w4 & Hm & Hc).
  apply bind_inv in Hc. destruct Hc as (bx & w5 & Hx & Hc). apply get_inv in Hx.
  destruct Hx as [-> ->].
  apply bind_inv in Hc. destruct Hc as (by_ & w5 & Hy & Hc). apply get_inv in Hy.
  destruct Hy as [-> ->].
  apply ret_inv in Hc. destruct Hc as [_ ->].
  exists w0, w1. split; [exact H0 |]. split; [exact Hr |]. split; [exact Hm |].
  split; [| split].
  - symmetry.
    exact (run_preserved grid_lines _ _ _ _
             (findIntersectingCells__frame E grid_lines grid_lines_ignores lls) H1).
  - symmetry.
    exact (run_preserved grid_state _ _ _ _
             (mergeIntersectingCells__frame E grid_state grid_state_boxesX grid_state_boxesY)
             Hm).
  - rewrite (run_preserved both_lists _ _ _ _
               (findIntersectingCells__frame E both_lists both_lists_ignores_grid lls) H1).
    rewrite (run_preserved both_lists _ _ _ _
               (buildGrid__frame E both_lists both_lists_ignores_grid
                  both_lists_ignores_lat both_lists_ignores_lng fuel lls _) H0).
    reflexivity.
Qed.

(** The call on the route of test/t1.js with the distance 5, evaluated
    with the reference engine: the boxes, the order of the lines, the
    mark on the cell (1, 6) and the size of the matrix. *)
Lemma exampleA_run :
  (let r := mkBox RefMath.engine 100 (@Some loc 1%positive) (Some (Z2num 5)) (world_of routeA) in
   (r.1, ascending (latGrid_ (routeBoxer r.2)), ascending (lngGrid_ (routeBoxer r.2)),
    (cell_marked (1, 6) r.2).1, width r.2, height r.2))
  = (Ok expectA, true, true, Ok true, 7, 9).
Proof. vm_compute. reflexivity. Qed.

Lemma exampleA_steps :
  exists w0 w1 w2,
    buildGrid_ RefMath.engine 100 verticesA (Z2num 5) (world_of routeA) = (Ok tt, w0)
    /\ rasterize RefMath.engine 100 verticesA (Z2num 5) (world_of routeA) = (Ok tt, w1)
    /\ mergeIntersectingCells_ RefMath.engine w1 = (Ok tt, w2)
    /\ mkBox RefMath.engine 100 (@Some loc 1%positive) (Some (Z2num 5)) (world_of routeA)
       = (Ok expectA, w2)
    /\ (ascending (latGrid_ (routeBoxer w1)) = true
        /\ ascending (lngGrid_ (routeBoxer w1)) = true)
    /\ (ascending (latGrid_ (routeBoxer w2)) = true
        /\ ascending (lngGrid_ (routeBoxer w2)) = true)
    /\ boxes_good w1
    /\ marked (grid_ (routeBoxer w1)) (1, 6) /\ width w1 = 7 /\ height w1 = 9.
Proof.
  pose proof exampleA_run as H. cbv zeta in H.
  destruct (mkBox RefMath.engine 100 (@Some loc 1%positive) (Some (Z2num 5)) (world_of routeA))
    as [o w2] eqn:Hrun.
  cbn [fst snd] in H. injection H as -> A1 A2 Hm Hw Hh.
  assert (Forall2 (constructs RefMath.engine (store (world_of routeA)))
            [2; 3; 4]%positive verticesA) as Hlls
    by (repeat constructor; eexists; (split; [reflexivity | reflexivity])).
  destruct (mkBox_run_inv RefMath.engine 100 1%positive [2; 3; 4]%positive verticesA
              (Some (Z2num 5)) (world_of routeA) expectA w2 eq_refl
              ltac:(simpl; lia) Hlls Hrun)
    as (w0 & w1 & H0 & H1 & H2 & G01 & G12 & L1).
  exists w0, w1, w2. split; [exact H0 |]. split; [exact H1 |]. split; [exact H2 |].
  split; [reflexivity |].
  unfold grid_state in G12. injection G12 as Gg Glat Glng.
  split; [rewrite Glat, Glng; auto |]. split; [auto |].
  split; [unfold both_lists in L1; injection L1 as LX LY; split;
          [rewrite LX | rewrite LY]; constructor |].
  split; [rewrite Gg; apply cell_marked_true, Hm |].
  unfold width, height. rewrite Gg. auto.
Qed.

(** ** Further properties of the code *)

(** *** LatLngBounds and LatLng *)

(** X1.  [extend] with a point that has no NaN coordinate, on a box with
    ordered corners or on the box without corners, returns a box that
    [contains] the point and every point the box contained before. *)
Theorem extend_contains (E : Engine) (b : LatLngBounds) (p : LatLng) :
  good b \/ b = empty_bounds -> valid p ->
  exists b', extend E b p = Ok b'
             /\ contains b' (GPoint p) = Ok true
             /\ forall q, contains b (GPoint q) = Ok true -> contains b' (GPoint q) = Ok true.
Proof.
  intros Hb Hp.
  assert (exists b', extend E b p = Ok b') as [b' H].
  { destruct Hb as [(sw & ne & Hsw & Hne & _) | ->].
    - rewrite (extend_corners E b p sw ne Hsw Hne). eauto.
    - rewrite (extend_empty E p Hp). eauto. }
  exists b'. split; [exact H |]. split.
  - apply contains_inside. exact (extend_inside E b p b' Hb Hp H).
  - intros q Hq. apply contains_inside. apply contains_inside in Hq.
    exact (extend_keeps E b p b' q Hp H Hq).
Qed.

Lemma extend_contains_witness :
  exists b', extend RefMath.engine (rect 0 0 1 1) (point (Z2num 2) (dec 5 1)) = Ok b'
             /\ contains b' (GPoint (point (Z2num 2) (dec 5 1))) = Ok true
             /\ forall q, contains (rect 0 0 1 1) (GPoint q) = Ok true
                          -> contains b' (GPoint q) = Ok true.
Proof.
  apply (extend_contains RefMath.engine (rect 0 0 1 1) (point (Z2num 2) (dec 5 1))).
  - left. eexists _, _. split; [reflexivity |]. split; [reflexivity |].
    repeat split; reflexivity.
  - split; reflexivity.
Defined.

(** X2.  On two boxes that have their corners ([isValid]), [intersects]
    and [overlaps] do not depend on which box is the receiver. *)
Theorem intersects_overlaps_symmetric (a b : LatLngBounds) :
  isValid a = true -> isValid b = true ->
  intersects a b = intersects b a /\ overlaps a b = overlaps b a.
Proof.
  intros Ha Hb.
  destruct (isValid_inv a Ha) as (sw & ne & H1 & H2).
  destruct (isValid_inv b Hb) as (sw2 & ne2 & H3 & H4).
  rewrite (intersects_run a b sw ne sw2 ne2 H1 H2 H3 H4),
    (intersects_run b a sw2 ne2 sw ne H3 H4 H1 H2),
    (overlaps_run a b sw ne sw2 ne2 H1 H2 H3 H4),
    (overlaps_run b a sw2 ne2 sw ne H3 H4 H1 H2).
  split; f_equal.
  - rewrite (andb_comm (le (lat sw) (lat ne2))), (andb_comm (le (lng sw) (lng ne2))).
    reflexivity.
  - rewrite (andb_comm (lt (lat sw) (lat ne2))), (andb_comm (lt (lng sw) (lng ne2))).
    reflexivity.
Qed.

Lemma intersects_overlaps_symmetric_witness :
  intersects (rect 0 0 2 2) (rect 1 1 3 3) = intersects (rect 1 1 3 3) (rect 0 0 2 2)
  /\ overlaps (rect 0 0 2 2) (rect 1 1 3 3) = overlaps (rect 1 1 3 3) (rect 0 0 2 2).
Proof.
  apply (intersects_overlaps_symmetric (rect 0 0 2 2) (rect 1 1 3 3)); reflexivity.
Defined.

(** X3.  Two boxes that overlap intersect. *)
Theorem overlaps_intersects (a b : LatLngBounds) :
  overlaps a b = Ok true -> intersects a b = Ok true.
Proof.
  intros H.
  destruct (_southWest a) as [sw |] eqn:H1, (_northEast a) as [ne |] eqn:H2,
           (_southWest b) as [sw2 |] eqn:H3, (_northEast b) as [ne2 |] eqn:H4;
    try (exfalso; revert H; unfold overlaps, and_then, cmp, gt, lt;
         rewrite H1, H2, H3, H4; simpl;
         repeat match goal with |- context [SFltb ?x ?y] => destruct (SFltb x y); simpl end;
         discriminate).
  rewrite (overlaps_run a b sw ne sw2 ne2 H1 H2 H3 H4) in H.
  rewrite (intersects_run a b sw ne sw2 ne2 H1 H2 H3 H4).
  injection H as H. apply andb_true_iff in H. destruct H as [Ha Hb].
  apply andb_true_iff in Ha, Hb. destruct Ha as [A1 A2], Hb as [B1 B2].
  rewrite (lt_le _ _ A1), (lt_le _ _ A2), (lt_le _ _ B1), (lt_le _ _ B2). reflexivity.
Qed.

Lemma overlaps_intersects_witness : intersects (rect 0 0 2 2) (rect 1 1 3 3) = Ok true.
Proof. apply (overlaps_intersects (rect 0 0 2 2) (rect 1 1 3 3)). reflexivity. Defined.

(** X4.  [contains] composes: a box that contains a second box contains
    every point and every box that the second one contains. *)
Theorem contains_transitive (a b : LatLngBounds) (obj : geo) :
  contains a (GBounds b) = Ok true -> contains b obj = Ok true -> contains a obj = Ok true.
Proof.
  intros Hab Hb.
  destruct (contains_bounds_inv a b Hab)
    as (sw & ne & sw2 & ne2 & H1 & H2 & H3 & H4 & L1 & L2 & L3 & L4).
  destruct obj as [p | c].
  - apply contains_inside. apply contains_inside in Hb.
    destruct Hb as (sw' & ne' & H3' & H4' & M1 & M2 & M3 & M4).
    rewrite H3 in H3'. injection H3' as <-. rewrite H4 in H4'. injection H4' as <-.
    exists sw, ne. repeat split; try assumption; eapply le_trans; eassumption.
  - destruct (contains_bounds_inv b c Hb)
      as (sw' & ne' & sw3 & ne3 & H3' & H4' & H5 & H6 & M1 & M2 & M3 & M4).
    rewrite H3 in H3'. injection H3' as <-. rewrite H4 in H4'. injection H4' as <-.
    apply (contains_bounds_intro a c sw ne sw3 ne3); try assumption;
      eapply le_trans; eassumption.
Qed.

Lemma contains_transitive_witness :
  contains (rect 0 0 9 9) (GPoint (point (Z2num 2) (Z2num 3))) = Ok true.
Proof.
  apply (contains_transitive (rect 0 0 9 9) (rect 1 1 5 5) (GPoint (point (Z2num 2) (Z2num 3))));
    reflexivity.
Defined.

(** X5.  A box that contains a box with ordered corners intersects it. *)
Theorem contains_intersects (b c : LatLngBounds) :
  good c -> contains b (GBounds c) = Ok true -> intersects b c = Ok true.
Proof.
  intros (sw' & ne' & H3' & H4' & _ & _ & [O1 O2]) H.
  destruct (contains_bounds_inv b c H)
    as (sw & ne & sw2 & ne2 & H1 & H2 & H3 & H4 & L1 & L2 & L3 & L4).
  rewrite H3 in H3'. injection H3' as <-. rewrite H4 in H4'. injection H4' as <-.
  rewrite (intersects_run b c sw ne sw2 ne2 H1 H2 H3 H4).
  rewrite (le_trans _ _ _ L1 O1), (le_trans _ _ _ O1 L2),
    (le_trans _ _ _ L3 O2), (le_trans _ _ _ O2 L4). reflexivity.
Qed.

Lemma contains_intersects_witness : intersects (rect 0 0 9 9) (rect 1 1 5 5) = Ok true.
Proof.
  apply (contains_intersects (rect 0 0 9 9) (rect 1 1 5 5)); [| reflexivity].
  eexists _, _. split; [reflexivity |]. split; [reflexivity |]. repeat split; reflexivity.
Defined.

(** X6.  [LatLng.prototype.equals] gives the same answer when the two
    points change places, and a point equals itself, within a margin
    that is not negative, exactly when its two coordinates are finite:
    a point with an infinite coordinate does not equal itself. *)
Theorem equals_symmetric_reflexive (p q : LatLng) (maxMargin : option num) :
  equals p q maxMargin = equals q p maxMargin
  /\ equals p p maxMargin
     = finite (lat p) && finite (lng p) && le pzero (default (dec 1 9) maxMargin).
Proof.
  unfold equals. split.
  - rewrite (abs_sub_sym (lat p) (lat q)), (abs_sub_sym (lng p) (lng q)). reflexivity.
  - rewrite !abs_sub_diag. destruct (finite (lat p)), (finite (lng p)); reflexivity.
Qed.

(** *** The rhumb line *)

(** X7.  [rhumbDestinationPoint] throws nothing, whatever the point, the
    bearing, the distance and the functions of [Math]: it returns
    [null], or a point neither coordinate of which is NaN. *)
Theorem rhumbDestinationPoint_null_or_valid (E : Engine) (p : LatLng) (brng dist : num) :
  rhumbDestinationPoint E p brng dist = Ok None
  \/ exists q, rhumbDestinationPoint E p brng dist = Ok (Some q) /\ valid q.
Proof.
  unfold rhumbDestinationPoint. cbv zeta.
  match goal with |- context [if isNaN ?a || isNaN ?b then _ else _] =>
    destruct (isNaN a) eqn:Ha; [left; reflexivity |];
    destruct (isNaN b) eqn:Hb; [left; reflexivity |];
    right; cbn [orb];
    rewrite (new_LatLng_number E _ _ (toDeg_number _ Ha) (toDeg_number _ Hb))
  end.
  eexists. split; [reflexivity |]. split; cbn [lat lng]; apply toDeg_number; assumption.
Qed.

(** *** The cell of a point *)

(** X8.  [getCellCoords_] throws nothing and changes nothing.  The
    column it returns is that of the last line of [lngGrid_] before the
    first one that is not strictly below the longitude of the point: the
    lines up to it are strictly below, the next one is not (or there is
    none), and it is -1 when the first line is not below already; the
    same holds of the row and the latitude. *)
Theorem getCellCoords__brackets (p : LatLng) (w : World) :
  exists x y,
    getCellCoords_ p w = (Ok (x, y), w)
    /\ -1 <= x < Z.of_nat (length (lngGrid_ (routeBoxer w)))
    /\ -1 <= y < Z.of_nat (length (latGrid_ (routeBoxer w)))
    /\ (forall j, 0 <= j <= x -> lt_undef (index (lngGrid_ (routeBoxer w)) j) (lng p) = true)
    /\ lt_undef (index (lngGrid_ (routeBoxer w)) (x + 1)) (lng p) = false
    /\ (forall j, 0 <= j <= y -> lt_undef (index (latGrid_ (routeBoxer w)) j) (lat p) = true)
    /\ lt_undef (index (latGrid_ (routeBoxer w)) (y + 1)) (lat p) = false.
Proof.
  rewrite getCellCoords__run.
  destruct (count_below_index (lngGrid_ (routeBoxer w)) (lng p)) as (X1 & X2 & X3).
  destruct (count_below_index (latGrid_ (routeBoxer w)) (lat p)) as (Y1 & Y2 & Y3).
  eexists _, _. split; [reflexivity |].
  split; [lia |]. split; [lia |]. split; [intros j Hj; apply X2; lia |].
  split; [replace (_ - 1 + 1) with (count_below (lngGrid_ (routeBoxer w)) (lng p) 0) by lia;
          exact X3 |].
  split; [intros j Hj; apply Y2; lia |].
  replace (_ - 1 + 1) with (count_below (latGrid_ (routeBoxer w)) (lat p) 0) by lia.
  exact Y3.
Qed.

(** X9.  The search from a hint finds the cell of the point.  When the
    lines of the grid ascend strictly and reach beyond a box that holds
    the point, and the hint is a cell that holds the hint point,
    [getGridCoordsFromHint_] returns a cell that holds the point, between
    two lines that a further line follows (the first pair of lines can
    be the one, the last pair cannot); it throws nothing and changes
    nothing. *)
Theorem getGridCoordsFromHint__finds_cell (rb : LatLngBounds) (sw ne p hp : LatLng)
    (h : Z * Z) (w : World) :
  ascending (latGrid_ (routeBoxer w)) = true ->
  ascending (lngGrid_ (routeBoxer w)) = true ->
  _southWest rb = Some sw -> _northEast rb = Some ne ->
  reaches (latGrid_ (routeBoxer w)) (lat sw) (lat ne) ->
  reaches (lngGrid_ (routeBoxer w)) (lng sw) (lng ne) ->
  contains rb (GPoint p) = Ok true ->
  in_cell (latGrid_ (routeBoxer w)) (lngGrid_ (routeBoxer w)) h hp ->
  exists c, getGridCoordsFromHint_ p hp h w = (Ok c, w)
            /\ in_cell (latGrid_ (routeBoxer w)) (lngGrid_ (routeBoxer w)) c p.
Proof.
  intros A1 A2 Hsw Hne R1 R2 Hp Hh. apply contains_inside in Hp.
  eexists. split; [apply getGridCoordsFromHint__run |].
  pose proof (getGridCoordsFromHint__located _ _ rb sw ne A1 A2 Hsw Hne R1 R2 p hp h w
                _ w (conj eq_refl eq_refl) Hp Hh (getGridCoordsFromHint__run p hp h w)) as H.
  tauto.
Qed.

Lemma getGridCoordsFromHint__finds_cell_witness :
  exists c, getGridCoordsFromHint_ (point (dec 35 1) (dec 25 1)) (point (dec 15 1) (dec 15 1))
              (1, 1) (blank 6 6) = (Ok c, blank 6 6)
            /\ in_cell (latGrid_ (routeBoxer (blank 6 6))) (lngGrid_ (routeBoxer (blank 6 6)))
                 c (point (dec 35 1) (dec 25 1)).
Proof.
  apply (getGridCoordsFromHint__finds_cell (rect 1 1 4 4) (point (Z2num 1) (Z2num 1))
           (point (Z2num 4) (Z2num 4))).
  - reflexivity.
  - reflexivity.
  - reflexivity.
  - reflexivity.
  - split; [simpl; lia |]. split; [repeat constructor |].
    split; eexists; (split; [reflexivity | reflexivity]).
  - split; [simpl; lia |]. split; [repeat constructor |].
    split; eexists; (split; [reflexivity | reflexivity]).
  - reflexivity.
  - split; (split; [simpl; lia |]; split; [simpl; lia |]; eexists _, _;
            split; [reflexivity |]; split; [reflexivity |]; split; reflexivity).
Defined.

(** *** Marks *)

(** X10.  On a grid of [n] columns, [markCell_] on the cell (x, y)
    returns when the column x and its two neighbours exist, that is when
    [1 <= x] and [x + 1 < n], and throws a TypeError otherwise; the row y
    plays no part, since an assignment beyond the end of an array extends
    it. *)
Theorem markCell__outcome (n : nat) (x y : Z) (w : World) :
  columns n w ->
  (markCell_ (x, y) w).1
  = if (1 <=? x) && (x + 1 <? Z.of_nat n) then Ok tt else Throw TypeError.
Proof.
  intros Hc. destruct (Z.leb_spec 1 x) as [H1 | H1]; simpl.
  - destruct (Z.ltb_spec (x + 1) (Z.of_nat n)) as [H2 | H2].
    + destruct (markCell__returns n x y w Hc H1 H2) as [w' ->]. reflexivity.
    + apply (markCell__throws n x y w Hc). right. exact H2.
  - apply (markCell__throws n x y w Hc). left. exact H1.
Qed.

Lemma markCell__outcome_witness :
  (markCell_ (1, 1) (blank 3 3)).1 = Ok tt
  /\ (markCell_ (1, 100) (blank 3 3)).1 = Ok tt
  /\ (markCell_ (0, 1) (blank 3 3)).1 = Throw TypeError
  /\ (markCell_ (2, 1) (blank 3 3)).1 = Throw TypeError.
Proof.
  assert (columns 3 (blank 3 3)) as H by (eexists; split; reflexivity).
  split; [exact (markCell__outcome 3 1 1 (blank 3 3) H) |].
  split; [exact (markCell__outcome 3 1 100 (blank 3 3) H) |].
  split; [exact (markCell__outcome 3 0 1 (blank 3 3) H) |].
  exact (markCell__outcome 3 2 1 (blank 3 3) H).
Defined.

(** X11.  When [markCell_] returns, the cells marked are those that
    were, and the cell with its eight neighbours: no mark is removed and
    none is set elsewhere. *)
Theorem markCell__marks_block (c : Z * Z) (w : World) :
  (markCell_ c w).1 = Ok tt ->
  forall c', marked (grid_ (routeBoxer (markCell_ c w).2)) c'
             <-> marked (grid_ (routeBoxer w)) c' \/ around c c'.
Proof.
  intros H c'. apply run_pair in H. split.
  - intros Hm. exact (markCell__only c w tt _ c' H Hm).
  - intros [Hm | Ha].
    + exact (markCell__keeps c c' w tt _ Hm H).
    + exact (markCell__block c w tt _ H c' Ha).
Qed.

Lemma markCell__marks_block_witness :
  marked (grid_ (routeBoxer (markCell_ (1, 1) (blank 3 3)).2)) (2, 0)
  <-> marked (grid_ (routeBoxer (blank 3 3))) (2, 0) \/ around (1, 1) (2, 0).
Proof.
  apply (markCell__marks_block (1, 1) (blank 3 3)). reflexivity.
Defined.

(** X12.  When [fillInGridSquares_] returns, the cells marked are those
    that were, and the cells of row y from [startx] to [endx], in
    whichever order the two are given, each with its eight neighbours. *)
Theorem fillInGridSquares__marks_row (startx endx y : Z) (w : World) :
  (fillInGridSquares_ startx endx y w).1 = Ok tt ->
  forall c, marked (grid_ (routeBoxer (fillInGridSquares_ startx endx y w).2)) c
            <-> marked (grid_ (routeBoxer w)) c
                \/ exists x, Z.min startx endx <= x <= Z.max startx endx /\ around (x, y) c.
Proof.
  intros H c. apply run_pair in H.
  destruct (fillInGridSquares__marks startx endx y w tt _ H) as (H1 & H2 & H3). split.
  - apply H3.
  - intros [Hm | (x & Hx & Ha)]; [apply H2, Hm | exact (H1 x c Hx Ha)].
Qed.

Lemma fillInGridSquares__marks_row_witness :
  marked (grid_ (routeBoxer (fillInGridSquares_ 3 1 1 (blank 5 3)).2)) (4, 2)
  <-> marked (grid_ (routeBoxer (blank 5 3))) (4, 2)
      \/ exists x, Z.min 3 1 <= x <= Z.max 3 1 /\ around (x, 1) (4, 2).
Proof.
  apply (fillInGridSquares__marks_row 3 1 1 (blank 5 3)). vm_compute. reflexivity.
Defined.

(** X13.  When [getGridIntersects_] returns, the cell of the end point
    is marked and no mark has been removed, provided the row of the end
    cell is not on the wrong side of the row of the start cell (at or
    above it when the end point is north of the start point, at or below
    it otherwise). *)
Theorem getGridIntersects__marks_end_cell (E : Engine) (s e : LatLng) (sxy exy : Z * Z)
    (w : World) :
  (if gt (lat e) (lat s) then snd sxy <= snd exy else snd exy <= snd sxy) ->
  (getGridIntersects_ E s e sxy exy w).1 = Ok tt ->
  marked (grid_ (routeBoxer (getGridIntersects_ E s e sxy exy w).2)) exy
  /\ forall c, marked (grid_ (routeBoxer w)) c ->
               marked (grid_ (routeBoxer (getGridIntersects_ E s e sxy exy w).2)) c.
Proof.
  intros Hdir H. apply run_pair in H. split.
  - exact (getGridIntersects__marks E s e sxy exy w tt _ Hdir H).
  - intros c Hc. exact (getGridIntersects__keeps E s e sxy exy c w tt _ Hc H).
Qed.

Lemma getGridIntersects__marks_end_cell_witness :
  marked (grid_ (routeBoxer (getGridIntersects_ RefMath.engine
                               (point (dec 15 1) (dec 15 1)) (point (dec 35 1) (dec 25 1))
                               (1, 1) (2, 3) (blank 6 6)).2)) (2, 3)
  /\ forall c, marked (grid_ (routeBoxer (blank 6 6))) c ->
               marked (grid_ (routeBoxer (getGridIntersects_ RefMath.engine
                                            (point (dec 15 1) (dec 15 1))
                                            (point (dec 35 1) (dec 25 1))
                                            (1, 1) (2, 3) (blank 6 6)).2)) c.
Proof.
  apply (getGridIntersects__marks_end_cell RefMath.engine (point (dec 15 1) (dec 15 1))
           (point (dec 35 1) (dec 25 1)) (1, 1) (2, 3) (blank 6 6)).
  - vm_compute. intros H. discriminate H.
  - vm_compute. reflexivity.
Defined.

(** *** The grid *)

(** X14.  When [buildGrid_] returns, starting from empty lists of lines,
    no line is NaN, the second line of each list is at or below every
    vertex and the last but one at or above every vertex, so that one
    line more lies beyond the route on each side; and the matrix of
    marks has one column for each line of [lngGrid_], each column an
    array without marks whose length is the number of lines of
    [latGrid_]. *)
Theorem buildGrid__reaches_beyond_route (E : Engine) (fuel : nat) (vertices : list LatLng)
    (range : num) (w : World) :
  latGrid_ (routeBoxer w) = [] -> lngGrid_ (routeBoxer w) = [] ->
  (buildGrid_ E fuel vertices range w).1 = Ok tt ->
  let r := routeBoxer (buildGrid_ E fuel vertices range w).2 in
  Forall (fun a => isNaN a = false) (latGrid_ r)
  /\ Forall (fun a => isNaN a = false) (lngGrid_ r)
  /\ (exists s n w_ e,
         index (latGrid_ r) 1 = Some s
         /\ index (latGrid_ r) (Z.of_nat (length (latGrid_ r)) - 2) = Some n
         /\ index (lngGrid_ r) 1 = Some w_
         /\ index (lngGrid_ r) (Z.of_nat (length (lngGrid_ r)) - 2) = Some e
         /\ forall v, v ∈ vertices -> within ((s, w_), (n, e)) v)
  /\ grid_ r = Some (replicate (length (lngGrid_ r)) (new_Array (length (latGrid_ r)))).
Proof.
  intros Hlat Hlng H. apply run_pair in H. cbv zeta.
  destruct (buildGrid__reaches E fuel vertices range w tt _ Hlat Hlng H)
    as (rb & sw & ne & Hrb & Hsw & Hne & Vs & Vn & Rlat & Rlng & Hg).
  destruct (extend_all_valid E vertices _ _ _ _ Hrb Hsw Hne Vs Vn) as [Hv _].
  destruct (extend_all_inside E vertices _ _ Hv (or_intror eq_refl) Hrb) as (Hin & _).
  destruct Rlat as (_ & N1 & (s & Is & Ls) & (n & In & Ln)).
  destruct Rlng as (_ & N2 & (w_ & Iw & Lw) & (e & Ie & Le)).
  split; [exact N1 |]. split; [exact N2 |]. split; [| exact Hg].
  exists s, n, w_, e. repeat (split; [assumption |]).
  intros v Hvin. destruct (Hin v Hvin) as (sw' & ne' & Hsw' & Hne' & M1 & M2 & M3 & M4).
  rewrite Hsw in Hsw'. injection Hsw' as <-. rewrite Hne in Hne'. injection Hne' as <-.
  repeat split; simpl; eapply le_trans; eassumption.
Qed.

Lemma buildGrid__reaches_beyond_route_witness :
  let r := routeBoxer (buildGrid_ RefMath.engine 100 verticesA (Z2num 5) (world_of routeA)).2 in
  Forall (fun a => isNaN a = false) (latGrid_ r)
  /\ Forall (fun a => isNaN a = false) (lngGrid_ r)
  /\ (exists s n w_ e,
         index (latGrid_ r) 1 = Some s
         /\ index (latGrid_ r) (Z.of_nat (length (latGrid_ r)) - 2) = Some n
         /\ index (lngGrid_ r) 1 = Some w_
         /\ index (lngGrid_ r) (Z.of_nat (length (lngGrid_ r)) - 2) = Some e
         /\ forall v, v ∈ verticesA -> within ((s, w_), (n, e)) v)
  /\ grid_ r = Some (replicate (length (lngGrid_ r)) (new_Array (length (latGrid_ r)))).
Proof.
  destruct exampleA_steps as (w0 & _ & _ & H0 & _).
  apply (buildGrid__reaches_beyond_route RefMath.engine 100 verticesA (Z2num 5)
           (world_of routeA)).
  - reflexivity.
  - reflexivity.
  - rewrite H0. reflexivity.
Defined.

(** X15.  After the first part of [box] (the fields reset, the grid
    built and the route rasterized by [findIntersectingCells_]), if the
    lines built ascend strictly, every vertex of the path lies in a cell
    that is marked. *)
Theorem rasterize_marks_vertex_cells (E : Engine) (fuel : nat) (path : list LatLng)
    (range : num) (w : World) :
  (rasterize E fuel path range w).1 = Ok tt ->
  let r := routeBoxer (rasterize E fuel path range w).2 in
  ascending (latGrid_ r) = true -> ascending (lngGrid_ r) = true ->
  forall v, v ∈ path ->
            exists c, in_cell (latGrid_ r) (lngGrid_ r) c v /\ marked (grid_ r) c.
Proof.
  intros H r A1 A2. apply run_pair in H.
  exact (proj2 (proj2 (rasterize_located E fuel path range w tt _ H A1 A2))).
Qed.

Lemma rasterize_marks_vertex_cells_witness :
  exists c, in_cell (latGrid_ (routeBoxer gridA)) (lngGrid_ (routeBoxer gridA)) c
              (point (dec 504 1) (dec 306 1))
            /\ marked (grid_ (routeBoxer gridA)) c.
Proof.
  destruct exampleA_steps as (_ & w1 & _ & _ & H1 & _ & _ & [A1 A2] & _).
  apply (rasterize_marks_vertex_cells RefMath.engine 100 verticesA (Z2num 5)
           (world_of routeA)).
  - rewrite H1. reflexivity.
  - rewrite H1. exact A1.
  - rewrite H1. exact A2.
  - right. left.
Defined.

(** *** The merge *)

(** X16.  [mergeBoxesX_] and [mergeBoxesY_] lose no cell: a cell spanned
    by a box of the list before, or by the box that is merged, is
    spanned by a box of the list after, whether the box was appended or
    an earlier box was widened to take it in. *)
Theorem mergeBoxes__keep_spans (E : Engine) (lats lngs : list num)
    (cb : option LatLngBounds) (w : World) (c : Z * Z) :
  boxes_good w -> (forall b, cb = Some b -> good b) ->
  ((mergeBoxesX_ E cb w).1 = Ok tt ->
   spanned lats lngs (boxesX_ (routeBoxer w)) c
   \/ (exists b, cb = Some b /\ spans lats lngs b c) ->
   spanned lats lngs (boxesX_ (routeBoxer (mergeBoxesX_ E cb w).2)) c)
  /\ ((mergeBoxesY_ E cb w).1 = Ok tt ->
      spanned lats lngs (boxesY_ (routeBoxer w)) c
      \/ (exists b, cb = Some b /\ spans lats lngs b c) ->
      spanned lats lngs (boxesY_ (routeBoxer (mergeBoxesY_ E cb w).2)) c).
Proof.
  intros Good Hcb. split; intros H Hs; apply run_pair in H.
  - exact (mergeBoxesX__spans E lats lngs cb w tt _ c Good Hcb H Hs).
  - exact (mergeBoxesY__spans E lats lngs cb w tt _ c Good Hcb H Hs).
Qed.

Lemma mergeBoxes__keep_spans_witness :
  spanned (lines 3) (lines 3)
    (boxesX_ (routeBoxer (mergeBoxesX_ RefMath.engine (Some (rect 0 0 1 1)) (blank 3 3)).2))
    (0, 0).
Proof.
  apply (proj1 (mergeBoxes__keep_spans RefMath.engine (lines 3) (lines 3)
                  (Some (rect 0 0 1 1)) (blank 3 3) (0, 0)
                  (conj (Forall_nil_2 _) (Forall_nil_2 _))
                  (fun b Hb =>
                     eq_ind (rect 0 0 1 1)
                       good
                       (ex_intro _ (point (Z2num 0) (Z2num 0))
                          (ex_intro _ (point (Z2num 1) (Z2num 1))
                             (conj eq_refl (conj eq_refl
                                (conj (conj eq_refl eq_refl)
                                   (conj (conj eq_refl eq_refl) (conj eq_refl eq_refl)))))))
                       b (f_equal (default (rect 0 0 1 1)) Hb)))).
  - reflexivity.
  - right. exists (rect 0 0 1 1). split; [reflexivity |].
    eexists _, _, _, _, _, _. repeat split; reflexivity.
Defined.

(** X17.  When [mergeIntersectingCells_] returns on a grid whose lines
    ascend strictly, every marked cell within the bounds of its loops
    (a column below [grid_.length], a row below [grid_[0].length]) is
    spanned by a box of [boxesX_] and by a box of [boxesY_], from its two
    latitude lines to its two longitude lines or beyond: each of the two
    lists covers all the marked cells the merge looked at. *)
Theorem mergeIntersectingCells__spans_marked_cells (E : Engine) (w : World) :
  ascending (latGrid_ (routeBoxer w)) = true ->
  ascending (lngGrid_ (routeBoxer w)) = true ->
  boxes_good w ->
  (mergeIntersectingCells_ E w).1 = Ok tt ->
  forall t, 0 <= fst t < width w -> 0 <= snd t < height w ->
            marked (grid_ (routeBoxer w)) t ->
            spanned (latGrid_ (routeBoxer w)) (lngGrid_ (routeBoxer w))
              (boxesX_ (routeBoxer (mergeIntersectingCells_ E w).2)) t
            /\ spanned (latGrid_ (routeBoxer w)) (lngGrid_ (routeBoxer w))
                 (boxesY_ (routeBoxer (mergeIntersectingCells_ E w).2)) t.
Proof.
  intros A1 A2 Good H t Hx Hy Hm. apply run_pair in H.
  unfold width in Hx. unfold height in Hy.
  destruct (grid_ (routeBoxer w)) as [[| c0 cols] |] eqn:Hg; try (simpl in Hx; lia).
  rewrite <- Hg in Hm.
  exact (mergeIntersectingCells__spans E w tt _ (c0 :: cols) c0 A1 A2 Good Hg eq_refl H
           t Hx Hy Hm).
Qed.

Lemma mergeIntersectingCells__spans_marked_cells_witness :
  spanned (latGrid_ (routeBoxer gridA)) (lngGrid_ (routeBoxer gridA))
    (boxesX_ (routeBoxer (mergeIntersectingCells_ RefMath.engine gridA).2)) (1, 6)
  /\ spanned (latGrid_ (routeBoxer gridA)) (lngGrid_ (routeBoxer gridA))
       (boxesY_ (routeBoxer (mergeIntersectingCells_ RefMath.engine gridA).2)) (1, 6).
Proof.
  destruct exampleA_steps
    as (_ & w1 & w2 & _ & H1 & H2 & _ & [A1 A2] & _ & Good & Hm & Hw & Hh).
  assert (gridA = w1) as Hg by (unfold gridA; rewrite H1; reflexivity).
  apply (mergeIntersectingCells__spans_marked_cells RefMath.engine gridA);
    rewrite Hg; try assumption.
  - rewrite H2. reflexivity.
  - rewrite Hw. simpl. lia.
  - rewrite Hh. simpl. lia.
Defined.

(** X18.  The three steps of [box] write apart, whether they return or
    throw: [buildGrid_] leaves the store and the two lists of boxes as
    they were, [findIntersectingCells_] the store, the lines of the grid
    and the two lists, and [mergeIntersectingCells_] the store, the
    matrix of marks and the lines of the grid. *)
Theorem steps_write_apart (E : Engine) (fuel : nat) (vertices : list LatLng) (range : num)
    (w : World) :
  (store (buildGrid_ E fuel vertices range w).2, both_lists (buildGrid_ E fuel vertices range w).2)
  = (store w, both_lists w)
  /\ (store (findIntersectingCells_ E vertices w).2,
      grid_lines (findIntersectingCells_ E vertices w).2,
      both_lists (findIntersectingCells_ E vertices w).2)
     = (store w, grid_lines w, both_lists w)
  /\ (store (mergeIntersectingCells_ E w).2, grid_state (mergeIntersectingCells_ E w).2)
     = (store w, grid_state w).
Proof.
  split; [| split].
  - apply (buildGrid__frame E (fun w => (store w, both_lists w)));
      intros ? ? ?; reflexivity.
  - apply (findIntersectingCells__frame E (fun w => (store w, grid_lines w, both_lists w)));
      intros ? ? ?; reflexivity.
  - apply (mergeIntersectingCells__frame E (fun w => (store w, grid_state w)));
      intros ? ? ?; reflexivity.
Qed.

(** *** The whole computation *)

(** X19.  Every point of the route lies in a box that [mkBox] returns,
    edges included, whatever the functions of [Math] compute, provided
    the lines of the grid that the call built ascend strictly. *)
Theorem mkBox_covers_vertices (E : Engine) (fuel : nat) (l : loc) (elems : list loc)
    (dis : option num) (w : World) (boxes : list corners) :
  arrays (store w) !! l = Some elems -> (2 <= length elems)%nat ->
  (mkBox E fuel (Some l) dis w).1 = Ok boxes ->
  ascending (latGrid_ (routeBoxer (mkBox E fuel (Some l) dis w).2)) = true ->
  ascending (lngGrid_ (routeBoxer (mkBox E fuel (Some l) dis w).2)) = true ->
  forall pl p, pl ∈ elems -> constructs E (store w) pl p ->
               exists c, c ∈ boxes /\ within c p.
Proof.
  intros Hl Hlen H Alat Alng pl p Hpl Hp. apply run_pair in H.
  destruct (mkBox_steps E _ _ _ _ _ _ _ Hl Hlen H) as (lls & bounds & Hlls & Hb & Hc).
  assert (p ∈ lls) as Hin.
  { clear -Hlls Hpl Hp. induction Hlls as [| pl' p' elems lls Hc _ IH]; [inversion Hpl |].
    apply elem_of_cons in Hpl. destruct Hpl as [-> | Hpl].
    - rewrite (constructs_functional E _ _ _ _ Hp Hc). left.
    - right. apply IH, Hpl. }
  destruct (box_spans E _ _ _ _ _ _ Hb Alat Alng p Hin) as (b & Hbin & Hins).
  clear -Hc Hbin Hins. induction Hc as [| b' c bounds boxes Hbc _ IH]; [inversion Hbin |].
  apply elem_of_cons in Hbin. destruct Hbin as [-> | Hbin].
  - exists c. split; [left | eapply to_corners_within; eassumption].
  - destruct (IH Hbin) as (c' & Hc' & Hw). exists c'. split; [right; exact Hc' | exact Hw].
Qed.

Lemma mkBox_covers_vertices_witness :
  exists c, c ∈ expectA /\ within c (point (dec 503 1) (dec 307 1)).
Proof.
  destruct exampleA_steps as (_ & _ & w2 & _ & _ & _ & H & _ & [A1 A2] & _).
  apply (mkBox_covers_vertices RefMath.engine 100 1%positive [2; 3; 4]%positive
           (Some (Z2num 5)) (world_of routeA) expectA
           eq_refl) with (pl := 4%positive).
  - simpl; lia.
  - rewrite H. reflexivity.
  - rewrite H. exact A1.
  - rewrite H. exact A2.
  - right. right. left.
  - eexists. split; reflexivity.
Defined.

(** X20.  The edges of every box that [mkBox] returns are lines of the
    grid that the call built, the very numbers: both latitudes are
    elements of [latGrid_] and both longitudes elements of [lngGrid_],
    so that the merge can compare edges with [==]. *)
Theorem mkBox_edges_are_grid_lines (E : Engine) (fuel : nat) (pts : option loc)
    (dis : option num) (w : World) (boxes : list corners) :
  (mkBox E fuel pts dis w).1 = Ok boxes ->
  Forall (edges_on_lines (latGrid_ (routeBoxer (mkBox E fuel pts dis w).2))
            (lngGrid_ (routeBoxer (mkBox E fuel pts dis w).2))) boxes.
Proof.
  intros H. apply run_pair in H. revert H.
  generalize (mkBox E fuel pts dis w).2. intros w' H. unfold mkBox in H.
  destruct pts as [l |]; [| exec H; constructor].
  apply bind_inv in H. destruct H as (a & w1 & H1 & H). exec H1.
  destruct (arrays (store w) !! l) as [elems |]; [| exec H; constructor].
  destruct (2 <=? length elems)%nat; [| exec H; constructor].
  apply bind_inv in H. destruct H as (lls & w2 & H2 & H).
  apply bind_inv in H. destruct H as (bounds & w3 & H3 & H).
  apply (box_on_lines E) in H3. apply mapM_lift_inv in H. destruct H as [H ->].
  induction H as [| b c bounds boxes Hbc _ IH]; [constructor |].
  inversion H3; subst.
  constructor; [eapply to_corners_on_lines; eassumption | apply IH; assumption].
Qed.

Lemma mkBox_edges_are_grid_lines_witness :
  Forall (edges_on_lines
            (latGrid_ (routeBoxer (mkBox RefMath.engine 100 (Some 1%positive) (Some (Z2num 5))
                                     (world_of routeA)).2))
            (lngGrid_ (routeBoxer (mkBox RefMath.engine 100 (Some 1%positive) (Some (Z2num 5))
                                     (world_of routeA)).2))) expectA.
Proof.
  destruct exampleA_steps as (_ & _ & w2 & _ & _ & _ & H & _).
  apply (mkBox_edges_are_grid_lines RefMath.engine 100 (Some 1%positive) (Some (Z2num 5))
           (world_of routeA) expectA).
  exact (f_equal fst H).
Defined.

(** X21.  With the distance NaN, [mkBox] on two points or more, all with
    finite coordinates, throws a TypeError: [rhumbDestinationPoint]
    returns [null] for the first line of the grid, of which [buildGrid_]
    reads the latitude. *)
Theorem mkBox_distance_NaN (E : Engine) (fuel : nat) (l : loc) (elems : list loc)
    (lls : list LatLng) (w : World) :
  arrays (store w) !! l = Some elems -> (2 <= length elems)%nat ->
  Forall2 (constructs E (store w)) elems lls -> Forall finite_point lls ->
  (mkBox E fuel (Some l) (Some NaN) w).1 = Throw TypeError.
Proof.
  intros Hl Hlen Hlls Hfin. unfold mkBox.
  change (default (Z2num 20) (Some NaN)) with NaN. cbv zeta.
  rewrite bind_run. unfold load. cbv beta iota. rewrite Hl.
  destruct (Nat.leb_spec 2 (length elems)) as [_ | H]; [| lia].
  rewrite bind_run, (mapM_to_LatLng_ok E elems lls w Hlls). cbv beta iota.
  rewrite bind_run.
  assert (lls <> []) as Hne.
  { intros ->. inversion Hlls; subst. simpl in Hlen. lia. }
  pose proof (box_NaN E fuel lls w Hne Hfin) as H.
  destruct (box E fuel lls NaN w) as [o w1]. simpl in H. subst o. reflexivity.
Qed.

Lemma mkBox_distance_NaN_witness :
  (mkBox RefMath.engine 100 (Some 1%positive) (Some NaN) (world_of routeA)).1
  = Throw TypeError.
Proof.
  apply (mkBox_distance_NaN RefMath.engine 100 1%positive [2; 3; 4]%positive verticesA
           (world_of routeA)).
  - reflexivity.
  - simpl; lia.
  - repeat constructor; eexists; (split; [reflexivity | reflexivity]).
  - repeat constructor.
Defined.

(** X22.  A route along a meridian gets no boxes.  When all the points
    have the same longitude, one that halving its double gives back (as
    every longitude does of which the double does not overflow), [mkBox]
    never returns a result, whatever the distance and the functions of
    [Math]; and when [buildGrid_], which [box] starts on the singleton
    with its fields reset, returns, the call throws a TypeError. *)
Theorem mkBox_along_meridian (E : Engine) (fuel : nat) (l : loc) (elems : list loc)
    (lls : list LatLng) (dis : option num) (w : World) (lon : num) (boxes : list corners) :
  arrays (store w) !! l = Some elems -> (2 <= length elems)%nat ->
  Forall2 (constructs E (store w)) elems lls ->
  Forall (fun p => lng p = lon) lls ->
  div (add lon lon) (Z2num 2) = lon ->
  (mkBox E fuel (Some l) dis w).1 <> Ok boxes
  /\ ((buildGrid_ E fuel lls (default (Z2num 20) dis)
         {| store := store w; routeBoxer := RouteBoxer_init |}).1 = Ok tt ->
      (mkBox E fuel (Some l) dis w).1 = Throw TypeError).
Proof.
  intros Hl Hlen Hlls Hlon Hmid. unfold mkBox. cbv zeta.
  rewrite bind_run. unfold load. cbv beta iota. rewrite Hl.
  destruct (Nat.leb_spec 2 (length elems)) as [_ | H]; [| lia].
  rewrite bind_run, (mapM_to_LatLng_ok E elems lls w Hlls). cbv beta iota.
  rewrite bind_run.
  assert (lls <> []) as Hne.
  { intros ->. inversion Hlls; subst. simpl in Hlen. lia. }
  split.
  - destruct (box E fuel lls (default (Z2num 20) dis) w) as [[bounds | e |] w1] eqn:Hb;
      [| simpl; discriminate | simpl; discriminate].
    exfalso. exact (box_meridian E fuel lls _ lon w bounds w1 Hne Hlon Hmid Hb).
  - intros Hg.
    destruct (buildGrid_ E fuel lls (default (Z2num 20) dis)
                {| store := store w; routeBoxer := RouteBoxer_init |}) as [o w1] eqn:Hb.
    simpl in Hg. subst o.
    pose proof (box_meridian_throws E fuel lls _ lon w w1 Hne Hlon Hmid Hb) as Ht.
    destruct (box E fuel lls (default (Z2num 20) dis) w) as [o w2]. simpl in Ht. subst o.
    reflexivity.
Qed.

Lemma mkBox_along_meridian_witness :
  (mkBox RefMath.engine 100 (Some 1%positive) (Some (Z2num 5)) (world_of routeM)).1 <> Ok []
  /\ (mkBox RefMath.engine 100 (Some 1%positive) (Some (Z2num 5)) (world_of routeM)).1
     = Throw TypeError.
Proof.
  destruct (mkBox_along_meridian RefMath.engine 100 1%positive [2; 3]%positive
              [point (Z2num 50) (Z2num 30); point (Z2num 51) (Z2num 30)]
              (Some (Z2num 5)) (world_of routeM) (Z2num 30) []) as [H1 H2].
  - reflexivity.
  - simpl; lia.
  - repeat constructor; eexists; (split; [reflexivity | reflexivity]).
  - repeat constructor.
  - vm_compute. reflexivity.
  - split; [exact H1 | apply H2]. vm_compute. reflexivity.
Defined.
